(** * Course-graph search of the path planner (path_planner/src/course/search.cpp)

    A shallow embedding of [Search]: the cost model, the Dijkstra-style search
    over transition-indexed nodes and the assembly of the pose sequence.

    Conventions of the embedding.
    - A [double] is an exact rational ([Q]); a cost that may be
      [std::numeric_limits<double>::infinity()] is a [Cost].  Rounding is not
      modelled: sums are exact, so equalities between costs are stated with
      [==] on [Q].
    - Pointers are addresses made explicit.  A [Segment*] is the index of the
      segment in [generator_.getSegments()] ([None] is the null pointer); a
      [Transition*] is the place of the transition object inside a segment's
      adjacency vector; a [Node*] is the key of the node inside [nodes].
    - Dereferencing a null pointer, [at] on a missing key and [front]/[back]
      on an empty vector end the run with a [Fault]; loops whose termination
      depends on the data take fuel and end with [OutOfFuel] when it is
      used up.
    - Everything outside the file (Eigen, libm, the course generator, the
      grid map and the A* path finders) is a field of [Extern].
    - The frontier, a [std::set<Node*>] ordered by the cost of the nodes,
      is modelled twice.  As the sequence of its elements ordered by [comp]
      it answers as the set does while no node is relaxed that is in the
      frontier; that is the model of the first parts.  Since the loop does
      relax such nodes, and changes their key in place, the results on
      what a whole search returns are proved for any container that keeps
      the laws of [Frontier], in the part on [AnySet].
    - [unsigned] and [int] have 32 bits.  A division by zero gives 0 in
      [Q], where the program gets an infinity or a NaN; this concerns
      [extendWithStraightTurningSegment] for a direction of length zero,
      and no result depends on the value of that pose.
    - Logging (ROS_INFO, ROS_WARN, ROS_ERROR) has no effect on the state and
      is left out, except where an argument of the log is computed by the
      planner: the warning of [isSegmentForward] and the [signature] that
      [generatePathCandidate] logs. *)

From Stdlib Require Import QArith Qabs Qround Lqa Lia ZArith String.
From stdpp Require Import base option list gmap.

(** ** Numbers *)

Definition Qlt_bool (a b : Q) : bool := negb (Qle_bool b a).

(** A [double] holding a cost: finite, or [+infinity]. *)
Inductive Cost : Type :=
| Finite (q : Q)
| Infinity.

(** [a < b] on costs, as [operator<] on doubles. *)
Definition cost_lt (a b : Cost) : bool :=
  match a, b with
  | Finite x, Finite y => Qlt_bool x y
  | Finite _, Infinity => true
  | Infinity, _ => false
  end.

(** [a + q] for a finite [q]. *)
Definition cost_add (a : Cost) (q : Q) : Cost :=
  match a with
  | Finite x => Finite (x + q)
  | Infinity => Infinity
  end.

(** [a <= b] on costs, as a proposition. *)
Definition cost_le (a b : Cost) : Prop :=
  match a, b with
  | Finite x, Finite y => (x <= y)%Q
  | _, Infinity => True
  | Infinity, Finite _ => False
  end.

(** ** Geometry *)

Definition Vector2d : Type := Q * Q.

Definition vsub (a b : Vector2d) : Vector2d := ((a.1 - b.1)%Q, (a.2 - b.2)%Q).
Definition vadd (a b : Vector2d) : Vector2d := ((a.1 + b.1)%Q, (a.2 + b.2)%Q).
Definition vscale (v : Vector2d) (k : Q) : Vector2d := ((v.1 * k)%Q, (v.2 * k)%Q).
Definition vdiv (v : Vector2d) (k : Q) : Vector2d := ((v.1 / k)%Q, (v.2 / k)%Q).
Definition dot (a b : Vector2d) : Q := (a.1 * b.1 + a.2 * b.2)%Q.

Record Line : Type := {
  startPoint : Vector2d;
  endPoint : Vector2d
}.

Record PathPose : Type := {
  pos_ : Vector2d;
  theta_ : Q
}.

(** [path_geom::PathPose(x, y, theta)] *)
Definition mkPose (x y theta : Q) : PathPose :=
  {| pos_ := (x, y); theta_ := theta |}.

(** ** The course graph *)

Abbreviation SegmentPtr := (option nat) (only parsing).

(** Address of a transition object: index of the owning segment, whether it
    sits in [forward_transitions] (or [backward_transitions]), position. *)
Abbreviation TransitionPtr := (nat * bool * nat)%type (only parsing).

Record Transition : Type := {
  source : SegmentPtr;
  target : SegmentPtr;
  path : list Vector2d
}.

Record Segment : Type := {
  line : Line;
  forward_transitions : list Transition;
  backward_transitions : list Transition
}.

(** ** Search nodes *)

Abbreviation NodePtr := (nat * bool * nat)%type (only parsing).

Record Node : Type := {
  transition : option TransitionPtr;
  curve_forward : bool;
  next_segment : SegmentPtr;
  cost : Cost;
  prev : option NodePtr;
  next : option NodePtr
}.

(** Modelled from the spec: the declaration of [Node] is in search.h, which is
    not part of the sources at hand.  A fresh node has cost [+infinity] and no
    predecessor, successor, transition or resulting segment. *)
Definition Node_default : Node :=
  {| transition := None; curve_forward := true; next_segment := None;
     cost := Infinity; prev := None; next := None |}.

#[global] Instance Node_inhabited : Inhabited Node := populate Node_default.

Definition set_transition (n : Node) (t : option TransitionPtr) : Node :=
  {| transition := t; curve_forward := curve_forward n;
     next_segment := next_segment n; cost := cost n;
     prev := prev n; next := next n |}.
Definition set_curve_forward (n : Node) (b : bool) : Node :=
  {| transition := transition n; curve_forward := b;
     next_segment := next_segment n; cost := cost n;
     prev := prev n; next := next n |}.
Definition set_next_segment (n : Node) (p : SegmentPtr) : Node :=
  {| transition := transition n; curve_forward := curve_forward n;
     next_segment := p; cost := cost n;
     prev := prev n; next := next n |}.
Definition set_cost (n : Node) (c : Cost) : Node :=
  {| transition := transition n; curve_forward := curve_forward n;
     next_segment := next_segment n; cost := c;
     prev := prev n; next := next n |}.
Definition set_prev (n : Node) (p : option NodePtr) : Node :=
  {| transition := transition n; curve_forward := curve_forward n;
     next_segment := next_segment n; cost := cost n;
     prev := p; next := next n |}.
Definition set_next (n : Node) (p : option NodePtr) : Node :=
  {| transition := transition n; curve_forward := curve_forward n;
     next_segment := next_segment n; cost := cost n;
     prev := prev n; next := p |}.

(** ** The map and the grid path finders (external) *)

Record OccupancyGrid : Type := {
  info_width : nat;             (* uint32 *)
  info_height : nat;            (* uint32 *)
  info_resolution : Q;
  info_origin_position : Vector2d;
  info_origin_yaw : Q;          (* tf::getYaw(map.info.origin.orientation) *)
  data : list Z                 (* int8_t cells *)
}.

Record CollisionGridMap2d : Type := {
  gm_width : nat;
  gm_height : nat;
  gm_rotation : Q;
  gm_resolution : Q;
  gm_footprint : Q * Q * Q;
  gm_lower_threshold : Z;
  gm_upper_threshold : Z;
  gm_no_information : Z;
  gm_data : list Z;             (* uint8_t cells *)
  gm_origin : Vector2d
}.

Record Pose2d : Type := { p_x : Q; p_y : Q; p_theta : Q }.
Record NodeT : Type := { n_x : Q; n_y : Q; n_theta : Q }.

Inductive Algorithm : Type :=
| AStarPatsyForward
| AStarPatsyForwardTurning
| AStarPatsyReversed
| AStarPatsyReversedTurning.

(** What the file takes from its libraries and collaborators. *)
Record Extern : Type := {
  norm : Vector2d -> Q;                         (* Eigen: v.norm() *)
  atan2 : Q -> Q -> Q;                          (* std::atan2(y, x) *)
  cos : Q -> Q;
  sin : Q -> Q;
  M_PI : Q;
  arc_length : Transition -> Q;                 (* Transition::arc_length() *)
  nearestPointTo : Line -> Vector2d -> Vector2d;
  findClosestSegment : list Segment -> PathPose -> Q -> Q -> SegmentPtr;
  map_service_call : option OccupancyGrid;      (* None: the call failed *)
  point2cell : CollisionGridMap2d -> Q -> Q -> Q * Q;
  cell2pointSubPixel : CollisionGridMap2d -> Q -> Q -> Q * Q;
  algorithm_findPath :
    Algorithm -> list Segment -> OccupancyGrid -> CollisionGridMap2d ->
    Pose2d -> list NodeT
}.

(** ** The planner object *)

Record Search : Type := {
  size_forward : Q;
  size_backward : Q;
  size_width : Q;
  backward_penalty_factor : Q;
  turning_penalty : Q;
  turning_straight_segment : Q;
  generator_ : list Segment;                    (* generator_.getSegments() *)
  map_info : option CollisionGridMap2d;
  start_segment : SegmentPtr;
  end_segment : SegmentPtr;
  start_pt : Vector2d;
  end_pt : Vector2d;
  start_appendix : list PathPose;
  end_appendix : list PathPose;
  min_cost : Cost;
  best_path : list PathPose;
  nodes : gmap TransitionPtr Node
}.

(** Assignments to the members of [Search]. *)
Definition set_map_info (s : Search) (v : option CollisionGridMap2d) : Search :=
  {| size_forward := size_forward s; size_backward := size_backward s;
     size_width := size_width s;
     backward_penalty_factor := backward_penalty_factor s;
     turning_penalty := turning_penalty s;
     turning_straight_segment := turning_straight_segment s;
     generator_ := generator_ s; map_info := v;
     start_segment := start_segment s; end_segment := end_segment s;
     start_pt := start_pt s; end_pt := end_pt s;
     start_appendix := start_appendix s; end_appendix := end_appendix s;
     min_cost := min_cost s; best_path := best_path s; nodes := nodes s |}.
Definition set_start_segment (s : Search) (v : SegmentPtr) : Search :=
  {| size_forward := size_forward s; size_backward := size_backward s;
     size_width := size_width s;
     backward_penalty_factor := backward_penalty_factor s;
     turning_penalty := turning_penalty s;
     turning_straight_segment := turning_straight_segment s;
     generator_ := generator_ s; map_info := map_info s; start_segment := v;
     end_segment := end_segment s; start_pt := start_pt s;
     end_pt := end_pt s; start_appendix := start_appendix s;
     end_appendix := end_appendix s; min_cost := min_cost s;
     best_path := best_path s; nodes := nodes s |}.
Definition set_end_segment (s : Search) (v : SegmentPtr) : Search :=
  {| size_forward := size_forward s; size_backward := size_backward s;
     size_width := size_width s;
     backward_penalty_factor := backward_penalty_factor s;
     turning_penalty := turning_penalty s;
     turning_straight_segment := turning_straight_segment s;
     generator_ := generator_ s; map_info := map_info s;
     start_segment := start_segment s; end_segment := v;
     start_pt := start_pt s; end_pt := end_pt s;
     start_appendix := start_appendix s; end_appendix := end_appendix s;
     min_cost := min_cost s; best_path := best_path s; nodes := nodes s |}.
Definition set_start_pt (s : Search) (v : Vector2d) : Search :=
  {| size_forward := size_forward s; size_backward := size_backward s;
     size_width := size_width s;
     backward_penalty_factor := backward_penalty_factor s;
     turning_penalty := turning_penalty s;
     turning_straight_segment := turning_straight_segment s;
     generator_ := generator_ s; map_info := map_info s;
     start_segment := start_segment s; end_segment := end_segment s;
     start_pt := v; end_pt := end_pt s; start_appendix := start_appendix s;
     end_appendix := end_appendix s; min_cost := min_cost s;
     best_path := best_path s; nodes := nodes s |}.
Definition set_end_pt (s : Search) (v : Vector2d) : Search :=
  {| size_forward := size_forward s; size_backward := size_backward s;
     size_width := size_width s;
     backward_penalty_factor := backward_penalty_factor s;
     turning_penalty := turning_penalty s;
     turning_straight_segment := turning_straight_segment s;
     generator_ := generator_ s; map_info := map_info s;
     start_segment := start_segment s; end_segment := end_segment s;
     start_pt := start_pt s; end_pt := v; start_appendix := start_appendix s;
     end_appendix := end_appendix s; min_cost := min_cost s;
     best_path := best_path s; nodes := nodes s |}.
Definition set_start_appendix (s : Search) (v : list PathPose) : Search :=
  {| size_forward := size_forward s; size_backward := size_backward s;
     size_width := size_width s;
     backward_penalty_factor := backward_penalty_factor s;
     turning_penalty := turning_penalty s;
     turning_straight_segment := turning_straight_segment s;
     generator_ := generator_ s; map_info := map_info s;
     start_segment := start_segment s; end_segment := end_segment s;
     start_pt := start_pt s; end_pt := end_pt s; start_appendix := v;
     end_appendix := end_appendix s; min_cost := min_cost s;
     best_path := best_path s; nodes := nodes s |}.
Definition set_end_appendix (s : Search) (v : list PathPose) : Search :=
  {| size_forward := size_forward s; size_backward := size_backward s;
     size_width := size_width s;
     backward_penalty_factor := backward_penalty_factor s;
     turning_penalty := turning_penalty s;
     turning_straight_segment := turning_straight_segment s;
     generator_ := generator_ s; map_info := map_info s;
     start_segment := start_segment s; end_segment := end_segment s;
     start_pt := start_pt s; end_pt := end_pt s;
     start_appendix := start_appendix s; end_appendix := v;
     min_cost := min_cost s; best_path := best_path s; nodes := nodes s |}.
Definition set_min_cost (s : Search) (v : Cost) : Search :=
  {| size_forward := size_forward s; size_backward := size_backward s;
     size_width := size_width s;
     backward_penalty_factor := backward_penalty_factor s;
     turning_penalty := turning_penalty s;
     turning_straight_segment := turning_straight_segment s;
     generator_ := generator_ s; map_info := map_info s;
     start_segment := start_segment s; end_segment := end_segment s;
     start_pt := start_pt s; end_pt := end_pt s;
     start_appendix := start_appendix s; end_appendix := end_appendix s;
     min_cost := v; best_path := best_path s; nodes := nodes s |}.
Definition set_best_path (s : Search) (v : list PathPose) : Search :=
  {| size_forward := size_forward s; size_backward := size_backward s;
     size_width := size_width s;
     backward_penalty_factor := backward_penalty_factor s;
     turning_penalty := turning_penalty s;
     turning_straight_segment := turning_straight_segment s;
     generator_ := generator_ s; map_info := map_info s;
     start_segment := start_segment s; end_segment := end_segment s;
     start_pt := start_pt s; end_pt := end_pt s;
     start_appendix := start_appendix s; end_appendix := end_appendix s;
     min_cost := min_cost s; best_path := v; nodes := nodes s |}.
Definition set_nodes (s : Search) (v : gmap TransitionPtr Node) : Search :=
  {| size_forward := size_forward s; size_backward := size_backward s;
     size_width := size_width s;
     backward_penalty_factor := backward_penalty_factor s;
     turning_penalty := turning_penalty s;
     turning_straight_segment := turning_straight_segment s;
     generator_ := generator_ s; map_info := map_info s;
     start_segment := start_segment s; end_segment := end_segment s;
     start_pt := start_pt s; end_pt := end_pt s;
     start_appendix := start_appendix s; end_appendix := end_appendix s;
     min_cost := min_cost s; best_path := best_path s; nodes := v |}.

(** ** Outcomes *)

Inductive fault : Type :=
| NullDereference
| DanglingPointer
| OutOfRange
| EmptyVector
| IntegerOverflow.

Inductive outcome (A : Type) : Type :=
| Ok (a : A)
| Fault (f : fault)
| OutOfFuel.
Arguments Ok {A} a.
Arguments Fault {A} f.
Arguments OutOfFuel {A}.

Definition bind {A B : Type} (m : outcome A) (k : A -> outcome B) : outcome B :=
  match m with
  | Ok a => k a
  | Fault f => Fault f
  | OutOfFuel => OutOfFuel
  end.

Notation "x <- m ;; k" := (bind m (fun x => k))
  (at level 100, m at next level, right associativity).

(** [v.front()] and [v.back()] *)
Definition front {A : Type} (v : list A) : outcome A :=
  match v with
  | [] => Fault EmptyVector
  | x :: _ => Ok x
  end.
Definition back {A : Type} (v : list A) : outcome A :=
  match last v with
  | None => Fault EmptyVector
  | Some x => Ok x
  end.

(** [v.at(j)] *)
Definition at_ {A : Type} (v : list A) (j : nat) : outcome A :=
  match v !! j with
  | Some x => Ok x
  | None => Fault OutOfRange
  end.

(** ** Pointers into the course graph and into [nodes] *)

Definition transitions_of (sg : Segment) (forward : bool) : list Transition :=
  if forward then forward_transitions sg else backward_transitions sg.

Section Planner.

Variable X : Extern.

Definition segment_at (s : Search) (p : SegmentPtr) : outcome Segment :=
  match p with
  | None => Fault NullDereference
  | Some i =>
      match generator_ s !! i with
      | Some sg => Ok sg
      | None => Fault DanglingPointer
      end
  end.

Definition transition_at (s : Search) (p : option TransitionPtr) : outcome Transition :=
  match p with
  | None => Fault NullDereference
  | Some (i, forward, j) =>
      match generator_ s !! i with
      | Some sg =>
          match transitions_of sg forward !! j with
          | Some t => Ok t
          | None => Fault DanglingPointer
          end
      | None => Fault DanglingPointer
      end
  end.

(** The node a [Node*] taken from [nodes] points to. *)
Definition node_at (s : Search) (node : NodePtr) : Node := nodes s !!! node.

(** [nodes.at(&t)] *)
Definition nodes_at (s : Search) (t : TransitionPtr) : outcome NodePtr :=
  match nodes s !! t with
  | Some _ => Ok t
  | None => Fault OutOfRange
  end.

(** ** End points of the straight pieces *)

(** The two-argument overload of [findStartPointOnNextSegment]. *)
Definition findStartPointOnNextSegment2 (s : Search) (node : NodePtr)
    (transition : option TransitionPtr) : outcome Vector2d :=
  t <- transition_at s transition ;;
  if curve_forward (node_at s node) then back (path t) else front (path t).

Definition findStartPointOnNextSegment (s : Search) (node : NodePtr) : outcome Vector2d :=
  if decide (next_segment (node_at s node) = start_segment s) then Ok (start_pt s)
  else findStartPointOnNextSegment2 s node (transition (node_at s node)).

Definition findEndPointOnSegment (s : Search) (node : NodePtr)
    (transition : option TransitionPtr) : outcome Vector2d :=
  t <- transition_at s transition ;;
  if curve_forward (node_at s node) then front (path t) else back (path t).

Definition findEndPointOnNextSegment (s : Search) (node : NodePtr) : outcome Vector2d :=
  if decide (next_segment (node_at s node) = end_segment s) then Ok (end_pt s)
  else
    match next (node_at s node) with
    | None =>
        sg <- segment_at s (next_segment (node_at s node)) ;;
        Ok (if curve_forward (node_at s node) then endPoint (line sg)
            else startPoint (line sg))
    | Some next_node =>
        findEndPointOnSegment s next_node (transition (node_at s next_node))
    end.

(** ** Direction of travel *)

(** [isSegmentForward], with the warning it may log made visible:
    the first component tells whether ROS_WARN_STREAM was reached, the second
    is the returned value. *)
Definition isSegmentForward_traced (s : Search) (segment : SegmentPtr)
    (pos target : Vector2d) : outcome (bool * bool) :=
  sg <- segment_at s segment ;;
  let segment_dir := vsub (endPoint (line sg)) (startPoint (line sg)) in
  let move_dir := vsub target pos in
  let warned := Qlt_bool (norm X move_dir) 0.1 in
  Ok (warned, Qle_bool 0 (dot segment_dir move_dir)).

Definition isSegmentForward (s : Search) (segment : SegmentPtr)
    (pos target : Vector2d) : outcome bool :=
  r <- isSegmentForward_traced s segment pos target ;;
  Ok r.2.

Definition isStartSegmentForward (s : Search) (node : NodePtr) : outcome bool :=
  target <- findEndPointOnSegment s node (transition (node_at s node)) ;;
  isSegmentForward s (start_segment s) (start_pt s) target.

Definition isNextSegmentForward (s : Search) (node : NodePtr) : outcome bool :=
  pos <- findStartPointOnNextSegment s node ;;
  target <- findEndPointOnNextSegment s node ;;
  isSegmentForward s (next_segment (node_at s node)) pos target.

Definition isPreviousSegmentForward (s : Search) (node : NodePtr) : outcome bool :=
  match prev (node_at s node) with
  | Some p => isNextSegmentForward s p
  | None => isStartSegmentForward s node
  end.

Definition effectiveLengthOfNextSegment (s : Search) (node : NodePtr) : outcome Q :=
  a <- findStartPointOnNextSegment s node ;;
  b <- findEndPointOnNextSegment s node ;;
  Ok (norm X (vsub a b)).

(** ** Cost model *)

Definition calculateStraightCost (s : Search) (node : NodePtr)
    (start_point_on_segment end_point_on_segment : Vector2d) : outcome Q :=
  let cost := 0%Q in
  segment_forward <-
    isSegmentForward s (next_segment (node_at s node))
      start_point_on_segment end_point_on_segment ;;
  let distance_to_end := norm X (vsub end_point_on_segment start_point_on_segment) in
  let cost :=
    if segment_forward then (cost + distance_to_end)%Q
    else (cost + backward_penalty_factor s * distance_to_end)%Q in
  prev_segment_forward <- isPreviousSegmentForward s node ;;
  let cost :=
    if negb (eqb prev_segment_forward segment_forward) then
      (* single turn *)
      (cost + turning_straight_segment s + turning_penalty s)%Q
    else if negb (eqb segment_forward (curve_forward (node_at s node))) then
      (* double turn *)
      (cost + 2 * turning_straight_segment s + 2 * turning_penalty s)%Q
    else cost in
  Ok cost.

Definition calculateCurveCost (s : Search) (node : NodePtr) : outcome Q :=
  t <- transition_at s (transition (node_at s node)) ;;
  if curve_forward (node_at s node) then Ok (arc_length X t)
  else Ok (backward_penalty_factor s * arc_length X t)%Q.


(** Assignment through a [Node*] taken from [nodes]: the node is replaced
    by its image under [f]. *)
Definition update_node (s : Search) (node : NodePtr) (f : Node -> Node) : Search :=
  set_nodes s (<[node := f (node_at s node)]> (nodes s)).

(** ** Path assembly *)

Definition combine (start centre end_ : list PathPose) : list PathPose :=
  match start, end_ with
  | [], [] => centre
  | _, _ => start ++ centre ++ end_
  end.

Definition insertFirstNode (s : Search) (res : list PathPose) : outcome (list PathPose) :=
  let pos := start_pt s in
  sg <- segment_at s (start_segment s) ;;
  let delta := vsub (endPoint (line sg)) (startPoint (line sg)) in
  let yaw := atan2 X delta.2 delta.1 in
  Ok (res ++ [mkPose pos.1 pos.2 yaw]).

Definition insertLastNode (s : Search) (res : list PathPose) : outcome (list PathPose) :=
  let pos := end_pt s in
  sg <- segment_at s (end_segment s) ;;
  let delta := vsub (endPoint (line sg)) (startPoint (line sg)) in
  let yaw := atan2 X delta.2 delta.1 in
  Ok (res ++ [mkPose pos.1 pos.2 yaw]).

(** [rot * offset] for the rotation matrix of angle [yaw]. *)
Definition rotate (yaw : Q) (offset : Vector2d) : Vector2d :=
  ((cos X yaw * offset.1 + - sin X yaw * offset.2)%Q,
   (sin X yaw * offset.1 + cos X yaw * offset.2)%Q).

Definition extendAlongTargetSegment (s : Search) (res : list PathPose)
    (current_node : NodePtr) : outcome (list PathPose) :=
  current_transition <- transition_at s (transition (node_at s current_node)) ;;
  pt <- back (path current_transition) ;;
  sg <- segment_at s (target current_transition) ;;
  let ep := endPoint (line sg) in
  let sp := startPoint (line sg) in
  let delta := vsub ep sp in
  let c_yaw := atan2 X delta.2 delta.1 in
  let offset := (turning_straight_segment s, 0%Q) in
  let pt := vadd pt (rotate c_yaw offset) in
  Ok (res ++ [mkPose pt.1 pt.2 c_yaw]).

Definition extendAlongSourceSegment (s : Search) (res : list PathPose)
    (current_node : NodePtr) : outcome (list PathPose) :=
  current_transition <- transition_at s (transition (node_at s current_node)) ;;
  pt <- front (path current_transition) ;;
  sg <- segment_at s (source current_transition) ;;
  let ep := endPoint (line sg) in
  let sp := startPoint (line sg) in
  let delta := vsub ep sp in
  let c_yaw := (atan2 X delta.2 delta.1 + M_PI X)%Q in
  let offset := (turning_straight_segment s, 0%Q) in
  let pt := vadd pt (rotate c_yaw offset) in
  Ok (res ++ [mkPose pt.1 pt.2 c_yaw]).

Definition extendWithStraightTurningSegment (s : Search) (res : list PathPose)
    (pt : Vector2d) : outcome (list PathPose) :=
  prev_pose <- back res ;;
  let prev_pt := pos_ prev_pose in
  let dir := vsub pt prev_pt in
  let offset := vscale (vdiv dir (norm X dir)) (turning_straight_segment s) in
  let pos := vadd pt offset in
  Ok (res ++ [mkPose pos.1 pos.2 (atan2 X dir.2 dir.1)]).

(** The two loops of [insertCurveSegment]; [js] lists the values taken by
    the loop variable [j]. *)
Fixpoint insertCurveSegment_forward (pth : list Vector2d) (js : list nat)
    (res : list PathPose) : outcome (list PathPose) :=
  match js with
  | [] => Ok res
  | j :: js' =>
      pt <- at_ pth j ;;
      prev_pt <- at_ pth (j - 1) ;;
      let delta := vsub pt prev_pt in
      let c_yaw := atan2 X delta.2 delta.1 in
      insertCurveSegment_forward pth js' (res ++ [mkPose pt.1 pt.2 c_yaw])
  end.

Fixpoint insertCurveSegment_backward (pth : list Vector2d) (js : list nat)
    (res : list PathPose) : outcome (list PathPose) :=
  match js with
  | [] => Ok res
  | j :: js' =>
      pt <- at_ pth j ;;
      next_pt <- at_ pth (j + 1) ;;
      let delta := vsub pt next_pt in
      let c_yaw := atan2 X delta.2 delta.1 in
      insertCurveSegment_backward pth js' (res ++ [mkPose pt.1 pt.2 c_yaw])
  end.

Definition insertCurveSegment (s : Search) (res : list PathPose)
    (current_node : NodePtr) : outcome (list PathPose) :=
  current_transition <- transition_at s (transition (node_at s current_node)) ;;
  let m := length (path current_transition) in
  if curve_forward (node_at s current_node) then
    (* j = 1 .. m-1 *)
    insertCurveSegment_forward (path current_transition) (seq 1 (m - 1)) res
  else
    (* j = m-2 .. 0 *)
    insertCurveSegment_backward (path current_transition) (rev (seq 0 (m - 1))) res.

(** [std::numeric_limits<double>::epsilon()] *)
Definition epsilon : Q := 1 # (2 ^ 52).

(** One round of the loop of [generatePath]: the poses so far and the
    direction of travel on the segment before [current_node]. *)
Definition generatePath_step (s : Search) (res : list PathPose)
    (segment_forward : bool) (current_node : NodePtr) : outcome (list PathPose * bool) :=
  eff_len <- effectiveLengthOfNextSegment s current_node ;;
  if Qlt_bool eff_len epsilon then
    res <- insertCurveSegment s res current_node ;;
    Ok (res, segment_forward)
  else
    next_segment_forward <- isNextSegmentForward s current_node ;;
    res <-
      (if eqb next_segment_forward segment_forward then
         if eqb (curve_forward (node_at s current_node)) next_segment_forward then
           insertCurveSegment s res current_node
         else
           (* double turn *)
           current_transition <- transition_at s (transition (node_at s current_node)) ;;
           res <-
             (if curve_forward (node_at s current_node) then
                pt <- front (path current_transition) ;;
                extendWithStraightTurningSegment s res pt
              else
                pt <- back (path current_transition) ;;
                extendWithStraightTurningSegment s res pt) ;;
           res <- insertCurveSegment s res current_node ;;
           if curve_forward (node_at s current_node) then
             extendAlongTargetSegment s res current_node
           else
             extendAlongSourceSegment s res current_node
       else if segment_forward then
         if curve_forward (node_at s current_node) then
           res <- insertCurveSegment s res current_node ;;
           extendAlongTargetSegment s res current_node
         else
           res <- extendAlongTargetSegment s res current_node ;;
           insertCurveSegment s res current_node
       else
         if curve_forward (node_at s current_node) then
           res <- extendAlongSourceSegment s res current_node ;;
           insertCurveSegment s res current_node
         else
           res <- insertCurveSegment s res current_node ;;
           extendAlongSourceSegment s res current_node) ;;
    Ok (res, next_segment_forward).

Fixpoint generatePath_loop (s : Search) (path_transitions : list NodePtr)
    (res : list PathPose) (segment_forward : bool) : outcome (list PathPose) :=
  match path_transitions with
  | [] => Ok res
  | current_node :: rest =>
      r <- generatePath_step s res segment_forward current_node ;;
      generatePath_loop s rest r.1 r.2
  end.

Definition generatePath (s : Search) (path_transitions : list NodePtr)
    (res : list PathPose) : outcome (list PathPose) :=
  res <- insertFirstNode s res ;;
  first <- front path_transitions ;;
  segment_forward <- isStartSegmentForward s first ;;
  res <- generatePath_loop s path_transitions res segment_forward ;;
  insertLastNode s res.

(** The [while(tmp)] loop of [generatePathCandidate]: the chain of
    predecessors is pushed to the front of [transitions], and the [next]
    link of every predecessor is repaired on the way. *)
Fixpoint collect_transitions (fuel : nat) (s : Search) (tmp : option NodePtr)
    (transitions : list NodePtr) : outcome (list NodePtr * Search) :=
  match tmp with
  | None => Ok (transitions, s)
  | Some t =>
      match fuel with
      | O => OutOfFuel
      | S fuel' =>
          let transitions := t :: transitions in
          let s :=
            match prev (node_at s t) with
            | Some p => update_node s p (fun n => set_next n (Some t))
            | None => s
            end in
          collect_transitions fuel' s (prev (node_at s t)) transitions
      end
  end.

(** [signature]: the directions of travel along the chain of predecessors
    of [head], one character for each hop, for the log. *)
Fixpoint signature_loop (fuel : nat) (s : Search) (tmp : option NodePtr)
    (first : NodePtr) (res : string) : outcome (NodePtr * string) :=
  match tmp with
  | None => Ok (first, res)
  | Some t =>
      match fuel with
      | O => OutOfFuel
      | S fuel' =>
          res <-
            (match next_segment (node_at s t) with
             | Some _ =>
                 forward <- isNextSegmentForward s t ;;
                 Ok (String.append (if forward then ">" else "<") res)
             | None => Ok (String.append "?" res)
             end) ;;
          let tmp := prev (node_at s t) in
          let first := match tmp with Some p => p | None => first end in
          signature_loop fuel' s tmp first res
      end
  end.

Definition signature (fuel : nat) (s : Search) (head : NodePtr) : outcome string :=
  r <- signature_loop fuel s (Some head) head "" ;;
  let first := r.1 in
  t <- transition_at s (transition (node_at s first)) ;;
  end_point_on_start_segment <-
    (if curve_forward (node_at s first) then front (path t) else back (path t)) ;;
  forward <- isSegmentForward s (start_segment s) (start_pt s)
               end_point_on_start_segment ;;
  Ok (String.append (if forward then ">" else "<") r.2).

Definition generatePathCandidate (fuel : nat) (s : Search) (node : NodePtr) : outcome Search :=
  (* finish the path -> connect to end point *)
  sp <- findStartPointOnNextSegment s node ;;
  additional_cost <- calculateStraightCost s node sp (end_pt s) ;;
  let s := update_node s node
             (fun n => set_cost n (cost_add (cost n) additional_cost)) in
  (* ROS_WARN_STREAM: found candidate with signature ... with cost ... *)
  logged <- signature fuel s node ;;
  if cost_lt (cost (node_at s node)) (min_cost s) then
    let s := set_min_cost s (cost (node_at s node)) in
    let s := set_best_path s [] in
    r <- collect_transitions fuel s (Some node) [] ;;
    let s := r.2 in
    best <- generatePath s r.1 (best_path s) ;;
    Ok (set_best_path s best)
  else Ok s.

(** ** The nodes and the frontier *)

(** [nodes[&t].field = v]: [operator[]] creates a default node when the key
    is missing. *)
Definition subscript_assign (m : gmap TransitionPtr Node) (t : TransitionPtr)
    (f : Node -> Node) : gmap TransitionPtr Node :=
  <[t := f (default Node_default (m !! t))]> m.

Fixpoint initNodes_transitions (i : nat) (forward : bool) (j : nat)
    (ts : list Transition) (m : gmap TransitionPtr Node) : gmap TransitionPtr Node :=
  match ts with
  | [] => m
  | t :: ts' =>
      let k := (i, forward, j) in
      let m := subscript_assign m k (fun n => set_transition n (Some k)) in
      let m := subscript_assign m k (fun n => set_curve_forward n forward) in
      let m := subscript_assign m k
                 (fun n => set_next_segment n (if forward then target t else source t)) in
      initNodes_transitions i forward (S j) ts' m
  end.

Fixpoint initNodes_segments (i : nat) (segments : list Segment)
    (m : gmap TransitionPtr Node) : gmap TransitionPtr Node :=
  match segments with
  | [] => m
  | sg :: rest =>
      let m := initNodes_transitions i true 0 (forward_transitions sg) m in
      let m := initNodes_transitions i false 0 (backward_transitions sg) m in
      initNodes_segments (S i) rest m
  end.

Definition initNodes (s : Search) : Search :=
  set_nodes s (initNodes_segments 0 (generator_ s) ∅).

(** [comp]: the order of the frontier, read through the node pointers. *)
Definition comp (s : Search) (lhs rhs : NodePtr) : bool :=
  cost_lt (cost (node_at s lhs)) (cost (node_at s rhs)).

(** The frontier [std::set<Node*, comp>] is the sequence of its elements in
    iteration order.  The searches below are linear scans; they return what
    the tree returns whenever the sequence is ordered by [comp].  (A tree
    whose keys were changed in place may answer differently, depending on
    its shape: the results on what the frontier hands out are proved for
    any container, in the part on [AnySet].) *)

(** [queue.insert(n)]: nothing is inserted when an element that is neither
    smaller nor larger than [n] is met. *)
Fixpoint queue_insert (s : Search) (queue : list NodePtr) (n : NodePtr) : list NodePtr :=
  match queue with
  | [] => [n]
  | e :: queue' =>
      if comp s e n then e :: queue_insert s queue' n
      else if comp s n e then n :: e :: queue'
      else e :: queue'
  end.

(** [queue.find(n) != queue.end()] *)
Fixpoint queue_find (s : Search) (queue : list NodePtr) (n : NodePtr) : bool :=
  match queue with
  | [] => false
  | e :: queue' =>
      if comp s e n then queue_find s queue' n
      else negb (comp s n e)
  end.

(** [queue.erase(n)]: erase by key, the range of elements equivalent to [n]
    (from the first element that is not smaller than [n] up to the first
    one that is larger). *)
Fixpoint dropwhile_not_greater (s : Search) (n : NodePtr) (queue : list NodePtr) : list NodePtr :=
  match queue with
  | [] => []
  | e :: queue' =>
      if comp s n e then e :: queue' else dropwhile_not_greater s n queue'
  end.

Fixpoint queue_erase (s : Search) (queue : list NodePtr) (n : NodePtr) : list NodePtr :=
  match queue with
  | [] => []
  | e :: queue' =>
      if comp s e n then e :: queue_erase s queue' n
      else dropwhile_not_greater s n (e :: queue')
  end.

(** ** The search *)

Definition segment_index (p : SegmentPtr) : outcome nat :=
  match p with
  | Some i => Ok i
  | None => Fault NullDereference
  end.

(** Body of the inner loop of [enqueueStartingNodes] for the transition at
    address [k]. *)
Definition enqueueStartingNode (s : Search) (queue : list NodePtr)
    (k : TransitionPtr) (next_transition : Transition) : outcome (Search * list NodePtr) :=
  node <- nodes_at s k ;;
  (* distance from start_pt to transition *)
  end_point_on_segment <-
    (if curve_forward (node_at s node) then front (path next_transition)
     else back (path next_transition)) ;;
  c <- calculateStraightCost s node (start_pt s) end_point_on_segment ;;
  let s := update_node s node (fun n => set_cost n (Finite c)) in
  Ok (s, queue_insert s queue node).

Fixpoint enqueueStartingNodes_list (s : Search) (queue : list NodePtr)
    (i : nat) (forward : bool) (j : nat) (ts : list Transition)
    : outcome (Search * list NodePtr) :=
  match ts with
  | [] => Ok (s, queue)
  | t :: ts' =>
      r <- enqueueStartingNode s queue (i, forward, j) t ;;
      enqueueStartingNodes_list r.1 r.2 i forward (S j) ts'
  end.

Definition enqueueStartingNodes (s : Search) (queue : list NodePtr)
    : outcome (Search * list NodePtr) :=
  i <- segment_index (start_segment s) ;;
  sg <- segment_at s (start_segment s) ;;
  r <- enqueueStartingNodes_list s queue i true 0 (forward_transitions sg) ;;
  enqueueStartingNodes_list r.1 r.2 i false 0 (backward_transitions sg).

(** Body of the inner loop of [performDijkstraSearch] for the transition at
    address [k]. *)
Definition relax (s : Search) (queue : list NodePtr) (current_node : NodePtr)
    (k : TransitionPtr) : outcome (Search * list NodePtr) :=
  neighbor <- nodes_at s k ;;
  curve_cost <- calculateCurveCost s current_node ;;
  sp <- findStartPointOnNextSegment s current_node ;;
  ep <- findEndPointOnSegment s current_node (Some k) ;;
  straight_cost <- calculateStraightCost s current_node sp ep ;;
  let new_cost :=
    cost_add (cost_add (cost (node_at s current_node)) curve_cost) straight_cost in
  if cost_lt new_cost (cost (node_at s neighbor)) then
    let s := update_node s neighbor (fun n => set_prev n (Some current_node)) in
    let s := update_node s current_node (fun n => set_next n (Some neighbor)) in
    let s := update_node s neighbor (fun n => set_cost n new_cost) in
    let queue :=
      if queue_find s queue neighbor then queue_erase s queue neighbor else queue in
    Ok (s, queue_insert s queue neighbor)
  else Ok (s, queue).

Fixpoint relax_list (s : Search) (queue : list NodePtr) (current_node : NodePtr)
    (i : nat) (forward : bool) (j : nat) (ts : list Transition)
    : outcome (Search * list NodePtr) :=
  match ts with
  | [] => Ok (s, queue)
  | _ :: ts' =>
      r <- relax s queue current_node (i, forward, j) ;;
      relax_list r.1 r.2 current_node i forward (S j) ts'
  end.

(** The two rounds [i = 0, 1] over the transitions that leave the resulting
    segment of [current_node]. *)
Definition expand (s : Search) (queue : list NodePtr) (current_node : NodePtr)
    : outcome (Search * list NodePtr) :=
  i <- segment_index (next_segment (node_at s current_node)) ;;
  sg <- segment_at s (next_segment (node_at s current_node)) ;;
  r <- relax_list s queue current_node i true 0 (forward_transitions sg) ;;
  sg <- segment_at r.1 (next_segment (node_at r.1 current_node)) ;;
  relax_list r.1 r.2 current_node i false 0 (backward_transitions sg).

(** A finished candidate: the node, the planner before and after
    [generatePathCandidate]. *)
Record Candidate : Type := {
  cand_node : NodePtr;
  cand_before : Search;
  cand_after : Search
}.

(** The [while(!queue.empty())] loop.  Besides the planner it returns the
    candidates in the order in which they were finished. *)
Fixpoint dijkstra_loop (fuel : nat) (s : Search) (queue : list NodePtr)
    : outcome (Search * list Candidate) :=
  match queue with
  | [] => Ok (s, [])
  | current_node :: queue' =>
      match fuel with
      | O => OutOfFuel
      | S fuel' =>
          if decide (next_segment (node_at s current_node) = end_segment s) then
            s' <- generatePathCandidate fuel' s current_node ;;
            r <- dijkstra_loop fuel' s' queue' ;;
            Ok (r.1, {| cand_node := current_node; cand_before := s;
                        cand_after := s' |} :: r.2)
          else
            e <- expand s queue' current_node ;;
            dijkstra_loop fuel' e.1 e.2
      end
  end.

Definition performDijkstraSearch_traced (fuel : nat) (s : Search)
    : outcome (list PathPose * Search * list Candidate) :=
  let s := initNodes s in
  r <- enqueueStartingNodes s [] ;;
  let s := set_min_cost r.1 Infinity in
  r <- dijkstra_loop fuel s r.2 ;;
  let s := r.1 in
  Ok (combine (start_appendix s) (best_path s) (end_appendix s), s, r.2).

Definition performDijkstraSearch (fuel : nat) (s : Search)
    : outcome (list PathPose * Search) :=
  r <- performDijkstraSearch_traced fuel s ;;
  Ok r.1.

(** ** The map and the appendices *)

(** [unsigned] and [int] have 32 bits.  [w * h] on two [unsigned] values is
    the product modulo [2^32]. *)
Definition unsigned_mul (w h : nat) : nat :=
  Z.to_nat ((Z.of_nat w * Z.of_nat h) mod 4294967296)%Z.

Definition INT_MAX : Z := 2147483647%Z.

(** The loop of [initMaps] that fills the cells: [data[i++] = std::min(100, *it + 1)],
    stored as [uint8_t].  The index [i] is an [int]: [i++] overflows at
    [INT_MAX]. *)
Fixpoint initMaps_fill (cells : list Z) (i : nat) (data : list Z) : outcome (list Z) :=
  match cells with
  | [] => Ok data
  | c :: cells' =>
      if decide (i < length data) then
        if decide (Z.of_nat i < INT_MAX)%Z then
          initMaps_fill cells' (S i) (<[i := (Z.min 100 (c + 1) mod 256)%Z]> data)
        else Fault IntegerOverflow
      else Fault OutOfRange
  end.

Definition initMaps (s : Search) (map : OccupancyGrid) : outcome Search :=
  let w := info_width map in
  let h := info_height map in
  let replace :=
    match map_info s with
    | None => true
    | Some mi => negb (Nat.eqb (gm_width mi) w) || negb (Nat.eqb (gm_height mi) h)
    end in
  let fresh :=
    {| gm_width := w; gm_height := h; gm_rotation := info_origin_yaw map;
       gm_resolution := info_resolution map;
       gm_footprint := (size_forward s, size_backward s, size_width s);
       gm_lower_threshold := 0; gm_upper_threshold := 0; gm_no_information := 0;
       gm_data := []; gm_origin := (0%Q, 0%Q) |} in
  let mi := if replace then fresh else default fresh (map_info s) in
  (* std::vector<uint8_t> data(w*h) *)
  cells <- initMaps_fill (data map) 0 (replicate (unsigned_mul w h) 0%Z) ;;
  Ok (set_map_info s
        (Some {| gm_width := w; gm_height := h; gm_rotation := gm_rotation mi;
                 gm_resolution := gm_resolution mi; gm_footprint := gm_footprint mi;
                 gm_lower_threshold := 50; gm_upper_threshold := 70;
                 gm_no_information := (-1);
                 gm_data := cells; gm_origin := info_origin_position map |})).

Definition convertToWorld (s : Search) (node : NodeT) : outcome PathPose :=
  match map_info s with
  | None => Fault NullDereference
  | Some mi =>
      let p := cell2pointSubPixel X mi (n_x node) (n_y node) in
      Ok (mkPose p.1 p.2 (n_theta node))
  end.

Definition convertToMap (s : Search) (pt : PathPose) : outcome Pose2d :=
  match map_info s with
  | None => Fault NullDereference
  | Some mi =>
      let c := point2cell X mi (pos_ pt).1 (pos_ pt).2 in
      Ok {| p_x := c.1; p_y := c.2; p_theta := theta_ pt |}
  end.

Fixpoint convertToWorld_all (s : Search) (path_start : list NodeT) : outcome (list PathPose) :=
  match path_start with
  | [] => Ok []
  | node :: rest =>
      p <- convertToWorld s node ;;
      ps <- convertToWorld_all s rest ;;
      Ok (p :: ps)
  end.

(** [findAppendix<AlgorithmForward, AlgorithmFull>] *)
Definition findAppendix (AlgorithmForward AlgorithmFull : Algorithm) (s : Search)
    (map : OccupancyGrid) (pose : PathPose) : outcome (list PathPose) :=
  pose_map <- convertToMap s pose ;;
  match map_info s with
  | None => Fault NullDereference
  | Some mi =>
      let path_start :=
        algorithm_findPath X AlgorithmForward (generator_ s) map mi pose_map in
      match path_start with
      | [] =>
          let path_start :=
            algorithm_findPath X AlgorithmFull (generator_ s) map mi pose_map in
          match path_start with
          | [] => Ok []
          | _ => convertToWorld_all s path_start
          end
      | _ => convertToWorld_all s path_start
      end
  end.

Definition findAppendices (s : Search) (map : OccupancyGrid)
    (start_pose end_pose : PathPose) : outcome (bool * Search) :=
  a <- findAppendix AStarPatsyForward AStarPatsyForwardTurning s map start_pose ;;
  let s := set_start_appendix s a in
  match last (start_appendix s) with
  | None => Ok (false, s)
  | Some start =>
      let s := set_start_segment s
                 (findClosestSegment X (generator_ s) start (M_PI X / 8) 0.5) in
      sg <- segment_at s (start_segment s) ;;
      let s := set_start_pt s (nearestPointTo X (line sg) (pos_ start)) in
      match start_segment s with
      | None => Ok (false, s)
      | Some _ =>
          a <- findAppendix AStarPatsyReversed AStarPatsyReversedTurning s map end_pose ;;
          let s := set_end_appendix s a in
          match end_appendix s with
          | [] => Ok (false, s)
          | _ =>
              let s := set_end_appendix s (rev (end_appendix s)) in
              e <- front (end_appendix s) ;;
              let s := set_end_segment s
                         (findClosestSegment X (generator_ s) e (M_PI X / 8) 0.5) in
              sg <- segment_at s (end_segment s) ;;
              let s := set_end_pt s (nearestPointTo X (line sg) (pos_ e)) in
              match end_segment s with
              | None => Ok (false, s)
              | Some _ => Ok (true, s)
              end
          end
      end
  end.

(** ** The planning request *)

Definition findPath (fuel : nat) (s : Search) (start_pose end_pose : PathPose)
    : outcome (list PathPose * Search) :=
  let res := [] in
  match map_service_call X with
  | None => Ok (res, s)
  | Some map =>
      s <- initMaps s map ;;
      r <- findAppendices s map start_pose end_pose ;;
      let s := r.2 in
      if negb r.1 then Ok (res, s)
      else if decide (start_segment s = end_segment s) then
        res <- insertFirstNode s res ;;
        res <- insertLastNode s res ;;
        Ok (combine (start_appendix s) res (end_appendix s), s)
      else performDijkstraSearch fuel s
  end.

End Planner.

(** ** A concrete environment

    Rational stand-ins for the external functions, used to run the planner
    on concrete courses.  The general theorems below hold for every
    [Extern]; none of them depends on this choice. *)
Module Demo.

(** Square root on [Q] in fixed point, six decimals, rounded down: exact on
    the squares of numbers with at most six decimals. *)
Definition Qsqrt (q : Q) : Q :=
  Qred (Z.sqrt (Qfloor (q * 1000000000000)) # 1000000).

Definition norm (v : Vector2d) : Q := Qsqrt (v.1 * v.1 + v.2 * v.2).

Definition M_PI : Q := 3.14159265358979.

(** The angle of [(x, y)] counted in quarter turns along the unit diamond
    [|x| + |y| = 1], in [(-2, 2]]. *)
Definition quarter_turns (y x : Q) : Q :=
  let n := (Qabs x + Qabs y)%Q in
  if Qeq_bool n 0 then 0%Q
  else if Qle_bool 0 y then
    (if Qle_bool 0 x then y / n else 1 + - x / n)%Q
  else
    (if Qle_bool 0 x then y / n else -1 + - x / n - 1)%Q.

(** A polygonal [atan2], exact on the axes. *)
Definition atan2 (y x : Q) : Q := Qred (quarter_turns y x * (M_PI / 2)).

(** [t] brought into [(-2, 2]] by whole turns (four quarter turns). *)
Definition wrap_quarter_turns (t : Q) : Q :=
  let k := Qfloor ((t + 2) / 4) in
  let r := (t - 4 * inject_Z k)%Q in
  if Qle_bool r (-2) then (r + 4)%Q else r.

(** Polygonal cosine and sine, exact at the multiples of a quarter turn. *)
Definition cos (a : Q) : Q :=
  let t := wrap_quarter_turns (a / (M_PI / 2)) in
  Qred (1 - Qabs t).
Definition sin (a : Q) : Q :=
  let t := wrap_quarter_turns (a / (M_PI / 2)) in
  Qred (if Qle_bool t (-1) then -2 - t
        else if Qle_bool t 1 then t else 2 - t).

(** Length of the polyline. *)
Fixpoint polyline_length (pth : list Vector2d) : Q :=
  match pth with
  | a :: (b :: _) as rest => (norm (vsub b a) + polyline_length rest)%Q
  | _ => 0%Q
  end.

Definition arc_length (t : Transition) : Q := Qred (polyline_length (path t)).

(** Foot of the perpendicular from [p] on the line. *)
Definition nearestPointTo (l : Line) (p : Vector2d) : Vector2d :=
  let d := vsub (endPoint l) (startPoint l) in
  let k := (dot (vsub p (startPoint l)) d / dot d d)%Q in
  (Qred ((startPoint l).1 + k * d.1), Qred ((startPoint l).2 + k * d.2)).

(** The first segment whose line passes within [max_dist] of the pose and
    whose direction is within [max_angle] of its heading. *)
Fixpoint findClosestSegment_from (i : nat) (segments : list Segment)
    (pose : PathPose) (max_angle max_dist : Q) : option nat :=
  match segments with
  | [] => None
  | sg :: rest =>
      let d := vsub (endPoint (line sg)) (startPoint (line sg)) in
      let near := Qlt_bool (norm (vsub (pos_ pose) (nearestPointTo (line sg) (pos_ pose)))) max_dist in
      let aligned := Qlt_bool (Qabs (atan2 d.2 d.1 - theta_ pose)) max_angle in
      if near && aligned then Some i
      else findClosestSegment_from (S i) rest pose max_angle max_dist
  end.

Definition findClosestSegment (segments : list Segment) (pose : PathPose)
    (max_angle max_dist : Q) : option nat :=
  findClosestSegment_from 0 segments pose max_angle max_dist.

(** A free 4 x 4 grid with cells of unit size. *)
Definition map : OccupancyGrid :=
  {| info_width := 4; info_height := 4; info_resolution := 1;
     info_origin_position := (0%Q, 0%Q); info_origin_yaw := 0;
     data := replicate 16 0%Z |}.

Definition point2cell (mi : CollisionGridMap2d) (x y : Q) : Q * Q :=
  (Qred ((x - (gm_origin mi).1) / gm_resolution mi),
   Qred ((y - (gm_origin mi).2) / gm_resolution mi)).

Definition cell2pointSubPixel (mi : CollisionGridMap2d) (x y : Q) : Q * Q :=
  (Qred (x * gm_resolution mi + (gm_origin mi).1),
   Qred (y * gm_resolution mi + (gm_origin mi).2)).

(** A path finder for poses that already lie next to the course: the path
    is the pose itself.  Poses left of the map cannot be connected, and the
    variants without turning give up on poses below it. *)
Definition algorithm_findPath (a : Algorithm) (segments : list Segment)
    (m : OccupancyGrid) (mi : CollisionGridMap2d) (pose : Pose2d) : list NodeT :=
  if Qlt_bool (p_x pose) 0 then []
  else
    match a with
    | AStarPatsyForward | AStarPatsyReversed =>
        if Qlt_bool (p_y pose) 0 then []
        else [{| n_x := p_x pose; n_y := p_y pose; n_theta := p_theta pose |}]
    | _ => [{| n_x := p_x pose; n_y := p_y pose; n_theta := p_theta pose |}]
    end.

Definition env : Extern :=
  Build_Extern norm atan2 cos sin M_PI arc_length nearestPointTo
    findClosestSegment (Some map) point2cell cell2pointSubPixel
    algorithm_findPath.

(** A planner with the default parameters of the constructor. *)
Definition planner (segments : list Segment) : Search :=
  {| size_forward := 0.4; size_backward := -0.6; size_width := 0.5;
     backward_penalty_factor := 2.5; turning_penalty := 5.0;
     turning_straight_segment := 0.7;
     generator_ := segments; map_info := None;
     start_segment := None; end_segment := None;
     start_pt := (0%Q, 0%Q); end_pt := (0%Q, 0%Q);
     start_appendix := []; end_appendix := [];
     min_cost := Infinity; best_path := []; nodes := ∅ |}.

(** Two rows joined by one curve: row 0 runs from (0,0) to (10,0), row 1
    from (10,5) to (20,5); the curve leaves row 0 at (10,0) and reaches
    row 1 at (10,5).  Row 2, from (0,20) to (10,20), has no transition. *)
Definition curve01 : Transition :=
  {| source := Some 0; target := Some 1;
     path := [(10%Q, 0%Q); (10%Q, 5%Q)] |}.

Definition course : list Segment :=
  [ {| line := {| startPoint := (0%Q, 0%Q); endPoint := (10%Q, 0%Q) |};
       forward_transitions := [curve01]; backward_transitions := [] |};
    {| line := {| startPoint := (10%Q, 5%Q); endPoint := (20%Q, 5%Q) |};
       forward_transitions := []; backward_transitions := [curve01] |};
    {| line := {| startPoint := (0%Q, 20%Q); endPoint := (10%Q, 20%Q) |};
       forward_transitions := []; backward_transitions := [] |} ].

(** A second course: two curves leave row 0 at the same point (10,0), the
    first to row 1, the second to row 2. *)
Definition curve02 : Transition :=
  {| source := Some 0; target := Some 2;
     path := [(10%Q, 0%Q); (10%Q, 20%Q)] |}.

Definition fork : list Segment :=
  [ {| line := {| startPoint := (0%Q, 0%Q); endPoint := (10%Q, 0%Q) |};
       forward_transitions := [curve01; curve02]; backward_transitions := [] |};
    {| line := {| startPoint := (10%Q, 5%Q); endPoint := (20%Q, 5%Q) |};
       forward_transitions := []; backward_transitions := [curve01] |};
    {| line := {| startPoint := (10%Q, 20%Q); endPoint := (20%Q, 20%Q) |};
       forward_transitions := []; backward_transitions := [curve02] |} ].

(** The planner once the appendices of a request from [(2,0)] on row 0 to
    [end_] on row [end_row] are found. *)
Definition located (segments : list Segment) (end_row : nat) (end_ : Vector2d) : Search :=
  let s := planner segments in
  let s := set_start_appendix s [mkPose 2 0 0] in
  let s := set_start_segment s (Some 0) in
  let s := set_start_pt s (2%Q, 0%Q) in
  let s := set_end_appendix s [mkPose end_.1 end_.2 0] in
  let s := set_end_segment s (Some end_row) in
  set_end_pt s end_.

(** A third course: two curves lead from row 0, from (0,0) to (20,0), to
    row 1, from (0,5) to (20,5).  The first leaves row 0 early, at (4,0),
    and reaches row 1 at (4,5); the second leaves at (6,0) and reaches
    row 1 far along, at (12,5). *)
Definition curveA : Transition :=
  {| source := Some 0; target := Some 1;
     path := [(4%Q, 0%Q); (4%Q, 5%Q)] |}.
Definition curveB : Transition :=
  {| source := Some 0; target := Some 1;
     path := [(6%Q, 0%Q); (12%Q, 5%Q)] |}.

Definition detour : list Segment :=
  [ {| line := {| startPoint := (0%Q, 0%Q); endPoint := (20%Q, 0%Q) |};
       forward_transitions := [curveA; curveB]; backward_transitions := [] |};
    {| line := {| startPoint := (0%Q, 5%Q); endPoint := (20%Q, 5%Q) |};
       forward_transitions := []; backward_transitions := [curveA; curveB] |} ].

(** The planner of [course], appendices found for a request from (2,0) on
    row 0 to (15,5) on row 1, nodes initialised. *)
Definition ready : Search := initNodes (located course 1 (15%Q, 5%Q)).

(** The planner after the map and the appendices of a request from (2,0)
    to (5,0), both on row 0. *)
Definition mapped : Search :=
  match initMaps (planner course) map with
  | Ok s => s
  | _ => planner course
  end.

Definition same_row : Search :=
  match findAppendices env mapped map (mkPose 2 0 0) (mkPose 5 0 0) with
  | Ok r => r.2
  | _ => mapped
  end.

(** The planner and the frontier of [detour] once the frontier is seeded
    for a request from (2,0) to (14,5); the two after the node of the second
    curve is expanded; the planner after the node of the first curve is
    finished as a candidate. *)
Definition seeded_detour : Search * list NodePtr :=
  match enqueueStartingNodes env (initNodes (located detour 1 (14%Q, 5%Q))) [] with
  | Ok r => r
  | _ => (planner detour, [])
  end.

Definition expanded_detour : Search * list NodePtr :=
  match expand env seeded_detour.1 seeded_detour.2 (0, true, 1) with
  | Ok r => r
  | _ => seeded_detour
  end.

Definition finished_detour : Search :=
  match generatePathCandidate env 3 seeded_detour.1 (0, true, 0) with
  | Ok s => s
  | _ => seeded_detour.1
  end.

End Demo.

(** * Basic facts about the model *)

Lemma Qlt_bool_iff (a b : Q) : Qlt_bool a b = true <-> (a < b)%Q.
Proof.
  unfold Qlt_bool. rewrite negb_true_iff. split.
  - intros H. apply Qnot_le_lt. intros Hle.
    apply Qle_bool_iff in Hle. congruence.
  - intros H. destruct (Qle_bool b a) eqn:E; [|reflexivity].
    apply Qle_bool_iff in E. lra.
Qed.

Lemma Qlt_bool_false_iff (a b : Q) : Qlt_bool a b = false <-> (b <= a)%Q.
Proof.
  unfold Qlt_bool. rewrite negb_false_iff. apply Qle_bool_iff.
Qed.

Lemma bind_Ok_inv {A B : Type} (m : outcome A) (k : A -> outcome B) (b : B) :
  bind m k = Ok b -> exists a, m = Ok a /\ k a = Ok b.
Proof. destruct m; simpl; intros H; try discriminate. eauto. Qed.

(** * Properties of the cost model *)

Section CostModel.

Variable X : Extern.

(** The amount [calculateStraightCost] adds for turning, given the direction
    on the previous segment, the direction on this segment and the direction
    of the curve. *)
Definition turning_surcharge (s : Search)
    (prev_segment_forward segment_forward curve_fwd : bool) : Q :=
  if negb (eqb prev_segment_forward segment_forward) then
    (turning_straight_segment s + turning_penalty s)%Q
  else if negb (eqb segment_forward curve_fwd) then
    (2 * turning_straight_segment s + 2 * turning_penalty s)%Q
  else 0%Q.

(** The distance term of [calculateStraightCost]. *)
Definition distance_cost (s : Search) (segment_forward : bool) (distance : Q) : Q :=
  if segment_forward then distance
  else (backward_penalty_factor s * distance)%Q.

Lemma isSegmentForward_Ok (s : Search) (segment : SegmentPtr) (pos target : Vector2d)
    (sg : Segment) :
  segment_at s segment = Ok sg ->
  isSegmentForward X s segment pos target =
    Ok (Qle_bool 0 (dot (vsub (endPoint (line sg)) (startPoint (line sg)))
                        (vsub target pos))).
Proof.
  intros H. unfold isSegmentForward, isSegmentForward_traced.
  rewrite H. reflexivity.
Qed.

Lemma calculateStraightCost_decompose (s : Search) (node : NodePtr)
    (sp ep : Vector2d) (sf pf : bool) :
  isSegmentForward X s (next_segment (node_at s node)) sp ep = Ok sf ->
  isPreviousSegmentForward X s node = Ok pf ->
  exists c,
    calculateStraightCost X s node sp ep = Ok c /\
    (c == distance_cost s sf (norm X (vsub ep sp))
          + turning_surcharge s pf sf (curve_forward (node_at s node)))%Q.
Proof.
  intros Hsf Hpf. unfold calculateStraightCost.
  rewrite Hsf. simpl. rewrite Hpf. simpl.
  eexists. split; [reflexivity|].
  unfold distance_cost, turning_surcharge.
  destruct sf, pf, (curve_forward (node_at s node)); simpl; ring.
Qed.


(** C8: backward penalty scaling.  [calculateCurveCost] is the arc length of
    the transition for a forward curve and [backward_penalty_factor] times
    the arc length for a backward curve; the distance term of
    [calculateStraightCost] (what is left of the cost once the turn surcharge
    is taken away) is the Euclidean distance for a forward segment and
    [backward_penalty_factor] times the distance for a backward one. *)
Theorem backward_penalty_scaling (s : Search) (node : NodePtr) (t : Transition) :
  transition_at s (transition (node_at s node)) = Ok t ->
  calculateCurveCost X s node =
    Ok (if curve_forward (node_at s node) then arc_length X t
        else (backward_penalty_factor s * arc_length X t)%Q) /\
  forall (sp ep : Vector2d) (sf pf : bool),
    isSegmentForward X s (next_segment (node_at s node)) sp ep = Ok sf ->
    isPreviousSegmentForward X s node = Ok pf ->
    exists c,
      calculateStraightCost X s node sp ep = Ok c /\
      (c - turning_surcharge s pf sf (curve_forward (node_at s node)) ==
         if sf then norm X (vsub ep sp)
         else backward_penalty_factor s * norm X (vsub ep sp))%Q.
Proof.
  intros Ht. split.
  - unfold calculateCurveCost. rewrite Ht. simpl.
    destruct (curve_forward (node_at s node)); reflexivity.
  - intros sp ep sf pf Hsf Hpf.
    destruct (calculateStraightCost_decompose s node sp ep sf pf Hsf Hpf)
      as (c & Hc & Heq).
    exists c. split; [exact Hc|].
    rewrite Heq. unfold distance_cost. destruct sf; ring.
Qed.

(** C10: [isSegmentForward] answers forward exactly when the dot product of
    the direction of the segment and the movement is at least zero.  A zero
    or orthogonal movement is forward: the straight cost then carries no
    backward penalty and the turn comparisons see forward travel.  Whether
    the warning for a short movement was logged has no bearing on the
    answer. *)
Theorem isSegmentForward_dot_nonneg (s : Search) (segment : SegmentPtr)
    (pos target : Vector2d) (sg : Segment) :
  segment_at s segment = Ok sg ->
  let d := dot (vsub (endPoint (line sg)) (startPoint (line sg))) (vsub target pos) in
  exists warned b : bool,
    isSegmentForward_traced X s segment pos target = Ok (warned, b) /\
    isSegmentForward X s segment pos target = Ok b /\
    (b = true <-> (0 <= d)%Q) /\
    ((d == 0)%Q -> b = true) /\
    (target = pos -> b = true) /\
    (warned = true <-> (norm X (vsub target pos) < 0.1)%Q) /\
    b = Qle_bool 0 d /\
    forall (node : NodePtr) (pf : bool),
      next_segment (node_at s node) = segment ->
      isPreviousSegmentForward X s node = Ok pf ->
      (d == 0)%Q ->
      exists c,
        calculateStraightCost X s node pos target = Ok c /\
        (c == norm X (vsub target pos)
              + turning_surcharge s pf true (curve_forward (node_at s node)))%Q.
Proof.
  intros Hsg d.
  exists (Qlt_bool (norm X (vsub target pos)) 0.1), (Qle_bool 0 d).
  assert (Hzero : (d == 0)%Q -> Qle_bool 0 d = true).
  { intros H0. apply Qle_bool_iff. rewrite H0. apply Qle_refl. }
  split; [unfold isSegmentForward_traced; rewrite Hsg; reflexivity|].
  split; [apply isSegmentForward_Ok; exact Hsg|].
  split; [apply Qle_bool_iff|].
  split; [exact Hzero|].
  split.
  { intros ->. apply Hzero. subst d. unfold dot, vsub. simpl. ring. }
  split; [apply Qlt_bool_iff|].
  split; [reflexivity|].
  intros node pf Hseg Hpf H0.
  assert (Hsf : isSegmentForward X s (next_segment (node_at s node)) pos target = Ok true).
  { rewrite Hseg, (isSegmentForward_Ok _ _ _ _ _ Hsg). fold d. rewrite Hzero; auto. }
  destruct (calculateStraightCost_decompose s node pos target true pf Hsf Hpf)
    as (c & Hc & Heq).
  exists c. split; [exact Hc|]. exact Heq.
Qed.

End CostModel.

(** * Properties of the path assembly *)

Section Assembly.

Variable X : Extern.

(** The poses of a polyline walked in the order given: one pose for every
    point after the first, headed from the point before it. *)
Fixpoint curve_poses (pth : list Vector2d) : list PathPose :=
  match pth with
  | a :: (b :: _) as rest =>
      mkPose b.1 b.2 (atan2 X (vsub b a).2 (vsub b a).1) :: curve_poses rest
  | _ => []
  end.

Lemma curve_poses_length (pth : list Vector2d) :
  length (curve_poses pth) = length pth - 1.
Proof.
  induction pth as [|a [|b rest] IH]; simpl in *; try reflexivity.
  rewrite IH. lia.
Qed.

Lemma curve_poses_lookup (pth : list Vector2d) (k : nat) (a b : Vector2d) :
  pth !! k = Some a -> pth !! S k = Some b ->
  curve_poses pth !! k =
    Some (mkPose b.1 b.2 (atan2 X (vsub b a).2 (vsub b a).1)).
Proof.
  revert k. induction pth as [|x rest IH]; intros k Ha Hb.
  - destruct k; simplify_eq/=.
  - destruct rest as [|y rest'].
    + destruct k; simplify_eq/=.
    + destruct k as [|k]; simplify_eq/=; [reflexivity|].
      apply IH; assumption.
Qed.

Lemma at_middle {A : Type} (l1 l2 : list A) (x : A) :
  at_ (l1 ++ x :: l2) (length l1) = Ok x.
Proof. unfold at_. rewrite list_lookup_middle; reflexivity. Qed.

Lemma insertCurveSegment_forward_poses (rest pre : list Vector2d) (a : Vector2d)
    (res : list PathPose) :
  insertCurveSegment_forward X (pre ++ a :: rest)
    (seq (S (length pre)) (length rest)) res =
  Ok (res ++ curve_poses (a :: rest)).
Proof.
  revert pre a res. induction rest as [|b rest IH]; intros pre a res.
  - simpl. rewrite app_nil_r. reflexivity.
  - cbn [length seq insertCurveSegment_forward].
    replace (pre ++ a :: b :: rest) with ((pre ++ [a]) ++ b :: rest)
      by (rewrite <- app_assoc; reflexivity).
    replace (S (length pre)) with (length (pre ++ [a]))
      by (rewrite length_app; simpl; lia).
    rewrite at_middle. cbn [bind].
    replace (length (pre ++ [a]) - 1) with (length pre)
      by (rewrite length_app; simpl; lia).
    rewrite <- (app_assoc pre [a]). cbn [app].
    rewrite at_middle. cbn [bind].
    replace (pre ++ a :: b :: rest) with ((pre ++ [a]) ++ b :: rest)
      by (rewrite <- app_assoc; reflexivity).
    replace (S (S (length pre))) with (S (length (pre ++ [a])))
      by (rewrite length_app; simpl; lia).
    rewrite IH. rewrite <- app_assoc. reflexivity.
Qed.

Lemma insertCurveSegment_backward_poses (front_ back_ : list Vector2d) (b : Vector2d)
    (res : list PathPose) :
  insertCurveSegment_backward X (front_ ++ b :: back_)
    (rev (seq 0 (length front_))) res =
  Ok (res ++ curve_poses (b :: rev front_)).
Proof.
  revert b back_ res. induction front_ as [|a front_ IH] using rev_ind;
    intros b back_ res.
  - simpl. rewrite app_nil_r. reflexivity.
  - rewrite length_app. cbn [length]. rewrite Nat.add_1_r.
    rewrite seq_S, rev_app_distr. cbn [rev app Nat.add].
    cbn [insertCurveSegment_backward].
    rewrite <- app_assoc. cbn [app].
    rewrite at_middle. cbn [bind].
    replace (front_ ++ a :: b :: back_) with ((front_ ++ [a]) ++ b :: back_)
      by (rewrite <- app_assoc; reflexivity).
    replace (length front_ + 1) with (length (front_ ++ [a]))
      by (rewrite length_app; simpl; lia).
    rewrite at_middle. cbn [bind].
    rewrite <- app_assoc. cbn [app].
    rewrite IH. rewrite rev_app_distr. cbn [rev app].
    rewrite <- app_assoc. reflexivity.
Qed.

Lemma insertCurveSegment_Ok (s : Search) (res : list PathPose)
    (node : NodePtr) (t : Transition) :
  transition_at s (transition (node_at s node)) = Ok t ->
  insertCurveSegment X s res node =
    Ok (res ++ curve_poses (if curve_forward (node_at s node) then path t
                            else rev (path t))).
Proof.
  intros Ht. unfold insertCurveSegment. rewrite Ht. cbn [bind].
  destruct (curve_forward (node_at s node)).
  - destruct (path t) as [|a rest]; [simpl; rewrite app_nil_r; reflexivity|].
    cbn [length]. rewrite Nat.sub_succ, Nat.sub_0_r.
    apply (insertCurveSegment_forward_poses rest [] a res).
  - destruct (path t) as [|b front_] using rev_ind;
      [simpl; rewrite app_nil_r; reflexivity|].
    rewrite length_app. cbn [length].
    replace (length front_ + 1 - 1) with (length front_) by lia.
    rewrite rev_app_distr. cbn [rev app].
    apply (insertCurveSegment_backward_poses front_ [] b res).
Qed.

(** C7 (amended): [insertCurveSegment] appends one pose for every point of
    the polyline except the first one in the order of traversal (the
    polyline itself for a forward curve, the reversed polyline for a
    backward one); the pose at a point is headed from the point before it
    in that order to the point itself.  A polyline of [m] points yields
    [m - 1] poses. *)
Theorem insertCurveSegment_poses (s : Search) (res : list PathPose)
    (node : NodePtr) (t : Transition) :
  transition_at s (transition (node_at s node)) = Ok t ->
  let traversal := if curve_forward (node_at s node) then path t else rev (path t) in
  insertCurveSegment X s res node = Ok (res ++ curve_poses traversal) /\
  length (curve_poses traversal) = length (path t) - 1 /\
  forall (k : nat) (a b : Vector2d),
    traversal !! k = Some a -> traversal !! S k = Some b ->
    curve_poses traversal !! k =
      Some (mkPose b.1 b.2 (atan2 X (vsub b a).2 (vsub b a).1)).
Proof.
  intros Ht traversal. split; [|split].
  - apply insertCurveSegment_Ok. exact Ht.
  - subst traversal. rewrite curve_poses_length.
    destruct (curve_forward (node_at s node)); [reflexivity|].
    rewrite length_rev. reflexivity.
  - intros k a b. apply curve_poses_lookup.
Qed.

(** [findAppendices] does not touch the course, and when it reports success
    both appendices are non-empty and both segments can be dereferenced. *)
Lemma findAppendices_true (s s' : Search) (map : OccupancyGrid)
    (start_pose end_pose : PathPose) :
  findAppendices X s map start_pose end_pose = Ok (true, s') ->
  start_appendix s' <> [] /\ end_appendix s' <> [] /\
  (exists sg, segment_at s' (start_segment s') = Ok sg) /\
  (exists sg, segment_at s' (end_segment s') = Ok sg) /\
  nodes s' = nodes s /\ best_path s' = best_path s /\ min_cost s' = min_cost s.
Proof.
  unfold findAppendices. intros H.
  apply bind_Ok_inv in H as (a & Ha & H). cbn [start_appendix set_start_appendix] in H.
  destruct (last a) as [start|] eqn:Hlast; [|discriminate].
  apply bind_Ok_inv in H as (sg & Hsg & H).
  cbn [start_segment set_start_pt set_start_segment] in H.
  destruct (findClosestSegment X _ start _ _) as [i|] eqn:Hi; [|discriminate].
  apply bind_Ok_inv in H as (a' & Ha' & H).
  cbn [end_appendix set_end_appendix] in H.
  destruct a' as [|p a']; [discriminate|].
  apply bind_Ok_inv in H as (e & He & H).
  apply bind_Ok_inv in H as (sg' & Hsg' & H).
  cbn [end_segment set_end_pt set_end_segment] in H.
  destruct (findClosestSegment X _ e _ _) as [j|] eqn:Hj; [|discriminate].
  injection H as <-. cbn.
  split; [intros ->; discriminate|].
  split.
  { intros Hnil. apply (f_equal (@length _)) in Hnil.
    rewrite length_app in Hnil. simpl in Hnil. lia. }
  split; [exists sg; rewrite <- Hsg; reflexivity|].
  split; [exists sg'; rewrite <- Hsg'; reflexivity|].
  repeat split.
Qed.

(** C9: the same-segment short cut.  When both appendices are found and
    the start segment is the end segment, [findPath] returns the start
    appendix, a pose at the start point and a pose at the end point, both
    headed along the segment, and the end appendix.  The graph search is
    not run: the nodes, the best path and the minimum cost stay as they
    were. *)
Theorem findPath_same_segment (fuel : nat) (s s1 s2 : Search) (map : OccupancyGrid)
    (start_pose end_pose : PathPose) :
  map_service_call X = Some map ->
  initMaps s map = Ok s1 ->
  findAppendices X s1 map start_pose end_pose = Ok (true, s2) ->
  start_segment s2 = end_segment s2 ->
  exists sg : Segment,
    segment_at s2 (start_segment s2) = Ok sg /\
    let delta := vsub (endPoint (line sg)) (startPoint (line sg)) in
    let yaw := atan2 X delta.2 delta.1 in
    findPath X fuel s start_pose end_pose =
      Ok (start_appendix s2
            ++ [mkPose (start_pt s2).1 (start_pt s2).2 yaw;
                mkPose (end_pt s2).1 (end_pt s2).2 yaw]
            ++ end_appendix s2, s2) /\
    nodes s2 = nodes s /\ best_path s2 = best_path s /\ min_cost s2 = min_cost s.
Proof.
  intros Hmap Hinit Happ Hsame.
  destruct (findAppendices_true _ _ _ _ _ Happ)
    as (Hsa & Hea & (sg & Hsg) & _ & Hn & Hb & Hm).
  exists sg. split; [exact Hsg|]. cbn zeta. split.
  - unfold findPath. rewrite Hmap, Hinit. cbn [bind]. rewrite Happ. cbn [bind].
    cbn [negb fst snd]. rewrite decide_True by exact Hsame.
    unfold insertFirstNode, insertLastNode. rewrite <- Hsame, Hsg. cbn [bind].
    unfold combine. destruct (start_appendix s2); [congruence|]. reflexivity.
  - assert (Hs1 : nodes s1 = nodes s /\ best_path s1 = best_path s /\
                  min_cost s1 = min_cost s).
    { unfold initMaps in Hinit. apply bind_Ok_inv in Hinit as (c & _ & Hinit).
      injection Hinit as <-. repeat split. }
    destruct Hs1 as (? & ? & ?). repeat split; congruence.
Qed.

End Assembly.

(** * Properties of the search *)

Section SearchFacts.

Variable X : Extern.

(** ** Costs *)

Lemma cost_le_refl (c : Cost) : cost_le c c.
Proof. destruct c; simpl; [apply Qle_refl|exact I]. Qed.

Lemma cost_le_trans (a b c : Cost) : cost_le a b -> cost_le b c -> cost_le a c.
Proof.
  destruct a, b, c; simpl; try tauto. apply Qle_trans.
Qed.

Lemma cost_lt_le (a b : Cost) : cost_lt a b = true -> cost_le a b.
Proof.
  destruct a, b; simpl; try discriminate; try tauto.
  intros H. apply Qlt_bool_iff in H. apply Qlt_le_weak. exact H.
Qed.

Lemma cost_lt_false_le (a b : Cost) : cost_lt a b = false -> cost_le b a.
Proof.
  destruct a, b; simpl; try discriminate; try tauto.
  apply Qlt_bool_false_iff.
Qed.

Lemma cost_lt_finite (a b : Cost) : cost_lt a b = true -> exists q, a = Finite q.
Proof. destruct a; simpl; [eauto|discriminate]. Qed.

(** ** Reading the nodes after an assignment *)

Lemma node_at_update_node (s : Search) (k : NodePtr) (f : Node -> Node) (n : NodePtr) :
  node_at (update_node s k f) n =
    if decide (k = n) then f (node_at s k) else node_at s n.
Proof.
  unfold node_at, update_node. cbn. apply lookup_total_insert.
Qed.

Lemma node_at_update_node_field {A : Type} (proj : Node -> A) (s : Search)
    (k : NodePtr) (f : Node -> Node) (n : NodePtr) :
  (forall x, proj (f x) = proj x) ->
  proj (node_at (update_node s k f) n) = proj (node_at s n).
Proof.
  intros Hf. rewrite node_at_update_node.
  destruct (decide (k = n)) as [->|]; [apply Hf|reflexivity].
Qed.

Lemma nodes_at_Ok (s : Search) (k n : TransitionPtr) :
  nodes_at s k = Ok n -> n = k /\ is_Some (nodes s !! k).
Proof.
  unfold nodes_at. destruct (nodes s !! k) eqn:E; [|discriminate].
  intros H. injection H as <-. eauto.
Qed.

(** [s'] differs from [s] in the nodes only. *)
Definition nodes_only (s s' : Search) : Prop := s' = set_nodes s (nodes s').

Lemma nodes_only_refl (s : Search) : nodes_only s s.
Proof. unfold nodes_only. destruct s; reflexivity. Qed.

Lemma nodes_only_trans (s1 s2 s3 : Search) :
  nodes_only s1 s2 -> nodes_only s2 s3 -> nodes_only s1 s3.
Proof. unfold nodes_only. intros H12 H23. rewrite H23, H12. reflexivity. Qed.

Lemma nodes_only_update_node (s : Search) (k : NodePtr) (f : Node -> Node) :
  nodes_only s (update_node s k f).
Proof. reflexivity. Qed.

(** ** One relaxation *)

Ltac bind_inv H :=
  repeat (let a := fresh "a" in let Ha := fresh "Ha" in
          apply bind_Ok_inv in H as (a & Ha & H)).

(** What [relax] does to the nodes: nothing, or the three assignments of
    the improving branch. *)
Lemma relax_cases (s s' : Search) (queue queue' : list NodePtr)
    (current_node : NodePtr) (k : TransitionPtr) :
  relax X s queue current_node k = Ok (s', queue') ->
  is_Some (nodes s !! k) /\
  exists curve_cost straight_cost sp ep,
    calculateCurveCost X s current_node = Ok curve_cost /\
    findStartPointOnNextSegment s current_node = Ok sp /\
    findEndPointOnSegment s current_node (Some k) = Ok ep /\
    calculateStraightCost X s current_node sp ep = Ok straight_cost /\
    let new_cost :=
      cost_add (cost_add (cost (node_at s current_node)) curve_cost) straight_cost in
    (cost_lt new_cost (cost (node_at s k)) = false /\ s' = s /\ queue' = queue) \/
    (cost_lt new_cost (cost (node_at s k)) = true /\
     s' = update_node
            (update_node
               (update_node s k (fun n => set_prev n (Some current_node)))
               current_node (fun n => set_next n (Some k)))
            k (fun n => set_cost n new_cost) /\
     queue' = queue_insert s'
                (if queue_find s' queue k then queue_erase s' queue k else queue) k).
Proof.
  unfold relax. intros H. bind_inv H.
  apply nodes_at_Ok in Ha as [-> Hk]. split; [exact Hk|].
  exists a0, a3, a1, a2. repeat (split; [assumption|]).
  cbn zeta.
  destruct (cost_lt _ _) eqn:E.
  - right. injection H as <- <-. split; [reflexivity|]. split; reflexivity.
  - left. injection H as <- <-. split; [reflexivity|]. split; reflexivity.
Qed.

Lemma relax_cost_le (s s' : Search) (queue queue' : list NodePtr)
    (current_node : NodePtr) (k : TransitionPtr) :
  relax X s queue current_node k = Ok (s', queue') ->
  nodes_only s s' /\
  forall n, cost_le (cost (node_at s' n)) (cost (node_at s n)).
Proof.
  intros H. apply relax_cases in H as (_ & cc & sc & sp & ep & _ & _ & _ & _ & H).
  cbn zeta in H. destruct H as [(_ & -> & _)|(Hlt & -> & _)].
  - split; [apply nodes_only_refl|]. intros n. apply cost_le_refl.
  - split; [reflexivity|]. intros n.
    rewrite node_at_update_node.
    destruct (decide (k = n)) as [->|Hne].
    + cbn [cost set_cost]. apply cost_lt_le. exact Hlt.
    + rewrite !(node_at_update_node_field cost) by reflexivity.
      apply cost_le_refl.
Qed.

Lemma relax_list_cost_le (ts : list Transition) (s s' : Search)
    (queue queue' : list NodePtr) (current_node : NodePtr)
    (i : nat) (forward : bool) (j : nat) :
  relax_list X s queue current_node i forward j ts = Ok (s', queue') ->
  nodes_only s s' /\
  forall n, cost_le (cost (node_at s' n)) (cost (node_at s n)).
Proof.
  revert s queue j. induction ts as [|t ts IH]; intros s queue j H.
  - injection H as <- <-. split; [apply nodes_only_refl|].
    intros n. apply cost_le_refl.
  - cbn [relax_list] in H. apply bind_Ok_inv in H as ([s1 q1] & H1 & H).
    apply relax_cost_le in H1 as [Ho1 H1]. apply IH in H as [Ho2 H2].
    split; [eapply nodes_only_trans; eassumption|].
    intros n. eapply cost_le_trans; [apply H2|apply H1].
Qed.

Lemma expand_cost_le (s s' : Search) (queue queue' : list NodePtr)
    (current_node : NodePtr) :
  expand X s queue current_node = Ok (s', queue') ->
  nodes_only s s' /\
  forall n, cost_le (cost (node_at s' n)) (cost (node_at s n)).
Proof.
  unfold expand. intros H. bind_inv H. destruct a1 as [s1 q1].
  apply relax_list_cost_le in Ha1 as [Ho1 H1].
  apply relax_list_cost_le in H as [Ho2 H2].
  split; [eapply nodes_only_trans; eassumption|].
  intros n. eapply cost_le_trans; [apply H2|apply H1].
Qed.

(** ** Finishing a candidate *)

(** The members that a search never assigns. *)
Definition request (s : Search) :=
  (generator_ s, start_segment s, end_segment s, start_pt s, end_pt s,
   start_appendix s, end_appendix s,
   backward_penalty_factor s, turning_penalty s, turning_straight_segment s).

Lemma nodes_only_request (s s' : Search) :
  nodes_only s s' ->
  request s' = request s /\ min_cost s' = min_cost s /\ best_path s' = best_path s.
Proof. intros ->. repeat split. Qed.

(** [collect_transitions] assigns [next] links only. *)
Lemma collect_transitions_frame (fuel : nat) (s s' : Search) (tmp : option NodePtr)
    (acc chain : list NodePtr) :
  collect_transitions fuel s tmp acc = Ok (chain, s') ->
  nodes_only s s' /\
  forall n, set_next (node_at s' n) None = set_next (node_at s n) None.
Proof.
  revert s tmp acc. induction fuel as [|fuel IH]; intros s tmp acc H.
  - destruct tmp; [discriminate|]. injection H as <- <-.
    split; [apply nodes_only_refl|reflexivity].
  - destruct tmp as [t|]; cbn [collect_transitions] in H.
    + apply IH in H as [Ho H].
      destruct (prev (node_at s t)) as [p|].
      * split; [eapply nodes_only_trans; [|exact Ho]; reflexivity|].
        intros n. rewrite H, node_at_update_node.
        destruct (decide (p = n)) as [->|]; reflexivity.
      * split; assumption.
    + injection H as <- <-. split; [apply nodes_only_refl|reflexivity].
Qed.

(** The planner on which [generatePathCandidate] runs [collect_transitions]
    when the candidate of [node] with deferred cost [add] is the best so
    far. *)
Definition accepted_state (s : Search) (node : NodePtr) (add : Q) : Search :=
  let s := update_node s node (fun n => set_cost n (cost_add (cost n) add)) in
  set_best_path (set_min_cost s (cost (node_at s node))) [].

Lemma generatePathCandidate_spec (fuel : nat) (s s' : Search) (node : NodePtr) :
  generatePathCandidate X fuel s node = Ok s' ->
  exists sp add,
    findStartPointOnNextSegment s node = Ok sp /\
    calculateStraightCost X s node sp (end_pt s) = Ok add /\
    let total := cost_add (cost (node_at s node)) add in
    request s' = request s /\
    (forall n, set_next (set_cost (node_at s' n) Infinity) None =
               set_next (set_cost (node_at s n) Infinity) None) /\
    cost (node_at s' node) = total /\
    (forall n, n <> node -> cost (node_at s' n) = cost (node_at s n)) /\
    if cost_lt total (min_cost s) then
      min_cost s' = total /\
      exists chain sm,
        collect_transitions fuel (accepted_state s node add) (Some node) [] =
          Ok (chain, sm) /\
        generatePath X sm chain [] = Ok (best_path s')
    else min_cost s' = min_cost s /\ best_path s' = best_path s.
Proof.
  unfold generatePathCandidate. intros H.
  apply bind_Ok_inv in H as (sp & Hsp & H).
  apply bind_Ok_inv in H as (add & Hadd & H).
  exists sp, add. split; [exact Hsp|]. split; [exact Hadd|]. cbn zeta.
  set (s1 := update_node s node (fun n => set_cost n (cost_add (cost n) add))) in *.
  assert (Hc1 : cost (node_at s1 node) = cost_add (cost (node_at s node)) add).
  { subst s1. rewrite node_at_update_node, decide_True by reflexivity.
    reflexivity. }
  assert (Hother : forall n, n <> node -> cost (node_at s1 n) = cost (node_at s n)).
  { intros n Hn. subst s1. rewrite node_at_update_node.
    rewrite decide_False by congruence. reflexivity. }
  assert (Hrest : forall n, set_next (set_cost (node_at s1 n) Infinity) None =
                            set_next (set_cost (node_at s n) Infinity) None).
  { intros n. subst s1. rewrite node_at_update_node.
    destruct (decide (node = n)) as [->|]; reflexivity. }
  rewrite <- Hc1.
  apply bind_Ok_inv in H as (logged & _ & H).
  destruct (cost_lt (cost (node_at s1 node)) (min_cost s1)) eqn:Hlt.
  - apply bind_Ok_inv in H as ([chain sm] & Hcoll & H).
    apply bind_Ok_inv in H as (best & Hbest & H). injection H as <-.
    cbn [fst snd] in *.
    pose proof (collect_transitions_frame _ _ _ _ _ _ Hcoll) as [Ho Hn].
    assert (Hcost : forall n, cost (node_at sm n) = cost (node_at s1 n)).
    { intros n. specialize (Hn n). apply (f_equal cost) in Hn. exact Hn. }
    split; [rewrite Ho; reflexivity|].
    split.
    { intros n. specialize (Hn n).
      change (node_at (set_best_path sm best) n) with (node_at sm n).
      rewrite <- Hrest.
      apply (f_equal (fun x => set_cost x Infinity)) in Hn. exact Hn. }
    split; [apply Hcost|].
    split; [intros n Hne; change (node_at (set_best_path sm best) n) with (node_at sm n);
            rewrite Hcost; apply Hother; exact Hne|].
    change (min_cost s1) with (min_cost s) in Hlt. rewrite Hlt.
    split; [rewrite Ho; reflexivity|].
    exists chain, sm. split; [exact Hcoll|].
    assert (Hnil : best_path sm = []) by (rewrite Ho; reflexivity).
    rewrite Hnil in Hbest. exact Hbest.
  - injection H as <-.
    split; [reflexivity|]. split; [exact Hrest|]. split; [reflexivity|].
    split; [exact Hother|].
    change (min_cost s1) with (min_cost s) in Hlt. rewrite Hlt.
    split; reflexivity.
Qed.

(** ** The frontier holds nodes with a finite cost *)

Definition finite_cost (s : Search) (n : NodePtr) : Prop :=
  exists q, cost (node_at s n) = Finite q.

Lemma dropwhile_not_greater_subset (s : Search) (n : NodePtr) (queue : list NodePtr) :
  forall x, x ∈ dropwhile_not_greater s n queue -> x ∈ queue.
Proof.
  induction queue as [|e queue IH]; intros x Hx; [exact Hx|].
  cbn [dropwhile_not_greater] in Hx. destruct (comp s n e); [exact Hx|].
  apply elem_of_cons. right. apply IH. exact Hx.
Qed.

Lemma queue_erase_subset (s : Search) (n : NodePtr) (queue : list NodePtr) :
  forall x, x ∈ queue_erase s queue n -> x ∈ queue.
Proof.
  induction queue as [|e queue IH]; intros x Hx; [exact Hx|].
  cbn [queue_erase] in Hx. destruct (comp s e n).
  - apply elem_of_cons in Hx as [->|Hx]; [left|right; apply IH; exact Hx].
  - apply (dropwhile_not_greater_subset s n (e :: queue)). exact Hx.
Qed.

Lemma queue_insert_subset (s : Search) (n : NodePtr) (queue : list NodePtr) :
  forall x, x ∈ queue_insert s queue n -> x = n \/ x ∈ queue.
Proof.
  induction queue as [|e queue IH]; intros x Hx.
  - apply list_elem_of_singleton in Hx. left. exact Hx.
  - cbn [queue_insert] in Hx. destruct (comp s e n).
    + apply elem_of_cons in Hx as [->|Hx]; [right; left|].
      destruct (IH x Hx) as [->|Hin]; [left; reflexivity|right; right; exact Hin].
    + destruct (comp s n e).
      * apply elem_of_cons in Hx as [->|Hx]; [left; reflexivity|right; exact Hx].
      * right. exact Hx.
Qed.

Lemma relax_finite (s s' : Search) (queue queue' : list NodePtr)
    (current_node : NodePtr) (k : TransitionPtr) :
  relax X s queue current_node k = Ok (s', queue') ->
  (forall n, finite_cost s n -> finite_cost s' n) /\
  (forall x, x ∈ queue' -> x ∈ queue \/ finite_cost s' x).
Proof.
  intros H. apply relax_cases in H as (_ & cc & sc & sp & ep & _ & _ & _ & _ & H).
  cbn zeta in H. destruct H as [(_ & -> & ->)|(Hlt & Hs' & ->)].
  - split; [tauto|]. intros x Hx. left. exact Hx.
  - assert (Hk : finite_cost s' k).
    { apply cost_lt_finite in Hlt as [q Hq]. exists q.
      rewrite Hs', node_at_update_node, decide_True by reflexivity.
      cbn [cost set_cost]. exact Hq. }
    split.
    + intros n Hn. destruct (decide (k = n)) as [<-|Hne]; [exact Hk|].
      destruct Hn as [q Hq]. exists q. rewrite <- Hq, Hs'.
      rewrite node_at_update_node, decide_False by exact Hne.
      rewrite !(node_at_update_node_field cost) by reflexivity. reflexivity.
    + intros x Hx. apply queue_insert_subset in Hx as [->|Hx]; [right; exact Hk|].
      left. destruct (queue_find s' queue k); [|exact Hx].
      apply queue_erase_subset in Hx. exact Hx.
Qed.

(** ** The candidates of a run *)

(** The total cost of a candidate: the cost of its node once the deferred
    straight cost to the end point is added. *)
Definition cand_total (c : Candidate) : Cost :=
  cost (node_at (cand_after c) (cand_node c)).

(** A candidate comes from a node whose resulting segment is the end
    segment, and its total is the cost the node had in the frontier plus the
    straight cost from the node to the end point. *)
Definition finished (c : Candidate) : Prop :=
  next_segment (node_at (cand_before c) (cand_node c)) = end_segment (cand_before c) /\
  exists sp add q,
    findStartPointOnNextSegment (cand_before c) (cand_node c) = Ok sp /\
    calculateStraightCost X (cand_before c) (cand_node c) sp
      (end_pt (cand_before c)) = Ok add /\
    cost (node_at (cand_before c) (cand_node c)) = Finite q /\
    cand_total c = Finite (q + add).

(** [p] is the path assembled for the candidate: [generatePath] run on the
    chain of predecessors of its node. *)
Definition assembled (c : Candidate) (p : list PathPose) : Prop :=
  exists fuel sp add chain sm,
    findStartPointOnNextSegment (cand_before c) (cand_node c) = Ok sp /\
    calculateStraightCost X (cand_before c) (cand_node c) sp
      (end_pt (cand_before c)) = Ok add /\
    collect_transitions fuel (accepted_state (cand_before c) (cand_node c) add)
      (Some (cand_node c)) [] = Ok (chain, sm) /\
    generatePath X sm chain [] = Ok p.

(** ** Seeding the frontier *)

Lemma enqueueStartingNode_finite (s s' : Search) (queue queue' : list NodePtr)
    (k : TransitionPtr) (t : Transition) :
  enqueueStartingNode X s queue k t = Ok (s', queue') ->
  nodes_only s s' /\
  (forall n, finite_cost s n -> finite_cost s' n) /\
  (forall x, x ∈ queue' -> x ∈ queue \/ finite_cost s' x).
Proof.
  unfold enqueueStartingNode. intros H. bind_inv H.
  apply nodes_at_Ok in Ha as [-> _]. injection H as <- <-.
  assert (Hk : finite_cost (update_node s k (fun n => set_cost n (Finite a1))) k).
  { exists a1. rewrite node_at_update_node, decide_True by reflexivity. reflexivity. }
  split; [reflexivity|]. split.
  - intros n [q Hq]. destruct (decide (k = n)) as [<-|Hne]; [exact Hk|].
    exists q. rewrite node_at_update_node, decide_False by exact Hne. exact Hq.
  - intros x Hx. apply queue_insert_subset in Hx as [->|Hx]; [right; exact Hk|].
    left. exact Hx.
Qed.

Lemma enqueueStartingNodes_list_finite (ts : list Transition) (s s' : Search)
    (queue queue' : list NodePtr) (i : nat) (forward : bool) (j : nat) :
  enqueueStartingNodes_list X s queue i forward j ts = Ok (s', queue') ->
  nodes_only s s' /\
  (forall n, finite_cost s n -> finite_cost s' n) /\
  (forall x, x ∈ queue' -> x ∈ queue \/ finite_cost s' x).
Proof.
  revert s queue j. induction ts as [|t ts IH]; intros s queue j H.
  - injection H as <- <-. split; [apply nodes_only_refl|].
    split; [tauto|]. intros x Hx. left. exact Hx.
  - cbn [enqueueStartingNodes_list] in H.
    apply bind_Ok_inv in H as ([s1 q1] & H1 & H).
    apply enqueueStartingNode_finite in H1 as (Ho1 & Hf1 & Hq1).
    apply IH in H as (Ho2 & Hf2 & Hq2).
    split; [eapply nodes_only_trans; eassumption|].
    split; [intros n Hn; apply Hf2, Hf1, Hn|].
    intros x Hx. destruct (Hq2 x Hx) as [Hin|Hfin]; [|right; exact Hfin].
    destruct (Hq1 x Hin) as [Hin'|Hfin]; [left; exact Hin'|].
    right. apply Hf2. exact Hfin.
Qed.

Lemma enqueueStartingNodes_finite (s s' : Search) (queue' : list NodePtr) :
  enqueueStartingNodes X s [] = Ok (s', queue') ->
  nodes_only s s' /\ forall x, x ∈ queue' -> finite_cost s' x.
Proof.
  unfold enqueueStartingNodes. intros H. bind_inv H. destruct a1 as [s1 q1].
  apply enqueueStartingNodes_list_finite in Ha1 as (Ho1 & Hf1 & Hq1).
  apply enqueueStartingNodes_list_finite in H as (Ho2 & Hf2 & Hq2).
  split; [eapply nodes_only_trans; eassumption|].
  intros x Hx. destruct (Hq2 x Hx) as [Hin|Hfin]; [|exact Hfin].
  apply Hf2. destruct (Hq1 x Hin) as [Hin'|Hfin]; [|exact Hfin].
  apply elem_of_nil in Hin'. contradiction.
Qed.

(** ** Relaxing and finishing *)

(** C2 (amended): relaxation never raises a recorded cost, the deferred
    cost does.  Expanding a dequeued node (the two inner loops of
    [performDijkstraSearch]) leaves every node with a cost that is at most
    the cost it had.  Finishing a candidate adds the straight cost from the
    node to the end point to the cost field of that node, and changes the
    cost of no other node. *)
Theorem relaxation_lowers_candidate_adds (fuel : nat) (s s1 s2 : Search)
    (queue queue1 : list NodePtr) (current_node node : NodePtr) :
  expand X s queue current_node = Ok (s1, queue1) ->
  generatePathCandidate X fuel s node = Ok s2 ->
  (forall n, cost_le (cost (node_at s1 n)) (cost (node_at s n))) /\
  exists sp add,
    findStartPointOnNextSegment s node = Ok sp /\
    calculateStraightCost X s node sp (end_pt s) = Ok add /\
    cost (node_at s2 node) = cost_add (cost (node_at s node)) add /\
    forall n, n <> node -> cost (node_at s2 n) = cost (node_at s n).
Proof.
  intros Hexp Hgen. split.
  - apply (expand_cost_le _ _ _ _ _ Hexp).
  - destruct (generatePathCandidate_spec _ _ _ _ Hgen)
      as (sp & add & Hsp & Hadd & _ & _ & Htot & Hother & _).
    exists sp, add. repeat split; assumption.
Qed.

End SearchFacts.

(** * An invariant and a measure for the search *)

Section Termination.

Variable X : Extern.

(** All costs are taken to be multiples of a unit [u]. *)
Variable u : Q.
Hypothesis u_pos : (0 < u)%Q.

Definition on_grid (q : Q) : Prop :=
  exists n : nat, (q == inject_Z (Z.of_nat n) * u)%Q.

Lemma on_grid_eq (a b : Q) : (a == b)%Q -> on_grid a -> on_grid b.
Proof. intros Hab [n Hn]. exists n. rewrite <- Hab. exact Hn. Qed.

Lemma on_grid_0 : on_grid 0.
Proof. exists 0%nat. simpl. ring. Qed.

Lemma on_grid_plus (a b : Q) : on_grid a -> on_grid b -> on_grid (a + b).
Proof.
  intros [n Hn] [m Hm]. exists (n + m)%nat.
  rewrite Hn, Hm, Nat2Z.inj_add, inject_Z_plus. ring.
Qed.

Lemma on_grid_nonneg (a : Q) : on_grid a -> (0 <= a)%Q.
Proof.
  intros [n Hn]. rewrite Hn.
  apply Qmult_le_0_compat; [|apply Qlt_le_weak, u_pos].
  change 0%Q with (inject_Z 0). rewrite <- Zle_Qle. lia.
Qed.

(** The number of units in a cost. *)
Definition rank (q : Q) : nat := Z.to_nat (Qfloor (q / u)).

Lemma rank_on_grid (q : Q) (n : nat) :
  (q == inject_Z (Z.of_nat n) * u)%Q -> rank q = n.
Proof.
  intros Hq. unfold rank.
  assert (Hdiv : (q / u == inject_Z (Z.of_nat n))%Q).
  { rewrite Hq. field. intros H0. rewrite H0 in u_pos.
    exact (Qlt_irrefl _ u_pos). }
  rewrite (Qfloor_comp _ _ Hdiv), Qfloor_Z. apply Nat2Z.id.
Qed.

Lemma rank_lt (a b : Q) : on_grid a -> on_grid b -> (a < b)%Q -> (rank a < rank b)%nat.
Proof.
  intros [n Hn] [m Hm] Hlt.
  rewrite (rank_on_grid _ _ Hn), (rank_on_grid _ _ Hm).
  rewrite Hn, Hm in Hlt.
  apply Qmult_lt_r in Hlt; [|exact u_pos].
  rewrite <- Zlt_Qlt in Hlt. lia.
Qed.

(** The parameters and the external lengths give costs on the grid. *)
Definition costs_on_grid (s : Search) : Prop :=
  (forall v, on_grid (norm X v) /\ on_grid (backward_penalty_factor s * norm X v)) /\
  (forall t, on_grid (arc_length X t) /\
             on_grid (backward_penalty_factor s * arc_length X t)) /\
  on_grid (turning_straight_segment s) /\
  on_grid (turning_penalty s).

Lemma costs_on_grid_request (s s' : Search) :
  request s' = request s -> costs_on_grid s -> costs_on_grid s'.
Proof.
  intros Hreq. injection Hreq as _ _ _ _ _ _ _ Hb Hp Ht.
  unfold costs_on_grid. rewrite Hb, Hp, Ht. tauto.
Qed.

Lemma calculateStraightCost_on_grid (s : Search) (node : NodePtr)
    (sp ep : Vector2d) (c : Q) :
  costs_on_grid s ->
  calculateStraightCost X s node sp ep = Ok c -> on_grid c.
Proof.
  intros (Hnorm & _ & Hts & Htp) H.
  assert (Hinv : exists sf pf,
            isSegmentForward X s (next_segment (node_at s node)) sp ep = Ok sf /\
            isPreviousSegmentForward X s node = Ok pf).
  { unfold calculateStraightCost in H.
    apply bind_Ok_inv in H as (sf & Hsf & H).
    apply bind_Ok_inv in H as (pf & Hpf & _). eauto. }
  destruct Hinv as (sf & pf & Hsf & Hpf).
  destruct (calculateStraightCost_decompose X s node sp ep sf pf Hsf Hpf)
    as (c' & Hc' & Heq).
  rewrite H in Hc'. injection Hc' as <-.
  apply (on_grid_eq _ _ (Qeq_sym _ _ Heq)).
  apply on_grid_plus.
  - unfold distance_cost. destruct sf; apply Hnorm.
  - unfold turning_surcharge.
    destruct (negb (eqb pf sf)); [apply on_grid_plus; assumption|].
    destruct (negb (eqb sf (curve_forward (node_at s node)))); [|apply on_grid_0].
    apply (on_grid_eq
             ((turning_straight_segment s + turning_straight_segment s)
              + (turning_penalty s + turning_penalty s))); [ring|].
    repeat apply on_grid_plus; assumption.
Qed.

Lemma calculateCurveCost_on_grid (s : Search) (node : NodePtr) (c : Q) :
  costs_on_grid s ->
  calculateCurveCost X s node = Ok c -> on_grid c.
Proof.
  intros (_ & Harc & _) H. unfold calculateCurveCost in H.
  apply bind_Ok_inv in H as (t & _ & H).
  destruct (curve_forward (node_at s node)); injection H as <-; apply Harc.
Qed.

(** ** The invariant of the loop *)

(** [E x] tells whether the resulting segment of node [x] is the end
    segment; [K] lists the addresses of the transitions of the course. *)
Variable E : NodePtr -> bool.
Variable K : list NodePtr.

Definition is_end (s : Search) (x : NodePtr) : bool :=
  bool_decide (next_segment (node_at s x) = end_segment s).

(** The chain of predecessors of a node ends. *)
Inductive grounded (s : Search) : NodePtr -> Prop :=
| grounded_root (v : NodePtr) :
    prev (node_at s v) = None -> grounded s v
| grounded_link (v p : NodePtr) :
    prev (node_at s v) = Some p -> grounded s p -> grounded s v.

Definition grid_cost (c : Cost) : Prop :=
  match c with
  | Finite q => on_grid q
  | Infinity => True
  end.

Record search_inv (s : Search) : Prop := {
  inv_config : costs_on_grid s;
  inv_end : forall x, is_end s x = E x;
  inv_keys : forall i sg forward j,
    generator_ s !! i = Some sg ->
    (j < length (transitions_of sg forward))%nat ->
    (i, forward, j) ∈ K;
  inv_cost : forall x, grid_cost (cost (node_at s x));
  inv_prev : forall v p,
    prev (node_at s v) = Some p ->
    E p = false /\ cost_le (cost (node_at s p)) (cost (node_at s v));
  inv_grounded : forall v, grounded s v
}.

(** ** The measure *)

Fixpoint sum_over (f : NodePtr -> nat) (l : list NodePtr) : nat :=
  match l with
  | [] => 0
  | x :: l' => f x + sum_over f l'
  end.

Lemma sum_over_le (f g : NodePtr -> nat) (l : list NodePtr) :
  (forall x, x ∈ l -> (f x <= g x)%nat) -> (sum_over f l <= sum_over g l)%nat.
Proof.
  induction l as [|x l IH]; intros H; [reflexivity|]. simpl.
  assert (f x <= g x)%nat by (apply H; left).
  assert (sum_over f l <= sum_over g l)%nat by (apply IH; intros y Hy; apply H; right; exact Hy).
  lia.
Qed.

Lemma sum_over_lt (f g : NodePtr -> nat) (l : list NodePtr) (k : NodePtr) :
  (forall x, x ∈ l -> (f x <= g x)%nat) -> k ∈ l -> (f k < g k)%nat ->
  (sum_over f l < sum_over g l)%nat.
Proof.
  induction l as [|x l IH]; intros H Hk Hlt.
  - apply elem_of_nil in Hk. contradiction.
  - simpl. apply elem_of_cons in Hk as [->|Hk].
    + assert (sum_over f l <= sum_over g l)%nat
        by (apply sum_over_le; intros y Hy; apply H; right; exact Hy).
      lia.
    + assert (f x <= g x)%nat by (apply H; left).
      assert (sum_over f l < sum_over g l)%nat
        by (apply IH; [intros y Hy; apply H; right; exact Hy|exact Hk|exact Hlt]).
      lia.
Qed.

(** Nodes short of the end segment that have no cost yet. *)
Definition unreached (s : Search) (x : NodePtr) : nat :=
  if E x then 0%nat
  else match cost (node_at s x) with
       | Infinity => 1%nat
       | Finite _ => 0%nat
       end.

(** Units in the costs of the nodes short of the end segment. *)
Definition units (s : Search) (x : NodePtr) : nat :=
  if E x then 0%nat
  else match cost (node_at s x) with
       | Infinity => 0%nat
       | Finite q => rank q
       end.

(** Nodes short of the end segment in the frontier. *)
Definition open_nodes (queue : list NodePtr) : nat :=
  sum_over (fun x => if E x then 0%nat else 1%nat) queue.

(** The measure went down, or stayed with no more open nodes in the
    frontier. *)
Definition not_above (s' s : Search) (queue' queue : list NodePtr) : Prop :=
  (sum_over (unreached s') K < sum_over (unreached s) K)%nat \/
  (sum_over (unreached s') K = sum_over (unreached s) K /\
   (sum_over (units s') K < sum_over (units s) K)%nat) \/
  (sum_over (unreached s') K = sum_over (unreached s) K /\
   sum_over (units s') K = sum_over (units s) K /\
   (open_nodes queue' <= open_nodes queue)%nat).

Lemma not_above_refl (s : Search) (queue : list NodePtr) : not_above s s queue queue.
Proof. right. right. repeat split; reflexivity. Qed.

Lemma not_above_trans (s1 s2 s3 : Search) (q1 q2 q3 : list NodePtr) :
  not_above s2 s1 q2 q1 -> not_above s3 s2 q3 q2 -> not_above s3 s1 q3 q1.
Proof. unfold not_above. lia. Qed.

Lemma open_nodes_dropwhile (s : Search) (n : NodePtr) (queue : list NodePtr) :
  (open_nodes (dropwhile_not_greater s n queue) <= open_nodes queue)%nat.
Proof.
  induction queue as [|e queue IH]; [reflexivity|].
  cbn [dropwhile_not_greater]. destruct (comp s n e); [reflexivity|].
  unfold open_nodes in *. simpl. lia.
Qed.

Lemma open_nodes_erase (s : Search) (n : NodePtr) (queue : list NodePtr) :
  (open_nodes (queue_erase s queue n) <= open_nodes queue)%nat.
Proof.
  induction queue as [|e queue IH]; [reflexivity|].
  cbn [queue_erase]. destruct (comp s e n).
  - unfold open_nodes in *. simpl. lia.
  - apply (open_nodes_dropwhile s n (e :: queue)).
Qed.

Lemma open_nodes_insert (s : Search) (n : NodePtr) (queue : list NodePtr) :
  (open_nodes (queue_insert s queue n) <=
   open_nodes queue + if E n then 0 else 1)%nat.
Proof.
  induction queue as [|e queue IH].
  - unfold open_nodes. simpl. lia.
  - cbn [queue_insert]. destruct (comp s e n).
    + unfold open_nodes in *. simpl. lia.
    + destruct (comp s n e); unfold open_nodes; simpl; lia.
Qed.

Lemma sum_over_ext (f g : NodePtr -> nat) (l : list NodePtr) :
  (forall x, f x = g x) -> sum_over f l = sum_over g l.
Proof.
  intros H. induction l as [|x l IH]; [reflexivity|]. simpl. rewrite H, IH. reflexivity.
Qed.

Lemma cost_le_lt_trans (a b c : Cost) :
  cost_le a b -> cost_lt b c = true -> cost_lt a c = true.
Proof.
  destruct a, b, c; simpl; try discriminate; try tauto.
  intros Hab Hbc. apply Qlt_bool_iff in Hbc. apply Qlt_bool_iff.
  eapply Qle_lt_trans; eassumption.
Qed.

Lemma cost_lt_irrefl (c : Cost) : cost_lt c c = false.
Proof.
  destruct c; [|reflexivity]. simpl. apply Qlt_bool_false_iff. apply Qle_refl.
Qed.

(** ** One relaxation keeps the invariant *)

(** The three assignments of the improving branch of [relax]. *)
Definition relaxed (s : Search) (k current_node : NodePtr) (new_cost : Cost) : Search :=
  update_node
    (update_node
       (update_node s k (fun n => set_prev n (Some current_node)))
       current_node (fun n => set_next n (Some k)))
    k (fun n => set_cost n new_cost).

Lemma relaxed_fields (s : Search) (k current_node : NodePtr) (new_cost : Cost)
    (x : NodePtr) :
  cost (node_at (relaxed s k current_node new_cost) x) =
    (if decide (k = x) then new_cost else cost (node_at s x)) /\
  prev (node_at (relaxed s k current_node new_cost) x) =
    (if decide (k = x) then Some current_node else prev (node_at s x)) /\
  next_segment (node_at (relaxed s k current_node new_cost) x) =
    next_segment (node_at s x).
Proof.
  unfold relaxed. rewrite !node_at_update_node.
  repeat case_decide; subst; cbn; try rewrite !node_at_update_node;
    repeat case_decide; subst; cbn; try tauto; try congruence.
Qed.

Lemma grounded_relaxed (s : Search) (k current_node : NodePtr) (new_cost : Cost) :
  (forall v p, prev (node_at s v) = Some p ->
               cost_le (cost (node_at s p)) (cost (node_at s v))) ->
  (forall v, grounded s v) ->
  cost_lt (cost (node_at s current_node)) (cost (node_at s k)) = true ->
  forall v, grounded (relaxed s k current_node new_cost) v.
Proof.
  intros Hprev Hgr Hlt.
  assert (Hbelow : forall w, grounded s w ->
            cost_lt (cost (node_at s w)) (cost (node_at s k)) = true ->
            grounded (relaxed s k current_node new_cost) w).
  { intros w Hw. induction Hw as [w Hroot|w p Hp Hw IH]; intros Hwk.
    - apply grounded_root.
      destruct (relaxed_fields s k current_node new_cost w) as (_ & -> & _).
      rewrite decide_False; [exact Hroot|].
      intros ->. rewrite cost_lt_irrefl in Hwk. discriminate.
    - apply (grounded_link (relaxed s k current_node new_cost) w p).
      + destruct (relaxed_fields s k current_node new_cost w) as (_ & -> & _).
        rewrite decide_False; [exact Hp|].
        intros ->. rewrite cost_lt_irrefl in Hwk. discriminate.
      + apply IH. eapply cost_le_lt_trans; [apply (Hprev w p Hp)|exact Hwk]. }
  assert (Hk : grounded (relaxed s k current_node new_cost) k).
  { apply (grounded_link (relaxed s k current_node new_cost) k current_node).
    - destruct (relaxed_fields s k current_node new_cost k) as (_ & -> & _).
      rewrite decide_True by reflexivity. reflexivity.
    - apply Hbelow; [apply Hgr|exact Hlt]. }
  intros v. specialize (Hgr v).
  induction Hgr as [w Hroot|w p Hp Hw IH].
  - destruct (decide (k = w)) as [<-|Hne]; [exact Hk|].
    apply grounded_root.
    destruct (relaxed_fields s k current_node new_cost w) as (_ & -> & _).
    rewrite decide_False by exact Hne. exact Hroot.
  - destruct (decide (k = w)) as [<-|Hne]; [exact Hk|].
    apply (grounded_link (relaxed s k current_node new_cost) w p); [|exact IH].
    destruct (relaxed_fields s k current_node new_cost w) as (_ & -> & _).
    rewrite decide_False by exact Hne. exact Hp.
Qed.

Lemma relax_step (s s' : Search) (queue queue' : list NodePtr)
    (current_node : NodePtr) (k : TransitionPtr) :
  search_inv s -> E current_node = false -> k ∈ K ->
  relax X s queue current_node k = Ok (s', queue') ->
  search_inv s' /\
  (forall x, next_segment (node_at s' x) = next_segment (node_at s x)) /\
  generator_ s' = generator_ s /\
  not_above s' s queue' queue.
Proof.
  intros Hinv HE Hk H.
  apply relax_cases in H as (_ & cc & sc & sp & ep & Hcc & _ & _ & Hsc & H).
  cbn zeta in H. destruct H as [(_ & -> & ->)|(Hlt & Hs' & Hq')].
  { split; [exact Hinv|]. split; [reflexivity|]. split; [reflexivity|].
    apply not_above_refl. }
  pose proof (calculateCurveCost_on_grid _ _ _ (inv_config _ Hinv) Hcc) as Gcc.
  pose proof (calculateStraightCost_on_grid _ _ _ _ _ (inv_config _ Hinv) Hsc) as Gsc.
  pose proof (on_grid_nonneg _ Gcc) as Pcc.
  pose proof (on_grid_nonneg _ Gsc) as Psc.
  pose proof (inv_cost _ Hinv current_node) as Gcur.
  destruct (cost (node_at s current_node)) as [a|] eqn:Hcur; [|discriminate].
  cbn [cost_add grid_cost] in *.
  change (s' = relaxed s k current_node (Finite (a + cc + sc))) in Hs'.
  assert (Hne : k <> current_node).
  { intros ->. rewrite Hcur in Hlt. cbn in Hlt. apply Qlt_bool_iff in Hlt. lra. }
  assert (Hcurk : cost_lt (cost (node_at s current_node)) (cost (node_at s k)) = true).
  { eapply cost_le_lt_trans; [|exact Hlt]. rewrite Hcur. cbn. lra. }
  assert (HF : forall x,
    cost (node_at s' x) =
      (if decide (k = x) then Finite (a + cc + sc) else cost (node_at s x)) /\
    prev (node_at s' x) =
      (if decide (k = x) then Some current_node else prev (node_at s x)) /\
    next_segment (node_at s' x) = next_segment (node_at s x)).
  { intros x. rewrite Hs'. apply relaxed_fields. }
  assert (Hreq : request s' = request s /\ end_segment s' = end_segment s /\
                 generator_ s' = generator_ s).
  { rewrite Hs'. repeat split. }
  destruct Hreq as (Hreq & Hes & Hgen).
  split; [|split; [intros x; apply HF|split; [exact Hgen|]]].
  - constructor.
    + apply (costs_on_grid_request _ _ Hreq), Hinv.
    + intros x. unfold is_end. destruct (HF x) as (_ & _ & ->). rewrite Hes.
      apply (inv_end _ Hinv).
    + intros i sg forward j. rewrite Hgen. apply (inv_keys _ Hinv).
    + intros x. destruct (HF x) as (-> & _ & _).
      destruct (decide (k = x)); [|apply (inv_cost _ Hinv)].
      cbn. repeat apply on_grid_plus; assumption.
    + intros v p. destruct (HF v) as (Hcv & -> & _).
      destruct (HF p) as (Hcp & _ & _). rewrite Hcv, Hcp.
      destruct (decide (k = v)) as [<-|Hkv].
      * intros [= <-]. split; [exact HE|].
        rewrite decide_False by exact Hne. rewrite Hcur. cbn. lra.
      * intros Hp. destruct (inv_prev _ Hinv v p Hp) as [HEp Hle].
        split; [exact HEp|].
        destruct (decide (k = p)) as [<-|]; [|exact Hle].
        eapply cost_le_trans; [apply cost_lt_le; exact Hlt|exact Hle].
    + rewrite Hs'. apply grounded_relaxed.
      * intros v p Hp. apply (inv_prev _ Hinv v p Hp).
      * apply (inv_grounded _ Hinv).
      * exact Hcurk.
  - destruct (E k) eqn:HEk.
    + right. right.
      assert (Hu : forall x, unreached s' x = unreached s x).
      { intros x. unfold unreached. destruct (HF x) as (-> & _ & _).
        destruct (decide (k = x)) as [<-|]; [rewrite HEk|]; reflexivity. }
      assert (Hr : forall x, units s' x = units s x).
      { intros x. unfold units. destruct (HF x) as (-> & _ & _).
        destruct (decide (k = x)) as [<-|]; [rewrite HEk|]; reflexivity. }
      split; [apply sum_over_ext, Hu|]. split; [apply sum_over_ext, Hr|].
      rewrite Hq'.
      pose proof (open_nodes_insert s' k
                    (if queue_find s' queue k then queue_erase s' queue k else queue))
        as Hins.
      rewrite HEk in Hins.
      assert (open_nodes (if queue_find s' queue k then queue_erase s' queue k
                          else queue) <= open_nodes queue)%nat.
      { destruct (queue_find s' queue k); [apply open_nodes_erase|reflexivity]. }
      lia.
    + destruct (cost (node_at s k)) as [old|] eqn:Hold.
      * right. left. split.
        -- apply sum_over_ext. intros x. unfold unreached.
           destruct (HF x) as (-> & _ & _).
           destruct (decide (k = x)) as [<-|]; [rewrite Hold|]; reflexivity.
        -- apply (sum_over_lt _ _ _ k); [|exact Hk|].
           ++ intros x _. unfold units. destruct (HF x) as (-> & _ & _).
              destruct (decide (k = x)) as [<-|]; [|reflexivity].
              rewrite HEk, Hold. apply Nat.lt_le_incl, rank_lt.
              ** repeat apply on_grid_plus; assumption.
              ** pose proof (inv_cost _ Hinv k) as G. rewrite Hold in G. exact G.
              ** cbn in Hlt. apply Qlt_bool_iff in Hlt. exact Hlt.
           ++ unfold units. destruct (HF k) as (-> & _ & _).
              rewrite decide_True by reflexivity. rewrite HEk, Hold.
              apply rank_lt.
              ** repeat apply on_grid_plus; assumption.
              ** pose proof (inv_cost _ Hinv k) as G. rewrite Hold in G. exact G.
              ** cbn in Hlt. apply Qlt_bool_iff in Hlt. exact Hlt.
      * left. apply (sum_over_lt _ _ _ k); [|exact Hk|].
        -- intros x _. unfold unreached. destruct (HF x) as (-> & _ & _).
           destruct (decide (k = x)) as [<-|]; [|reflexivity].
           rewrite HEk, Hold. lia.
        -- unfold unreached. destruct (HF k) as (-> & _ & _).
           rewrite decide_True by reflexivity. rewrite HEk, Hold. lia.
Qed.

(** ** Only the loops use fuel *)

Lemma bind_fuel_free {A B : Type} (m : outcome A) (k : A -> outcome B) :
  m <> OutOfFuel -> (forall a, k a <> OutOfFuel) -> bind m k <> OutOfFuel.
Proof. intros Hm Hk. destruct m; simpl; [apply Hk|discriminate|congruence]. Qed.

Create HintDb fuel_free.

Ltac fuel_free :=
  repeat first
    [ progress intros
    | progress cbn zeta
    | apply bind_fuel_free
    | match goal with
      | |- (match ?x with _ => _ end) <> OutOfFuel => destruct x
      end
    | discriminate
    | solve [auto with fuel_free] ].

Lemma front_fuel_free {A : Type} (v : list A) : front v <> OutOfFuel.
Proof. unfold front. fuel_free. Qed.

Lemma back_fuel_free {A : Type} (v : list A) : back v <> OutOfFuel.
Proof. unfold back. fuel_free. Qed.

Lemma at_fuel_free {A : Type} (v : list A) (j : nat) : at_ v j <> OutOfFuel.
Proof. unfold at_. fuel_free. Qed.

Lemma segment_at_fuel_free (s : Search) (p : SegmentPtr) : segment_at s p <> OutOfFuel.
Proof. unfold segment_at. fuel_free. Qed.

Lemma segment_index_fuel_free (p : SegmentPtr) : segment_index p <> OutOfFuel.
Proof. unfold segment_index. fuel_free. Qed.

Lemma transition_at_fuel_free (s : Search) (p : option TransitionPtr) :
  transition_at s p <> OutOfFuel.
Proof. unfold transition_at. fuel_free. Qed.

Lemma nodes_at_fuel_free (s : Search) (t : TransitionPtr) : nodes_at s t <> OutOfFuel.
Proof. unfold nodes_at. fuel_free. Qed.

#[local] Hint Resolve front_fuel_free back_fuel_free at_fuel_free
  segment_at_fuel_free segment_index_fuel_free transition_at_fuel_free
  nodes_at_fuel_free : fuel_free.

Lemma findStartPointOnNextSegment2_fuel_free (s : Search) (node : NodePtr)
    (t : option TransitionPtr) :
  findStartPointOnNextSegment2 s node t <> OutOfFuel.
Proof. unfold findStartPointOnNextSegment2. fuel_free. Qed.

#[local] Hint Resolve findStartPointOnNextSegment2_fuel_free : fuel_free.

Lemma findStartPointOnNextSegment_fuel_free (s : Search) (node : NodePtr) :
  findStartPointOnNextSegment s node <> OutOfFuel.
Proof. unfold findStartPointOnNextSegment. fuel_free. Qed.

Lemma findEndPointOnSegment_fuel_free (s : Search) (node : NodePtr)
    (t : option TransitionPtr) :
  findEndPointOnSegment s node t <> OutOfFuel.
Proof. unfold findEndPointOnSegment. fuel_free. Qed.

#[local] Hint Resolve findStartPointOnNextSegment_fuel_free
  findEndPointOnSegment_fuel_free : fuel_free.

Lemma findEndPointOnNextSegment_fuel_free (s : Search) (node : NodePtr) :
  findEndPointOnNextSegment s node <> OutOfFuel.
Proof. unfold findEndPointOnNextSegment. fuel_free. Qed.

Lemma isSegmentForward_fuel_free (s : Search) (segment : SegmentPtr)
    (pos target : Vector2d) :
  isSegmentForward X s segment pos target <> OutOfFuel.
Proof. unfold isSegmentForward, isSegmentForward_traced. fuel_free. Qed.

#[local] Hint Resolve findEndPointOnNextSegment_fuel_free
  isSegmentForward_fuel_free : fuel_free.

Lemma isStartSegmentForward_fuel_free (s : Search) (node : NodePtr) :
  isStartSegmentForward X s node <> OutOfFuel.
Proof. unfold isStartSegmentForward. fuel_free. Qed.

Lemma isNextSegmentForward_fuel_free (s : Search) (node : NodePtr) :
  isNextSegmentForward X s node <> OutOfFuel.
Proof. unfold isNextSegmentForward. fuel_free. Qed.

#[local] Hint Resolve isStartSegmentForward_fuel_free
  isNextSegmentForward_fuel_free : fuel_free.

Lemma isPreviousSegmentForward_fuel_free (s : Search) (node : NodePtr) :
  isPreviousSegmentForward X s node <> OutOfFuel.
Proof. unfold isPreviousSegmentForward. fuel_free. Qed.

Lemma effectiveLengthOfNextSegment_fuel_free (s : Search) (node : NodePtr) :
  effectiveLengthOfNextSegment X s node <> OutOfFuel.
Proof. unfold effectiveLengthOfNextSegment. fuel_free. Qed.

#[local] Hint Resolve isPreviousSegmentForward_fuel_free
  effectiveLengthOfNextSegment_fuel_free : fuel_free.

Lemma calculateStraightCost_fuel_free (s : Search) (node : NodePtr)
    (sp ep : Vector2d) :
  calculateStraightCost X s node sp ep <> OutOfFuel.
Proof. unfold calculateStraightCost. fuel_free. Qed.

Lemma calculateCurveCost_fuel_free (s : Search) (node : NodePtr) :
  calculateCurveCost X s node <> OutOfFuel.
Proof. unfold calculateCurveCost. fuel_free. Qed.

#[local] Hint Resolve calculateStraightCost_fuel_free
  calculateCurveCost_fuel_free : fuel_free.

Lemma insertFirstNode_fuel_free (s : Search) (res : list PathPose) :
  insertFirstNode X s res <> OutOfFuel.
Proof. unfold insertFirstNode. fuel_free. Qed.

Lemma insertLastNode_fuel_free (s : Search) (res : list PathPose) :
  insertLastNode X s res <> OutOfFuel.
Proof. unfold insertLastNode. fuel_free. Qed.

Lemma extendAlongTargetSegment_fuel_free (s : Search) (res : list PathPose)
    (node : NodePtr) :
  extendAlongTargetSegment X s res node <> OutOfFuel.
Proof. unfold extendAlongTargetSegment. fuel_free. Qed.

Lemma extendAlongSourceSegment_fuel_free (s : Search) (res : list PathPose)
    (node : NodePtr) :
  extendAlongSourceSegment X s res node <> OutOfFuel.
Proof. unfold extendAlongSourceSegment. fuel_free. Qed.

Lemma extendWithStraightTurningSegment_fuel_free (s : Search) (res : list PathPose)
    (pt : Vector2d) :
  extendWithStraightTurningSegment X s res pt <> OutOfFuel.
Proof. unfold extendWithStraightTurningSegment. fuel_free. Qed.

Lemma insertCurveSegment_forward_fuel_free (pth : list Vector2d) (js : list nat)
    (res : list PathPose) :
  insertCurveSegment_forward X pth js res <> OutOfFuel.
Proof.
  revert res. induction js as [|j js IH]; intros res; cbn [insertCurveSegment_forward];
    fuel_free.
Qed.

Lemma insertCurveSegment_backward_fuel_free (pth : list Vector2d) (js : list nat)
    (res : list PathPose) :
  insertCurveSegment_backward X pth js res <> OutOfFuel.
Proof.
  revert res. induction js as [|j js IH]; intros res; cbn [insertCurveSegment_backward];
    fuel_free.
Qed.

#[local] Hint Resolve insertFirstNode_fuel_free insertLastNode_fuel_free
  extendAlongTargetSegment_fuel_free extendAlongSourceSegment_fuel_free
  extendWithStraightTurningSegment_fuel_free
  insertCurveSegment_forward_fuel_free insertCurveSegment_backward_fuel_free
  : fuel_free.

Lemma insertCurveSegment_fuel_free (s : Search) (res : list PathPose) (node : NodePtr) :
  insertCurveSegment X s res node <> OutOfFuel.
Proof. unfold insertCurveSegment. fuel_free. Qed.

#[local] Hint Resolve insertCurveSegment_fuel_free : fuel_free.

Lemma generatePath_step_fuel_free (s : Search) (res : list PathPose)
    (segment_forward : bool) (node : NodePtr) :
  generatePath_step X s res segment_forward node <> OutOfFuel.
Proof. unfold generatePath_step. fuel_free. Qed.

#[local] Hint Resolve generatePath_step_fuel_free : fuel_free.

Lemma generatePath_loop_fuel_free (s : Search) (nodes_ : list NodePtr)
    (res : list PathPose) (segment_forward : bool) :
  generatePath_loop X s nodes_ res segment_forward <> OutOfFuel.
Proof.
  revert res segment_forward.
  induction nodes_ as [|n nodes_ IH]; intros res segment_forward;
    cbn [generatePath_loop]; fuel_free.
Qed.

#[local] Hint Resolve generatePath_loop_fuel_free : fuel_free.

Lemma generatePath_fuel_free (s : Search) (nodes_ : list NodePtr) (res : list PathPose) :
  generatePath X s nodes_ res <> OutOfFuel.
Proof. unfold generatePath. fuel_free. Qed.

Lemma relax_fuel_free (s : Search) (queue : list NodePtr) (current_node : NodePtr)
    (k : TransitionPtr) :
  relax X s queue current_node k <> OutOfFuel.
Proof. unfold relax. fuel_free. Qed.

#[local] Hint Resolve generatePath_fuel_free relax_fuel_free : fuel_free.

Lemma relax_list_fuel_free (ts : list Transition) (s : Search) (queue : list NodePtr)
    (current_node : NodePtr) (i : nat) (forward : bool) (j : nat) :
  relax_list X s queue current_node i forward j ts <> OutOfFuel.
Proof.
  revert s queue j. induction ts as [|t ts IH]; intros s queue j;
    cbn [relax_list]; fuel_free.
Qed.

#[local] Hint Resolve relax_list_fuel_free : fuel_free.

Lemma expand_fuel_free (s : Search) (queue : list NodePtr) (current_node : NodePtr) :
  expand X s queue current_node <> OutOfFuel.
Proof. unfold expand. fuel_free. Qed.

Lemma enqueueStartingNode_fuel_free (s : Search) (queue : list NodePtr)
    (k : TransitionPtr) (t : Transition) :
  enqueueStartingNode X s queue k t <> OutOfFuel.
Proof. unfold enqueueStartingNode. fuel_free. Qed.

#[local] Hint Resolve expand_fuel_free enqueueStartingNode_fuel_free : fuel_free.

Lemma enqueueStartingNodes_list_fuel_free (ts : list Transition) (s : Search)
    (queue : list NodePtr) (i : nat) (forward : bool) (j : nat) :
  enqueueStartingNodes_list X s queue i forward j ts <> OutOfFuel.
Proof.
  revert s queue j. induction ts as [|t ts IH]; intros s queue j;
    cbn [enqueueStartingNodes_list]; fuel_free.
Qed.

#[local] Hint Resolve enqueueStartingNodes_list_fuel_free : fuel_free.

Lemma enqueueStartingNodes_fuel_free (s : Search) (queue : list NodePtr) :
  enqueueStartingNodes X s queue <> OutOfFuel.
Proof. unfold enqueueStartingNodes. fuel_free. Qed.

(** ** Finishing a candidate ends, and keeps the invariant *)

Lemma collect_transitions_more_fuel (fuel fuel' : nat) (s : Search)
    (tmp : option NodePtr) (acc : list NodePtr) (r : list NodePtr * Search) :
  (fuel <= fuel')%nat ->
  collect_transitions fuel s tmp acc = Ok r ->
  collect_transitions fuel' s tmp acc = Ok r.
Proof.
  revert fuel' s tmp acc. induction fuel as [|fuel IH]; intros fuel' s tmp acc Hle H.
  - destruct tmp; [discriminate|]. destruct fuel'; exact H.
  - destruct tmp as [t|]; [|destruct fuel'; exact H].
    destruct fuel' as [|fuel']; [lia|].
    cbn [collect_transitions] in *. apply IH; [lia|exact H].
Qed.

Lemma grounded_collect_transitions (s : Search) (v : NodePtr) :
  grounded s v ->
  forall s' acc,
    (forall x, prev (node_at s' x) = prev (node_at s x)) ->
    exists fuel r, collect_transitions fuel s' (Some v) acc = Ok r.
Proof.
  induction 1 as [v Hroot|v p Hp Hgr IH]; intros s' acc Hsame.
  - exists 1%nat. cbn [collect_transitions]. rewrite Hsame, Hroot.
    rewrite Hsame, Hroot. eauto.
  - destruct (IH (update_node s' p (fun n => set_next n (Some v))) (v :: acc))
      as (fuel & r & Hr).
    { intros x. rewrite (node_at_update_node_field prev) by reflexivity.
      apply Hsame. }
    exists (S fuel), r. cbn [collect_transitions]. rewrite Hsame, Hp.
    rewrite (node_at_update_node_field prev) by reflexivity.
    rewrite Hsame, Hp. exact Hr.
Qed.

Lemma grounded_same_prev (s s' : Search) (v : NodePtr) :
  (forall x, prev (node_at s' x) = prev (node_at s x)) ->
  grounded s v -> grounded s' v.
Proof.
  intros Hsame. induction 1 as [v Hroot|v p Hp Hgr IH].
  - apply grounded_root. rewrite Hsame. exact Hroot.
  - apply (grounded_link s' v p); [rewrite Hsame; exact Hp|exact IH].
Qed.

Lemma signature_loop_more_fuel (fuel fuel' : nat) (s : Search)
    (tmp : option NodePtr) (first : NodePtr) (res : string) :
  (fuel <= fuel')%nat ->
  signature_loop X fuel s tmp first res <> OutOfFuel ->
  signature_loop X fuel' s tmp first res = signature_loop X fuel s tmp first res.
Proof.
  revert fuel' tmp first res.
  induction fuel as [|fuel IH]; intros fuel' tmp first res Hle Hno.
  - destruct tmp; [cbn in Hno; congruence|]. destruct fuel'; reflexivity.
  - destruct tmp as [t|]; [|destruct fuel'; reflexivity].
    destruct fuel' as [|fuel']; [lia|].
    cbn [signature_loop] in *.
    destruct (match next_segment (node_at s t) with
              | Some _ => _
              | None => _
              end) as [res'| |]; cbn [bind] in *; try reflexivity.
    apply IH; [lia|exact Hno].
Qed.

Lemma grounded_signature_loop (s : Search) (v : NodePtr) :
  grounded s v ->
  exists fuel, forall first res,
    signature_loop X fuel s (Some v) first res <> OutOfFuel.
Proof.
  induction 1 as [v Hroot|v p Hp Hgr [fuel IH]].
  - exists 1%nat. intros first res. cbn [signature_loop]. rewrite Hroot.
    apply bind_fuel_free; [fuel_free|discriminate].
  - exists (S fuel). intros first res. cbn [signature_loop]. rewrite Hp.
    apply bind_fuel_free; [fuel_free|intros res'; apply IH].
Qed.

Lemma signature_ends (s : Search) (head : NodePtr) :
  grounded s head ->
  exists fuel,
    signature X fuel s head <> OutOfFuel /\
    forall fuel', (fuel <= fuel')%nat ->
      signature X fuel' s head = signature X fuel s head.
Proof.
  intros Hgr. destruct (grounded_signature_loop s head Hgr) as [fuel Hfuel].
  exists fuel. unfold signature. split.
  - apply bind_fuel_free; [apply Hfuel|]. fuel_free.
  - intros fuel' Hle.
    rewrite (signature_loop_more_fuel fuel fuel') by (try exact Hle; apply Hfuel).
    reflexivity.
Qed.

Lemma generatePathCandidate_ends (s : Search) (node : NodePtr) :
  (forall v, grounded s v) ->
  exists fuel,
    generatePathCandidate X fuel s node <> OutOfFuel /\
    forall fuel', (fuel <= fuel')%nat ->
      generatePathCandidate X fuel' s node = generatePathCandidate X fuel s node.
Proof.
  intros Hgr. unfold generatePathCandidate.
  destruct (findStartPointOnNextSegment s node) as [sp| |] eqn:Hsp;
    [|exists 0%nat; split; [discriminate|reflexivity]
     |exfalso; exact (findStartPointOnNextSegment_fuel_free _ _ Hsp)].
  cbn [bind].
  destruct (calculateStraightCost X s node sp (end_pt s)) as [add| |] eqn:Hadd;
    [|exists 0%nat; split; [discriminate|reflexivity]
     |exfalso; exact (calculateStraightCost_fuel_free _ _ _ _ Hadd)].
  cbn [bind].
  set (s1 := update_node s node (fun n => set_cost n (cost_add (cost n) add))).
  assert (Hprev1 : forall x, prev (node_at s1 x) = prev (node_at s x)).
  { intros x. subst s1. apply (node_at_update_node_field prev). reflexivity. }
  destruct (signature_ends s1 node (grounded_same_prev s s1 node Hprev1 (Hgr node)))
    as (fsig & Hsig & Hsig').
  destruct (signature X fsig s1 node) as [logged| |] eqn:Hlog; [| |congruence].
  2:{ exists fsig. split; [rewrite Hlog; discriminate|].
      intros fuel' Hle. rewrite (Hsig' fuel' Hle), Hlog. reflexivity. }
  destruct (cost_lt (cost (node_at s1 node)) (min_cost s1)).
  2:{ exists fsig. split; [rewrite Hlog; discriminate|].
      intros fuel' Hle. rewrite (Hsig' fuel' Hle), Hlog. reflexivity. }
  destruct (grounded_collect_transitions s node (Hgr node)
              (set_best_path (set_min_cost s1 (cost (node_at s1 node))) []) [])
    as (fcol & r & Hr).
  { intros x. apply Hprev1. }
  exists (Nat.max fsig fcol).
  assert (Hstable : forall fuel', (Nat.max fsig fcol <= fuel')%nat ->
            signature X fuel' s1 node = Ok logged /\
            collect_transitions fuel'
              (set_best_path (set_min_cost s1 (cost (node_at s1 node))) [])
              (Some node) [] = Ok r).
  { intros fuel' Hle. split.
    - rewrite Hsig' by lia. reflexivity.
    - apply (collect_transitions_more_fuel fcol); [lia|exact Hr]. }
  split.
  - destruct (Hstable _ (Nat.le_refl _)) as [-> ->]. cbn [bind].
    apply bind_fuel_free; [|discriminate]. apply generatePath_fuel_free.
  - intros fuel' Hle.
    destruct (Hstable _ Hle) as [-> ->].
    destruct (Hstable _ (Nat.le_refl _)) as [-> ->]. reflexivity.
Qed.

Lemma generatePathCandidate_step (fuel : nat) (s s' : Search) (node : NodePtr) :
  search_inv s -> E node = true ->
  generatePathCandidate X fuel s node = Ok s' ->
  search_inv s' /\
  sum_over (unreached s') K = sum_over (unreached s) K /\
  sum_over (units s') K = sum_over (units s) K.
Proof.
  intros Hinv HE H.
  destruct (generatePathCandidate_spec _ _ _ _ _ H)
    as (sp & add & Hsp & Hadd & Hreq & Hrest & Htot & Hother & _).
  cbn zeta in Htot.
  pose proof (calculateStraightCost_on_grid _ _ _ _ _ (inv_config _ Hinv) Hadd) as Gadd.
  pose proof (on_grid_nonneg _ Gadd) as Padd.
  assert (Hprev : forall x, prev (node_at s' x) = prev (node_at s x)).
  { intros x. specialize (Hrest x). apply (f_equal prev) in Hrest. exact Hrest. }
  assert (Hns : forall x, next_segment (node_at s' x) = next_segment (node_at s x)).
  { intros x. specialize (Hrest x). apply (f_equal next_segment) in Hrest. exact Hrest. }
  assert (Hup : forall x, cost_le (cost (node_at s x)) (cost (node_at s' x))).
  { intros x. destruct (decide (x = node)) as [->|Hne].
    - rewrite Htot. destruct (cost (node_at s node)); cbn; [lra|exact I].
    - rewrite Hother by exact Hne. apply cost_le_refl. }
  split; [|split].
  - constructor.
    + apply (costs_on_grid_request _ _ Hreq), Hinv.
    + intros x. unfold is_end. rewrite Hns.
      injection Hreq as _ _ -> _ _ _ _ _ _ _. apply (inv_end _ Hinv).
    + intros i sg forward j. injection Hreq as -> _ _ _ _ _ _ _ _ _.
      apply (inv_keys _ Hinv).
    + intros x. destruct (decide (x = node)) as [->|Hne].
      * rewrite Htot. pose proof (inv_cost _ Hinv node) as G.
        destruct (cost (node_at s node)); cbn in *; [|exact I].
        apply on_grid_plus; assumption.
      * rewrite Hother by exact Hne. apply (inv_cost _ Hinv).
    + intros v p. rewrite Hprev. intros Hp.
      destruct (inv_prev _ Hinv v p Hp) as [HEp Hle]. split; [exact HEp|].
      rewrite (Hother p) by congruence.
      eapply cost_le_trans; [exact Hle|apply Hup].
    + intros v. pose proof (inv_grounded _ Hinv v) as Hv.
      induction Hv as [w Hroot|w p Hp Hw IH].
      * apply grounded_root. rewrite Hprev. exact Hroot.
      * apply (grounded_link s' w p); [rewrite Hprev; exact Hp|exact IH].
  - apply sum_over_ext. intros x. unfold unreached.
    destruct (decide (x = node)) as [->|Hne]; [rewrite HE; reflexivity|].
    rewrite Hother by exact Hne. reflexivity.
  - apply sum_over_ext. intros x. unfold units.
    destruct (decide (x = node)) as [->|Hne]; [rewrite HE; reflexivity|].
    rewrite Hother by exact Hne. reflexivity.
Qed.

End Termination.

(** ** The invariant holds once the frontier is seeded *)

(** The addresses of all transitions of the course, counted from segment [i]. *)
Fixpoint transition_ptrs (i : nat) (segments : list Segment) : list TransitionPtr :=
  match segments with
  | [] => []
  | sg :: rest =>
      map (fun j => (i, true, j)) (seq 0 (length (forward_transitions sg))) ++
      map (fun j => (i, false, j)) (seq 0 (length (backward_transitions sg))) ++
      transition_ptrs (S i) rest
  end.

Lemma transition_ptrs_complete (segments : list Segment) :
  forall (i0 i : nat) (sg : Segment) (forward : bool) (j : nat),
    segments !! i = Some sg ->
    (j < length (transitions_of sg forward))%nat ->
    ((i0 + i)%nat, forward, j) ∈ transition_ptrs i0 segments.
Proof.
  induction segments as [|sg0 rest IH]; intros i0 i sg forward j Hsg Hj.
  - destruct i; discriminate.
  - cbn [transition_ptrs]. destruct i as [|i].
    + injection Hsg as ->. rewrite Nat.add_0_r.
      destruct forward; cbn [transitions_of] in Hj.
      * apply elem_of_app. left. apply list_elem_of_In.
        apply (in_map (fun j => (i0, true, j))). apply in_seq. lia.
      * apply elem_of_app. right. apply elem_of_app. left. apply list_elem_of_In.
        apply (in_map (fun j => (i0, false, j))). apply in_seq. lia.
    + apply elem_of_app. right. apply elem_of_app. right.
      replace (i0 + S i)%nat with (S i0 + i)%nat by lia.
      apply (IH (S i0) i sg forward j Hsg Hj).
Qed.

(** Fresh nodes have no cost and no predecessor. *)
Definition fresh_nodes (m : gmap TransitionPtr Node) : Prop :=
  forall x, cost (m !!! x) = Infinity /\ prev (m !!! x) = None.

Lemma subscript_assign_fresh (m : gmap TransitionPtr Node) (t : TransitionPtr)
    (f : Node -> Node) :
  (forall n, cost (f n) = cost n /\ prev (f n) = prev n) ->
  fresh_nodes m -> fresh_nodes (subscript_assign m t f).
Proof.
  intros Hf Hm x. unfold subscript_assign. rewrite lookup_total_insert.
  destruct (decide (t = x)) as [->|]; [|apply Hm].
  replace (default Node_default (m !! x)) with (m !!! x)
    by (rewrite lookup_total_alt; reflexivity).
  destruct (Hf (m !!! x)) as [-> ->]. apply Hm.
Qed.

Lemma initNodes_transitions_fresh (ts : list Transition) (i : nat) (forward : bool)
    (j : nat) (m : gmap TransitionPtr Node) :
  fresh_nodes m -> fresh_nodes (initNodes_transitions i forward j ts m).
Proof.
  revert j m. induction ts as [|t ts IH]; intros j m Hm; [exact Hm|].
  cbn [initNodes_transitions]. apply IH.
  repeat apply subscript_assign_fresh; try exact Hm; intros n; split; reflexivity.
Qed.

Lemma initNodes_segments_fresh (segments : list Segment) (i : nat)
    (m : gmap TransitionPtr Node) :
  fresh_nodes m -> fresh_nodes (initNodes_segments i segments m).
Proof.
  revert i m. induction segments as [|sg rest IH]; intros i m Hm; [exact Hm|].
  cbn [initNodes_segments]. apply IH.
  repeat apply initNodes_transitions_fresh. exact Hm.
Qed.

Lemma initNodes_fresh (s : Search) : fresh_nodes (nodes (initNodes s)).
Proof.
  unfold initNodes. cbn [nodes set_nodes]. apply initNodes_segments_fresh.
  intros x. rewrite lookup_total_empty. split; reflexivity.
Qed.

Section SearchEnds.

Variable X : Extern.
Variable u : Q.
Hypothesis u_pos : (0 < u)%Q.

(** Seeding gives costs on the grid and sets no predecessor. *)
Definition seeded (s : Search) : Prop :=
  forall x, grid_cost u (cost (node_at s x)) /\ prev (node_at s x) = None.

Lemma enqueueStartingNode_seeded (s s' : Search) (queue queue' : list NodePtr)
    (k : TransitionPtr) (t : Transition) :
  costs_on_grid X u s -> seeded s ->
  enqueueStartingNode X s queue k t = Ok (s', queue') ->
  seeded s'.
Proof.
  unfold enqueueStartingNode. intros Hcfg Hs H.
  apply bind_Ok_inv in H as (node & Hnode & H).
  apply bind_Ok_inv in H as (ep & _ & H).
  apply bind_Ok_inv in H as (c & Hc & H).
  injection H as <- _. intros x. rewrite node_at_update_node.
  destruct (decide (node = x)) as [->|]; [|apply Hs].
  cbn [cost prev set_cost grid_cost]. split; [|apply Hs].
  apply (calculateStraightCost_on_grid X u _ _ _ _ _ Hcfg Hc).
Qed.

Lemma enqueueStartingNodes_list_seeded (ts : list Transition) (s s' : Search)
    (queue queue' : list NodePtr) (i : nat) (forward : bool) (j : nat) :
  costs_on_grid X u s -> seeded s ->
  enqueueStartingNodes_list X s queue i forward j ts = Ok (s', queue') ->
  seeded s'.
Proof.
  revert s queue j. induction ts as [|t ts IH]; intros s queue j Hcfg Hs H.
  - injection H as <- _. exact Hs.
  - cbn [enqueueStartingNodes_list] in H.
    apply bind_Ok_inv in H as ([s1 q1] & H1 & H). cbn [fst snd] in H.
    pose proof (enqueueStartingNode_finite _ _ _ _ _ _ _ H1) as (Ho & _).
    apply nodes_only_request in Ho as (Hreq & _).
    apply (IH _ _ _ (costs_on_grid_request X u _ _ Hreq Hcfg)
              (enqueueStartingNode_seeded _ _ _ _ _ _ Hcfg Hs H1) H).
Qed.

Lemma enqueueStartingNodes_seeded (s s' : Search) (queue' : list NodePtr) :
  costs_on_grid X u s -> seeded s ->
  enqueueStartingNodes X s [] = Ok (s', queue') ->
  seeded s'.
Proof.
  unfold enqueueStartingNodes. intros Hcfg Hs H.
  apply bind_Ok_inv in H as (i & _ & H).
  apply bind_Ok_inv in H as (sg & _ & H).
  apply bind_Ok_inv in H as ([s1 q1] & H1 & H). cbn [fst snd] in H.
  pose proof (enqueueStartingNodes_list_finite _ _ _ _ _ _ _ _ _ H1) as (Ho & _).
  apply nodes_only_request in Ho as (Hreq & _).
  apply (enqueueStartingNodes_list_seeded _ _ _ _ _ _ _ _
           (costs_on_grid_request X u _ _ Hreq Hcfg)
           (enqueueStartingNodes_list_seeded _ _ _ _ _ _ _ _ Hcfg Hs H1) H).
Qed.

Lemma seeded_search_inv (s : Search) :
  costs_on_grid X u s -> seeded s ->
  search_inv X u (is_end s) (transition_ptrs 0 (generator_ s)) s.
Proof.
  intros Hcfg Hs. constructor.
  - exact Hcfg.
  - reflexivity.
  - intros i sg forward j Hsg Hj.
    apply (transition_ptrs_complete (generator_ s) 0 i sg forward j Hsg Hj).
  - intros x. apply Hs.
  - intros v p Hp. destruct (Hs v) as [_ Hnone]. congruence.
  - intros v. apply grounded_root. apply Hs.
Qed.

End SearchEnds.

(** * A search on a well-formed course does not fault *)

(** Every transition has a polyline and joins two segments of the course. *)
Definition transition_ok (segments : list Segment) (t : Transition) : bool :=
  match path t, source t, target t with
  | _ :: _, Some a, Some b =>
      (a <? length segments)%nat && (b <? length segments)%nat
  | _, _, _ => false
  end.

Definition course_ok (segments : list Segment) : bool :=
  forallb (fun sg => forallb (transition_ok segments) (forward_transitions sg) &&
                     forallb (transition_ok segments) (backward_transitions sg))
    segments.

(** The start and the end segment are segments of the course. *)
Definition request_ok (s : Search) : bool :=
  match start_segment s, end_segment s with
  | Some a, Some b =>
      (a <? length (generator_ s))%nat && (b <? length (generator_ s))%nat
  | _, _ => false
  end.

Section Progress.

Variable X : Extern.

(** [k] is the address of a transition of the course. *)
Definition valid (s : Search) (k : NodePtr) : Prop :=
  exists t, transition_at s (Some k) = Ok t.

(** The node of the transition at [k] is there, as [initNodes] made it, and
    its links lead to nodes of transitions. *)
Record node_ok (s : Search) (k : NodePtr) (t : Transition) : Prop := {
  ok_present : is_Some (nodes s !! k);
  ok_transition : transition (node_at s k) = Some k;
  ok_next_segment :
    next_segment (node_at s k) = if k.1.2 then target t else source t;
  ok_prev : forall p, prev (node_at s k) = Some p -> valid s p;
  ok_next : forall n, next (node_at s k) = Some n -> valid s n
}.

Record wf (s : Search) : Prop := {
  wf_course : course_ok (generator_ s) = true;
  wf_request : request_ok s = true;
  wf_nodes : forall k t, transition_at s (Some k) = Ok t -> node_ok s k t
}.

Lemma segment_at_lt (s : Search) (a : nat) :
  (a <? length (generator_ s))%nat = true -> exists sg, segment_at s (Some a) = Ok sg.
Proof.
  intros H. apply Nat.ltb_lt in H. apply lookup_lt_is_Some_2 in H as [sg Hsg].
  exists sg. unfold segment_at. rewrite Hsg. reflexivity.
Qed.

Lemma transition_at_ok (s : Search) (k : NodePtr) (t : Transition) :
  course_ok (generator_ s) = true ->
  transition_at s (Some k) = Ok t ->
  transition_ok (generator_ s) t = true.
Proof.
  intros Hc Ht. destruct k as [[i forward] j]. unfold transition_at in Ht.
  destruct (generator_ s !! i) as [sg|] eqn:Hsg; [|discriminate].
  destruct (transitions_of sg forward !! j) as [t'|] eqn:Htj; [|discriminate].
  injection Ht as ->.
  unfold course_ok in Hc. rewrite forallb_forall in Hc.
  specialize (Hc sg). rewrite <- list_elem_of_In in Hc.
  specialize (Hc (list_elem_of_lookup_2 _ _ _ Hsg)).
  apply andb_true_iff in Hc as [Hf Hb].
  rewrite forallb_forall in Hf, Hb.
  apply list_elem_of_lookup_2, list_elem_of_In in Htj.
  destruct forward; [apply Hf|apply Hb]; exact Htj.
Qed.

Lemma valid_transition (s : Search) (k : NodePtr) (t : Transition) :
  course_ok (generator_ s) = true ->
  transition_at s (Some k) = Ok t ->
  (exists a b, front (path t) = Ok a /\ back (path t) = Ok b) /\
  (exists sg, segment_at s (source t) = Ok sg) /\
  (exists sg, segment_at s (target t) = Ok sg).
Proof.
  intros Hc Ht. pose proof (transition_at_ok s k t Hc Ht) as Hok.
  unfold transition_ok in Hok.
  destruct (path t) as [|a pth] eqn:Hp; [discriminate|].
  destruct (source t) as [x|]; [|discriminate].
  destruct (target t) as [y|]; [|discriminate].
  apply andb_true_iff in Hok as [Hx Hy].
  split; [|split; apply segment_at_lt; assumption].
  exists a. unfold front, back.
  destruct (last (a :: pth)) as [b|] eqn:Hl.
  - exists b. split; reflexivity.
  - apply last_None in Hl. discriminate.
Qed.

Lemma transition_at_same_course (s s' : Search) (p : option TransitionPtr) :
  generator_ s' = generator_ s -> transition_at s' p = transition_at s p.
Proof. intros H. unfold transition_at. rewrite H. reflexivity. Qed.

Lemma segment_at_same_course (s s' : Search) (p : SegmentPtr) :
  generator_ s' = generator_ s -> segment_at s' p = segment_at s p.
Proof. intros H. unfold segment_at. rewrite H. reflexivity. Qed.

Lemma valid_next_segment (s : Search) (k : NodePtr) :
  wf s -> valid s k ->
  exists i sg, next_segment (node_at s k) = Some i /\ segment_at s (Some i) = Ok sg.
Proof.
  intros Hwf [t Ht].
  destruct (valid_transition s k t (wf_course _ Hwf) Ht) as (_ & [sg1 H1] & [sg2 H2]).
  rewrite (ok_next_segment _ _ _ (wf_nodes _ Hwf k t Ht)).
  destruct (k.1.2).
  - destruct (target t) as [i|]; [|discriminate]. eauto.
  - destruct (source t) as [i|]; [|discriminate]. eauto.
Qed.

Lemma findStartPointOnNextSegment_ok (s : Search) (k : NodePtr) :
  wf s -> valid s k -> exists v, findStartPointOnNextSegment s k = Ok v.
Proof.
  intros Hwf [t Ht]. unfold findStartPointOnNextSegment, findStartPointOnNextSegment2.
  destruct (decide _); [eauto|].
  rewrite (ok_transition _ _ _ (wf_nodes _ Hwf k t Ht)), Ht. cbn [bind].
  destruct (valid_transition s k t (wf_course _ Hwf) Ht) as ((a & b & -> & ->) & _).
  destruct (curve_forward _); eauto.
Qed.

Lemma findEndPointOnSegment_ok (s : Search) (k k' : NodePtr) :
  wf s -> valid s k' -> exists v, findEndPointOnSegment s k (Some k') = Ok v.
Proof.
  intros Hwf [t Ht]. unfold findEndPointOnSegment. rewrite Ht. cbn [bind].
  destruct (valid_transition s k' t (wf_course _ Hwf) Ht) as ((a & b & -> & ->) & _).
  destruct (curve_forward _); eauto.
Qed.

Lemma findEndPointOnNextSegment_ok (s : Search) (k : NodePtr) :
  wf s -> valid s k -> exists v, findEndPointOnNextSegment s k = Ok v.
Proof.
  intros Hwf Hk. unfold findEndPointOnNextSegment.
  destruct (decide _); [eauto|].
  destruct (next (node_at s k)) as [nx|] eqn:Hn.
  - destruct Hk as [t Ht].
    pose proof (ok_next _ _ _ (wf_nodes _ Hwf k t Ht) nx Hn) as Hvn.
    destruct Hvn as [tn Htn].
    rewrite (ok_transition _ _ _ (wf_nodes _ Hwf nx tn Htn)).
    apply findEndPointOnSegment_ok; [exact Hwf|exists tn; exact Htn].
  - destruct (valid_next_segment s k Hwf Hk) as (i & sg & -> & ->). cbn [bind]. eauto.
Qed.

Lemma isSegmentForward_ok (s : Search) (segment : SegmentPtr) (pos target_ : Vector2d) :
  (exists sg, segment_at s segment = Ok sg) ->
  exists b, isSegmentForward X s segment pos target_ = Ok b.
Proof.
  intros [sg Hsg]. rewrite (isSegmentForward_Ok X s segment pos target_ sg Hsg). eauto.
Qed.

Lemma request_segments (s : Search) :
  wf s ->
  (exists sg, segment_at s (start_segment s) = Ok sg) /\
  (exists sg, segment_at s (end_segment s) = Ok sg).
Proof.
  intros Hwf. pose proof (wf_request _ Hwf) as H. unfold request_ok in H.
  destruct (start_segment s) as [a|]; [|discriminate].
  destruct (end_segment s) as [b|]; [|discriminate].
  apply andb_true_iff in H as [Ha Hb]. split; apply segment_at_lt; assumption.
Qed.

Lemma isStartSegmentForward_ok (s : Search) (k : NodePtr) :
  wf s -> valid s k -> exists b, isStartSegmentForward X s k = Ok b.
Proof.
  intros Hwf Hk. unfold isStartSegmentForward. destruct (Hk) as [t Ht].
  rewrite (ok_transition _ _ _ (wf_nodes _ Hwf k t Ht)).
  destruct (findEndPointOnSegment_ok s k k Hwf Hk) as [v ->]. cbn [bind].
  apply isSegmentForward_ok, request_segments, Hwf.
Qed.

Lemma isNextSegmentForward_ok (s : Search) (k : NodePtr) :
  wf s -> valid s k -> exists b, isNextSegmentForward X s k = Ok b.
Proof.
  intros Hwf Hk. unfold isNextSegmentForward.
  destruct (findStartPointOnNextSegment_ok s k Hwf Hk) as [v ->].
  destruct (findEndPointOnNextSegment_ok s k Hwf Hk) as [w ->]. cbn [bind].
  apply isSegmentForward_ok.
  destruct (valid_next_segment s k Hwf Hk) as (i & sg & -> & Hsg). eauto.
Qed.

Lemma isPreviousSegmentForward_ok (s : Search) (k : NodePtr) :
  wf s -> valid s k -> exists b, isPreviousSegmentForward X s k = Ok b.
Proof.
  intros Hwf Hk. unfold isPreviousSegmentForward.
  destruct (prev (node_at s k)) as [p|] eqn:Hp.
  - apply isNextSegmentForward_ok; [exact Hwf|].
    destruct Hk as [t Ht]. apply (ok_prev _ _ _ (wf_nodes _ Hwf k t Ht) p Hp).
  - apply isStartSegmentForward_ok; assumption.
Qed.

Lemma calculateStraightCost_ok (s : Search) (k : NodePtr) (sp ep : Vector2d) :
  wf s -> valid s k -> exists c, calculateStraightCost X s k sp ep = Ok c.
Proof.
  intros Hwf Hk.
  destruct (isSegmentForward_ok s (next_segment (node_at s k)) sp ep) as [sf Hsf].
  { destruct (valid_next_segment s k Hwf Hk) as (i & sg & -> & Hsg). eauto. }
  destruct (isPreviousSegmentForward_ok s k Hwf Hk) as [pf Hpf].
  destruct (calculateStraightCost_decompose X s k sp ep sf pf Hsf Hpf) as (c & Hc & _).
  eauto.
Qed.

Lemma calculateCurveCost_ok (s : Search) (k : NodePtr) :
  wf s -> valid s k -> exists c, calculateCurveCost X s k = Ok c.
Proof.
  intros Hwf [t Ht]. unfold calculateCurveCost.
  rewrite (ok_transition _ _ _ (wf_nodes _ Hwf k t Ht)), Ht. cbn [bind].
  destruct (curve_forward _); eauto.
Qed.

Lemma effectiveLengthOfNextSegment_ok (s : Search) (k : NodePtr) :
  wf s -> valid s k -> exists c, effectiveLengthOfNextSegment X s k = Ok c.
Proof.
  intros Hwf Hk. unfold effectiveLengthOfNextSegment.
  destruct (findStartPointOnNextSegment_ok s k Hwf Hk) as [v ->].
  destruct (findEndPointOnNextSegment_ok s k Hwf Hk) as [w ->]. cbn [bind]. eauto.
Qed.

(** ** Assembling the path *)

Lemma app_not_nil {A : Type} (l : list A) (x : A) : l ++ [x] <> [].
Proof. destruct l; discriminate. Qed.

Lemma app_not_nil_l {A : Type} (l l' : list A) : l <> [] -> l ++ l' <> [].
Proof. destruct l; [congruence|discriminate]. Qed.

Lemma insertFirstNode_ok (s : Search) (res : list PathPose) :
  wf s -> exists r, insertFirstNode X s res = Ok r /\ r <> [].
Proof.
  intros Hwf. unfold insertFirstNode.
  destruct (request_segments s Hwf) as [[sg ->] _]. cbn [bind].
  eexists. split; [reflexivity|apply app_not_nil].
Qed.

Lemma insertLastNode_ok (s : Search) (res : list PathPose) :
  wf s -> exists r, insertLastNode X s res = Ok r /\ r <> [].
Proof.
  intros Hwf. unfold insertLastNode.
  destruct (request_segments s Hwf) as [_ [sg ->]]. cbn [bind].
  eexists. split; [reflexivity|apply app_not_nil].
Qed.

Lemma insertCurveSegment_ok (s : Search) (res : list PathPose) (k : NodePtr) :
  wf s -> valid s k -> res <> [] ->
  exists r, insertCurveSegment X s res k = Ok r /\ r <> [].
Proof.
  intros Hwf [t Ht] Hres.
  rewrite (insertCurveSegment_Ok X s res k t)
    by (rewrite (ok_transition _ _ _ (wf_nodes _ Hwf k t Ht)); exact Ht).
  eexists. split; [reflexivity|apply app_not_nil_l, Hres].
Qed.

Lemma extendAlongTargetSegment_ok (s : Search) (res : list PathPose) (k : NodePtr) :
  wf s -> valid s k ->
  exists r, extendAlongTargetSegment X s res k = Ok r /\ r <> [].
Proof.
  intros Hwf [t Ht]. unfold extendAlongTargetSegment.
  rewrite (ok_transition _ _ _ (wf_nodes _ Hwf k t Ht)), Ht. cbn [bind].
  destruct (valid_transition s k t (wf_course _ Hwf) Ht)
    as ((a & b & _ & ->) & _ & [sg ->]). cbn [bind].
  eexists. split; [reflexivity|apply app_not_nil].
Qed.

Lemma extendAlongSourceSegment_ok (s : Search) (res : list PathPose) (k : NodePtr) :
  wf s -> valid s k ->
  exists r, extendAlongSourceSegment X s res k = Ok r /\ r <> [].
Proof.
  intros Hwf [t Ht]. unfold extendAlongSourceSegment.
  rewrite (ok_transition _ _ _ (wf_nodes _ Hwf k t Ht)), Ht. cbn [bind].
  destruct (valid_transition s k t (wf_course _ Hwf) Ht)
    as ((a & b & -> & _) & [sg ->] & _). cbn [bind].
  eexists. split; [reflexivity|apply app_not_nil].
Qed.

Lemma extendWithStraightTurningSegment_ok (s : Search) (res : list PathPose)
    (pt : Vector2d) :
  res <> [] ->
  exists r, extendWithStraightTurningSegment X s res pt = Ok r /\ r <> [].
Proof.
  intros Hres. unfold extendWithStraightTurningSegment, back.
  destruct (last res) as [p|] eqn:Hl; [|apply last_None in Hl; contradiction].
  cbn [bind]. eexists. split; [reflexivity|apply app_not_nil].
Qed.

Ltac assemble :=
  repeat first
    [ match goal with
      | |- context [insertCurveSegment X ?s ?res ?k] =>
          let r := fresh "r" in let Hr := fresh "Hr" in
          destruct (insertCurveSegment_ok s res k) as (r & -> & Hr);
          [assumption ..|]
      | |- context [extendAlongTargetSegment X ?s ?res ?k] =>
          let r := fresh "r" in let Hr := fresh "Hr" in
          destruct (extendAlongTargetSegment_ok s res k) as (r & -> & Hr);
          [assumption ..|]
      | |- context [extendAlongSourceSegment X ?s ?res ?k] =>
          let r := fresh "r" in let Hr := fresh "Hr" in
          destruct (extendAlongSourceSegment_ok s res k) as (r & -> & Hr);
          [assumption ..|]
      | |- context [extendWithStraightTurningSegment X ?s ?res ?pt] =>
          let r := fresh "r" in let Hr := fresh "Hr" in
          destruct (extendWithStraightTurningSegment_ok s res pt) as (r & -> & Hr);
          [assumption ..|]
      end
    | progress cbn [bind fst snd] ].

Lemma generatePath_step_ok (s : Search) (res : list PathPose)
    (segment_forward : bool) (k : NodePtr) :
  wf s -> valid s k -> res <> [] ->
  exists r, generatePath_step X s res segment_forward k = Ok r /\ r.1 <> [].
Proof.
  intros Hwf Hk Hres. unfold generatePath_step.
  destruct (effectiveLengthOfNextSegment_ok s k Hwf Hk) as [len ->]. cbn [bind].
  destruct (Qlt_bool len epsilon).
  { assemble. eexists. split; [reflexivity|assumption]. }
  destruct (isNextSegmentForward_ok s k Hwf Hk) as [nf ->]. cbn [bind].
  destruct Hk as [t Ht].
  pose proof (ok_transition _ _ _ (wf_nodes _ Hwf k t Ht)) as Htr.
  destruct (valid_transition s k t (wf_course _ Hwf) Ht) as ((a & b & Hf & Hb) & _).
  assert (Hk : valid s k) by (exists t; exact Ht).
  rewrite Htr, Ht. cbn [bind]. rewrite Hf, Hb. cbn [bind].
  destruct (eqb nf segment_forward), (eqb (curve_forward (node_at s k)) nf),
    segment_forward, (curve_forward (node_at s k));
    assemble; (eexists; split; [reflexivity|assumption]).
Qed.

Lemma generatePath_loop_ok (s : Search) (ks : list NodePtr) (res : list PathPose)
    (segment_forward : bool) :
  wf s -> Forall (valid s) ks -> res <> [] ->
  exists r, generatePath_loop X s ks res segment_forward = Ok r.
Proof.
  intros Hwf Hks. revert res segment_forward.
  induction Hks as [|k ks Hk Hks IH]; intros res segment_forward Hres.
  - cbn. eauto.
  - cbn [generatePath_loop].
    destruct (generatePath_step_ok s res segment_forward k Hwf Hk Hres)
      as ([r b] & -> & Hr). cbn [bind fst snd]. apply IH. exact Hr.
Qed.

Lemma generatePath_ok (s : Search) (ks : list NodePtr) (res : list PathPose) :
  wf s -> Forall (valid s) ks -> ks <> [] ->
  exists r, generatePath X s ks res = Ok r.
Proof.
  intros Hwf Hks Hne. unfold generatePath.
  destruct (insertFirstNode_ok s res Hwf) as (r1 & -> & Hr1). cbn [bind].
  destruct ks as [|k ks]; [congruence|]. cbn [front bind].
  destruct (isStartSegmentForward_ok s k Hwf (Forall_inv Hks)) as [b ->]. cbn [bind].
  destruct (generatePath_loop_ok s (k :: ks) r1 b Hwf Hks Hr1) as [r2 ->]. cbn [bind].
  destruct (insertLastNode_ok s r2 Hwf) as (r3 & -> & _). eauto.
Qed.

(** ** Assignments keep the nodes well formed *)

Lemma wf_update_node (s : Search) (k : NodePtr) (f : Node -> Node) :
  wf s ->
  (forall n, transition (f n) = transition n) ->
  (forall n, next_segment (f n) = next_segment n) ->
  (forall n p, prev (f n) = Some p -> prev n = Some p \/ valid s p) ->
  (forall n x, next (f n) = Some x -> next n = Some x \/ valid s x) ->
  wf (update_node s k f).
Proof.
  intros Hwf Ht Hns Hp Hn. constructor.
  - apply (wf_course _ Hwf).
  - apply (wf_request _ Hwf).
  - intros k' t Hk'.
    pose proof (wf_nodes _ Hwf k' t Hk') as Hok.
    constructor.
    + unfold update_node. cbn [nodes set_nodes].
      apply lookup_insert_is_Some.
      destruct (decide (k = k')); [left; assumption|right; split; [assumption|]].
      apply (ok_present _ _ _ Hok).
    + rewrite (node_at_update_node_field transition) by exact Ht.
      apply (ok_transition _ _ _ Hok).
    + rewrite (node_at_update_node_field next_segment) by exact Hns.
      apply (ok_next_segment _ _ _ Hok).
    + intros p. rewrite node_at_update_node.
      destruct (decide (k = k')) as [->|]; [|apply (ok_prev _ _ _ Hok)].
      intros Hfp. destruct (Hp _ _ Hfp) as [Hold|Hv]; [|exact Hv].
      apply (ok_prev _ _ _ Hok p Hold).
    + intros x. rewrite node_at_update_node.
      destruct (decide (k = k')) as [->|]; [|apply (ok_next _ _ _ Hok)].
      intros Hfx. destruct (Hn _ _ Hfx) as [Hold|Hv]; [|exact Hv].
      apply (ok_next _ _ _ Hok x Hold).
Qed.

Lemma wf_same_nodes (s s' : Search) :
  generator_ s' = generator_ s -> start_segment s' = start_segment s ->
  end_segment s' = end_segment s -> nodes s' = nodes s ->
  wf s -> wf s'.
Proof.
  intros Hg Hs He Hn Hwf.
  assert (Hta : forall p, transition_at s' p = transition_at s p)
    by (intros p; apply transition_at_same_course, Hg).
  assert (Hna : forall x, node_at s' x = node_at s x)
    by (intros x; unfold node_at; rewrite Hn; reflexivity).
  constructor.
  - rewrite Hg. apply (wf_course _ Hwf).
  - unfold request_ok. rewrite Hg, Hs, He. apply (wf_request _ Hwf).
  - intros k t. rewrite Hta. intros Hk.
    pose proof (wf_nodes _ Hwf k t Hk) as Hok. constructor.
    + rewrite Hn. apply (ok_present _ _ _ Hok).
    + rewrite Hna. apply (ok_transition _ _ _ Hok).
    + rewrite Hna. apply (ok_next_segment _ _ _ Hok).
    + intros p. rewrite Hna. intros Hp.
      destruct (ok_prev _ _ _ Hok p Hp) as [tp Htp]. exists tp. rewrite Hta. exact Htp.
    + intros x. rewrite Hna. intros Hx.
      destruct (ok_next _ _ _ Hok x Hx) as [tx Htx]. exists tx. rewrite Hta. exact Htx.
Qed.

Lemma valid_same_course (s s' : Search) (k : NodePtr) :
  generator_ s' = generator_ s -> valid s k -> valid s' k.
Proof.
  intros Hg [t Ht]. exists t. rewrite (transition_at_same_course s s' _ Hg). exact Ht.
Qed.

(** ** Finishing a candidate *)

Lemma collect_transitions_wf (fuel : nat) (s : Search) (tmp : option NodePtr)
    (acc : list NodePtr) (r : list NodePtr * Search) :
  wf s -> (forall t, tmp = Some t -> valid s t) -> Forall (valid s) acc ->
  collect_transitions fuel s tmp acc = Ok r ->
  wf r.2 /\ generator_ r.2 = generator_ s /\ Forall (valid s) r.1 /\
  (tmp <> None \/ acc <> [] -> r.1 <> []).
Proof.
  revert s tmp acc. induction fuel as [|fuel IH]; intros s tmp acc Hwf Htmp Hacc H.
  - destruct tmp; [discriminate|]. injection H as <-. cbn.
    split; [exact Hwf|]. split; [reflexivity|]. split; [exact Hacc|].
    intros [?|?]; congruence.
  - destruct tmp as [t|]; cbn [collect_transitions] in H.
    2:{ injection H as <-. cbn.
        split; [exact Hwf|]. split; [reflexivity|]. split; [exact Hacc|].
        intros [?|?]; congruence. }
    pose proof (Htmp t eq_refl) as Hvt. destruct (Hvt) as [tt Htt].
    pose proof (wf_nodes _ Hwf t tt Htt) as Hok.
    set (s1 := match prev (node_at s t) with
               | Some p => update_node s p (fun n => set_next n (Some t))
               | None => s
               end) in *.
    assert (Hg1 : generator_ s1 = generator_ s)
      by (subst s1; destruct (prev (node_at s t)); reflexivity).
    assert (Hwf1 : wf s1).
    { subst s1. destruct (prev (node_at s t)) as [p|]; [|exact Hwf].
      apply wf_update_node; try exact Hwf; try reflexivity;
        try (intros; left; assumption).
      intros n x Hx. cbn in Hx. injection Hx as <-. right. exact Hvt. }
    assert (Hprev1 : prev (node_at s1 t) = prev (node_at s t)).
    { subst s1. destruct (prev (node_at s t)) as [p|] eqn:Hp; [|exact Hp].
      rewrite (node_at_update_node_field prev) by reflexivity. exact Hp. }
    apply IH in H as (Hwf' & Hg & Hall & Hne).
    + split; [exact Hwf'|]. split; [congruence|]. split.
      * eapply Forall_impl; [exact Hall|].
        intros x. apply valid_same_course. symmetry. exact Hg1.
      * intros _. apply Hne. right. discriminate.
    + exact Hwf1.
    + intros t'. rewrite Hprev1. intros Ht'.
      apply (valid_same_course s s1 _ Hg1). apply (ok_prev _ _ _ Hok t' Ht').
    + eapply Forall_impl; [constructor; [exact Hvt|exact Hacc]|].
      intros x. apply valid_same_course. exact Hg1.
Qed.

Lemma signature_loop_no_fault (fuel : nat) (s : Search) (tmp : option NodePtr)
    (first : NodePtr) (res : string) :
  wf s -> (forall t, tmp = Some t -> valid s t) -> valid s first ->
  (forall f, signature_loop X fuel s tmp first res <> Fault f) /\
  (forall r, signature_loop X fuel s tmp first res = Ok r -> valid s r.1).
Proof.
  intros Hwf. revert tmp first res.
  induction fuel as [|fuel IH]; intros tmp first res Htmp Hfirst.
  - destruct tmp; cbn; split; try discriminate. intros r [= <-]. exact Hfirst.
  - destruct tmp as [t|]; cbn [signature_loop].
    2:{ split; [discriminate|]. intros r [= <-]. exact Hfirst. }
    pose proof (Htmp t eq_refl) as Hvt. destruct (Hvt) as [tt Htt].
    destruct (valid_next_segment s t Hwf Hvt) as (i & sg & -> & _).
    destruct (isNextSegmentForward_ok s t Hwf Hvt) as [b ->]. cbn [bind].
    apply IH.
    + intros p Hp. apply (ok_prev _ _ _ (wf_nodes _ Hwf t tt Htt) p Hp).
    + destruct (prev (node_at s t)) as [p|] eqn:Hp; [|exact Hfirst].
      apply (ok_prev _ _ _ (wf_nodes _ Hwf t tt Htt) p Hp).
Qed.

Lemma signature_no_fault (fuel : nat) (s : Search) (head : NodePtr) (f : fault) :
  wf s -> valid s head -> signature X fuel s head <> Fault f.
Proof.
  intros Hwf Hhead. unfold signature.
  destruct (signature_loop_no_fault fuel s (Some head) head ""%string Hwf)
    as [Hnf Hfirst]; [intros t [= <-]; exact Hhead|exact Hhead|].
  destruct (signature_loop X fuel s (Some head) head "") as [[first res]| |] eqn:Hl;
    cbn [bind]; [|exfalso; exact (Hnf _ eq_refl)|discriminate].
  destruct (Hfirst _ eq_refl) as [t Ht]. cbn [fst snd] in *.
  rewrite (ok_transition _ _ _ (wf_nodes _ Hwf first t Ht)), Ht. cbn [bind].
  destruct (valid_transition s first t (wf_course _ Hwf) Ht) as ((a & b & -> & ->) & _).
  destruct (request_segments s Hwf) as [Hstart _].
  destruct (curve_forward (node_at s first)); cbn [bind];
    match goal with
    | |- context [isSegmentForward X s ?seg ?p ?q] =>
        destruct (isSegmentForward_ok s seg p q Hstart) as [fw ->]
    end; discriminate.
Qed.

Lemma generatePathCandidate_wf (fuel : nat) (s : Search) (node : NodePtr) :
  wf s -> valid s node ->
  (forall f, generatePathCandidate X fuel s node <> Fault f) /\
  (forall s', generatePathCandidate X fuel s node = Ok s' ->
              wf s' /\ generator_ s' = generator_ s).
Proof.
  intros Hwf Hnode. unfold generatePathCandidate.
  destruct (findStartPointOnNextSegment_ok s node Hwf Hnode) as [sp ->]. cbn [bind].
  destruct (calculateStraightCost_ok s node sp (end_pt s) Hwf Hnode) as [add ->].
  cbn [bind].
  set (s1 := update_node s node (fun n => set_cost n (cost_add (cost n) add))).
  assert (Hwf1 : wf s1).
  { subst s1. apply wf_update_node; try exact Hwf; try reflexivity;
      intros; left; assumption. }
  assert (Hnode1 : valid s1 node) by exact Hnode.
  destruct (signature X fuel s1 node) as [logged| |] eqn:Hsig; cbn [bind].
  2:{ exfalso. exact (signature_no_fault fuel s1 node _ Hwf1 Hnode1 Hsig). }
  2:{ split; [discriminate|]. intros s' [=]. }
  destruct (cost_lt (cost (node_at s1 node)) (min_cost s1)).
  2:{ split; [discriminate|]. intros s' [= <-]. split; [exact Hwf1|reflexivity]. }
  set (s2 := set_best_path (set_min_cost s1 (cost (node_at s1 node))) []).
  assert (Hwf2 : wf s2) by (apply (wf_same_nodes s1); try reflexivity; exact Hwf1).
  destruct (collect_transitions fuel s2 (Some node) []) as [[chain sm]| |] eqn:Hcol;
    cbn [bind fst snd].
  2:{ exfalso. clear - Hcol. revert Hcol. generalize s2 (Some node) (@nil NodePtr).
      induction fuel as [|fuel IH]; intros s0 tmp acc; destruct tmp; cbn;
        try discriminate. apply IH. }
  2:{ split; [discriminate|]. intros s' [=]. }
  destruct (collect_transitions_wf fuel s2 (Some node) [] (chain, sm) Hwf2)
    as (Hwfm & Hgm & Hall & Hne);
    [intros t [= <-]; exact Hnode|constructor|exact Hcol|].
  cbn [fst snd] in *.
  destruct (generatePath_ok sm chain (best_path sm) Hwfm) as [best ->].
  { eapply Forall_impl; [exact Hall|]. intros x. apply valid_same_course. exact Hgm. }
  { apply Hne. left. discriminate. }
  cbn [bind]. split; [discriminate|]. intros s' [= <-].
  split; [apply (wf_same_nodes sm); try reflexivity; exact Hwfm|].
  cbn. exact Hgm.
Qed.

(** ** Relaxation *)

Lemma relax_wf (s : Search) (queue : list NodePtr) (current_node : NodePtr)
    (k : TransitionPtr) :
  wf s -> valid s current_node -> valid s k ->
  exists s' queue',
    relax X s queue current_node k = Ok (s', queue') /\
    wf s' /\ generator_ s' = generator_ s /\
    (forall x, x ∈ queue' -> x ∈ queue \/ valid s x).
Proof.
  intros Hwf Hcur Hk. unfold relax. destruct (Hk) as [t Ht].
  unfold nodes_at.
  destruct (ok_present _ _ _ (wf_nodes _ Hwf k t Ht)) as [nk ->]. cbn [bind].
  destruct (calculateCurveCost_ok s current_node Hwf Hcur) as [cc ->]. cbn [bind].
  destruct (findStartPointOnNextSegment_ok s current_node Hwf Hcur) as [sp ->].
  cbn [bind].
  destruct (findEndPointOnSegment_ok s current_node k Hwf Hk) as [ep ->]. cbn [bind].
  destruct (calculateStraightCost_ok s current_node sp ep Hwf Hcur) as [sc ->].
  cbn [bind].
  destruct (cost_lt _ _).
  - eexists _, _. split; [reflexivity|]. split; [|split; [reflexivity|]].
    + repeat apply wf_update_node; try exact Hwf; try reflexivity;
        intros n0 x Hx; cbn in Hx;
        first [left; exact Hx
              |injection Hx as <-; right; first [exact Hk|exact Hcur]].
    + intros x Hx. apply queue_insert_subset in Hx as [->|Hx]; [right; exact Hk|].
      left. destruct (queue_find _ queue k); [|exact Hx].
      apply queue_erase_subset in Hx. exact Hx.
  - exists s, queue. split; [reflexivity|]. split; [exact Hwf|].
    split; [reflexivity|]. intros x Hx. left. exact Hx.
Qed.

Lemma relax_list_wf (ts : list Transition) (s : Search) (queue : list NodePtr)
    (current_node : NodePtr) (i : nat) (forward : bool) (j : nat) :
  wf s -> valid s current_node ->
  (forall j', (j <= j' < j + length ts)%nat -> valid s (i, forward, j')) ->
  exists s' queue',
    relax_list X s queue current_node i forward j ts = Ok (s', queue') /\
    wf s' /\ generator_ s' = generator_ s /\
    (forall x, x ∈ queue' -> x ∈ queue \/ valid s x).
Proof.
  revert s queue j. induction ts as [|t ts IH]; intros s queue j Hwf Hcur Hks.
  - exists s, queue. split; [reflexivity|]. split; [exact Hwf|].
    split; [reflexivity|]. intros x Hx. left. exact Hx.
  - cbn [relax_list].
    destruct (relax_wf s queue current_node (i, forward, j) Hwf Hcur)
      as (s1 & q1 & -> & Hwf1 & Hg1 & Hq1); [apply Hks; cbn [length]; lia|].
    cbn [bind fst snd].
    destruct (IH s1 q1 (S j) Hwf1) as (s2 & q2 & -> & Hwf2 & Hg2 & Hq2).
    { apply (valid_same_course s s1 _ Hg1 Hcur). }
    { intros j' Hj'. apply (valid_same_course s s1 _ Hg1). apply Hks.
      cbn [length]. lia. }
    exists s2, q2. split; [reflexivity|]. split; [exact Hwf2|].
    split; [congruence|].
    intros x Hx. destruct (Hq2 x Hx) as [Hin|Hv].
    + apply Hq1. exact Hin.
    + right. apply (valid_same_course s1 s _ (eq_sym Hg1)). exact Hv.
Qed.

Lemma valid_of_lookup (s : Search) (i : nat) (sg : Segment) (forward : bool) (j : nat) :
  generator_ s !! i = Some sg ->
  (j < length (transitions_of sg forward))%nat ->
  valid s (i, forward, j).
Proof.
  intros Hsg Hj. apply lookup_lt_is_Some_2 in Hj as [t Ht].
  exists t. unfold transition_at. rewrite Hsg, Ht. reflexivity.
Qed.

Lemma expand_wf (s : Search) (queue : list NodePtr) (current_node : NodePtr) :
  wf s -> valid s current_node ->
  exists s' queue',
    expand X s queue current_node = Ok (s', queue') /\
    wf s' /\ generator_ s' = generator_ s /\
    (forall x, x ∈ queue' -> x ∈ queue \/ valid s x).
Proof.
  intros Hwf Hcur. unfold expand.
  destruct (valid_next_segment s current_node Hwf Hcur) as (i & sg & Hns & Hsg).
  rewrite Hns. cbn [segment_index bind]. rewrite Hsg. cbn [bind].
  assert (Hgi : generator_ s !! i = Some sg).
  { unfold segment_at in Hsg. destruct (generator_ s !! i); [|discriminate].
    injection Hsg as ->. reflexivity. }
  destruct (relax_list_wf (forward_transitions sg) s queue current_node i true 0
              Hwf Hcur) as (s1 & q1 & -> & Hwf1 & Hg1 & Hq1).
  { intros j' Hj'. apply (valid_of_lookup s i sg true j' Hgi). cbn. lia. }
  cbn [bind fst snd].
  assert (Hcur1 : valid s1 current_node) by apply (valid_same_course s s1 _ Hg1 Hcur).
  destruct (valid_next_segment s1 current_node Hwf1 Hcur1) as (i1 & sg1 & Hns1 & Hsg1).
  rewrite Hns1, Hsg1. cbn [bind].
  assert (Hi1 : i1 = i).
  { destruct Hcur as [t Ht]. destruct Hcur1 as [t1 Ht1].
    rewrite (transition_at_same_course s s1 _ Hg1) in Ht1.
    rewrite Ht in Ht1. injection Ht1 as <-.
    pose proof (ok_next_segment _ _ _ (wf_nodes _ Hwf current_node t Ht)) as H0.
    pose proof (ok_next_segment _ _ _
                  (wf_nodes _ Hwf1 current_node t
                     (eq_trans (transition_at_same_course s s1 _ Hg1) Ht))) as H1.
    congruence. }
  subst i1.
  assert (Hgi1 : generator_ s1 !! i = Some sg1).
  { unfold segment_at in Hsg1. destruct (generator_ s1 !! i); [|discriminate].
    injection Hsg1 as ->. reflexivity. }
  destruct (relax_list_wf (backward_transitions sg1) s1 q1 current_node i false 0
              Hwf1 Hcur1) as (s2 & q2 & -> & Hwf2 & Hg2 & Hq2).
  { intros j' Hj'. apply (valid_of_lookup s1 i sg1 false j' Hgi1). cbn. lia. }
  exists s2, q2. split; [reflexivity|]. split; [exact Hwf2|]. split; [congruence|].
  intros x Hx. destruct (Hq2 x Hx) as [Hin|Hv].
  - apply Hq1. exact Hin.
  - right. apply (valid_same_course s1 s _ (eq_sym Hg1)). exact Hv.
Qed.

Lemma dijkstra_loop_no_fault (fuel : nat) (s : Search) (queue : list NodePtr)
    (f : fault) :
  wf s -> (forall x, x ∈ queue -> valid s x) ->
  dijkstra_loop X fuel s queue <> Fault f.
Proof.
  revert s queue. induction fuel as [|fuel IH]; intros s queue Hwf Hq.
  - destruct queue; discriminate.
  - destruct queue as [|n queue]; [discriminate|]. cbn [dijkstra_loop].
    assert (Hn : valid s n) by (apply Hq; left).
    destruct (decide _).
    + destruct (generatePathCandidate_wf fuel s n Hwf Hn) as [Hnf Hok].
      destruct (generatePathCandidate X fuel s n) as [s1| |] eqn:Hgen; cbn [bind];
        [|exfalso; exact (Hnf _ eq_refl)|discriminate].
      destruct (Hok s1 eq_refl) as [Hwf1 Hg1].
      assert (Hrest : dijkstra_loop X fuel s1 queue <> Fault f).
      { apply IH; [exact Hwf1|]. intros x Hx.
        apply (valid_same_course s s1 _ Hg1). apply Hq. right. exact Hx. }
      destruct (dijkstra_loop X fuel s1 queue); cbn [bind]; congruence.
    + destruct (expand_wf s queue n Hwf Hn) as (s1 & q1 & -> & Hwf1 & Hg1 & Hq1).
      cbn [bind fst snd]. apply IH; [exact Hwf1|].
      intros x Hx. apply (valid_same_course s s1 _ Hg1).
      destruct (Hq1 x Hx) as [Hin|Hv]; [|exact Hv]. apply Hq. right. exact Hin.
Qed.

(** ** The nodes made by [initNodes] *)

Definition init_fields (k : TransitionPtr) (t : Transition) (n : Node) : Prop :=
  transition n = Some k /\
  next_segment n = (if k.1.2 then target t else source t).

Lemma initNodes_transitions_lookup (i : nat) (forward : bool) (ts : list Transition) :
  forall (j0 : nat) (m : gmap TransitionPtr Node),
    (forall j t, ts !! j = Some t ->
       exists n, initNodes_transitions i forward j0 ts m !! (i, forward, (j0 + j)%nat)
                 = Some n /\
                 init_fields (i, forward, (j0 + j)%nat) t n) /\
    (forall k, (forall j, (j < length ts)%nat -> k <> (i, forward, (j0 + j)%nat)) ->
       initNodes_transitions i forward j0 ts m !! k = m !! k).
Proof.
  induction ts as [|t0 ts IH]; intros j0 m.
  - split; [intros j t Hj; destruct j; discriminate|reflexivity].
  - cbn [initNodes_transitions].
    set (k0 := (i, forward, j0)).
    set (m1 := subscript_assign _ k0 _).
    destruct (IH (S j0) m1) as [IHa IHb].
    assert (Hk0 : exists n, m1 !! k0 = Some n /\ init_fields k0 t0 n).
    { subst m1. unfold subscript_assign. rewrite !lookup_insert_eq.
      eexists. split; [reflexivity|]. split; reflexivity. }
    assert (Hother : forall k, k <> k0 -> m1 !! k = m !! k).
    { intros k Hk. subst m1. unfold subscript_assign.
      rewrite !lookup_insert_ne by congruence. reflexivity. }
    split.
    + intros j t Hj. destruct j as [|j].
      * injection Hj as <-. rewrite Nat.add_0_r. fold k0.
        rewrite IHb; [exact Hk0|].
        intros j _. subst k0. intros [= H]. lia.
      * replace (j0 + S j)%nat with (S j0 + j)%nat by lia.
        apply IHa. exact Hj.
    + intros k Hk. rewrite IHb.
      * apply Hother. specialize (Hk 0%nat). rewrite Nat.add_0_r in Hk.
        apply Hk. cbn. lia.
      * intros j Hj. replace (S j0 + j)%nat with (j0 + S j)%nat by lia.
        apply Hk. cbn. lia.
Qed.

Lemma initNodes_segments_lookup (segments : list Segment) :
  forall (i0 : nat) (m : gmap TransitionPtr Node),
    (forall i sg forward j t,
       segments !! i = Some sg -> transitions_of sg forward !! j = Some t ->
       exists n, initNodes_segments i0 segments m !! ((i0 + i)%nat, forward, j) = Some n /\
                 init_fields ((i0 + i)%nat, forward, j) t n) /\
    (forall k, (k.1.1 < i0)%nat -> initNodes_segments i0 segments m !! k = m !! k).
Proof.
  induction segments as [|sg0 rest IH]; intros i0 m.
  - split; [intros i sg forward j t Hi; destruct i; discriminate|reflexivity].
  - cbn [initNodes_segments].
    set (m1 := initNodes_transitions i0 true 0 (forward_transitions sg0) m).
    set (m2 := initNodes_transitions i0 false 0 (backward_transitions sg0) m1).
    destruct (IH (S i0) m2) as [IHa IHb].
    destruct (initNodes_transitions_lookup i0 true (forward_transitions sg0) 0 m)
      as [Ta1 Tb1].
    destruct (initNodes_transitions_lookup i0 false (backward_transitions sg0) 0 m1)
      as [Ta2 Tb2].
    fold m1 in Ta1, Tb1. fold m2 in Ta2, Tb2.
    split.
    + intros i sg forward j t Hi Hj. destruct i as [|i].
      * injection Hi as <-. rewrite Nat.add_0_r.
        rewrite IHb by (cbn; lia).
        destruct forward; cbn [transitions_of] in Hj.
        -- rewrite Tb2 by (intros j' _; congruence). apply (Ta1 j t Hj).
        -- apply (Ta2 j t Hj).
      * replace (i0 + S i)%nat with (S i0 + i)%nat by lia.
        apply (IHa i sg forward j t Hi Hj).
    + intros k Hk. rewrite IHb by lia.
      rewrite Tb2 by (intros j _ ->; cbn in Hk; lia).
      apply Tb1. intros j _ ->. cbn in Hk. lia.
Qed.

Lemma initNodes_default_field {A : Type} (proj : Node -> A) (s : Search) :
  (forall n t, proj (set_transition n t) = proj n) ->
  (forall n b, proj (set_curve_forward n b) = proj n) ->
  (forall n p, proj (set_next_segment n p) = proj n) ->
  forall x, proj (node_at (initNodes s) x) = proj Node_default.
Proof.
  intros H1 H2 H3. unfold node_at, initNodes. cbn [nodes set_nodes].
  assert (Hsub : forall m t f,
            (forall n, proj (f n) = proj n) ->
            (forall x, proj (m !!! x) = proj Node_default) ->
            forall x, proj (subscript_assign m t f !!! x) = proj Node_default).
  { intros m t f Hf Hm x. unfold subscript_assign. rewrite lookup_total_insert.
    destruct (decide (t = x)) as [->|]; [|apply Hm].
    replace (default Node_default (m !! x)) with (m !!! x)
      by (rewrite lookup_total_alt; reflexivity).
    rewrite Hf. apply Hm. }
  assert (Htr : forall ts i forward j m,
            (forall x, proj (m !!! x) = proj Node_default) ->
            forall x, proj (initNodes_transitions i forward j ts m !!! x)
                      = proj Node_default).
  { induction ts as [|t ts IH]; intros i forward j m Hm; [exact Hm|].
    cbn [initNodes_transitions]. apply IH.
    repeat apply Hsub; try exact Hm; intros n; auto. }
  assert (Hsg : forall segments i m,
            (forall x, proj (m !!! x) = proj Node_default) ->
            forall x, proj (initNodes_segments i segments m !!! x)
                      = proj Node_default).
  { induction segments as [|sg rest IH]; intros i m Hm; [exact Hm|].
    cbn [initNodes_segments]. apply IH. repeat apply Htr. exact Hm. }
  apply Hsg. intros x. rewrite lookup_total_empty. reflexivity.
Qed.

Lemma initNodes_wf (s : Search) :
  course_ok (generator_ s) = true -> request_ok s = true -> wf (initNodes s).
Proof.
  intros Hc Hr. constructor; [exact Hc|exact Hr|].
  intros [[i forward] j] t Ht.
  assert (Hlk : exists sg, generator_ s !! i = Some sg /\
                           transitions_of sg forward !! j = Some t).
  { unfold transition_at in Ht. cbn [generator_ initNodes set_nodes] in Ht.
    destruct (generator_ s !! i) as [sg|]; [|discriminate].
    destruct (transitions_of sg forward !! j) as [t'|] eqn:Hj; [|discriminate].
    injection Ht as ->. eauto. }
  destruct Hlk as (sg & Hsg & Hj).
  destruct (initNodes_segments_lookup (generator_ s) 0 ∅) as [Ha _].
  destruct (Ha i sg forward j t Hsg Hj) as (n & Hn & Htr & Hns).
  cbn [Nat.add] in Hn.
  assert (Hat : node_at (initNodes s) (i, forward, j) = n).
  { unfold node_at, initNodes. cbn [nodes set_nodes].
    apply lookup_total_correct. exact Hn. }
  constructor.
  - unfold initNodes. cbn [nodes set_nodes]. rewrite Hn. eauto.
  - rewrite Hat. exact Htr.
  - rewrite Hat. exact Hns.
  - intros p. rewrite (initNodes_default_field prev) by reflexivity. discriminate.
  - intros x. rewrite (initNodes_default_field next) by reflexivity. discriminate.
Qed.

(** ** Seeding *)

Lemma enqueueStartingNode_wf (s : Search) (queue : list NodePtr)
    (k : TransitionPtr) (t : Transition) :
  wf s -> transition_at s (Some k) = Ok t ->
  exists s' queue',
    enqueueStartingNode X s queue k t = Ok (s', queue') /\
    wf s' /\ generator_ s' = generator_ s /\
    (forall x, x ∈ queue' -> x ∈ queue \/ valid s x).
Proof.
  intros Hwf Ht. assert (Hk : valid s k) by (exists t; exact Ht).
  unfold enqueueStartingNode, nodes_at.
  destruct (ok_present _ _ _ (wf_nodes _ Hwf k t Ht)) as [nk ->]. cbn [bind].
  destruct (valid_transition s k t (wf_course _ Hwf) Ht) as ((a & b & Hf & Hb) & _).
  assert (Hep : exists ep, (if curve_forward (node_at s k) then front (path t)
                            else back (path t)) = Ok ep)
    by (destruct (curve_forward _); eauto).
  destruct Hep as [ep ->]. cbn [bind].
  destruct (calculateStraightCost_ok s k (start_pt s) ep Hwf Hk) as [c ->]. cbn [bind].
  eexists _, _. split; [reflexivity|]. split; [|split; [reflexivity|]].
  - apply wf_update_node; try exact Hwf; try reflexivity; intros; left; assumption.
  - intros x Hx. apply queue_insert_subset in Hx as [->|Hx]; [right; exact Hk|].
    left. exact Hx.
Qed.

Lemma enqueueStartingNodes_list_wf (ts : list Transition) (s : Search)
    (queue : list NodePtr) (i : nat) (forward : bool) (j : nat) :
  wf s ->
  (forall n t, ts !! n = Some t ->
     transition_at s (Some (i, forward, (j + n)%nat)) = Ok t) ->
  exists s' queue',
    enqueueStartingNodes_list X s queue i forward j ts = Ok (s', queue') /\
    wf s' /\ generator_ s' = generator_ s /\
    (forall x, x ∈ queue' -> x ∈ queue \/ valid s x).
Proof.
  revert s queue j. induction ts as [|t ts IH]; intros s queue j Hwf Hts.
  - exists s, queue. split; [reflexivity|]. split; [exact Hwf|].
    split; [reflexivity|]. intros x Hx. left. exact Hx.
  - cbn [enqueueStartingNodes_list].
    destruct (enqueueStartingNode_wf s queue (i, forward, j) t Hwf)
      as (s1 & q1 & -> & Hwf1 & Hg1 & Hq1).
    { specialize (Hts 0%nat t eq_refl). rewrite Nat.add_0_r in Hts. exact Hts. }
    cbn [bind fst snd].
    destruct (IH s1 q1 (S j) Hwf1) as (s2 & q2 & -> & Hwf2 & Hg2 & Hq2).
    { intros n t' Hn. rewrite (transition_at_same_course s s1 _ Hg1).
      replace (S j + n)%nat with (j + S n)%nat by lia. apply Hts. exact Hn. }
    exists s2, q2. split; [reflexivity|]. split; [exact Hwf2|].
    split; [congruence|].
    intros x Hx. destruct (Hq2 x Hx) as [Hin|Hv].
    + apply Hq1. exact Hin.
    + right. apply (valid_same_course s1 s _ (eq_sym Hg1)). exact Hv.
Qed.

Lemma enqueueStartingNodes_wf (s : Search) :
  wf s ->
  exists s' queue',
    enqueueStartingNodes X s [] = Ok (s', queue') /\
    wf s' /\ (forall x, x ∈ queue' -> valid s' x).
Proof.
  intros Hwf. unfold enqueueStartingNodes.
  pose proof (wf_request _ Hwf) as Hr. unfold request_ok in Hr.
  destruct (start_segment s) as [i|] eqn:Hss; [|discriminate].
  destruct (end_segment s) as [e|]; [|discriminate].
  apply andb_true_iff in Hr as [Hi _].
  destruct (segment_at_lt s i Hi) as [sg Hsg].
  cbn [segment_index bind]. rewrite Hsg. cbn [bind].
  assert (Hgi : generator_ s !! i = Some sg).
  { unfold segment_at in Hsg. destruct (generator_ s !! i); [|discriminate].
    injection Hsg as ->. reflexivity. }
  destruct (enqueueStartingNodes_list_wf (forward_transitions sg) s [] i true 0 Hwf)
    as (s1 & q1 & -> & Hwf1 & Hg1 & Hq1).
  { intros n t Hn. unfold transition_at. rewrite Hgi. cbn [Nat.add transitions_of].
    rewrite Hn. reflexivity. }
  cbn [bind fst snd].
  destruct (enqueueStartingNodes_list_wf (backward_transitions sg) s1 q1 i false 0 Hwf1)
    as (s2 & q2 & -> & Hwf2 & Hg2 & Hq2).
  { intros n t Hn. unfold transition_at. rewrite Hg1, Hgi. cbn [Nat.add transitions_of].
    rewrite Hn. reflexivity. }
  exists s2, q2. split; [reflexivity|]. split; [exact Hwf2|].
  intros x Hx. apply (valid_same_course s s2); [congruence|].
  destruct (Hq2 x Hx) as [Hin|Hv].
  - destruct (Hq1 x Hin) as [Hnil|Hv]; [|exact Hv].
    apply elem_of_nil in Hnil. contradiction.
  - apply (valid_same_course s1 s _ (eq_sym Hg1)). exact Hv.
Qed.

Lemma performDijkstraSearch_traced_no_fault (fuel : nat) (s : Search) (f : fault) :
  course_ok (generator_ s) = true -> request_ok s = true ->
  performDijkstraSearch_traced X fuel s <> Fault f.
Proof.
  intros Hc Hr. unfold performDijkstraSearch_traced.
  destruct (enqueueStartingNodes_wf (initNodes s) (initNodes_wf s Hc Hr))
    as (s1 & q1 & -> & Hwf1 & Hq1).
  cbn [bind fst snd].
  assert (Hloop : dijkstra_loop X fuel (set_min_cost s1 Infinity) q1 <> Fault f).
  { apply dijkstra_loop_no_fault.
    - apply (wf_same_nodes s1); try reflexivity. exact Hwf1.
    - intros x Hx. apply (valid_same_course s1); [reflexivity|]. apply Hq1, Hx. }
  destruct (dijkstra_loop X fuel (set_min_cost s1 Infinity) q1); cbn [bind]; congruence.
Qed.

(** ** More fuel gives the same result *)

Lemma signature_more_fuel (fuel fuel' : nat) (s : Search) (head : NodePtr) (r : string) :
  (fuel <= fuel')%nat ->
  signature X fuel s head = Ok r -> signature X fuel' s head = Ok r.
Proof.
  intros Hle H. unfold signature in *.
  rewrite (signature_loop_more_fuel X fuel fuel'); [exact H|exact Hle|].
  intros Hout. rewrite Hout in H. discriminate.
Qed.

Lemma generatePathCandidate_more_fuel (fuel fuel' : nat) (s s' : Search)
    (node : NodePtr) :
  (fuel <= fuel')%nat ->
  generatePathCandidate X fuel s node = Ok s' ->
  generatePathCandidate X fuel' s node = Ok s'.
Proof.
  intros Hle H. unfold generatePathCandidate in *.
  destruct (findStartPointOnNextSegment s node) as [sp| |]; try discriminate.
  cbn [bind] in *.
  destruct (calculateStraightCost X s node sp (end_pt s)) as [add| |];
    try discriminate.
  cbn [bind] in *.
  apply bind_Ok_inv in H as (logged & Hsig & H).
  rewrite (signature_more_fuel _ _ _ _ _ Hle Hsig). cbn [bind].
  destruct (cost_lt _ _); [|exact H].
  apply bind_Ok_inv in H as (r & Hcol & H).
  rewrite (collect_transitions_more_fuel _ _ _ _ _ _ Hle Hcol). exact H.
Qed.

End Progress.

(** ** The concrete environment has its costs on a grid *)

Lemma demo_norm_on_grid (v : Vector2d) :
  exists n : nat, (Demo.norm v == inject_Z (Z.of_nat n) * (1 # 1000000))%Q.
Proof.
  unfold Demo.norm, Demo.Qsqrt.
  set (z := Z.sqrt _). exists (Z.to_nat z).
  rewrite Qred_correct, Z2Nat.id by apply Z.sqrt_nonneg.
  unfold Qeq. simpl. lia.
Qed.

Lemma demo_polyline_on_grid (pth : list Vector2d) :
  exists n : nat, (Demo.polyline_length pth == inject_Z (Z.of_nat n) * (1 # 1000000))%Q.
Proof.
  induction pth as [|a [|b rest] IH]; try (exists 0%nat; reflexivity).
  destruct IH as [n Hn]. destruct (demo_norm_on_grid (vsub b a)) as [m Hm].
  exists (m + n)%nat. cbn [Demo.polyline_length].
  rewrite Hn, Hm, Nat2Z.inj_add, inject_Z_plus. ring.
Qed.

Lemma demo_coarse_on_grid (q : Q) :
  (exists n : nat, (q == inject_Z (Z.of_nat n) * (1 # 1000000))%Q) ->
  on_grid (1 # 10000000) q /\ on_grid (1 # 10000000) (2.5 * q).
Proof.
  intros [n Hn]. split.
  - exists (10 * n)%nat. rewrite Hn, Nat2Z.inj_mul, inject_Z_mult.
    unfold Qeq. simpl. lia.
  - exists (25 * n)%nat. rewrite Hn, Nat2Z.inj_mul, inject_Z_mult.
    unfold Qeq. simpl. lia.
Qed.

Lemma demo_costs_on_grid (segments : list Segment) (end_row : nat) (end_ : Vector2d) :
  costs_on_grid Demo.env (1 # 10000000) (Demo.located segments end_row end_).
Proof.
  split; [|split; [|split]].
  - intros v. apply demo_coarse_on_grid, demo_norm_on_grid.
  - intros t. apply demo_coarse_on_grid.
    destruct (demo_polyline_on_grid (path t)) as [n Hn]. exists n.
    cbn. unfold Demo.arc_length. rewrite Qred_correct. exact Hn.
  - exists (Z.to_nat 7000000). rewrite Z2Nat.id by lia. reflexivity.
  - exists (Z.to_nat 50000000). rewrite Z2Nat.id by lia. reflexivity.
Qed.

(** * The theorems at work on the concrete courses *)


(** The backward copy of the curve costs 2.5 times its length. *)
Lemma backward_penalty_scaling_witness :
  calculateCurveCost Demo.env Demo.ready (1, false, 0) =
    Ok (backward_penalty_factor Demo.ready * arc_length Demo.env Demo.curve01)%Q.
Proof.
  destruct (backward_penalty_scaling Demo.env Demo.ready (1, false, 0) Demo.curve01)
    as [Hcurve _]; [vm_compute; reflexivity|].
  exact Hcurve.
Defined.

(** No movement at all on row 0 counts as forward. *)
Lemma isSegmentForward_dot_nonneg_witness :
  isSegmentForward Demo.env Demo.ready (Some 0) (2%Q, 0%Q) (2%Q, 0%Q) = Ok true.
Proof.
  destruct (isSegmentForward_dot_nonneg Demo.env Demo.ready (Some 0)
              (2%Q, 0%Q) (2%Q, 0%Q)
              {| line := {| startPoint := (0%Q, 0%Q); endPoint := (10%Q, 0%Q) |};
                 forward_transitions := [Demo.curve01];
                 backward_transitions := [] |})
    as (warned & b & _ & Hb & _ & _ & Hzero & _); [vm_compute; reflexivity|].
  rewrite Hb, Hzero; reflexivity.
Defined.

(** The forward curve of two points yields one pose. *)
Lemma insertCurveSegment_poses_witness :
  insertCurveSegment Demo.env Demo.ready [] (0, true, 0) =
    Ok ([] ++ curve_poses Demo.env [(10%Q, 0%Q); (10%Q, 5%Q)]).
Proof.
  destruct (insertCurveSegment_poses Demo.env Demo.ready [] (0, true, 0) Demo.curve01)
    as [Hposes _]; [vm_compute; reflexivity|].
  exact Hposes.
Defined.

(** C7, as stated, fails: the curve from (10,0) to (10,5) has two points,
    and [insertCurveSegment] appends a single pose, at (10,5); the first
    point of the traversal gets none. *)
Lemma insertCurveSegment_skips_first_point :
  transition_at Demo.ready (transition (node_at Demo.ready (0, true, 0))) =
    Ok Demo.curve01 /\
  path Demo.curve01 = [(10%Q, 0%Q); (10%Q, 5%Q)] /\
  curve_forward (node_at Demo.ready (0, true, 0)) = true /\
  insertCurveSegment Demo.env Demo.ready [] (0, true, 0) =
    Ok [mkPose 10 5 (314159265358979 # 200000000000000)].
Proof. vm_compute. repeat split. Qed.

Lemma findPath_same_segment_witness :
  exists r : list PathPose * Search,
    findPath Demo.env 10 (Demo.planner Demo.course) (mkPose 2 0 0) (mkPose 5 0 0) = Ok r /\
    r.1 = [mkPose 2 0 0; mkPose 2 0 0; mkPose 5 0 0; mkPose 5 0 0].
Proof.
  destruct (findPath_same_segment Demo.env 10 (Demo.planner Demo.course)
              Demo.mapped Demo.same_row Demo.map (mkPose 2 0 0) (mkPose 5 0 0))
    as (sg & Hsg & Hpath & _); [vm_compute; reflexivity ..|].
  eexists. split; [exact Hpath|].
  vm_compute in Hsg. injection Hsg as <-. vm_compute. reflexivity.
Defined.

(** C4 fails on [Demo.fork]: both curves that leave row 0 get the cost 8 of
    the straight piece from (2,0) to (10,0), but the frontier, ordered by
    cost alone, takes the second node for a duplicate of the first and
    holds the first only. *)
Theorem enqueueStartingNodes_drops_equal_cost :
  (r <- enqueueStartingNodes Demo.env
          (initNodes (Demo.located Demo.fork 2 (15%Q, 20%Q))) [] ;;
   Ok (r.2, cost (node_at r.1 (0, true, 0)), cost (node_at r.1 (0, true, 1)))) =
  Ok ([(0, true, 0)], Finite 8, Finite 8).
Proof. vm_compute. reflexivity. Qed.

(** C5 fails on [Demo.course]: a first request from (2,0) to (15,5) finds
    the path over the curve; a second request on the same planner, to
    (5,20) on row 2, which no transition reaches, returns the poses of the
    first path between its own appendices. *)
Theorem findPath_returns_stale_best_path :
  (r1 <- findPath Demo.env 10 (Demo.planner Demo.course)
           (mkPose 2 0 0) (mkPose 15 5 0) ;;
   r2 <- findPath Demo.env 10 r1.2 (mkPose 2 0 0) (mkPose 5 20 0) ;;
   Ok (r1.1, r2.1)) =
  Ok ([mkPose 2 0 0;
       mkPose 2 0 0; mkPose 10 5 (314159265358979 # 200000000000000); mkPose 15 5 0;
       mkPose 15 5 0],
      [mkPose 2 0 0;
       mkPose 2 0 0; mkPose 10 5 (314159265358979 # 200000000000000); mkPose 15 5 0;
       mkPose 5 20 0]).
Proof. vm_compute. reflexivity. Qed.

(** C6 fails: when no segment is close to the end of an appendix, at
    (5,50), [findAppendices] reads the line of the segment before it tests
    the pointer, and the request ends in a null dereference, not in an
    empty path. *)
Theorem findPath_no_closest_segment_faults :
  findPath Demo.env 10 (Demo.planner Demo.course) (mkPose 5 50 0) (mkPose 2 0 0) =
    Fault NullDereference /\
  findPath Demo.env 10 (Demo.planner Demo.course) (mkPose 2 0 0) (mkPose 5 50 0) =
    Fault NullDereference.
Proof. vm_compute. split; reflexivity. Qed.

(** C1 fails on [Demo.course]: no transition reaches row 2, the search from
    (2,0) to (5,20) finishes no candidate, and what it returns is not the
    empty sequence but the two appendices.  After the loop nothing tests
    whether a candidate was found; the other ways in which [findPath] fails
    return the empty sequence. *)
Theorem performDijkstraSearch_no_candidate_not_empty :
  (r <- performDijkstraSearch_traced Demo.env 10
          (Demo.located Demo.course 2 (5%Q, 20%Q)) ;;
   Ok (r.1.1, map cand_node r.2)) =
  Ok ([mkPose 2 0 0; mkPose 5 20 0], []).
Proof. vm_compute. reflexivity. Qed.

(** C2, as stated, fails: on [Demo.detour] the node of the first curve sits
    in the frontier with cost 2 and leaves [generatePathCandidate] with
    cost 12; the node of the second curve goes from 4 to 6. *)
Lemma generatePathCandidate_raises_cost :
  (r <- performDijkstraSearch_traced Demo.env 3
          (Demo.located Demo.detour 1 (14%Q, 5%Q)) ;;
   Ok (map (fun c => (cand_node c,
                      cost (node_at (cand_before c) (cand_node c)),
                      cost (node_at (cand_after c) (cand_node c)))) r.2)) =
  Ok [((0%nat, true, 0%nat), Finite 2, Finite 12);
      ((0%nat, true, 1%nat), Finite 4, Finite 6)].
Proof. vm_compute. reflexivity. Qed.

(** Expanding and finishing on the seeded frontier of [Demo.detour]: the
    node of the first curve enters [generatePathCandidate] with cost 2 and
    leaves it with cost 12. *)
Lemma relaxation_lowers_candidate_adds_witness :
  expand Demo.env Demo.seeded_detour.1 Demo.seeded_detour.2 (0, true, 1) =
    Ok (Demo.expanded_detour.1, Demo.expanded_detour.2) /\
  generatePathCandidate Demo.env 3 Demo.seeded_detour.1 (0, true, 0) =
    Ok Demo.finished_detour /\
  (forall n, cost_le (cost (node_at Demo.expanded_detour.1 n))
                     (cost (node_at Demo.seeded_detour.1 n))) /\
  cost (node_at Demo.seeded_detour.1 (0, true, 0)) = Finite 2 /\
  cost (node_at Demo.finished_detour (0, true, 0)) = Finite 12.
Proof.
  assert (Hexp : expand Demo.env Demo.seeded_detour.1 Demo.seeded_detour.2 (0, true, 1) =
                 Ok (Demo.expanded_detour.1, Demo.expanded_detour.2))
    by (vm_compute; reflexivity).
  assert (Hgen : generatePathCandidate Demo.env 3 Demo.seeded_detour.1 (0, true, 0) =
                 Ok Demo.finished_detour)
    by (vm_compute; reflexivity).
  destruct (relaxation_lowers_candidate_adds Demo.env 3 _ _ _ _ _ _ _ Hexp Hgen)
    as [Hle _].
  split; [exact Hexp|]. split; [exact Hgen|]. split; [exact Hle|].
  vm_compute. split; reflexivity.
Defined.

(** * Further properties of the planner *)

(** ** The nodes after [initNodes] *)

(** The node that [initNodes] makes for the transition [t] at address [k]. *)
Definition initial_node (k : TransitionPtr) (t : Transition) : Node :=
  {| transition := Some k; curve_forward := k.1.2;
     next_segment := if k.1.2 then target t else source t;
     cost := Infinity; prev := None; next := None |}.

(** The three assignments of [initNodes] to [nodes[&t]]. *)
Definition init_assign (m : gmap TransitionPtr Node) (k : TransitionPtr)
    (t : Transition) : Node :=
  set_next_segment
    (set_curve_forward
       (set_transition (default Node_default (m !! k)) (Some k)) k.1.2)
    (if k.1.2 then target t else source t).

Lemma initNodes_transitions_spec (i : nat) (forward : bool) (ts : list Transition) :
  forall (j0 : nat) (m : gmap TransitionPtr Node) (k : TransitionPtr),
    initNodes_transitions i forward j0 ts m !! k =
      if decide (k.1.1 = i /\ k.1.2 = forward /\ (j0 <= k.2)%nat) then
        match ts !! (k.2 - j0)%nat with
        | Some t => Some (init_assign m k t)
        | None => m !! k
        end
      else m !! k.
Proof.
  induction ts as [|t ts IH]; intros j0 m [[ki kf] kj]; cbn [fst snd].
  - cbn [initNodes_transitions]. destruct (decide _); reflexivity.
  - cbn [initNodes_transitions]. rewrite IH. cbn [fst snd].
    unfold subscript_assign.
    destruct (decide (ki = i /\ kf = forward /\ (S j0 <= kj)%nat)) as [(-> & -> & Hj)|Hn].
    + rewrite decide_True by (repeat split; lia).
      replace (kj - j0)%nat with (S (kj - S j0)) by lia. cbn [lookup list_lookup].
      assert (Hne : (i, forward, j0) <> (i, forward, kj)) by (intros [= ->]; lia).
      destruct (ts !! (kj - S j0)%nat) as [t'|] eqn:Ht.
      * unfold init_assign. rewrite !lookup_insert_ne by exact Hne. reflexivity.
      * rewrite !lookup_insert_ne by exact Hne. reflexivity.
    + destruct (decide (ki = i /\ kf = forward /\ (j0 <= kj)%nat)) as [(-> & -> & Hj)|Hn'].
      * assert (kj = j0) as -> by (destruct (decide (kj = j0)); [assumption|exfalso; apply Hn; repeat split; lia]).
        rewrite Nat.sub_diag. cbn [lookup list_lookup].
        rewrite lookup_insert_eq. unfold init_assign. cbn [fst snd].
        rewrite lookup_insert_eq. cbn [default]. rewrite lookup_insert_eq. cbn [default].
        reflexivity.
      * assert (Hne : (i, forward, j0) <> (ki, kf, kj)).
        { intros [= <- <- <-]. apply Hn'. repeat split; lia. }
        rewrite !lookup_insert_ne by exact Hne. reflexivity.
Qed.

Lemma initNodes_segments_spec (segments : list Segment) :
  forall (i0 : nat) (m : gmap TransitionPtr Node) (k : TransitionPtr),
    (forall k', (i0 <= k'.1.1)%nat -> m !! k' = None) ->
    initNodes_segments i0 segments m !! k =
      if decide (i0 <= k.1.1)%nat then
        match segments !! (k.1.1 - i0)%nat with
        | Some sg =>
            match transitions_of sg k.1.2 !! k.2 with
            | Some t => Some (initial_node k t)
            | None => None
            end
        | None => None
        end
      else m !! k.
Proof.
  induction segments as [|sg rest IH]; intros i0 m [[ki kf] kj] Hm; cbn [fst snd].
  - cbn [initNodes_segments]. destruct (decide _) as [Hle|]; [|reflexivity].
    rewrite lookup_nil. apply (Hm (ki, kf, kj)). exact Hle.
  - cbn [initNodes_segments].
    set (m1 := initNodes_transitions i0 true 0 (forward_transitions sg) m).
    set (m2 := initNodes_transitions i0 false 0 (backward_transitions sg) m1).
    assert (H1 : forall k', m1 !! k' =
              if decide (k'.1.1 = i0 /\ k'.1.2 = true) then
                match forward_transitions sg !! k'.2 with
                | Some t => Some (initial_node k' t)
                | None => None
                end
              else m !! k').
    { intros k'. unfold m1. rewrite initNodes_transitions_spec.
      rewrite Nat.sub_0_r.
      destruct (decide (k'.1.1 = i0 /\ k'.1.2 = true)) as [[Hi Hf]|Hn].
      - rewrite decide_True by (repeat split; [assumption..|lia]).
        assert (Hnone : m !! k' = None) by (apply Hm; lia).
        unfold init_assign, initial_node. rewrite Hnone, Hf. reflexivity.
      - rewrite decide_False by tauto. reflexivity. }
    assert (H2 : forall k', m2 !! k' =
              if decide (k'.1.1 = i0) then
                match transitions_of sg k'.1.2 !! k'.2 with
                | Some t => Some (initial_node k' t)
                | None => None
                end
              else m !! k').
    { intros k'. unfold m2. rewrite initNodes_transitions_spec.
      rewrite Nat.sub_0_r, H1.
      destruct (decide (k'.1.1 = i0)) as [Hi|Hn].
      - destruct (k'.1.2) eqn:Hf; cbn [transitions_of].
        + rewrite decide_False by (intros (_ & ? & _); discriminate).
          rewrite decide_True by (split; [assumption|reflexivity]). reflexivity.
        + rewrite decide_True by (repeat split; [assumption|lia]).
          rewrite decide_False by (intros [_ ?]; discriminate).
          assert (Hnone : m !! k' = None) by (apply Hm; lia).
          unfold init_assign, initial_node. rewrite H1, Hf.
          rewrite decide_False by (intros [_ ?]; discriminate).
          rewrite Hnone. reflexivity.
      - rewrite decide_False by tauto. rewrite decide_False by tauto. reflexivity. }
    rewrite IH; cbn [fst snd].
    + destruct (decide (S i0 <= ki)%nat) as [Hle|Hgt].
      * rewrite decide_True by lia.
        replace (ki - i0)%nat with (S (ki - S i0)) by lia. reflexivity.
      * rewrite H2. cbn [fst snd].
        destruct (decide (ki = i0)) as [->|Hne].
        -- rewrite decide_True by lia. rewrite Nat.sub_diag. reflexivity.
        -- rewrite decide_False by lia. reflexivity.
    + intros k' Hk'. rewrite H2. rewrite decide_False by lia. apply Hm. lia.
Qed.

(** The nodes of [initNodes], in closed form. *)
Lemma initNodes_lookup (s : Search) (k : TransitionPtr) :
  nodes (initNodes s) !! k =
    match transition_at s (Some k) with
    | Ok t => Some (initial_node k t)
    | _ => None
    end.
Proof.
  unfold initNodes. cbn [nodes set_nodes].
  rewrite initNodes_segments_spec by (intros; apply lookup_empty).
  destruct k as [[i forward] j]. cbn [fst snd transition_at].
  rewrite decide_True by lia. rewrite Nat.sub_0_r.
  destruct (generator_ s !! i) as [sg|]; [|reflexivity].
  destruct (transitions_of sg forward !! j); reflexivity.
Qed.

(** X1: [initNodes] leaves exactly one node for every transition of the
    course and no other node.  The node of the transition at address [k]
    points to its transition, has the direction of the list that holds the
    transition, leads to the target (forward list) or the source (backward
    list) of the transition, and has cost [+infinity] and no predecessor or
    successor.  Nothing of the nodes of an earlier search is left. *)
Theorem initNodes_one_node_per_transition (s : Search) (k : TransitionPtr) :
  nodes (initNodes s) !! k =
    match transition_at s (Some k) with
    | Ok t => Some (initial_node k t)
    | _ => None
    end.
Proof. apply initNodes_lookup. Qed.

(** ** What a search takes from an earlier one *)

Section Reset.

Variable X : Extern.

Lemma queue_insert_nodes (s1 s2 : Search) (queue : list NodePtr) (n : NodePtr) :
  nodes s1 = nodes s2 -> queue_insert s1 queue n = queue_insert s2 queue n.
Proof.
  intros H. induction queue as [|e queue IH]; [reflexivity|].
  cbn [queue_insert]. unfold comp, node_at. rewrite H, IH. reflexivity.
Qed.

Lemma enqueueStartingNode_min_cost (s : Search) (queue : list NodePtr)
    (k : TransitionPtr) (t : Transition) (c : Cost) :
  enqueueStartingNode X (set_min_cost s c) queue k t =
    (r <- enqueueStartingNode X s queue k t ;; Ok (set_min_cost r.1 c, r.2)).
Proof.
  unfold enqueueStartingNode.
  change (nodes_at (set_min_cost s c) k) with (nodes_at s k).
  destruct (nodes_at s k) as [node| |]; [|reflexivity..]. cbn [bind].
  change (node_at (set_min_cost s c) node) with (node_at s node).
  destruct (if curve_forward (node_at s node) then front (path t) else back (path t))
    as [ep| |]; [|reflexivity..]. cbn [bind].
  change (calculateStraightCost X (set_min_cost s c) node (start_pt (set_min_cost s c)) ep)
    with (calculateStraightCost X s node (start_pt s) ep).
  destruct (calculateStraightCost X s node (start_pt s) ep) as [a| |]; [|reflexivity..].
  cbn [bind fst snd]. f_equal. f_equal. apply queue_insert_nodes. reflexivity.
Qed.

Lemma enqueueStartingNodes_list_min_cost (ts : list Transition) :
  forall (s : Search) (queue : list NodePtr) (i : nat) (forward : bool) (j : nat)
         (c : Cost),
    enqueueStartingNodes_list X (set_min_cost s c) queue i forward j ts =
      (r <- enqueueStartingNodes_list X s queue i forward j ts ;;
       Ok (set_min_cost r.1 c, r.2)).
Proof.
  induction ts as [|t ts IH]; intros s queue i forward j c; [reflexivity|].
  cbn [enqueueStartingNodes_list]. rewrite enqueueStartingNode_min_cost.
  destruct (enqueueStartingNode X s queue (i, forward, j) t) as [[s1 q1]| |];
    [|reflexivity..].
  cbn [bind fst snd]. apply IH.
Qed.

Lemma enqueueStartingNodes_min_cost (s : Search) (queue : list NodePtr) (c : Cost) :
  enqueueStartingNodes X (set_min_cost s c) queue =
    (r <- enqueueStartingNodes X s queue ;; Ok (set_min_cost r.1 c, r.2)).
Proof.
  unfold enqueueStartingNodes.
  change (start_segment (set_min_cost s c)) with (start_segment s).
  destruct (segment_index (start_segment s)) as [i| |]; [|reflexivity..]. cbn [bind].
  change (segment_at (set_min_cost s c) (start_segment s))
    with (segment_at s (start_segment s)).
  destruct (segment_at s (start_segment s)) as [sg| |]; [|reflexivity..]. cbn [bind].
  rewrite enqueueStartingNodes_list_min_cost.
  destruct (enqueueStartingNodes_list X s queue i true 0 (forward_transitions sg))
    as [[s1 q1]| |]; [|reflexivity..].
  cbn [bind fst snd]. apply enqueueStartingNodes_list_min_cost.
Qed.

Lemma performDijkstraSearch_traced_forgets (fuel : nat) (s : Search)
    (m : gmap TransitionPtr Node) (c : Cost) :
  performDijkstraSearch_traced X fuel (set_min_cost (set_nodes s m) c) =
    performDijkstraSearch_traced X fuel s.
Proof.
  unfold performDijkstraSearch_traced.
  change (initNodes (set_min_cost (set_nodes s m) c))
    with (set_min_cost (initNodes s) c).
  rewrite enqueueStartingNodes_min_cost.
  destruct (enqueueStartingNodes X (initNodes s) []) as [[s1 q1]| |];
    [|reflexivity..].
  cbn [bind fst snd]. reflexivity.
Qed.

Lemma performDijkstraSearch_forgets (fuel : nat) (s : Search)
    (m : gmap TransitionPtr Node) (c : Cost) :
  performDijkstraSearch X fuel (set_min_cost (set_nodes s m) c) =
    performDijkstraSearch X fuel s.
Proof.
  unfold performDijkstraSearch.
  rewrite performDijkstraSearch_traced_forgets. reflexivity.
Qed.

(** X2: the nodes and the minimum cost of an earlier search have no part in
    a search.  Whatever [nodes] and [min_cost] hold when
    [performDijkstraSearch] is called, the candidates, the returned path and
    the planner it leaves are the same: [initNodes] clears the nodes and
    [min_cost] is set to [+infinity] before the loop. *)
Theorem performDijkstraSearch_forgets_nodes_and_min_cost (fuel : nat) (s : Search)
    (m : gmap TransitionPtr Node) (c : Cost) :
  performDijkstraSearch_traced X fuel (set_min_cost (set_nodes s m) c) =
    performDijkstraSearch_traced X fuel s /\
  performDijkstraSearch X fuel (set_min_cost (set_nodes s m) c) =
    performDijkstraSearch X fuel s.
Proof.
  split.
  - apply performDijkstraSearch_traced_forgets.
  - apply performDijkstraSearch_forgets.
Qed.

End Reset.

(** ** The members a search assigns *)

Section Frame.

Variable X : Extern.

(** [s'] differs from [s] in [nodes], [min_cost] and [best_path] only. *)
Definition search_frame (s s' : Search) : Prop :=
  s' = set_best_path (set_min_cost (set_nodes s (nodes s')) (min_cost s'))
         (best_path s').

Lemma search_frame_refl (s : Search) : search_frame s s.
Proof. destruct s. reflexivity. Qed.

Lemma search_frame_trans (s1 s2 s3 : Search) :
  search_frame s1 s2 -> search_frame s2 s3 -> search_frame s1 s3.
Proof.
  unfold search_frame. intros H1 H2. rewrite H2. rewrite H1. reflexivity.
Qed.

Lemma nodes_only_search_frame (s s' : Search) : nodes_only s s' -> search_frame s s'.
Proof.
  unfold nodes_only, search_frame. intros H. rewrite H. destruct s. reflexivity.
Qed.

Lemma search_frame_set_min_cost (s : Search) (c : Cost) :
  search_frame s (set_min_cost s c).
Proof. destruct s. reflexivity. Qed.

Lemma search_frame_set_best_path (s : Search) (p : list PathPose) :
  search_frame s (set_best_path s p).
Proof. destruct s. reflexivity. Qed.

Lemma generatePathCandidate_frame (fuel : nat) (s s' : Search) (node : NodePtr) :
  generatePathCandidate X fuel s node = Ok s' -> search_frame s s'.
Proof.
  intros H. unfold generatePathCandidate in H.
  apply bind_Ok_inv in H as (sp & _ & H).
  apply bind_Ok_inv in H as (add & _ & H).
  apply bind_Ok_inv in H as (logged & _ & H).
  set (s1 := update_node s node (fun n => set_cost n (cost_add (cost n) add))) in *.
  assert (H1 : search_frame s s1)
    by apply nodes_only_search_frame, nodes_only_update_node.
  destruct (cost_lt _ _).
  - apply bind_Ok_inv in H as ([chain sm] & Hcoll & H).
    apply bind_Ok_inv in H as (best & _ & H). injection H as <-. cbn [fst snd].
    apply collect_transitions_frame in Hcoll as [Ho _].
    eapply search_frame_trans; [exact H1|].
    eapply search_frame_trans; [apply search_frame_set_min_cost|].
    eapply search_frame_trans; [apply search_frame_set_best_path|].
    eapply search_frame_trans; [apply nodes_only_search_frame, Ho|].
    apply search_frame_set_best_path.
  - injection H as <-. exact H1.
Qed.

Lemma dijkstra_loop_frame (fuel : nat) :
  forall (s s' : Search) (queue : list NodePtr) (cands : list Candidate),
    dijkstra_loop X fuel s queue = Ok (s', cands) -> search_frame s s'.
Proof.
  induction fuel as [|fuel IH]; intros s s' queue cands H.
  - destruct queue; [|discriminate]. injection H as <- <-. apply search_frame_refl.
  - destruct queue as [|current queue]; cbn [dijkstra_loop] in H.
    { injection H as <- <-. apply search_frame_refl. }
    destruct (decide _).
    + apply bind_Ok_inv in H as (s1 & Hgen & H).
      apply bind_Ok_inv in H as ([s2 c2] & Hloop & H). injection H as <- <-.
      cbn [fst]. eapply search_frame_trans;
        [apply (generatePathCandidate_frame _ _ _ _ Hgen)|apply (IH _ _ _ _ Hloop)].
    + apply bind_Ok_inv in H as ([s1 q1] & Hexp & H). cbn [fst snd] in H.
      apply expand_cost_le in Hexp as [Ho _].
      eapply search_frame_trans;
        [apply nodes_only_search_frame, Ho|apply (IH _ _ _ _ H)].
Qed.

Lemma performDijkstraSearch_traced_frame (fuel : nat) (s s' : Search)
    (result : list PathPose) (cands : list Candidate) :
  performDijkstraSearch_traced X fuel s = Ok (result, s', cands) ->
  search_frame s s'.
Proof.
  intros H. unfold performDijkstraSearch_traced in H.
  apply bind_Ok_inv in H as ([s1 q1] & Henq & H).
  apply bind_Ok_inv in H as ([s2 c2] & Hloop & H). injection H as _ <- _.
  cbn [fst snd] in *.
  apply enqueueStartingNodes_finite in Henq as [Ho _].
  apply dijkstra_loop_frame in Hloop.
  eapply search_frame_trans; [|exact Hloop].
  eapply search_frame_trans; [|apply search_frame_set_min_cost].
  eapply search_frame_trans; [|apply nodes_only_search_frame, Ho].
  apply nodes_only_search_frame. unfold nodes_only, initNodes. destruct s. reflexivity.
Qed.

(** X3: a search assigns [nodes], [min_cost] and [best_path] and nothing
    else.  When [performDijkstraSearch] returns, the course, the map, the
    parameters, the start and end segments and points and the two
    appendices of the planner are what they were at the call. *)
Theorem performDijkstraSearch_assigns_nodes_min_cost_best_path (fuel : nat)
    (s s' : Search) (result : list PathPose) :
  performDijkstraSearch X fuel s = Ok (result, s') ->
  generator_ s' = generator_ s /\ map_info s' = map_info s /\
  size_forward s' = size_forward s /\ size_backward s' = size_backward s /\
  size_width s' = size_width s /\
  backward_penalty_factor s' = backward_penalty_factor s /\
  turning_penalty s' = turning_penalty s /\
  turning_straight_segment s' = turning_straight_segment s /\
  start_segment s' = start_segment s /\ end_segment s' = end_segment s /\
  start_pt s' = start_pt s /\ end_pt s' = end_pt s /\
  start_appendix s' = start_appendix s /\ end_appendix s' = end_appendix s.
Proof.
  intros H. unfold performDijkstraSearch in H.
  apply bind_Ok_inv in H as ([[r s1] cands] & Hrun & H). injection H as <- <-.
  apply performDijkstraSearch_traced_frame in Hrun. unfold search_frame in Hrun.
  rewrite Hrun. repeat split.
Qed.

End Frame.

(** ** Faults of a search *)

Section Faults.

Variable X : Extern.

Lemma update_node_keys (s : Search) (k : NodePtr) (f : Node -> Node) (k' : NodePtr) :
  is_Some (nodes s !! k') -> is_Some (nodes (update_node s k f) !! k').
Proof.
  intros H. unfold update_node. cbn [nodes set_nodes].
  destruct (decide (k = k')) as [->|Hne].
  - rewrite lookup_insert_eq. eauto.
  - rewrite lookup_insert_ne by exact Hne. exact H.
Qed.

Lemma enqueueStartingNode_keys (s s' : Search) (queue queue' : list NodePtr)
    (k : TransitionPtr) (t : Transition) (k' : NodePtr) :
  enqueueStartingNode X s queue k t = Ok (s', queue') ->
  is_Some (nodes s !! k') -> is_Some (nodes s' !! k').
Proof.
  intros H Hk. unfold enqueueStartingNode in H.
  apply bind_Ok_inv in H as (node & _ & H).
  apply bind_Ok_inv in H as (ep & _ & H).
  apply bind_Ok_inv in H as (c & _ & H). injection H as <- _.
  apply update_node_keys, Hk.
Qed.

Lemma enqueueStartingNodes_list_keys (ts : list Transition) :
  forall (s s' : Search) (queue queue' : list NodePtr) (i : nat) (forward : bool)
         (j : nat) (k' : NodePtr),
    enqueueStartingNodes_list X s queue i forward j ts = Ok (s', queue') ->
    is_Some (nodes s !! k') -> is_Some (nodes s' !! k').
Proof.
  induction ts as [|t ts IH]; intros s s' queue queue' i forward j k' H Hk.
  - injection H as <- _. exact Hk.
  - cbn [enqueueStartingNodes_list] in H.
    apply bind_Ok_inv in H as ([s1 q1] & H1 & H). cbn [fst snd] in H.
    apply (IH _ _ _ _ _ _ _ _ H). apply (enqueueStartingNode_keys _ _ _ _ _ _ _ H1 Hk).
Qed.

(** Seeding stops at a transition without polyline points. *)
Lemma enqueueStartingNodes_list_empty_path (i : nat) (forward : bool)
    (ts : list Transition) :
  forall (j0 : nat) (s : Search) (queue : list NodePtr) (j : nat) (t : Transition),
    ts !! j = Some t -> path t = [] ->
    is_Some (nodes s !! (i, forward, (j0 + j)%nat)) ->
    exists f, enqueueStartingNodes_list X s queue i forward j0 ts = Fault f.
Proof.
  induction ts as [|t0 ts IH]; intros j0 s queue j t Ht Hp Hk; [discriminate|].
  cbn [enqueueStartingNodes_list]. destruct j as [|j].
  - injection Ht as ->. rewrite Nat.add_0_r in Hk. destruct Hk as [n Hn].
    unfold enqueueStartingNode, nodes_at. rewrite Hn, Hp. cbn [bind].
    exists EmptyVector. destruct (curve_forward _); reflexivity.
  - destruct (enqueueStartingNode X s queue (i, forward, j0) t0)
      as [[s1 q1]|f|] eqn:H1; cbn [bind fst snd].
    + apply (IH (S j0) s1 q1 j t Ht Hp).
      apply (enqueueStartingNode_keys _ _ _ _ _ _ _ H1).
      replace (S j0 + j)%nat with (j0 + S j)%nat by lia. exact Hk.
    + exists f. reflexivity.
    + exfalso. exact (enqueueStartingNode_fuel_free X _ _ _ _ H1).
Qed.

Lemma performDijkstraSearch_traced_empty_path (fuel : nat) (s : Search) (i : nat)
    (sg : Segment) (forward : bool) (j : nat) (t : Transition) :
  start_segment s = Some i -> generator_ s !! i = Some sg ->
  transitions_of sg forward !! j = Some t -> path t = [] ->
  exists f, performDijkstraSearch_traced X fuel s = Fault f.
Proof.
  intros Hs Hsg Ht Hp. unfold performDijkstraSearch_traced.
  assert (Hk : is_Some (nodes (initNodes s) !! (i, forward, j))).
  { rewrite initNodes_lookup. cbn [transition_at]. rewrite Hsg, Ht. eauto. }
  cut (exists f, enqueueStartingNodes X (initNodes s) [] = Fault f).
  { intros [f ->]. exists f. reflexivity. }
  unfold enqueueStartingNodes.
  change (start_segment (initNodes s)) with (start_segment s). rewrite Hs.
  cbn [segment_index bind segment_at].
  change (generator_ (initNodes s)) with (generator_ s). rewrite Hsg. cbn [bind].
  destruct forward; cbn [transitions_of] in Ht.
  - destruct (enqueueStartingNodes_list_empty_path i true (forward_transitions sg)
                0 (initNodes s) [] j t Ht Hp Hk) as [f ->].
    exists f. reflexivity.
  - destruct (enqueueStartingNodes_list X (initNodes s) [] i true 0
                (forward_transitions sg)) as [[s1 q1]|f|] eqn:H1; cbn [bind fst snd].
    + apply (enqueueStartingNodes_list_empty_path i false (backward_transitions sg)
               0 s1 q1 j t Ht Hp).
      apply (enqueueStartingNodes_list_keys _ _ _ _ _ _ _ _ _ H1 Hk).
    + exists f. reflexivity.
    + exfalso. exact (enqueueStartingNodes_list_fuel_free X _ _ _ _ _ _ H1).
Qed.

(** X5: on a well-formed course a search never faults.  When every
    transition of the course has a polyline with at least one point and a
    source and a target that are segments of the course, and the start and
    the end segment are segments of the course, [performDijkstraSearch]
    dereferences no null or dangling pointer, takes [front] or [back] of no
    empty vector and calls [at] with no missing key or index: it returns, or
    it is still running when the fuel is used up. *)
Theorem performDijkstraSearch_well_formed_no_fault (fuel : nat) (s : Search) :
  course_ok (generator_ s) = true -> request_ok s = true ->
  performDijkstraSearch X fuel s = OutOfFuel \/
  exists r, performDijkstraSearch X fuel s = Ok r.
Proof.
  intros Hc Hr. unfold performDijkstraSearch.
  destruct (performDijkstraSearch_traced X fuel s) as [r|f|] eqn:H.
  - right. eexists. reflexivity.
  - exfalso. exact (performDijkstraSearch_traced_no_fault X fuel s f Hc Hr H).
  - left. reflexivity.
Qed.

(** X6: a transition without polyline points among those that leave the
    start segment makes a search fault: seeding the frontier takes [front]
    or [back] of its empty polyline (or faults before it gets there). *)
Theorem performDijkstraSearch_empty_polyline_faults (fuel : nat) (s : Search)
    (i : nat) (sg : Segment) (forward : bool) (j : nat) (t : Transition) :
  start_segment s = Some i -> generator_ s !! i = Some sg ->
  transitions_of sg forward !! j = Some t -> path t = [] ->
  exists f, performDijkstraSearch X fuel s = Fault f.
Proof.
  intros Hs Hsg Ht Hp.
  destruct (performDijkstraSearch_traced_empty_path fuel s i sg forward j t
              Hs Hsg Ht Hp) as [f H].
  exists f. unfold performDijkstraSearch. rewrite H. reflexivity.
Qed.

End Faults.

(** ** The links of the nodes follow the course *)

Section Walk.

Variable X : Extern.

(** How the links of the nodes follow the course.  A predecessor leads to
    the segment that holds the transition of its successor, and it has a
    cost; a node with a cost and no predecessor is the node of a transition
    that leaves the start segment; a node with a cost is the node of a
    transition of the course; the resulting segment of a node is the one its
    transition leads to. *)
Definition leads_to (t : Transition) (forward : bool) : SegmentPtr :=
  if forward then target t else source t.

Record walk_inv (s : Search) : Prop := {
  walk_link : forall v p,
    prev (node_at s v) = Some p -> next_segment (node_at s p) = Some v.1.1;
  walk_pred : forall v p, prev (node_at s v) = Some p -> finite_cost s p;
  walk_root : forall v,
    finite_cost s v -> prev (node_at s v) = None -> start_segment s = Some v.1.1;
  walk_valid : forall v, finite_cost s v -> exists t, transition_at s (Some v) = Ok t;
  walk_leads : forall v t,
    transition_at s (Some v) = Ok t -> next_segment (node_at s v) = leads_to t v.1.2
}.

Lemma transition_at_course (s s' : Search) (p : option TransitionPtr) :
  generator_ s' = generator_ s -> transition_at s' p = transition_at s p.
Proof.
  intros Hg. destruct p as [[[i f] j]|]; [|reflexivity].
  cbn [transition_at]. rewrite Hg. reflexivity.
Qed.

(** The invariant reads the predecessors, the resulting segments, the start
    segment, the course and which nodes have a cost. *)
Lemma walk_inv_same (s s' : Search) :
  (forall v, prev (node_at s' v) = prev (node_at s v)) ->
  (forall v, next_segment (node_at s' v) = next_segment (node_at s v)) ->
  (forall v, finite_cost s' v <-> finite_cost s v) ->
  start_segment s' = start_segment s -> generator_ s' = generator_ s ->
  walk_inv s -> walk_inv s'.
Proof.
  intros Hp Hn Hc Hs Hg [L P R V T]. constructor.
  - intros v p. rewrite Hp, Hn. apply L.
  - intros v p. rewrite Hp, Hc. apply P.
  - intros v. rewrite Hp, Hc, Hs. apply R.
  - intros v. rewrite Hc, (transition_at_course s s' _ Hg). apply V.
  - intros v t. rewrite Hn, (transition_at_course s s' _ Hg). apply T.
Qed.

Lemma walk_inv_initNodes (s : Search) : walk_inv (initNodes s).
Proof.
  pose proof (initNodes_fresh s) as Hf.
  assert (Hc : forall v, ~ finite_cost (initNodes s) v).
  { intros v [q Hq]. unfold node_at in Hq. destruct (Hf v) as [Hi _]. congruence. }
  assert (Hp : forall v, prev (node_at (initNodes s) v) = None)
    by (intros v; apply Hf).
  constructor.
  - intros v p. rewrite Hp. discriminate.
  - intros v p. rewrite Hp. discriminate.
  - intros v Hv. destruct (Hc v Hv).
  - intros v Hv. destruct (Hc v Hv).
  - intros v t Ht. unfold node_at. rewrite lookup_total_alt, initNodes_lookup.
    change (transition_at (initNodes s) (Some v)) with (transition_at s (Some v)) in Ht.
    rewrite Ht. reflexivity.
Qed.

Lemma finite_cost_add (c : Cost) (q : Q) :
  (exists a, cost_add c q = Finite a) <-> (exists a, c = Finite a).
Proof.
  destruct c as [a|]; cbn [cost_add]; split; intros [b Hb]; try discriminate; eauto.
Qed.

(** Seeding the node of a transition that leaves the start segment. *)
Lemma enqueueStartingNode_walk (s s' : Search) (queue queue' : list NodePtr)
    (k : TransitionPtr) (t : Transition) :
  walk_inv s -> start_segment s = Some k.1.1 -> transition_at s (Some k) = Ok t ->
  enqueueStartingNode X s queue k t = Ok (s', queue') ->
  walk_inv s'.
Proof.
  intros [L P R V T] Hs Hk H. unfold enqueueStartingNode in H.
  apply bind_Ok_inv in H as (node & Hnode & H).
  apply nodes_at_Ok in Hnode as [-> _].
  apply bind_Ok_inv in H as (ep & _ & H).
  apply bind_Ok_inv in H as (c & _ & H). injection H as <- _.
  set (s1 := update_node s k (fun n => set_cost n (Finite c))).
  assert (Hp : forall v, prev (node_at s1 v) = prev (node_at s v))
    by (intros v; apply (node_at_update_node_field prev); reflexivity).
  assert (Hn : forall v, next_segment (node_at s1 v) = next_segment (node_at s v))
    by (intros v; apply (node_at_update_node_field next_segment); reflexivity).
  assert (Hc : forall v, finite_cost s1 v -> v = k \/ finite_cost s v).
  { intros v [q Hq]. unfold s1 in Hq. rewrite node_at_update_node in Hq.
    destruct (decide (k = v)) as [->|Hne]; [left; reflexivity|right; exists q; exact Hq]. }
  assert (Hc' : forall v, finite_cost s v -> finite_cost s1 v).
  { intros v [q Hq]. unfold finite_cost, s1. rewrite node_at_update_node.
    destruct (decide (k = v)); [exists c; reflexivity|exists q; exact Hq]. }
  constructor.
  - intros v p. rewrite Hp, Hn. apply L.
  - intros v p. rewrite Hp. intros Hv. apply Hc', (P v p Hv).
  - intros v Hv. rewrite Hp. intros Hv'.
    destruct (Hc v Hv) as [->|Hf]; [exact Hs|apply (R v Hf Hv')].
  - intros v Hv. destruct (Hc v Hv) as [->|Hf]; [exists t; exact Hk|apply (V v Hf)].
  - intros v t'. rewrite Hn. apply T.
Qed.

Lemma enqueueStartingNode_course (s s' : Search) (queue queue' : list NodePtr)
    (k : TransitionPtr) (t : Transition) :
  enqueueStartingNode X s queue k t = Ok (s', queue') ->
  generator_ s' = generator_ s /\ start_segment s' = start_segment s.
Proof.
  intros H. apply enqueueStartingNode_finite in H as [Ho _].
  apply nodes_only_request in Ho as [Hr _]. unfold request in Hr.
  injection Hr as Hg Hs _ _ _ _ _ _ _ _. split; assumption.
Qed.

Lemma enqueueStartingNodes_list_walk (i : nat) (forward : bool) (sg : Segment)
    (ts : list Transition) :
  forall (j : nat) (s s' : Search) (queue queue' : list NodePtr),
    walk_inv s -> start_segment s = Some i -> generator_ s !! i = Some sg ->
    drop j (transitions_of sg forward) = ts ->
    enqueueStartingNodes_list X s queue i forward j ts = Ok (s', queue') ->
    walk_inv s' /\ generator_ s' = generator_ s /\ start_segment s' = start_segment s.
Proof.
  induction ts as [|t ts IH]; intros j s s' queue queue' Hw Hs Hsg Hd H.
  - injection H as <- _. split; [exact Hw|split; reflexivity].
  - cbn [enqueueStartingNodes_list] in H.
    apply bind_Ok_inv in H as ([s1 q1] & H1 & H). cbn [fst snd] in H.
    assert (Ht : transitions_of sg forward !! j = Some t).
    { assert (H0 : drop j (transitions_of sg forward) !! 0%nat = Some t)
        by (rewrite Hd; reflexivity).
      rewrite lookup_drop, Nat.add_0_r in H0. exact H0. }
    destruct (enqueueStartingNode_course _ _ _ _ _ _ H1) as [Hg1 Hs1].
    apply (IH (S j)) in H.
    + destruct H as (Hw' & Hg' & Hs'). split; [exact Hw'|]. split; congruence.
    + apply (enqueueStartingNode_walk s s1 queue q1 (i, forward, j) t Hw Hs); [|exact H1].
      cbn [transition_at]. rewrite Hsg, Ht. reflexivity.
    + congruence.
    + rewrite Hg1. exact Hsg.
    + replace (S j) with (j + 1)%nat by lia.
      rewrite <- drop_drop, Hd. reflexivity.
Qed.

Lemma enqueueStartingNodes_walk (s s' : Search) (queue queue' : list NodePtr) :
  walk_inv s ->
  enqueueStartingNodes X s queue = Ok (s', queue') ->
  walk_inv s'.
Proof.
  intros Hw H. unfold enqueueStartingNodes in H.
  apply bind_Ok_inv in H as (i & Hi & H).
  apply bind_Ok_inv in H as (sg & Hsg & H).
  apply bind_Ok_inv in H as ([s1 q1] & H1 & H). cbn [fst snd] in H.
  destruct (start_segment s) as [i'|] eqn:Hs; [|discriminate].
  injection Hi as ->. cbn [segment_at] in Hsg.
  destruct (generator_ s !! i) as [sg'|] eqn:Hg; [|discriminate].
  injection Hsg as ->.
  apply (enqueueStartingNodes_list_walk i true sg _ 0 s s1 queue q1 Hw Hs Hg eq_refl)
    in H1 as (Hw1 & Hg1 & Hs1).
  apply (enqueueStartingNodes_list_walk i false sg _ 0 s1 s' q1 queue' Hw1) in H.
  - apply H.
  - congruence.
  - rewrite Hg1. exact Hg.
  - reflexivity.
Qed.

(** One relaxation, for the transition at [k] among those that leave the
    resulting segment of [current_node]. *)
Lemma relax_walk (s s' : Search) (queue queue' : list NodePtr)
    (current_node : NodePtr) (k : TransitionPtr) (t : Transition) :
  walk_inv s -> next_segment (node_at s current_node) = Some k.1.1 ->
  transition_at s (Some k) = Ok t ->
  relax X s queue current_node k = Ok (s', queue') ->
  walk_inv s' /\
  (forall v, next_segment (node_at s' v) = next_segment (node_at s v)) /\
  generator_ s' = generator_ s /\ start_segment s' = start_segment s.
Proof.
  intros Hw Hcur Hk H.
  destruct (relax_cases X _ _ _ _ _ _ H)
    as (_ & cc & sc & sp & ep & _ & _ & _ & _ & Hcase). cbn zeta in Hcase.
  destruct Hcase as [(_ & -> & _)|(Hlt & Hs' & _)].
  { split; [exact Hw|]. repeat split. }
  set (new_cost := cost_add (cost_add (cost (node_at s current_node)) cc) sc) in *.
  assert (Hnew : exists q, new_cost = Finite q) by (apply (cost_lt_finite _ _ Hlt)).
  assert (Hcurf : finite_cost s current_node).
  { unfold new_cost in Hnew. apply finite_cost_add in Hnew.
    apply finite_cost_add in Hnew. exact Hnew. }
  assert (HF : forall x,
    cost (node_at s' x) = (if decide (k = x) then new_cost else cost (node_at s x)) /\
    prev (node_at s' x) =
      (if decide (k = x) then Some current_node else prev (node_at s x)) /\
    next_segment (node_at s' x) = next_segment (node_at s x)).
  { intros x. rewrite Hs'. rewrite !node_at_update_node.
    repeat (destruct (decide _)); cbn [cost prev next_segment set_cost set_prev set_next];
      repeat split; congruence. }
  assert (Hfin : forall v, finite_cost s v -> finite_cost s' v).
  { intros v [q Hq]. unfold finite_cost. destruct (HF v) as (-> & _ & _).
    destruct (decide (k = v)); [exact Hnew|exists q; exact Hq]. }
  assert (Hfin' : forall v, finite_cost s' v -> v = k \/ finite_cost s v).
  { intros v [q Hq]. destruct (HF v) as (Hc & _ & _). rewrite Hc in Hq.
    destruct (decide (k = v)) as [->|Hne]; [left; reflexivity|right; exists q; exact Hq]. }
  assert (Hgen : generator_ s' = generator_ s /\ start_segment s' = start_segment s)
    by (rewrite Hs'; split; reflexivity).
  destruct Hgen as [Hg Hst].
  split; [|split; [intros v; apply HF|split; assumption]].
  destruct Hw as [L P R V T]. constructor.
  - intros v p. destruct (HF v) as (_ & -> & _). destruct (HF p) as (_ & _ & ->).
    destruct (decide (k = v)) as [<-|Hne]; [|apply L].
    intros [= <-]. exact Hcur.
  - intros v p. destruct (HF v) as (_ & -> & _).
    destruct (decide (k = v)) as [<-|Hne].
    + intros [= <-]. apply Hfin, Hcurf.
    + intros Hv. apply Hfin, (P v p Hv).
  - intros v Hv. destruct (HF v) as (_ & -> & _). rewrite Hst.
    destruct (decide (k = v)) as [<-|Hne]; [discriminate|].
    intros Hv'. destruct (Hfin' v Hv) as [->|Hf]; [congruence|apply (R v Hf Hv')].
  - intros v Hv. assert (exists t', transition_at s (Some v) = Ok t') as [t' Ht'].
    { destruct (Hfin' v Hv) as [->|Hf]; [exists t; exact Hk|apply (V v Hf)]. }
    exists t'. rewrite (transition_at_course s s' _ Hg). exact Ht'.
  - intros v t'. destruct (HF v) as (_ & _ & ->).
    rewrite (transition_at_course s s' _ Hg). apply T.
Qed.

Lemma relax_list_walk (current_node : NodePtr) (i : nat) (forward : bool)
    (sg : Segment) (ts : list Transition) :
  forall (j : nat) (s s' : Search) (queue queue' : list NodePtr),
    walk_inv s -> next_segment (node_at s current_node) = Some i ->
    generator_ s !! i = Some sg ->
    drop j (transitions_of sg forward) = ts ->
    relax_list X s queue current_node i forward j ts = Ok (s', queue') ->
    walk_inv s' /\
    (forall v, next_segment (node_at s' v) = next_segment (node_at s v)) /\
    generator_ s' = generator_ s /\ start_segment s' = start_segment s.
Proof.
  induction ts as [|t ts IH]; intros j s s' queue queue' Hw Hcur Hsg Hd H.
  - injection H as <- _. split; [exact Hw|]. repeat split.
  - cbn [relax_list] in H.
    apply bind_Ok_inv in H as ([s1 q1] & H1 & H). cbn [fst snd] in H.
    assert (Ht : transitions_of sg forward !! j = Some t).
    { assert (H0 : drop j (transitions_of sg forward) !! 0%nat = Some t)
        by (rewrite Hd; reflexivity).
      rewrite lookup_drop, Nat.add_0_r in H0. exact H0. }
    apply (relax_walk s s1 queue q1 current_node (i, forward, j) t Hw Hcur) in H1
      as (Hw1 & Hn1 & Hg1 & Hs1);
      [|cbn [transition_at]; rewrite Hsg, Ht; reflexivity].
    apply (IH (S j)) in H.
    + destruct H as (Hw' & Hn' & Hg' & Hs'). split; [exact Hw'|].
      split; [intros v; rewrite Hn'; apply Hn1|]. split; congruence.
    + exact Hw1.
    + rewrite Hn1. exact Hcur.
    + rewrite Hg1. exact Hsg.
    + replace (S j) with (j + 1)%nat by lia.
      rewrite <- drop_drop, Hd. reflexivity.
Qed.

Lemma expand_walk (s s' : Search) (queue queue' : list NodePtr)
    (current_node : NodePtr) :
  walk_inv s ->
  expand X s queue current_node = Ok (s', queue') ->
  walk_inv s'.
Proof.
  intros Hw H. unfold expand in H.
  apply bind_Ok_inv in H as (i & Hi & H).
  apply bind_Ok_inv in H as (sg & Hsg & H).
  apply bind_Ok_inv in H as ([s1 q1] & H1 & H). cbn [fst snd] in H.
  apply bind_Ok_inv in H as (sg' & Hsg' & H).
  destruct (next_segment (node_at s current_node)) as [i'|] eqn:Hcur; [|discriminate].
  injection Hi as ->. cbn [segment_at] in Hsg.
  destruct (generator_ s !! i) as [sg0|] eqn:Hg; [|discriminate].
  injection Hsg as ->.
  apply (relax_list_walk current_node i true sg _ 0 s s1 queue q1 Hw Hcur Hg eq_refl)
    in H1 as (Hw1 & Hn1 & Hg1 & Hs1).
  rewrite Hn1, Hcur in Hsg'. cbn [segment_at] in Hsg'. rewrite Hg1, Hg in Hsg'.
  injection Hsg' as <-.
  apply (relax_list_walk current_node i false sg _ 0 s1 s' q1 queue' Hw1) in H.
  - apply H.
  - rewrite Hn1. exact Hcur.
  - rewrite Hg1. exact Hg.
  - reflexivity.
Qed.

Lemma generatePathCandidate_walk (fuel : nat) (s s' : Search) (node : NodePtr) :
  walk_inv s ->
  generatePathCandidate X fuel s node = Ok s' ->
  walk_inv s'.
Proof.
  intros Hw H.
  destruct (generatePathCandidate_spec X _ _ _ _ H)
    as (sp & add & _ & _ & Hreq & Hrest & Htot & Hother & _).
  unfold request in Hreq. injection Hreq as Hg Hs _ _ _ _ _ _ _ _.
  apply (walk_inv_same s s'); try assumption.
  - intros v. exact (f_equal prev (Hrest v)).
  - intros v. exact (f_equal next_segment (Hrest v)).
  - intros v. unfold finite_cost. destruct (decide (v = node)) as [->|Hne].
    + rewrite Htot. apply finite_cost_add.
    + rewrite (Hother v Hne). reflexivity.
Qed.


(** What [collect_transitions] returns: the predecessors of the node it
    starts from, the first of them first, before what it was given. *)
Lemma collect_transitions_chain (pr : NodePtr -> option NodePtr)
    (P : NodePtr -> Prop) (fuel : nat) :
  (forall v p, P v -> pr v = Some p -> P p) ->
  forall (s sm : Search) (tmp : option NodePtr) (acc chain : list NodePtr),
    (forall v, prev (node_at s v) = pr v) ->
    (forall v, tmp = Some v -> P v) ->
    collect_transitions fuel s tmp acc = Ok (chain, sm) ->
    exists l0, chain = l0 ++ acc /\ Forall P l0 /\
      match tmp with
      | None => l0 = []
      | Some v =>
          last l0 = Some v /\
          (exists first, head l0 = Some first /\ pr first = None) /\
          (forall i a b, l0 !! i = Some a -> l0 !! S i = Some b -> pr b = Some a)
      end.
Proof.
  intros HP. induction fuel as [|fuel IH]; intros s sm tmp acc chain Hpr Htmp H.
  - destruct tmp; [discriminate|]. injection H as <- _. exists []. repeat split.
    constructor.
  - destruct tmp as [t|]; cbn [collect_transitions] in H.
    2:{ injection H as <- _. exists []. repeat split. constructor. }
    set (s1 := match prev (node_at s t) with
               | Some p => update_node s p (fun n => set_next n (Some t))
               | None => s
               end) in *.
    assert (Hpr1 : forall v, prev (node_at s1 v) = pr v).
    { intros v. unfold s1. destruct (prev (node_at s t)); [|apply Hpr].
      rewrite (node_at_update_node_field prev) by reflexivity. apply Hpr. }
    rewrite Hpr1 in H.
    assert (Pt : P t) by (apply Htmp; reflexivity).
    assert (Htmp1 : forall v, pr t = Some v -> P v)
      by (intros v Hv; apply (HP t v Pt Hv)).
    destruct (IH _ _ _ _ _ Hpr1 Htmp1 H) as (l1 & -> & HPl & Hl1).
    exists (l1 ++ [t]). split; [rewrite <- app_assoc; reflexivity|].
    split; [apply Forall_app; split; [exact HPl|constructor; [exact Pt|constructor]]|].
    split; [apply last_snoc|].
    destruct (pr t) as [p|] eqn:Hp.
    + destruct Hl1 as (Hlast & (first & Hhead & Hfirst) & Hlink).
      assert (Hlen : (0 < length l1)%nat).
      { destruct l1; [discriminate|cbn; lia]. }
      split.
      * exists first. split; [|exact Hfirst].
        destruct l1; [discriminate|exact Hhead].
      * intros i a b Ha Hb.
        apply lookup_snoc_Some in Hb as [[Hi Hb]|[Hi <-]].
        -- rewrite lookup_app_l in Ha by lia. apply (Hlink i a b Ha Hb).
        -- rewrite lookup_app_l in Ha by lia.
           rewrite last_lookup, <- Hi in Hlast. cbn [Init.Nat.pred] in Hlast.
           congruence.
    + subst l1. cbn [app]. split.
      * exists t. split; [reflexivity|exact Hp].
      * intros i a b _ Hb. destruct i; discriminate.
Qed.

Lemma accepted_state_field {A : Type} (proj : Node -> A) (s : Search)
    (node : NodePtr) (add : Q) (v : NodePtr) :
  (forall n c, proj (set_cost n c) = proj n) ->
  proj (node_at (accepted_state s node add) v) = proj (node_at s v).
Proof.
  intros H. unfold accepted_state.
  change (proj (node_at (update_node s node
                   (fun n => set_cost n (cost_add (cost n) add))) v) =
          proj (node_at s v)).
  apply node_at_update_node_field. intros x. apply H.
Qed.

End Walk.

(** ** The shape of an assembled path *)

Section Shape.

Variable X : Extern.

(** The polyline of the transition of a node, in the order in which the node
    walks it. *)
Definition traversal (s : Search) (k : NodePtr) (t : Transition) : list Vector2d :=
  if curve_forward (node_at s k) then path t else rev (path t).

(** The poses of a chain of nodes: for every node, in order, the poses of
    its curve, with at most one pose before and at most one pose after
    them. *)
Inductive rendered (s : Search) : list NodePtr -> list PathPose -> Prop :=
| rendered_nil : rendered s [] []
| rendered_cons (k : NodePtr) (ks : list NodePtr) (t : Transition)
    (before after rest : list PathPose) :
    transition_at s (transition (node_at s k)) = Ok t ->
    (length before <= 1)%nat -> (length after <= 1)%nat ->
    rendered s ks rest ->
    rendered s (k :: ks)
      (before ++ curve_poses X (traversal s k t) ++ after ++ rest).

Lemma insertCurveSegment_inv (s : Search) (res r : list PathPose) (k : NodePtr) :
  insertCurveSegment X s res k = Ok r ->
  exists t, transition_at s (transition (node_at s k)) = Ok t /\
            r = res ++ curve_poses X (traversal s k t).
Proof.
  intros H.
  destruct (transition_at s (transition (node_at s k))) as [t| |] eqn:Ht;
    try (unfold insertCurveSegment in H; rewrite Ht in H; discriminate).
  exists t. split; [reflexivity|].
  rewrite (insertCurveSegment_Ok X s res k t Ht) in H. injection H as <-. reflexivity.
Qed.

Lemma extendAlongTargetSegment_inv (s : Search) (res r : list PathPose) (k : NodePtr) :
  extendAlongTargetSegment X s res k = Ok r -> exists p, r = res ++ [p].
Proof.
  intros H. unfold extendAlongTargetSegment in H.
  apply bind_Ok_inv in H as (t & _ & H). apply bind_Ok_inv in H as (pt & _ & H).
  apply bind_Ok_inv in H as (sg & _ & H). injection H as <-. eexists. reflexivity.
Qed.

Lemma extendAlongSourceSegment_inv (s : Search) (res r : list PathPose) (k : NodePtr) :
  extendAlongSourceSegment X s res k = Ok r -> exists p, r = res ++ [p].
Proof.
  intros H. unfold extendAlongSourceSegment in H.
  apply bind_Ok_inv in H as (t & _ & H). apply bind_Ok_inv in H as (pt & _ & H).
  apply bind_Ok_inv in H as (sg & _ & H). injection H as <-. eexists. reflexivity.
Qed.

Lemma extendWithStraightTurningSegment_inv (s : Search) (res r : list PathPose)
    (pt : Vector2d) :
  extendWithStraightTurningSegment X s res pt = Ok r -> exists p, r = res ++ [p].
Proof.
  intros H. unfold extendWithStraightTurningSegment in H.
  apply bind_Ok_inv in H as (p & _ & H). injection H as <-. eexists. reflexivity.
Qed.

Ltac shape_inv :=
  repeat match goal with
  | H : bind _ _ = Ok _ |- _ => apply bind_Ok_inv in H as (? & ? & H)
  | H : insertCurveSegment _ _ _ _ = Ok _ |- _ =>
      apply insertCurveSegment_inv in H as (? & ? & ->)
  | H : extendAlongTargetSegment _ _ _ _ = Ok _ |- _ =>
      apply extendAlongTargetSegment_inv in H as (? & ->)
  | H : extendAlongSourceSegment _ _ _ _ = Ok _ |- _ =>
      apply extendAlongSourceSegment_inv in H as (? & ->)
  | H : extendWithStraightTurningSegment _ _ _ _ = Ok _ |- _ =>
      apply extendWithStraightTurningSegment_inv in H as (? & ->)
  | H : (if ?b then _ else _) = Ok _ |- _ => destruct b eqn:?
  | H : Ok _ = Ok _ |- _ => injection H as <- <-
  end.

Lemma generatePath_step_shape (s : Search) (res r : list PathPose)
    (segment_forward b : bool) (k : NodePtr) :
  generatePath_step X s res segment_forward k = Ok (r, b) ->
  exists t before after,
    transition_at s (transition (node_at s k)) = Ok t /\
    (length before <= 1)%nat /\ (length after <= 1)%nat /\
    r = res ++ before ++ curve_poses X (traversal s k t) ++ after.
Proof.
  intros H. unfold generatePath_step in H. shape_inv;
    match goal with
    | Ht : transition_at s (transition (node_at s k)) = Ok ?t |- _ =>
        exists t;
        first
          [ exists [], []; split; [exact Ht|];
            split; [cbn; lia|]; split; [cbn; lia|];
            rewrite ?app_nil_r, <- ?app_assoc; reflexivity
          | eexists [_], []; split; [exact Ht|];
            split; [cbn; lia|]; split; [cbn; lia|];
            rewrite ?app_nil_r, <- ?app_assoc; reflexivity
          | eexists [], [_]; split; [exact Ht|];
            split; [cbn; lia|]; split; [cbn; lia|];
            rewrite ?app_nil_r, <- ?app_assoc; reflexivity
          | eexists [_], [_]; split; [exact Ht|];
            split; [cbn; lia|]; split; [cbn; lia|];
            rewrite ?app_nil_r, <- ?app_assoc; reflexivity ]
    end.
Qed.

Lemma generatePath_loop_shape (s : Search) (ks : list NodePtr) :
  forall (res r : list PathPose) (segment_forward : bool),
    generatePath_loop X s ks res segment_forward = Ok r ->
    exists mid, rendered s ks mid /\ r = res ++ mid.
Proof.
  induction ks as [|k ks IH]; intros res r segment_forward H.
  - injection H as <-. exists []. split; [constructor|]. rewrite app_nil_r. reflexivity.
  - cbn [generatePath_loop] in H.
    apply bind_Ok_inv in H as ([r1 b1] & Hstep & H). cbn [fst snd] in H.
    apply generatePath_step_shape in Hstep as (t & before & after & Ht & Hb & Ha & ->).
    apply IH in H as (rest & Hrest & ->).
    exists (before ++ curve_poses X (traversal s k t) ++ after ++ rest).
    split; [constructor; assumption|].
    rewrite <- !app_assoc. reflexivity.
Qed.

Lemma generatePath_shape (s : Search) (ks : list NodePtr) (res r : list PathPose) :
  generatePath X s ks res = Ok r ->
  exists sg_start sg_end mid,
    segment_at s (start_segment s) = Ok sg_start /\
    segment_at s (end_segment s) = Ok sg_end /\
    rendered s ks mid /\
    let d_start := vsub (endPoint (line sg_start)) (startPoint (line sg_start)) in
    let d_end := vsub (endPoint (line sg_end)) (startPoint (line sg_end)) in
    r = res ++
        [mkPose (start_pt s).1 (start_pt s).2 (atan2 X d_start.2 d_start.1)] ++
        mid ++
        [mkPose (end_pt s).1 (end_pt s).2 (atan2 X d_end.2 d_end.1)].
Proof.
  intros H. unfold generatePath in H.
  apply bind_Ok_inv in H as (r1 & H1 & H).
  apply bind_Ok_inv in H as (first & _ & H).
  apply bind_Ok_inv in H as (sf & _ & H).
  apply bind_Ok_inv in H as (r2 & H2 & H).
  unfold insertFirstNode in H1. apply bind_Ok_inv in H1 as (sg1 & Hsg1 & H1).
  injection H1 as <-.
  unfold insertLastNode in H. apply bind_Ok_inv in H as (sg2 & Hsg2 & H).
  injection H as <-.
  apply generatePath_loop_shape in H2 as (mid & Hmid & ->).
  exists sg1, sg2, mid. split; [exact Hsg1|]. split; [exact Hsg2|].
  split; [exact Hmid|]. cbn zeta. rewrite <- !app_assoc. reflexivity.
Qed.

(** X8: an assembled path runs from the start point to the end point
    through the curves of the chain.  What [generatePath] appends to [res]
    is a pose at the start point headed along the start segment, then, for
    every node of the chain in order, the poses of its curve with at most
    one pose before and at most one pose after them, then a pose at the end
    point headed along the end segment.  The poses that [res] held come
    first, unchanged. *)
Theorem generatePath_start_curves_end (s : Search) (ks : list NodePtr)
    (res r : list PathPose) :
  generatePath X s ks res = Ok r ->
  exists sg_start sg_end mid,
    segment_at s (start_segment s) = Ok sg_start /\
    segment_at s (end_segment s) = Ok sg_end /\
    rendered s ks mid /\
    let d_start := vsub (endPoint (line sg_start)) (startPoint (line sg_start)) in
    let d_end := vsub (endPoint (line sg_end)) (startPoint (line sg_end)) in
    r = res ++
        [mkPose (start_pt s).1 (start_pt s).2 (atan2 X d_start.2 d_start.1)] ++
        mid ++
        [mkPose (end_pt s).1 (end_pt s).2 (atan2 X d_end.2 d_end.1)].
Proof. apply generatePath_shape. Qed.

End Shape.

(** ** Bounds of the straight cost *)

Section Bounds.

Variable X : Extern.

(** X9: the straight cost is at least the distance and at most the
    penalised distance plus two turns.  With a backward penalty factor of
    at least 1 and a turning stub and turning penalty that are not
    negative, what [calculateStraightCost] returns for the piece from
    [sp] to [ep] lies between the distance from [sp] to [ep] and
    [backward_penalty_factor] times that distance plus twice
    [turning_straight_segment + turning_penalty]. *)
Theorem calculateStraightCost_bounds (s : Search) (node : NodePtr)
    (sp ep : Vector2d) (c : Q) :
  (0 <= norm X (vsub ep sp))%Q ->
  (1 <= backward_penalty_factor s)%Q ->
  (0 <= turning_straight_segment s)%Q -> (0 <= turning_penalty s)%Q ->
  calculateStraightCost X s node sp ep = Ok c ->
  (norm X (vsub ep sp) <= c)%Q /\
  (c <= backward_penalty_factor s * norm X (vsub ep sp)
        + 2 * (turning_straight_segment s + turning_penalty s))%Q.
Proof.
  intros Hd Hb Hs Hp H. unfold calculateStraightCost in H.
  apply bind_Ok_inv in H as (sf & _ & H).
  apply bind_Ok_inv in H as (pf & _ & H). injection H as <-.
  set (d := norm X (vsub ep sp)) in *.
  set (b := backward_penalty_factor s) in *.
  set (ts := turning_straight_segment s) in *.
  set (tp := turning_penalty s) in *.
  assert (Hbd : (d <= b * d)%Q) by nra.
  destruct sf, pf, (curve_forward (node_at s node)); cbn [negb eqb]; split; lra.
Qed.

End Bounds.

(** ** The grid map after [initMaps] *)

(** The cell stored for the occupancy value [c]. *)
Definition cell_of (c : Z) : Z := (Z.min 100 (c + 1) mod 256)%Z.

Lemma unsigned_mul_small (w h : nat) :
  (Z.of_nat w * Z.of_nat h < 4294967296)%Z -> unsigned_mul w h = (w * h)%nat.
Proof.
  intros H. unfold unsigned_mul. rewrite Z.mod_small by lia.
  rewrite <- Nat2Z.inj_mul. apply Nat2Z.id.
Qed.

Lemma initMaps_fill_Ok (cells : list Z) :
  forall (i : nat) (data r : list Z),
    initMaps_fill cells i data = Ok r ->
    (cells <> [] -> (i + length cells <= length data)%nat /\
                    (Z.of_nat (i + length cells) <= INT_MAX)%Z) /\
    length r = length data /\
    forall j, r !! j =
      if decide (i <= j < i + length cells)%nat
      then cell_of <$> cells !! (j - i)%nat
      else data !! j.
Proof.
  induction cells as [|c cells IH]; intros i data r H.
  - injection H as <-. split; [congruence|]. split; [reflexivity|].
    intros j. rewrite decide_False by (cbn; lia). reflexivity.
  - cbn [initMaps_fill] in H. destruct (decide (i < length data)%nat) as [Hi|];
      [|discriminate].
    destruct (decide (Z.of_nat i < INT_MAX)%Z) as [Hi'|]; [|discriminate].
    apply IH in H as (Hlen & Hr & Hcells). rewrite length_insert in Hlen, Hr.
    split.
    { intros _. destruct cells as [|c' cells]; [cbn [length]; lia|].
      destruct Hlen as [Hlen Hlen']; [discriminate|]. cbn [length] in *. lia. }
    split; [exact Hr|].
    intros j. rewrite Hcells. cbn [length].
    destruct (decide (S i <= j < S i + length cells)%nat) as [Hj|Hj].
    + rewrite decide_True by lia.
      replace (j - i)%nat with (S (j - S i)) by lia. reflexivity.
    + destruct (decide (i = j)) as [<-|Hne].
      * rewrite decide_True by lia. rewrite Nat.sub_diag.
        rewrite list_lookup_insert_eq by exact Hi. reflexivity.
      * rewrite decide_False by lia.
        rewrite list_lookup_insert_ne by exact Hne. reflexivity.
Qed.

Lemma initMaps_fill_fits (cells : list Z) :
  forall (i : nat) (data : list Z),
    (i + length cells <= length data)%nat ->
    (Z.of_nat (i + length cells) <= INT_MAX)%Z ->
    exists r, initMaps_fill cells i data = Ok r.
Proof.
  induction cells as [|c cells IH]; intros i data H H'.
  - eexists. reflexivity.
  - cbn [initMaps_fill]. cbn [length] in H, H'.
    rewrite decide_True by lia. rewrite decide_True by lia.
    apply IH; [rewrite length_insert; lia|lia].
Qed.

Lemma initMaps_fill_out_of_range (cells : list Z) :
  forall (i : nat) (data : list Z),
    (i <= length data < i + length cells)%nat ->
    (Z.of_nat (length data) <= INT_MAX)%Z ->
    initMaps_fill cells i data = Fault OutOfRange.
Proof.
  induction cells as [|c cells IH]; intros i data H H'.
  - cbn [length] in H. lia.
  - cbn [initMaps_fill]. cbn [length] in H.
    destruct (decide (i < length data)%nat) as [Hi|]; [|reflexivity].
    rewrite decide_True by lia.
    apply IH; rewrite length_insert; lia.
Qed.

Lemma initMaps_fill_too_many (cells : list Z) :
  forall (i : nat) (data : list Z),
    (Z.of_nat i <= INT_MAX < Z.of_nat (i + length cells))%Z ->
    exists f, initMaps_fill cells i data = Fault f.
Proof.
  induction cells as [|c cells IH]; intros i data H.
  - cbn [length] in H. lia.
  - cbn [initMaps_fill]. cbn [length] in H.
    destruct (decide (i < length data)%nat) as [Hi|]; [|eexists; reflexivity].
    destruct (decide (Z.of_nat i < INT_MAX)%Z) as [Hi'|]; [|eexists; reflexivity].
    apply IH. lia.
Qed.

(** X10: the cells of the grid map.  When [initMaps] returns, the map has
    the width and height of the occupancy grid and [w * h] cells, the
    product taken as the program takes it, on [unsigned] values (so modulo
    [2^32]; it is the number of places of the grid when that is below
    [2^32]).  The occupancy data are not longer than that, and not longer
    than [INT_MAX].  The cell at a place that the data cover holds
    [min(100, value + 1)] as an unsigned byte, every other cell holds 0.
    The thresholds are 50 and 70, the value for no information is -1 and
    the origin is the origin of the grid. *)
Theorem initMaps_cells (s s' : Search) (map : OccupancyGrid) :
  initMaps s map = Ok s' ->
  exists mi,
    map_info s' = Some mi /\
    gm_width mi = info_width map /\ gm_height mi = info_height map /\
    (length (data map) <= unsigned_mul (info_width map) (info_height map))%nat /\
    (Z.of_nat (length (data map)) <= INT_MAX)%Z /\
    length (gm_data mi) = unsigned_mul (info_width map) (info_height map) /\
    (forall j, (j < unsigned_mul (info_width map) (info_height map))%nat ->
       gm_data mi !! j = Some (match data map !! j with
                               | Some c => cell_of c
                               | None => 0%Z
                               end)) /\
    gm_lower_threshold mi = 50%Z /\ gm_upper_threshold mi = 70%Z /\
    gm_no_information mi = (-1)%Z /\ gm_origin mi = info_origin_position map /\
    ((Z.of_nat (info_width map) * Z.of_nat (info_height map) < 4294967296)%Z ->
     unsigned_mul (info_width map) (info_height map) =
       (info_width map * info_height map)%nat).
Proof.
  intros H. unfold initMaps in H.
  apply bind_Ok_inv in H as (cells & Hfill & H). injection H as <-.
  eexists. split; [reflexivity|]. cbn.
  apply initMaps_fill_Ok in Hfill as (Hlen & Hr & Hcells).
  rewrite length_replicate in Hlen, Hr.
  split; [reflexivity|]. split; [reflexivity|].
  assert (Hdata : (length (data map) <= unsigned_mul (info_width map) (info_height map))%nat /\
                  (Z.of_nat (length (data map)) <= INT_MAX)%Z).
  { destruct (data map) as [|c l] eqn:E; [cbn; unfold INT_MAX; lia|].
    destruct Hlen as [H1 H2]; [discriminate|]. cbn [Nat.add] in H1, H2. split; assumption. }
  split; [apply Hdata|]. split; [apply Hdata|].
  split; [exact Hr|].
  split; [|repeat split; apply unsigned_mul_small].
  intros j Hj. rewrite Hcells, Nat.sub_0_r.
  destruct (decide (0 <= j < 0 + length (data map))%nat) as [Hin|Hout].
  - destruct (lookup_lt_is_Some_2 (data map) j) as [c Hc]; [lia|].
    rewrite Hc. reflexivity.
  - rewrite (lookup_ge_None_2 (data map) j) by lia.
    apply lookup_replicate. split; [reflexivity|exact Hj].
Qed.

Lemma initMaps_fits (s : Search) (map : OccupancyGrid) :
  (length (data map) <= unsigned_mul (info_width map) (info_height map))%nat ->
  (Z.of_nat (length (data map)) <= INT_MAX)%Z ->
  exists s', initMaps s map = Ok s'.
Proof.
  intros H H'. unfold initMaps.
  destruct (initMaps_fill_fits (data map) 0
              (replicate (unsigned_mul (info_width map) (info_height map)) 0%Z))
    as [r ->].
  - rewrite length_replicate. cbn [Nat.add]. exact H.
  - cbn [Nat.add]. exact H'.
  - eexists. reflexivity.
Qed.

(** X11: occupancy data longer than the cell vector.  The cell vector has
    [w * h] cells, the product of two [unsigned] values (modulo [2^32]).
    When the occupancy grid carries more values than that, the loop of
    [initMaps] writes behind the end of the vector; when it carries more
    than [INT_MAX] values, the [int] index overflows: [initMaps] faults.
    When it carries at most [w * h] and at most [INT_MAX] values,
    [initMaps] returns. *)
Theorem initMaps_data_too_long (s : Search) (map : OccupancyGrid) :
  ((unsigned_mul (info_width map) (info_height map) < length (data map))%nat ->
   exists f, initMaps s map = Fault f) /\
  ((unsigned_mul (info_width map) (info_height map) < length (data map))%nat ->
   (Z.of_nat (length (data map)) <= INT_MAX)%Z ->
   initMaps s map = Fault OutOfRange) /\
  ((INT_MAX < Z.of_nat (length (data map)))%Z ->
   exists f, initMaps s map = Fault f) /\
  ((length (data map) <= unsigned_mul (info_width map) (info_height map))%nat ->
   (Z.of_nat (length (data map)) <= INT_MAX)%Z ->
   exists s', initMaps s map = Ok s').
Proof.
  assert (Hrange : (unsigned_mul (info_width map) (info_height map) <
                    length (data map))%nat ->
                   (Z.of_nat (unsigned_mul (info_width map) (info_height map))
                    <= INT_MAX)%Z ->
                   initMaps s map = Fault OutOfRange).
  { intros H H'. unfold initMaps.
    rewrite initMaps_fill_out_of_range; [reflexivity| |];
      rewrite length_replicate; [lia|exact H']. }
  assert (Hmany : (INT_MAX < Z.of_nat (length (data map)))%Z ->
                  exists f, initMaps s map = Fault f).
  { intros H. unfold initMaps.
    destruct (initMaps_fill_too_many (data map) 0
                (replicate (unsigned_mul (info_width map) (info_height map)) 0%Z))
      as [f ->]; [unfold INT_MAX in *; cbn [Nat.add]; lia|].
    exists f. reflexivity. }
  split; [|split; [|split]].
  - intros H.
    destruct (Z_le_gt_dec (Z.of_nat (length (data map))) INT_MAX) as [Hle|Hgt].
    + exists OutOfRange. apply Hrange; [exact H|lia].
    + apply Hmany. lia.
  - intros H H'. apply Hrange; [exact H|lia].
  - exact Hmany.
  - apply initMaps_fits.
Qed.

(** X12: a map of the size of the last one is reused.  When the planner
    holds a grid map whose width and height are those of the new occupancy
    grid, [initMaps] makes no new map: the rotation, the resolution and the
    footprint stay those of the map it holds, whatever the new occupancy
    grid says; the origin is taken from the new grid. *)
Theorem initMaps_reuses_map_of_same_size (s s' : Search) (map : OccupancyGrid)
    (old : CollisionGridMap2d) :
  map_info s = Some old ->
  gm_width old = info_width map -> gm_height old = info_height map ->
  initMaps s map = Ok s' ->
  exists mi,
    map_info s' = Some mi /\
    gm_rotation mi = gm_rotation old /\ gm_resolution mi = gm_resolution old /\
    gm_footprint mi = gm_footprint old /\
    gm_origin mi = info_origin_position map.
Proof.
  intros Hold Hw Hh H. unfold initMaps in H. rewrite Hold in H.
  rewrite Hw, Hh, !Nat.eqb_refl in H. cbn [negb orb default] in H.
  apply bind_Ok_inv in H as (cells & _ & H). injection H as <-.
  eexists. split; [reflexivity|]. repeat split.
Qed.

(** ** The appendices *)

Section Appendix.

Variable X : Extern.

(** [convertToWorld] and [convertToMap] on a planner that holds the grid
    map [mi]. *)
Definition to_world (mi : CollisionGridMap2d) (node : NodeT) : PathPose :=
  mkPose (cell2pointSubPixel X mi (n_x node) (n_y node)).1
         (cell2pointSubPixel X mi (n_x node) (n_y node)).2 (n_theta node).

Definition to_map (mi : CollisionGridMap2d) (pt : PathPose) : Pose2d :=
  {| p_x := (point2cell X mi (pos_ pt).1 (pos_ pt).2).1;
     p_y := (point2cell X mi (pos_ pt).1 (pos_ pt).2).2;
     p_theta := theta_ pt |}.

(** The path of the path finder without turning, or that of the path
    finder with turning when the first is empty. *)
Definition first_found (forward full : list NodeT) : list NodeT :=
  match forward with
  | [] => full
  | _ => forward
  end.

Lemma convertToWorld_all_map (s : Search) (mi : CollisionGridMap2d)
    (path_start : list NodeT) :
  map_info s = Some mi ->
  convertToWorld_all X s path_start = Ok (map (to_world mi) path_start).
Proof.
  intros Hmi. induction path_start as [|node rest IH]; [reflexivity|].
  cbn [convertToWorld_all map]. unfold convertToWorld at 1. rewrite Hmi.
  cbn [bind]. rewrite IH. reflexivity.
Qed.

Lemma findAppendix_Ok (AlgorithmForward AlgorithmFull : Algorithm) (s : Search)
    (map : OccupancyGrid) (pose : PathPose) (mi : CollisionGridMap2d) :
  map_info s = Some mi ->
  findAppendix X AlgorithmForward AlgorithmFull s map pose =
    Ok (List.map (to_world mi)
          (first_found
             (algorithm_findPath X AlgorithmForward (generator_ s) map mi
                (to_map mi pose))
             (algorithm_findPath X AlgorithmFull (generator_ s) map mi
                (to_map mi pose)))).
Proof.
  intros Hmi. unfold findAppendix, convertToMap. rewrite Hmi. cbn [bind].
  fold (to_map mi pose). unfold first_found.
  destruct (algorithm_findPath X AlgorithmForward (generator_ s) map mi (to_map mi pose))
    as [|n1 l1].
  - destruct (algorithm_findPath X AlgorithmFull (generator_ s) map mi (to_map mi pose))
      as [|n2 l2]; [reflexivity|].
    apply (convertToWorld_all_map s mi (n2 :: l2) Hmi).
  - apply (convertToWorld_all_map s mi (n1 :: l1) Hmi).
Qed.

(** X13: an appendix is the path of the first path finder that finds one.
    On a planner that holds a grid map, [findAppendix] returns the path of
    the path finder without turning when that path is not empty, and the path
    of the path finder with turning otherwise; every node of the path is
    brought to world coordinates and keeps its heading.  The appendix is
    empty exactly when both path finders return no path.  Without a grid map
    the call is a null dereference. *)
Theorem findAppendix_first_path_found (AlgorithmForward AlgorithmFull : Algorithm)
    (s : Search) (map : OccupancyGrid) (pose : PathPose) :
  match map_info s with
  | None =>
      findAppendix X AlgorithmForward AlgorithmFull s map pose = Fault NullDereference
  | Some mi =>
      let forward :=
        algorithm_findPath X AlgorithmForward (generator_ s) map mi (to_map mi pose) in
      let full :=
        algorithm_findPath X AlgorithmFull (generator_ s) map mi (to_map mi pose) in
      exists appendix,
        findAppendix X AlgorithmForward AlgorithmFull s map pose = Ok appendix /\
        appendix = List.map (to_world mi) (first_found forward full) /\
        List.map theta_ appendix = List.map n_theta (first_found forward full) /\
        (appendix = [] <-> forward = [] /\ full = [])
  end.
Proof.
  destruct (map_info s) as [mi|] eqn:Hmi.
  - cbn zeta. eexists. split; [apply (findAppendix_Ok _ _ _ _ _ _ Hmi)|].
    split; [reflexivity|]. split.
    + rewrite List.map_map. reflexivity.
    + unfold first_found.
      destruct (algorithm_findPath X AlgorithmForward _ _ _ _) as [|n1 l1].
      * destruct (algorithm_findPath X AlgorithmFull _ _ _ _) as [|n2 l2];
          cbn [List.map]; split; try tauto; try discriminate.
        intros [_ ?]; discriminate.
      * cbn [List.map]. split; [discriminate|]. intros [? _]; discriminate.
  - unfold findAppendix, convertToMap. rewrite Hmi. reflexivity.
Qed.

End Appendix.

(** ** What [findAppendices] finds *)

Section Appendices.

Variable X : Extern.

Lemma convertToWorld_all_same_map (s1 s2 : Search) (path_start : list NodeT) :
  map_info s1 = map_info s2 ->
  convertToWorld_all X s1 path_start = convertToWorld_all X s2 path_start.
Proof.
  intros Hm. induction path_start as [|n l IH]; [reflexivity|].
  cbn [convertToWorld_all]. unfold convertToWorld. rewrite Hm, IH. reflexivity.
Qed.

(** [findAppendix] reads the grid map and the course, nothing else. *)
Lemma findAppendix_same_map (AlgorithmForward AlgorithmFull : Algorithm)
    (s1 s2 : Search) (map : OccupancyGrid) (pose : PathPose) :
  map_info s1 = map_info s2 -> generator_ s1 = generator_ s2 ->
  findAppendix X AlgorithmForward AlgorithmFull s1 map pose =
    findAppendix X AlgorithmForward AlgorithmFull s2 map pose.
Proof.
  intros Hm Hg. unfold findAppendix, convertToMap.
  pose proof (convertToWorld_all_same_map s1 s2) as Hall.
  rewrite Hm, Hg.
  destruct (map_info s2) as [mi|]; [|reflexivity]. cbn [bind].
  rewrite !Hall by exact Hm. reflexivity.
Qed.

Lemma findAppendices_Ok_true (s s' : Search) (map : OccupancyGrid)
    (start_pose end_pose : PathPose) :
  findAppendices X s map start_pose end_pose = Ok (true, s') ->
  exists a_start a_end last_start first_end i_start i_end sg_start sg_end,
    findAppendix X AStarPatsyForward AStarPatsyForwardTurning s map start_pose
      = Ok a_start /\
    findAppendix X AStarPatsyReversed AStarPatsyReversedTurning s map end_pose
      = Ok a_end /\
    start_appendix s' = a_start /\ end_appendix s' = rev a_end /\
    last a_start = Some last_start /\ head (rev a_end) = Some first_end /\
    findClosestSegment X (generator_ s) last_start (M_PI X / 8) 0.5 = Some i_start /\
    findClosestSegment X (generator_ s) first_end (M_PI X / 8) 0.5 = Some i_end /\
    start_segment s' = Some i_start /\ end_segment s' = Some i_end /\
    generator_ s !! i_start = Some sg_start /\ generator_ s !! i_end = Some sg_end /\
    start_pt s' = nearestPointTo X (line sg_start) (pos_ last_start) /\
    end_pt s' = nearestPointTo X (line sg_end) (pos_ first_end) /\
    generator_ s' = generator_ s /\ map_info s' = map_info s.
Proof.
  unfold findAppendices. intros H.
  apply bind_Ok_inv in H as (a & Ha & H). cbn [start_appendix set_start_appendix] in H.
  destruct (last a) as [start|] eqn:Hlast; [|discriminate].
  apply bind_Ok_inv in H as (sg & Hsg & H).
  cbn [start_segment set_start_pt set_start_segment] in H, Hsg.
  change (generator_ (set_start_appendix s a)) with (generator_ s) in H, Hsg.
  destruct (findClosestSegment X (generator_ s) start _ _) as [i|] eqn:Hi;
    [|discriminate].
  apply bind_Ok_inv in H as (a' & Ha' & H).
  cbn [end_appendix set_end_appendix] in H.
  destruct a' as [|p l]; [discriminate|].
  apply bind_Ok_inv in H as (e & He & H).
  apply bind_Ok_inv in H as (sg' & Hsg' & H).
  cbn [end_segment set_end_pt set_end_segment] in H, Hsg'.
  match type of H with
  | context [findClosestSegment X ?g e ?a ?d] =>
      change g with (generator_ s) in H, Hsg';
      destruct (findClosestSegment X (generator_ s) e a d) as [j|] eqn:Hj;
        [|discriminate]
  end.
  injection H as <-. cbn [segment_at] in Hsg, Hsg'.
  change (generator_ _) with (generator_ s) in Hsg, Hsg'.
  destruct (generator_ s !! i) as [sg0|] eqn:Hgi; [|discriminate].
  injection Hsg as ->.
  destruct (generator_ s !! j) as [sg1|] eqn:Hgj; [|discriminate].
  injection Hsg' as ->.
  exists a, (p :: l), start, e, i, j, sg, sg'.
  split; [exact Ha|].
  split; [rewrite <- Ha'; apply findAppendix_same_map; reflexivity|].
  split; [reflexivity|]. split; [reflexivity|].
  split; [exact Hlast|].
  split.
  { cbn [end_appendix set_end_appendix set_end_segment set_end_pt] in He.
    destruct (rev (p :: l)) as [|x l']; [discriminate|]. injection He as ->.
    reflexivity. }
  split; [exact Hi|]. split; [exact Hj|].
  repeat split; assumption.
Qed.

(** X14: what a successful [findAppendices] leaves in the planner.  The
    start appendix is the appendix found for the start pose and the end
    appendix is the appendix found for the end pose, reversed.  The start
    segment is the segment closest (within pi/8 and 0.5) to the last pose
    of the start appendix, the end segment the one closest to the first
    pose of the reversed end appendix; both are segments of the course.
    The start point and the end point are the nearest points to those two
    poses on the lines of the two segments.  The course and the grid map
    are not assigned. *)
Theorem findAppendices_success (s s' : Search) (map : OccupancyGrid)
    (start_pose end_pose : PathPose) :
  findAppendices X s map start_pose end_pose = Ok (true, s') ->
  exists a_start a_end last_start first_end i_start i_end sg_start sg_end,
    findAppendix X AStarPatsyForward AStarPatsyForwardTurning s map start_pose
      = Ok a_start /\
    findAppendix X AStarPatsyReversed AStarPatsyReversedTurning s map end_pose
      = Ok a_end /\
    start_appendix s' = a_start /\ end_appendix s' = rev a_end /\
    last a_start = Some last_start /\ head (rev a_end) = Some first_end /\
    findClosestSegment X (generator_ s) last_start (M_PI X / 8) 0.5 = Some i_start /\
    findClosestSegment X (generator_ s) first_end (M_PI X / 8) 0.5 = Some i_end /\
    start_segment s' = Some i_start /\ end_segment s' = Some i_end /\
    generator_ s !! i_start = Some sg_start /\ generator_ s !! i_end = Some sg_end /\
    start_pt s' = nearestPointTo X (line sg_start) (pos_ last_start) /\
    end_pt s' = nearestPointTo X (line sg_end) (pos_ first_end) /\
    generator_ s' = generator_ s /\ map_info s' = map_info s.
Proof. apply findAppendices_Ok_true. Qed.

End Appendices.
(** ** A planning request without faults *)

Section Request.

Variable X : Extern.

Lemma findAppendices_total (s : Search) (map : OccupancyGrid)
    (start_pose end_pose : PathPose) (mi : CollisionGridMap2d) :
  map_info s = Some mi ->
  (forall pose i,
     findClosestSegment X (generator_ s) pose (M_PI X / 8) 0.5 = Some i ->
     (i < length (generator_ s))%nat) ->
  (forall a p,
     findAppendix X AStarPatsyForward AStarPatsyForwardTurning s map start_pose = Ok a \/
     findAppendix X AStarPatsyReversed AStarPatsyReversedTurning s map end_pose = Ok a ->
     last a = Some p ->
     is_Some (findClosestSegment X (generator_ s) p (M_PI X / 8) 0.5)) ->
  exists b s',
    findAppendices X s map start_pose end_pose = Ok (b, s') /\
    generator_ s' = generator_ s /\
    (b = true -> request_ok s' = true).
Proof.
  intros Hmi Hrange Hnear. unfold findAppendices.
  assert (Hstart : exists a,
            findAppendix X AStarPatsyForward AStarPatsyForwardTurning s map start_pose
              = Ok a)
    by (eexists; apply (findAppendix_Ok X _ _ _ _ _ _ Hmi)).
  assert (Hend : exists a,
            findAppendix X AStarPatsyReversed AStarPatsyReversedTurning s map end_pose
              = Ok a)
    by (eexists; apply (findAppendix_Ok X _ _ _ _ _ _ Hmi)).
  destruct Hstart as [a Hstart]. destruct Hend as [a' Hend].
  rewrite Hstart. cbn [bind].
  cbn [start_appendix set_start_appendix].
  destruct (last a) as [start|] eqn:Hlast.
  2:{ eexists false, _. split; [reflexivity|]. split; [reflexivity|discriminate]. }
  change (generator_ (set_start_appendix s a)) with (generator_ s).
  cbn [start_segment set_start_segment set_start_pt].
  destruct (Hnear a start (or_introl Hstart) Hlast) as [i Hi].
  pose proof (Hrange start i Hi) as Hlt. rewrite Hi.
  destruct (lookup_lt_is_Some_2 _ _ Hlt) as [sg Hsg].
  cbn [segment_at]. change (generator_ (set_start_segment _ _)) with (generator_ s).
  rewrite Hsg. cbn [bind].
  rewrite (findAppendix_same_map X _ _ _ s) by reflexivity.
  rewrite Hend. cbn [bind].
  cbn [end_appendix set_end_appendix].
  destruct a' as [|p l].
  { eexists false, _. split; [reflexivity|]. split; [reflexivity|discriminate]. }
  cbn [end_appendix set_end_appendix].
  destruct (rev (p :: l)) as [|e l'] eqn:Hrev.
  { apply (f_equal (@length _)) in Hrev. rewrite length_rev in Hrev. discriminate. }
  assert (Hlast' : last (p :: l) = Some e).
  { apply (f_equal (@rev _)) in Hrev. rewrite rev_involutive in Hrev.
    rewrite Hrev. cbn [rev]. apply last_snoc. }
  cbn [front bind end_segment set_end_segment set_end_pt].
  change (generator_ (set_end_appendix _ _)) with (generator_ s).
  destruct (Hnear (p :: l) e (or_intror Hend) Hlast') as [j Hj].
  pose proof (Hrange e j Hj) as Hltj. rewrite Hj.
  destruct (lookup_lt_is_Some_2 _ _ Hltj) as [sg' Hsg'].
  cbn [segment_at]. change (generator_ (set_end_segment _ _)) with (generator_ s).
  rewrite Hsg'. cbn [bind].
  eexists true, _. split; [reflexivity|]. split; [reflexivity|].
  intros _.
  change ((i <? length (generator_ s))%nat && (j <? length (generator_ s))%nat = true).
  apply Nat.ltb_lt in Hlt, Hltj. rewrite Hlt, Hltj. reflexivity.
Qed.

(** X15: a planning request that cannot fault.  Take it that
    - the occupancy grid of the map service carries at most [w * h] values
      (the product of the two [unsigned] values, modulo [2^32]) and at most
      [INT_MAX];
    - every transition of the course has a polyline with at least one point
      and joins two segments of the course;
    - a segment that the closest-segment lookup returns is a segment of the
      course, and the lookup returns one for the last pose of the appendix
      found for the start pose and for the last pose of the one found for
      the end pose (the first, once that appendix is reversed).
    Then [findPath] dereferences no null or dangling pointer and reads
    behind the end of no vector: it returns, or its search is still running
    when the fuel is used up. *)
Theorem findPath_no_fault (fuel : nat) (s : Search) (start_pose end_pose : PathPose) :
  (forall map, map_service_call X = Some map ->
     (length (data map) <= unsigned_mul (info_width map) (info_height map))%nat /\
     (Z.of_nat (length (data map)) <= INT_MAX)%Z) ->
  course_ok (generator_ s) = true ->
  (forall pose i,
     findClosestSegment X (generator_ s) pose (M_PI X / 8) 0.5 = Some i ->
     (i < length (generator_ s))%nat) ->
  (forall map s1 a p,
     map_service_call X = Some map -> initMaps s map = Ok s1 ->
     findAppendix X AStarPatsyForward AStarPatsyForwardTurning s1 map start_pose = Ok a \/
     findAppendix X AStarPatsyReversed AStarPatsyReversedTurning s1 map end_pose = Ok a ->
     last a = Some p ->
     is_Some (findClosestSegment X (generator_ s) p (M_PI X / 8) 0.5)) ->
  findPath X fuel s start_pose end_pose = OutOfFuel \/
  exists r, findPath X fuel s start_pose end_pose = Ok r.
Proof.
  intros Hdata Hcourse Hrange Hnear. unfold findPath.
  destruct (map_service_call X) as [map|] eqn:Hmap; [|right; eexists; reflexivity].
  destruct (Hdata map eq_refl) as [Hlen Hmax].
  destruct (initMaps_fits s map Hlen Hmax) as [s1 Hinit].
  rewrite Hinit. cbn [bind].
  assert (Hs1 : generator_ s1 = generator_ s /\ exists mi, map_info s1 = Some mi).
  { unfold initMaps in Hinit. apply bind_Ok_inv in Hinit as (cells & _ & Hinit).
    injection Hinit as <-. split; [reflexivity|]. eexists. reflexivity. }
  destruct Hs1 as [Hg1 [mi Hmi]].
  destruct (findAppendices_total s1 map start_pose end_pose mi Hmi)
    as (b & s2 & Hfind & Hg & Hreq).
  { rewrite Hg1. exact Hrange. }
  { rewrite Hg1. intros a p Ha Hp. apply (Hnear map s1 a p eq_refl Hinit Ha Hp). }
  rewrite Hfind. cbn [bind fst snd].
  destruct b; cbn [negb]; [|right; eexists; reflexivity].
  specialize (Hreq eq_refl).
  destruct (decide (start_segment s2 = end_segment s2)) as [Heq|Hne].
  - unfold request_ok in Hreq.
    destruct (start_segment s2) as [i|] eqn:Hs; [|discriminate].
    destruct (end_segment s2) as [j|] eqn:He; [|discriminate].
    apply andb_true_iff in Hreq as [Hi Hj].
    destruct (segment_at_lt s2 i Hi) as [sg Hsg].
    destruct (segment_at_lt s2 j Hj) as [sg' Hsg'].
    unfold insertFirstNode, insertLastNode. rewrite Hs, He, Hsg, Hsg'. cbn [bind].
    right. eexists. reflexivity.
  - unfold performDijkstraSearch.
    destruct (performDijkstraSearch_traced X fuel s2) as [r|f|] eqn:Hrun.
    + right. eexists. reflexivity.
    + exfalso. apply (performDijkstraSearch_traced_no_fault X fuel s2 f); [|exact Hreq|exact Hrun].
      rewrite Hg, Hg1. exact Hcourse.
    + left. reflexivity.
Qed.

End Request.

(** ** What a search leaves of a node *)

Section Identity.

Variable X : Extern.

(** The nodes of [s'] have the transition, the direction and the resulting
    segment they have in [s]. *)
Definition same_identity (s s' : Search) : Prop :=
  forall v,
    transition (node_at s' v) = transition (node_at s v) /\
    curve_forward (node_at s' v) = curve_forward (node_at s v) /\
    next_segment (node_at s' v) = next_segment (node_at s v).

Lemma same_identity_refl (s : Search) : same_identity s s.
Proof. intros v. repeat split. Qed.

Lemma same_identity_trans (s1 s2 s3 : Search) :
  same_identity s1 s2 -> same_identity s2 s3 -> same_identity s1 s3.
Proof.
  intros H1 H2 v. destruct (H1 v) as (A1 & B1 & C1). destruct (H2 v) as (A2 & B2 & C2).
  repeat split; congruence.
Qed.

Lemma same_identity_update_node (s : Search) (k : NodePtr) (f : Node -> Node) :
  (forall n, transition (f n) = transition n) ->
  (forall n, curve_forward (f n) = curve_forward n) ->
  (forall n, next_segment (f n) = next_segment n) ->
  same_identity s (update_node s k f).
Proof.
  intros Ht Hc Hn v. repeat split; apply node_at_update_node_field; assumption.
Qed.

Lemma relax_identity (s s' : Search) (queue queue' : list NodePtr)
    (current_node : NodePtr) (k : TransitionPtr) :
  relax X s queue current_node k = Ok (s', queue') -> same_identity s s'.
Proof.
  intros H.
  destruct (relax_cases X _ _ _ _ _ _ H)
    as (_ & cc & sc & sp & ep & _ & _ & _ & _ & Hcase). cbn zeta in Hcase.
  destruct Hcase as [(_ & -> & _)|(_ & -> & _)]; [apply same_identity_refl|].
  eapply same_identity_trans; [|apply same_identity_update_node; reflexivity].
  eapply same_identity_trans; [|apply same_identity_update_node; reflexivity].
  apply same_identity_update_node; reflexivity.
Qed.

Lemma relax_list_identity (ts : list Transition) :
  forall (s s' : Search) (queue queue' : list NodePtr) (current_node : NodePtr)
         (i : nat) (forward : bool) (j : nat),
    relax_list X s queue current_node i forward j ts = Ok (s', queue') ->
    same_identity s s'.
Proof.
  induction ts as [|t ts IH]; intros s s' queue queue' current_node i forward j H.
  - injection H as <- _. apply same_identity_refl.
  - cbn [relax_list] in H.
    apply bind_Ok_inv in H as ([s1 q1] & H1 & H). cbn [fst snd] in H.
    eapply same_identity_trans; [apply (relax_identity _ _ _ _ _ _ H1)|].
    apply (IH _ _ _ _ _ _ _ _ H).
Qed.

Lemma expand_identity (s s' : Search) (queue queue' : list NodePtr)
    (current_node : NodePtr) :
  expand X s queue current_node = Ok (s', queue') -> same_identity s s'.
Proof.
  intros H. unfold expand in H.
  apply bind_Ok_inv in H as (i & _ & H).
  apply bind_Ok_inv in H as (sg & _ & H).
  apply bind_Ok_inv in H as ([s1 q1] & H1 & H). cbn [fst snd] in H.
  apply bind_Ok_inv in H as (sg' & _ & H).
  eapply same_identity_trans; [apply (relax_list_identity _ _ _ _ _ _ _ _ _ H1)|].
  apply (relax_list_identity _ _ _ _ _ _ _ _ _ H).
Qed.

Lemma generatePathCandidate_identity (fuel : nat) (s s' : Search) (node : NodePtr) :
  generatePathCandidate X fuel s node = Ok s' -> same_identity s s'.
Proof.
  intros H.
  destruct (generatePathCandidate_spec X _ _ _ _ H)
    as (sp & add & _ & _ & _ & Hrest & _).
  intros v. repeat split.
  - exact (f_equal transition (Hrest v)).
  - exact (f_equal curve_forward (Hrest v)).
  - exact (f_equal next_segment (Hrest v)).
Qed.

Lemma dijkstra_loop_identity (fuel : nat) :
  forall (s s' : Search) (queue : list NodePtr) (cands : list Candidate),
    dijkstra_loop X fuel s queue = Ok (s', cands) ->
    same_identity s s' /\
    Forall (fun c => same_identity s (cand_before c)) cands.
Proof.
  induction fuel as [|fuel IH]; intros s s' queue cands H.
  - destruct queue; [|discriminate]. injection H as <- <-.
    split; [apply same_identity_refl|constructor].
  - destruct queue as [|current queue]; cbn [dijkstra_loop] in H.
    { injection H as <- <-. split; [apply same_identity_refl|constructor]. }
    destruct (decide _).
    + apply bind_Ok_inv in H as (s1 & Hgen & H).
      apply bind_Ok_inv in H as ([s2 c2] & Hloop & H). injection H as <- <-.
      cbn [fst snd].
      pose proof (generatePathCandidate_identity _ _ _ _ Hgen) as H1.
      destruct (IH _ _ _ _ Hloop) as [H2 Hall]. split.
      * eapply same_identity_trans; eassumption.
      * constructor; [apply same_identity_refl|].
        eapply Forall_impl; [exact Hall|].
        intros c Hc. eapply same_identity_trans; eassumption.
    + apply bind_Ok_inv in H as ([s1 q1] & Hexp & H). cbn [fst snd] in H.
      pose proof (expand_identity _ _ _ _ _ Hexp) as H1.
      destruct (IH _ _ _ _ H) as [H2 Hall]. split.
      * eapply same_identity_trans; eassumption.
      * eapply Forall_impl; [exact Hall|].
        intros c Hc. eapply same_identity_trans; eassumption.
Qed.

Lemma enqueueStartingNodes_list_identity (ts : list Transition) :
  forall (s s' : Search) (queue queue' : list NodePtr) (i : nat) (forward : bool)
         (j : nat),
    enqueueStartingNodes_list X s queue i forward j ts = Ok (s', queue') ->
    same_identity s s'.
Proof.
  induction ts as [|t ts IH]; intros s s' queue queue' i forward j H.
  - injection H as <- _. apply same_identity_refl.
  - cbn [enqueueStartingNodes_list] in H.
    apply bind_Ok_inv in H as ([s1 q1] & H1 & H). cbn [fst snd] in H.
    eapply same_identity_trans; [|apply (IH _ _ _ _ _ _ _ H)].
    unfold enqueueStartingNode in H1.
    apply bind_Ok_inv in H1 as (node & _ & H1).
    apply bind_Ok_inv in H1 as (ep & _ & H1).
    apply bind_Ok_inv in H1 as (c & _ & H1). injection H1 as <- _.
    apply same_identity_update_node; reflexivity.
Qed.

Lemma performDijkstraSearch_traced_identity (fuel : nat) (s s' : Search)
    (result : list PathPose) (cands : list Candidate) (k : TransitionPtr)
    (t : Transition) :
  performDijkstraSearch_traced X fuel s = Ok (result, s', cands) ->
  transition_at s (Some k) = Ok t ->
  Forall (fun s0 =>
            transition (node_at s0 k) = Some k /\
            curve_forward (node_at s0 k) = k.1.2 /\
            next_segment (node_at s0 k) = (if k.1.2 then target t else source t))
    (s' :: List.map cand_before cands).
Proof.
  intros H Ht. unfold performDijkstraSearch_traced in H.
  apply bind_Ok_inv in H as ([s1 q1] & Henq & H).
  apply bind_Ok_inv in H as ([s2 c2] & Hloop & H). injection H as _ <- <-.
  cbn [fst snd] in *.
  assert (H0 : node_at (initNodes s) k = initial_node k t).
  { unfold node_at. rewrite lookup_total_alt, initNodes_lookup, Ht. reflexivity. }
  assert (H1 : same_identity (initNodes s) s1).
  { unfold enqueueStartingNodes in Henq.
    apply bind_Ok_inv in Henq as (i & _ & Henq).
    apply bind_Ok_inv in Henq as (sg & _ & Henq).
    apply bind_Ok_inv in Henq as ([s0 q0] & Ha & Hb). cbn [fst snd] in Hb.
    eapply same_identity_trans;
      [apply (enqueueStartingNodes_list_identity _ _ _ _ _ _ _ _ Ha)
      |apply (enqueueStartingNodes_list_identity _ _ _ _ _ _ _ _ Hb)]. }
  destruct (dijkstra_loop_identity _ _ _ _ _ Hloop) as [H2 Hall].
  assert (Hfrom : forall s0, same_identity (set_min_cost s1 Infinity) s0 ->
            transition (node_at s0 k) = Some k /\
            curve_forward (node_at s0 k) = k.1.2 /\
            next_segment (node_at s0 k) = (if k.1.2 then target t else source t)).
  { intros s0 Hs0. destruct (Hs0 k) as (A & B & C). destruct (H1 k) as (A1 & B1 & C1).
    change (node_at (set_min_cost s1 Infinity) k) with (node_at s1 k) in A, B, C.
    rewrite A, B, C, A1, B1, C1, H0. repeat split. }
  constructor; [apply Hfrom, H2|].
  apply Forall_map. eapply Forall_impl; [exact Hall|]. intros c Hc. apply Hfrom, Hc.
Qed.


(** X16: a search never reassigns what a node stands for.  From
    [initNodes] to the end of [performDijkstraSearch], and at the time each
    candidate is finished, the node of every transition of the course
    points to that transition, has the direction of the list that holds it
    and leads to its target (forward) or source (backward): the search
    assigns the cost and the two links of a node, nothing else. *)
Theorem performDijkstraSearch_keeps_node_identity (fuel : nat) (s s' : Search)
    (result : list PathPose) (cands : list Candidate) (k : TransitionPtr)
    (t : Transition) :
  performDijkstraSearch_traced X fuel s = Ok (result, s', cands) ->
  transition_at s (Some k) = Ok t ->
  Forall (fun s0 =>
            transition (node_at s0 k) = Some k /\
            curve_forward (node_at s0 k) = k.1.2 /\
            next_segment (node_at s0 k) = (if k.1.2 then target t else source t))
    (s' :: List.map cand_before cands).
Proof. apply performDijkstraSearch_traced_identity. Qed.

End Identity.

(** ** A queued node of equal cost is evicted *)

Section Eviction.

Variable X : Extern.

(** The frontier, in strictly increasing order of cost. *)
Fixpoint ordered (s : Search) (queue : list NodePtr) : Prop :=
  match queue with
  | [] => True
  | e :: queue' => (forall b, b ∈ queue' -> comp s e b = true) /\ ordered s queue'
  end.

Lemma cost_lt_equiv_l (a e k : Cost) :
  cost_lt a e = true -> cost_lt e k = false -> cost_lt k e = false ->
  cost_lt a k = true.
Proof.
  destruct a as [x|], e as [y|], k as [z|]; cbn [cost_lt]; try congruence.
  rewrite !Qlt_bool_iff, !Qlt_bool_false_iff. intros. lra.
Qed.

Lemma cost_lt_equiv_r (e b k : Cost) :
  cost_lt e b = true -> cost_lt e k = false -> cost_lt k e = false ->
  cost_lt k b = true /\ cost_lt b k = false.
Proof.
  destruct e as [x|], b as [y|], k as [z|]; cbn [cost_lt]; try congruence;
    try (intros; split; reflexivity).
  - rewrite !Qlt_bool_iff, !Qlt_bool_false_iff. intros. split; lra.
Qed.

Lemma ordered_split (s : Search) (queue : list NodePtr) (e : NodePtr) :
  ordered s queue -> e ∈ queue ->
  exists pre post, queue = pre ++ e :: post /\
    (forall a, a ∈ pre -> comp s a e = true) /\
    (forall b, b ∈ post -> comp s e b = true).
Proof.
  induction queue as [|x queue IH]; intros Ho He.
  - apply elem_of_nil in He. contradiction.
  - destruct Ho as [Hx Ho]. apply elem_of_cons in He as [->|He].
    + exists [], queue. split; [reflexivity|]. split; [|exact Hx].
      intros a Ha. apply elem_of_nil in Ha. contradiction.
    + destruct (IH Ho He) as (pre & post & -> & Hpre & Hpost).
      exists (x :: pre), post. split; [reflexivity|]. split; [|exact Hpost].
      intros a Ha. apply elem_of_cons in Ha as [->|Ha]; [|apply Hpre, Ha].
      apply Hx. apply elem_of_app. right. left.
Qed.

(** Looking up, erasing and inserting [k] in a frontier that holds a node
    [e] of the cost of [k]. *)
Lemma queue_replace_equal (s : Search) (pre post : list NodePtr) (e k : NodePtr) :
  (forall a, a ∈ pre -> comp s a e = true) ->
  (forall b, b ∈ post -> comp s e b = true) ->
  comp s e k = false -> comp s k e = false ->
  queue_find s (pre ++ e :: post) k = true /\
  queue_erase s (pre ++ e :: post) k = pre ++ post /\
  queue_insert s (pre ++ post) k = pre ++ k :: post.
Proof.
  intros Hpre Hpost Hek Hke.
  assert (Hpost' : forall b, b ∈ post -> comp s k b = true /\ comp s b k = false).
  { intros b Hb. apply (cost_lt_equiv_r (cost (node_at s e))); [apply Hpost, Hb|..];
      assumption. }
  induction pre as [|a pre IH].
  - cbn [app queue_find queue_erase]. rewrite Hek, Hke. cbn [negb].
    split; [reflexivity|]. cbn [dropwhile_not_greater]. rewrite Hke.
    destruct post as [|b post].
    + split; reflexivity.
    + destruct (Hpost' b) as [Hkb Hbk]; [left|].
      cbn [dropwhile_not_greater queue_insert]. rewrite Hkb, Hbk.
      split; reflexivity.
  - assert (Hak : comp s a k = true).
    { apply (cost_lt_equiv_l _ (cost (node_at s e))); [apply Hpre; left|..];
        assumption. }
    destruct IH as (IH1 & IH2 & IH3).
    { intros x Hx. apply Hpre. right. exact Hx. }
    cbn [app queue_find queue_erase queue_insert]. rewrite Hak.
    split; [exact IH1|]. split; [rewrite IH2|rewrite IH3]; reflexivity.
Qed.

(** X17: relaxation evicts a queued node whose cost equals the new cost of
    the neighbour.  Take a frontier in strictly increasing order of cost
    that does not hold the neighbour [k] but holds a node [e] whose cost is
    neither smaller nor larger than the cost that a relaxation gives to
    [k].  Then [queue.find(neighbor)] finds [e], [queue.erase(neighbor)]
    erases it and [queue.insert(neighbor)] puts [k] in its place: after the
    relaxation [e] is no longer in the frontier, [k] is, and the other
    nodes of the frontier are unchanged. *)
Theorem relax_evicts_node_of_equal_cost (s s' : Search)
    (queue queue' : list NodePtr) (current_node : NodePtr) (k e : TransitionPtr) :
  relax X s queue current_node k = Ok (s', queue') ->
  cost_lt (cost (node_at s' k)) (cost (node_at s k)) = true ->
  ordered s queue -> (k ∉ queue) -> e ∈ queue ->
  comp s' e k = false -> comp s' k e = false ->
  (e ∉ queue') /\ k ∈ queue' /\
  exists pre post, queue = pre ++ e :: post /\ queue' = pre ++ k :: post.
Proof.
  intros H Hlt Hord Hk He Hek Hke.
  destruct (relax_cases X _ _ _ _ _ _ H)
    as (_ & cc & sc & sp & ep & _ & _ & _ & _ & Hcase). cbn zeta in Hcase.
  destruct Hcase as [(_ & -> & _)|(_ & Hs' & Hq')].
  { rewrite cost_lt_irrefl in Hlt. discriminate. }
  assert (Hcost : forall x, x <> k -> cost (node_at s' x) = cost (node_at s x)).
  { intros x Hx. rewrite Hs'. rewrite !node_at_update_node.
    repeat (destruct (decide _)); cbn [cost set_cost set_prev set_next]; congruence. }
  assert (Hcomp : forall a b, a ∈ queue -> b ∈ queue -> comp s' a b = comp s a b).
  { intros a b Ha Hb. unfold comp. rewrite !Hcost; [reflexivity|..];
      intros ->; contradiction. }
  destruct (ordered_split s queue e Hord He) as (pre & post & Hq & Hpre & Hpost).
  assert (Hin : forall x, x ∈ pre \/ x ∈ post -> x ∈ queue).
  { intros x Hx. rewrite Hq. apply elem_of_app. destruct Hx as [Hx|Hx];
      [left; exact Hx|right; right; exact Hx]. }
  destruct (queue_replace_equal s' pre post e k) as (Hfind & Herase & Hins);
    try assumption.
  { intros a Ha. rewrite Hcomp; [apply Hpre, Ha|apply Hin; left; exact Ha|exact He]. }
  { intros b Hb. rewrite Hcomp; [apply Hpost, Hb|exact He|apply Hin; right; exact Hb]. }
  rewrite Hq in Hq'. rewrite Hfind, Herase, Hins in Hq'.
  split; [|split].
  - rewrite Hq'. intros Hin'. apply elem_of_app in Hin' as [Hin'|Hin'].
    + specialize (Hpre e Hin'). unfold comp in Hpre.
      rewrite cost_lt_irrefl in Hpre. discriminate.
    + apply elem_of_cons in Hin' as [->|Hin']; [contradiction|].
      specialize (Hpost e Hin'). unfold comp in Hpost.
      rewrite cost_lt_irrefl in Hpost. discriminate.
  - rewrite Hq'. apply elem_of_app. right. left.
  - exists pre, post. split; assumption.
Qed.

End Eviction.

(** ** A movement and its reverse *)

Section Reverse.

Variable X : Extern.

(** X18: of a movement along a segment and its reverse, one at least is
    forward.  For two points [a] and [b], [isSegmentForward] cannot call
    both the movement from [a] to [b] and the movement from [b] to [a]
    backward; it calls both forward exactly when the movement is orthogonal
    to the segment or null (the dot product with the direction of the
    segment is zero). *)
Theorem isSegmentForward_reverse (s : Search) (segment : SegmentPtr)
    (a b : Vector2d) (ab ba : bool) :
  isSegmentForward X s segment a b = Ok ab ->
  isSegmentForward X s segment b a = Ok ba ->
  exists sg,
    segment_at s segment = Ok sg /\
    (ab = true \/ ba = true) /\
    (ab = true /\ ba = true <->
     (dot (vsub (endPoint (line sg)) (startPoint (line sg))) (vsub b a) == 0)%Q).
Proof.
  unfold isSegmentForward, isSegmentForward_traced. intros Hab Hba.
  destruct (segment_at s segment) as [sg| |]; try discriminate.
  cbn [bind snd] in Hab, Hba. injection Hab as <-. injection Hba as <-.
  exists sg. split; [reflexivity|].
  set (d := vsub (endPoint (line sg)) (startPoint (line sg))).
  assert (Hneg : (dot d (vsub a b) == - dot d (vsub b a))%Q)
    by (unfold dot, vsub; cbn [fst snd]; ring).
  destruct (Qle_bool 0 (dot d (vsub b a))) eqn:H1;
    destruct (Qle_bool 0 (dot d (vsub a b))) eqn:H2.
  - apply Qle_bool_iff in H1, H2. rewrite Hneg in H2.
    split; [left; reflexivity|]. split; [intros _; lra|intros _; split; reflexivity].
  - apply Qle_bool_iff in H1.
    assert (H2' : ~ (0 <= dot d (vsub a b))%Q)
      by (intros Hc; apply Qle_bool_iff in Hc; congruence).
    rewrite Hneg in H2'.
    split; [left; reflexivity|]. split; [intros [_ ?]; discriminate|intros; lra].
  - apply Qle_bool_iff in H2. rewrite Hneg in H2.
    assert (H1' : ~ (0 <= dot d (vsub b a))%Q)
      by (intros Hc; apply Qle_bool_iff in Hc; congruence).
    split; [right; reflexivity|]. split; [intros [? _]; discriminate|intros; lra].
  - exfalso.
    assert (H1' : ~ (0 <= dot d (vsub b a))%Q)
      by (intros Hc; apply Qle_bool_iff in Hc; congruence).
    assert (H2' : ~ (0 <= dot d (vsub a b))%Q)
      by (intros Hc; apply Qle_bool_iff in Hc; congruence).
    rewrite Hneg in H2'. lra.
Qed.

End Reverse.

(** ** The poses of a walk through the course *)

Section Found.

Variable X : Extern.

(** The poses of a chain of transitions of the course: for every
    transition, in order, the poses of its polyline walked in the direction
    of the list that holds it, with at most one pose before and at most one
    pose after them. *)
Inductive walk_rendered (s : Search) : list TransitionPtr -> list PathPose -> Prop :=
| walk_rendered_nil : walk_rendered s [] []
| walk_rendered_cons (k : TransitionPtr) (ks : list TransitionPtr) (t : Transition)
    (before after rest : list PathPose) :
    transition_at s (Some k) = Ok t ->
    (length before <= 1)%nat -> (length after <= 1)%nat ->
    walk_rendered s ks rest ->
    walk_rendered s (k :: ks)
      (before ++ curve_poses X (if k.1.2 then path t else rev (path t)) ++
       after ++ rest).

Lemma rendered_walk_rendered (s sm : Search) (ks : list NodePtr)
    (mid : list PathPose) :
  generator_ sm = generator_ s ->
  (forall k, k ∈ ks -> transition (node_at sm k) = Some k /\
                       curve_forward (node_at sm k) = k.1.2) ->
  rendered X sm ks mid -> walk_rendered s ks mid.
Proof.
  intros Hg Hks H. induction H as [|k ks t before after rest Ht Hb Ha Hr IH].
  - constructor.
  - destruct (Hks k) as [Hk1 Hk2]; [left|].
    unfold traversal. rewrite Hk2. constructor; try assumption.
    + rewrite <- (transition_at_course s sm _ Hg), <- Hk1. exact Ht.
    + apply IH. intros k' Hk'. apply Hks. right. exact Hk'.
Qed.

Lemma combine_app (start centre end_ : list PathPose) :
  combine start centre end_ = start ++ centre ++ end_.
Proof.
  destruct start, end_; cbn [combine app]; rewrite ?app_nil_r; reflexivity.
Qed.

End Found.

(** ** The earliest candidate of least cost *)

Section Winner.

Variable X : Extern.

Lemma cost_lt_le_trans (a b c : Cost) :
  cost_lt a b = true -> cost_le b c -> cost_lt a c = true.
Proof.
  destruct a as [x|], b as [y|], c as [z|]; cbn [cost_lt cost_le];
    try congruence; try tauto.
  rewrite !Qlt_bool_iff. intros. lra.
Qed.

Lemma cost_lt_trans (a b c : Cost) :
  cost_lt a b = true -> cost_lt b c = true -> cost_lt a c = true.
Proof.
  intros H1 H2. apply (cost_lt_le_trans a b c H1). apply cost_lt_le, H2.
Qed.

(** The candidate [c] of [cands] is strictly cheaper than the candidates
    finished before it and at most as expensive as those finished after
    it. *)
Definition earliest_least (cands : list Candidate) (c : Candidate) : Prop :=
  exists before after,
    cands = before ++ c :: after /\
    Forall (fun c' => cost_lt (cand_total c) (cand_total c') = true) before /\
    Forall (fun c' => cost_le (cand_total c) (cand_total c')) after.

End Winner.

(** ** What a planning request reads of the planner *)

Section Reads.

Variable X : Extern.

(** The members of the planner that a planning request reads before it
    assigns them: the parameters, the course, the grid map and the best
    path. *)
Definition planner_inputs (s : Search) :=
  (size_forward s, size_backward s, size_width s,
   backward_penalty_factor s, turning_penalty s, turning_straight_segment s,
   generator_ s, map_info s, best_path s).

(** The returned path of an outcome. *)
Definition returned {A : Type} (r : outcome (list PathPose * A))
    : outcome (list PathPose) :=
  x <- r ;; Ok x.1.

(** The members that [findAppendices] assigns, and the others. *)
Definition appendix_members (s : Search) :=
  (start_segment s, end_segment s, start_pt s, end_pt s,
   start_appendix s, end_appendix s).

Definition other_members (s : Search) :=
  (size_forward s, size_backward s, size_width s,
   backward_penalty_factor s, turning_penalty s, turning_straight_segment s,
   generator_ s, map_info s, min_cost s, best_path s, nodes s).

Lemma findAppendices_other_members (s s' : Search) (map : OccupancyGrid)
    (start_pose end_pose : PathPose) (found : bool) :
  findAppendices X s map start_pose end_pose = Ok (found, s') ->
  other_members s' = other_members s.
Proof.
  unfold findAppendices. intros H.
  apply bind_Ok_inv in H as (a & _ & H).
  destruct (last _) as [start|]; [|injection H as _ <-; reflexivity].
  apply bind_Ok_inv in H as (sg & _ & H).
  destruct (start_segment _) as [i|]; [|injection H as _ <-; reflexivity].
  apply bind_Ok_inv in H as (a' & _ & H).
  destruct (end_appendix _) as [|p l]; [injection H as _ <-; reflexivity|].
  apply bind_Ok_inv in H as (e & _ & H).
  apply bind_Ok_inv in H as (sg' & _ & H).
  destruct (end_segment _) as [j|]; injection H as _ <-; reflexivity.
Qed.

(** The outcome of [findAppendices] and the members it assigns depend on
    the grid map and the course only. *)
Lemma findAppendices_reads (s1 s2 : Search) (map : OccupancyGrid)
    (start_pose end_pose : PathPose) :
  map_info s1 = map_info s2 -> generator_ s1 = generator_ s2 ->
  match findAppendices X s1 map start_pose end_pose with
  | Ok (found, v1) =>
      exists v2, findAppendices X s2 map start_pose end_pose = Ok (found, v2) /\
                 (found = true -> appendix_members v1 = appendix_members v2)
  | Fault f => findAppendices X s2 map start_pose end_pose = Fault f
  | OutOfFuel => findAppendices X s2 map start_pose end_pose = OutOfFuel
  end.
Proof.
  intros Hm Hg. unfold findAppendices.
  rewrite (findAppendix_same_map X _ _ s1 s2 map start_pose Hm Hg).
  destruct (findAppendix X AStarPatsyForward AStarPatsyForwardTurning s2 map start_pose)
    as [a| |]; [|reflexivity..].
  cbn [bind start_appendix set_start_appendix].
  destruct (last a) as [start|]; [|eexists; split; [reflexivity|discriminate]].
  change (generator_ (set_start_appendix s1 a)) with (generator_ s1).
  change (generator_ (set_start_appendix s2 a)) with (generator_ s2).
  rewrite Hg.
  cbn [start_segment set_start_segment set_start_pt].
  destruct (findClosestSegment X (generator_ s2) start (M_PI X / 8) 0.5) as [i|].
  2:{ cbn [segment_at bind]. reflexivity. }
  cbn [segment_at].
  change (generator_ (set_start_segment (set_start_appendix s1 a) (Some i)))
    with (generator_ s1).
  change (generator_ (set_start_segment (set_start_appendix s2 a) (Some i)))
    with (generator_ s2).
  rewrite Hg. destruct (generator_ s2 !! i) as [sg|]; [|reflexivity].
  cbn [bind].
  match goal with
  | |- context [findAppendix X ?A ?B ?t1 map end_pose] =>
      rewrite (findAppendix_same_map X A B t1 s2 map end_pose) by assumption
  end.
  match goal with
  | |- context [findAppendix X ?A ?B (set_start_pt ?t ?v) map end_pose] =>
      rewrite (findAppendix_same_map X A B (set_start_pt t v) s2 map end_pose)
        by reflexivity
  end.
  destruct (findAppendix X AStarPatsyReversed AStarPatsyReversedTurning s2 map end_pose)
    as [a'| |]; [|reflexivity..].
  cbn [bind end_appendix set_end_appendix].
  destruct a' as [|p l]; [eexists; split; [reflexivity|discriminate]|].
  cbn [end_appendix set_end_appendix].
  destruct (front (rev (p :: l))) as [e| |]; [|reflexivity..].
  cbn [bind end_segment set_end_segment set_end_pt].
  match goal with
  | |- context [findClosestSegment X (generator_ ?t) e _ _] =>
      change (generator_ t) with (generator_ s1)
  end.
  match goal with
  | |- context [findClosestSegment X (generator_ (set_end_appendix ?t ?v)) e _ _] =>
      change (generator_ (set_end_appendix t v)) with (generator_ s2)
  end.
  rewrite Hg.
  destruct (findClosestSegment X (generator_ s2) e (M_PI X / 8) 0.5) as [j|].
  2:{ cbn [segment_at bind]. reflexivity. }
  cbn [segment_at].
  match goal with
  | |- context [generator_ (set_end_segment ?t (Some j)) !! j] =>
      change (generator_ (set_end_segment t (Some j))) with (generator_ s1)
  end.
  match goal with
  | |- context [generator_ (set_end_segment ?t (Some j)) !! j] =>
      change (generator_ (set_end_segment t (Some j))) with (generator_ s2)
  end.
  rewrite Hg. destruct (generator_ s2 !! j) as [sg'|]; [|reflexivity].
  cbn [bind]. eexists. split; reflexivity.
Qed.

Lemma planner_split (v1 v2 : Search) :
  planner_inputs v1 = planner_inputs v2 ->
  appendix_members v1 = appendix_members v2 ->
  v1 = set_min_cost (set_nodes v2 (nodes v1)) (min_cost v1).
Proof.
  destruct v1, v2. unfold planner_inputs, appendix_members. cbn.
  intros [= -> -> -> -> -> -> -> -> ->] [= -> -> -> -> -> ->]. reflexivity.
Qed.

Lemma findPath_reads_inputs (fuel : nat) (s1 s2 : Search)
    (start_pose end_pose : PathPose) :
  planner_inputs s1 = planner_inputs s2 ->
  returned (findPath X fuel s1 start_pose end_pose) =
    returned (findPath X fuel s2 start_pose end_pose).
Proof.
  intros H. unfold findPath.
  destruct (map_service_call X) as [map|]; [|reflexivity].
  assert (Hin : size_forward s1 = size_forward s2 /\ size_backward s1 = size_backward s2 /\
                size_width s1 = size_width s2 /\ map_info s1 = map_info s2).
  { unfold planner_inputs in H. injection H as ? ? ? _ _ _ _ ? _. repeat split; assumption. }
  destruct Hin as (Hf & Hb & Hw & Hm).
  unfold initMaps. rewrite Hf, Hb, Hw, Hm.
  destruct (initMaps_fill (data map) 0 _) as [cells| |]; [|reflexivity..].
  cbn [bind].
  match goal with
  | |- context [set_map_info s1 ?m] => set (mi := m)
  end.
  assert (Ht : planner_inputs (set_map_info s1 mi) = planner_inputs (set_map_info s2 mi)).
  { unfold planner_inputs in *. cbn. injection H as -> -> -> -> -> -> -> _ ->. reflexivity. }
  pose proof (findAppendices_reads (set_map_info s1 mi) (set_map_info s2 mi) map
                start_pose end_pose eq_refl) as Hfind.
  assert (Hg : generator_ (set_map_info s1 mi) = generator_ (set_map_info s2 mi))
    by (unfold planner_inputs in H; injection H as _ _ _ _ _ _ ? _ _; assumption).
  specialize (Hfind Hg).
  destruct (findAppendices X (set_map_info s1 mi) map start_pose end_pose)
    as [[found v1]| |] eqn:H1; [|rewrite Hfind; reflexivity..].
  destruct Hfind as (v2 & H2 & Happ). rewrite H2. cbn [bind fst snd].
  destruct found; cbn [negb]; [|reflexivity].
  specialize (Happ eq_refl).
  apply findAppendices_other_members in H1, H2.
  assert (Hv : planner_inputs v1 = planner_inputs v2).
  { unfold other_members in H1, H2. unfold planner_inputs in *.
    injection H1 as -> -> -> -> -> -> -> -> _ -> _.
    injection H2 as -> -> -> -> -> -> -> -> _ -> _. exact Ht. }
  rewrite (planner_split v1 v2 Hv Happ).
  change (start_segment (set_min_cost (set_nodes v2 (nodes v1)) (min_cost v1)))
    with (start_segment v2).
  change (end_segment (set_min_cost (set_nodes v2 (nodes v1)) (min_cost v1)))
    with (end_segment v2).
  destruct (decide (start_segment v2 = end_segment v2)).
  - change (insertFirstNode X (set_min_cost (set_nodes v2 (nodes v1)) (min_cost v1)) [])
      with (insertFirstNode X v2 []).
    destruct (insertFirstNode X v2 []) as [r1| |]; [|reflexivity..]. cbn [bind].
    change (insertLastNode X (set_min_cost (set_nodes v2 (nodes v1)) (min_cost v1)) r1)
      with (insertLastNode X v2 r1).
    destruct (insertLastNode X v2 r1) as [r2| |]; reflexivity.
  - rewrite (performDijkstraSearch_forgets X fuel v2 (nodes v1) (min_cost v1)).
    reflexivity.
Qed.

(** X22: what a planning request takes from the planner.  The path that
    [findPath] returns depends on the planner through its parameters, the
    course, the grid map and [best_path] only: two planners that agree on
    these give the same outcome and the same path, whatever their start and
    end segments, start and end points, appendices, [min_cost] and [nodes]
    hold from an earlier request. *)
Theorem findPath_reads_parameters_course_map_best_path (fuel : nat) (s1 s2 : Search)
    (start_pose end_pose : PathPose) :
  planner_inputs s1 = planner_inputs s2 ->
  returned (findPath X fuel s1 start_pose end_pose) =
    returned (findPath X fuel s2 start_pose end_pose).
Proof. apply findPath_reads_inputs. Qed.

End Reads.

(** ** What seeding leaves in the frontier *)

Section Geometry.

Variable X : Extern.
Variables s s' : Search.

(** [s'] differs from [s] in [min_cost], [best_path], the map and the costs
    of the nodes only. *)
Hypothesis same_request : request s' = request s.
Hypothesis same_nodes :
  forall v, set_cost (node_at s' v) Infinity = set_cost (node_at s v) Infinity.

Lemma sg_fields :
  generator_ s' = generator_ s /\ start_segment s' = start_segment s /\
  end_segment s' = end_segment s /\ start_pt s' = start_pt s /\
  end_pt s' = end_pt s /\ backward_penalty_factor s' = backward_penalty_factor s /\
  turning_penalty s' = turning_penalty s /\
  turning_straight_segment s' = turning_straight_segment s.
Proof.
  pose proof same_request as H. unfold request in H.
  injection H as ? ? ? ? ? _ _ ? ? ?. repeat split; assumption.
Qed.

Lemma sg_transition (v : NodePtr) :
  transition (node_at s' v) = transition (node_at s v).
Proof. exact (f_equal transition (same_nodes v)). Qed.

Lemma sg_curve_forward (v : NodePtr) :
  curve_forward (node_at s' v) = curve_forward (node_at s v).
Proof. exact (f_equal curve_forward (same_nodes v)). Qed.

Lemma sg_next_segment (v : NodePtr) :
  next_segment (node_at s' v) = next_segment (node_at s v).
Proof. exact (f_equal next_segment (same_nodes v)). Qed.

Lemma sg_prev (v : NodePtr) : prev (node_at s' v) = prev (node_at s v).
Proof. exact (f_equal prev (same_nodes v)). Qed.

Lemma sg_next (v : NodePtr) : next (node_at s' v) = next (node_at s v).
Proof. exact (f_equal next (same_nodes v)). Qed.

Lemma sg_segment_at (p : SegmentPtr) : segment_at s' p = segment_at s p.
Proof.
  destruct sg_fields as (Hg & _). unfold segment_at. rewrite Hg. reflexivity.
Qed.

Lemma sg_transition_at (p : option TransitionPtr) :
  transition_at s' p = transition_at s p.
Proof. apply transition_at_course. apply sg_fields. Qed.

Lemma sg_findEndPointOnSegment (v : NodePtr) (p : option TransitionPtr) :
  findEndPointOnSegment s' v p = findEndPointOnSegment s v p.
Proof.
  unfold findEndPointOnSegment. rewrite sg_transition_at, sg_curve_forward. reflexivity.
Qed.

Lemma sg_findStartPointOnNextSegment (v : NodePtr) :
  findStartPointOnNextSegment s' v = findStartPointOnNextSegment s v.
Proof.
  destruct sg_fields as (_ & Hs & _ & Hp & _).
  unfold findStartPointOnNextSegment, findStartPointOnNextSegment2.
  rewrite sg_next_segment, Hs, Hp, sg_transition, sg_transition_at, sg_curve_forward.
  reflexivity.
Qed.

Lemma sg_findEndPointOnNextSegment (v : NodePtr) :
  findEndPointOnNextSegment s' v = findEndPointOnNextSegment s v.
Proof.
  destruct sg_fields as (_ & _ & He & _ & Hp & _).
  unfold findEndPointOnNextSegment.
  rewrite sg_next_segment, He, Hp, sg_next, sg_segment_at, sg_curve_forward.
  destruct (decide _); [reflexivity|].
  destruct (next (node_at s v)) as [nx|]; [|reflexivity].
  rewrite sg_findEndPointOnSegment, sg_transition. reflexivity.
Qed.

Lemma sg_isSegmentForward (p : SegmentPtr) (a b : Vector2d) :
  isSegmentForward X s' p a b = isSegmentForward X s p a b.
Proof.
  unfold isSegmentForward, isSegmentForward_traced. rewrite sg_segment_at. reflexivity.
Qed.

Lemma sg_isStartSegmentForward (v : NodePtr) :
  isStartSegmentForward X s' v = isStartSegmentForward X s v.
Proof.
  destruct sg_fields as (_ & Hs & _ & Hp & _).
  unfold isStartSegmentForward.
  rewrite sg_findEndPointOnSegment, sg_transition, Hs, Hp.
  destruct (findEndPointOnSegment s v _); [|reflexivity..]. cbn [bind].
  apply sg_isSegmentForward.
Qed.

Lemma sg_isNextSegmentForward (v : NodePtr) :
  isNextSegmentForward X s' v = isNextSegmentForward X s v.
Proof.
  unfold isNextSegmentForward.
  rewrite sg_findStartPointOnNextSegment, sg_findEndPointOnNextSegment, sg_next_segment.
  destruct (findStartPointOnNextSegment s v); [|reflexivity..]. cbn [bind].
  destruct (findEndPointOnNextSegment s v); [|reflexivity..]. cbn [bind].
  apply sg_isSegmentForward.
Qed.

Lemma sg_isPreviousSegmentForward (v : NodePtr) :
  isPreviousSegmentForward X s' v = isPreviousSegmentForward X s v.
Proof.
  unfold isPreviousSegmentForward. rewrite sg_prev.
  destruct (prev (node_at s v));
    [apply sg_isNextSegmentForward|apply sg_isStartSegmentForward].
Qed.

(** The straight cost does not read the costs of the nodes. *)
Lemma sg_calculateStraightCost (v : NodePtr) (a b : Vector2d) :
  calculateStraightCost X s' v a b = calculateStraightCost X s v a b.
Proof.
  destruct sg_fields as (_ & _ & _ & _ & _ & Hb & Ht & Hts).
  unfold calculateStraightCost.
  rewrite sg_next_segment, sg_isSegmentForward, sg_isPreviousSegmentForward,
    sg_curve_forward, Hb, Ht, Hts.
  reflexivity.
Qed.

End Geometry.

Section Seeding.

Variable X : Extern.

Lemma queue_insert_keeps (s : Search) (queue : list NodePtr) (n x : NodePtr) :
  x ∈ queue -> x ∈ queue_insert s queue n.
Proof.
  induction queue as [|e queue IH]; intros Hx.
  - apply elem_of_nil in Hx. contradiction.
  - cbn [queue_insert]. destruct (comp s e n).
    + apply elem_of_cons in Hx as [->|Hx]; [left|right; apply IH, Hx].
    + destruct (comp s n e); [right; exact Hx|exact Hx].
Qed.

(** After [queue.insert(n)] the frontier holds [n] or a node that is
    neither smaller nor larger than [n]. *)
Lemma queue_insert_equivalent (s : Search) (queue : list NodePtr) (n : NodePtr) :
  exists e, e ∈ queue_insert s queue n /\ comp s e n = false /\ comp s n e = false.
Proof.
  induction queue as [|e0 queue IH].
  - exists n. split; [left|]. unfold comp. rewrite cost_lt_irrefl. split; reflexivity.
  - cbn [queue_insert]. destruct (comp s e0 n) eqn:H1.
    + destruct IH as (e & He & Hc). exists e. split; [right; exact He|exact Hc].
    + destruct (comp s n e0) eqn:H2.
      * exists n. split; [left|]. unfold comp. rewrite cost_lt_irrefl.
        split; reflexivity.
      * exists e0. split; [left|]. split; assumption.
Qed.

(** [s1] has the request and, costs apart, the nodes of [s0]. *)
Definition geometry_of (s0 s1 : Search) : Prop :=
  request s1 = request s0 /\
  forall v, set_cost (node_at s1 v) Infinity = set_cost (node_at s0 v) Infinity.

(** The node of the transition [t] at [k] has the straight cost from the
    start point to the entry point of [t], and the frontier holds it or a
    node of the same cost. *)
Definition seeded_at (s0 s' : Search) (queue : list NodePtr) (k : TransitionPtr)
    (t : Transition) : Prop :=
  exists ep c,
    (if k.1.2 then front (path t) else back (path t)) = Ok ep /\
    calculateStraightCost X s0 k (start_pt s0) ep = Ok c /\
    cost (node_at s' k) = Finite c /\
    exists e, e ∈ queue /\ comp s' e k = false /\ comp s' k e = false.

Lemma seeded_at_later (s0 s2 s3 : Search) (q2 q3 : list NodePtr) (k : TransitionPtr)
    (t : Transition) :
  seeded_at s0 s2 q2 k t ->
  (forall v, v ∈ q2 \/ v = k -> cost (node_at s3 v) = cost (node_at s2 v)) ->
  (forall x, x ∈ q2 -> x ∈ q3) ->
  seeded_at s0 s3 q3 k t.
Proof.
  intros (ep & c & Hep & Hc & Hk & e & He & H1 & H2) Hcost Hsub.
  exists ep, c. split; [exact Hep|]. split; [exact Hc|].
  split; [rewrite Hcost by (right; reflexivity); exact Hk|].
  exists e. split; [apply Hsub, He|]. unfold comp in *.
  rewrite !Hcost by (first [left; exact He|right; reflexivity]). split; assumption.
Qed.

Lemma enqueueStartingNode_seeded_at (s0 s1 s2 : Search) (q q2 : list NodePtr)
    (k : TransitionPtr) (t : Transition) :
  geometry_of s0 s1 -> curve_forward (node_at s0 k) = k.1.2 ->
  enqueueStartingNode X s1 q k t = Ok (s2, q2) ->
  geometry_of s0 s2 /\
  (forall v, v <> k -> cost (node_at s2 v) = cost (node_at s1 v)) /\
  (forall x, x ∈ q -> x ∈ q2) /\
  (forall x, x ∈ q2 -> x = k \/ x ∈ q) /\
  seeded_at s0 s2 q2 k t.
Proof.
  intros [Hreq Hnodes] Hcf H. unfold enqueueStartingNode in H.
  apply bind_Ok_inv in H as (node & Hnode & H).
  apply nodes_at_Ok in Hnode as [-> _].
  apply bind_Ok_inv in H as (ep & Hep & H).
  apply bind_Ok_inv in H as (c & Hc & H). injection H as <- <-.
  rewrite (sg_curve_forward s0 s1 Hnodes), Hcf in Hep.
  rewrite (sg_calculateStraightCost X s0 s1 Hreq Hnodes) in Hc.
  assert (Hsp : start_pt s1 = start_pt s0) by apply (sg_fields s0 s1 Hreq).
  rewrite Hsp in Hc.
  set (s2 := update_node s1 k (fun n => set_cost n (Finite c))).
  assert (Hk : cost (node_at s2 k) = Finite c).
  { unfold s2. rewrite node_at_update_node, decide_True by reflexivity. reflexivity. }
  split; [|split; [|split; [|split]]].
  - split; [exact Hreq|]. intros v. rewrite <- Hnodes. unfold s2.
    rewrite node_at_update_node. destruct (decide (k = v)) as [->|]; reflexivity.
  - intros v Hv. unfold s2. rewrite node_at_update_node, decide_False by congruence.
    reflexivity.
  - intros x Hx. apply queue_insert_keeps, Hx.
  - intros x Hx. apply queue_insert_subset in Hx. exact Hx.
  - exists ep, c. split; [exact Hep|]. split; [exact Hc|]. split; [exact Hk|].
    apply queue_insert_equivalent.
Qed.

Lemma enqueueStartingNodes_list_seeded_at (s0 : Search) (i : nat) (forward : bool)
    (sg : Segment) (ts : list Transition) :
  forall (j : nat) (s1 s' : Search) (q q' : list NodePtr),
    geometry_of s0 s1 ->
    drop j (transitions_of sg forward) = ts ->
    (forall j' t, transitions_of sg forward !! j' = Some t ->
       curve_forward (node_at s0 (i, forward, j')) = forward) ->
    (forall x, x ∈ q -> ~ (x.1.1 = i /\ x.1.2 = forward /\ (j <= x.2)%nat)) ->
    enqueueStartingNodes_list X s1 q i forward j ts = Ok (s', q') ->
    geometry_of s0 s' /\
    (forall v, ~ (v.1.1 = i /\ v.1.2 = forward /\ (j <= v.2)%nat) ->
       cost (node_at s' v) = cost (node_at s1 v)) /\
    (forall x, x ∈ q -> x ∈ q') /\
    (forall x, x ∈ q' -> x ∈ q \/ (x.1.1 = i /\ x.1.2 = forward)) /\
    (forall j' t, (j <= j')%nat -> transitions_of sg forward !! j' = Some t ->
       seeded_at s0 s' q' (i, forward, j') t).
Proof.
  induction ts as [|t0 ts IH]; intros j s1 s' q q' Hgeo Hd Hcf Hq H.
  - injection H as <- <-. split; [exact Hgeo|]. split; [reflexivity|].
    split; [tauto|]. split; [tauto|].
    intros j' t Hj Ht. exfalso.
    assert (H0 : drop j (transitions_of sg forward) !! (j' - j)%nat = Some t).
    { rewrite lookup_drop. replace (j + (j' - j))%nat with j' by lia. exact Ht. }
    rewrite Hd in H0. discriminate.
  - cbn [enqueueStartingNodes_list] in H.
    apply bind_Ok_inv in H as ([s2 q2] & H1 & H). cbn [fst snd] in H.
    assert (Ht0 : transitions_of sg forward !! j = Some t0).
    { assert (H0 : drop j (transitions_of sg forward) !! 0%nat = Some t0)
        by (rewrite Hd; reflexivity).
      rewrite lookup_drop, Nat.add_0_r in H0. exact H0. }
    destruct (enqueueStartingNode_seeded_at s0 s1 s2 q q2 (i, forward, j) t0 Hgeo
                (Hcf j t0 Ht0) H1) as (Hgeo2 & Hcost2 & Hsub2 & Hin2 & Hseed).
    destruct (IH (S j) s2 s' q2 q' Hgeo2) as (Hgeo' & Hcost' & Hsub' & Hin' & Hseed');
      [replace (S j) with (j + 1)%nat by lia; rewrite <- drop_drop, Hd; reflexivity
      |exact Hcf| |exact H|].
    { intros x Hx. destruct (Hin2 x Hx) as [->|Hx'].
      - cbn [fst snd]. lia.
      - specialize (Hq x Hx'). intros (A & B & C). apply Hq. repeat split; [assumption..|lia]. }
    split; [exact Hgeo'|]. split; [|split; [|split]].
    + intros v Hv. rewrite Hcost'.
      * apply Hcost2. intros ->. apply Hv. cbn [fst snd]. repeat split. lia.
      * intros (A & B & C). apply Hv. repeat split; [assumption..|lia].
    + intros x Hx. apply Hsub', Hsub2, Hx.
    + intros x Hx. destruct (Hin' x Hx) as [Hx'|Hx']; [|right; exact Hx'].
      destruct (Hin2 x Hx') as [->|Hx'']; [right; split; reflexivity|left; exact Hx''].
    + intros j' t Hj Ht. destruct (decide (j' = j)) as [->|Hne].
      * assert (t = t0) as -> by congruence.
        apply (seeded_at_later s0 s2 s' q2 q' _ _ Hseed); [|exact Hsub'].
        intros v Hv. apply Hcost'. destruct Hv as [Hv| ->].
        -- destruct (Hin2 v Hv) as [->|Hv']; [cbn [fst snd]; lia|].
           specialize (Hq v Hv'). intros (A & B & C). apply Hq.
           repeat split; [assumption..|lia].
        -- cbn [fst snd]. lia.
      * apply Hseed'; [lia|exact Ht].
Qed.

Lemma enqueueStartingNodes_seeded_at (s s' : Search) (queue : list NodePtr) (i : nat)
    (sg : Segment) (forward : bool) (j : nat) (t : Transition) :
  enqueueStartingNodes X (initNodes s) [] = Ok (s', queue) ->
  start_segment s = Some i -> generator_ s !! i = Some sg ->
  transitions_of sg forward !! j = Some t ->
  seeded_at (initNodes s) s' queue (i, forward, j) t.
Proof.
  intros H Hs Hsg Ht. unfold enqueueStartingNodes in H.
  change (start_segment (initNodes s)) with (start_segment s) in H.
  rewrite Hs in H. cbn [segment_index bind segment_at] in H.
  change (generator_ (initNodes s)) with (generator_ s) in H.
  rewrite Hsg in H. cbn [bind] in H.
  apply bind_Ok_inv in H as ([sa qa] & Ha & Hb). cbn [fst snd] in Hb.
  assert (Hcf : forall fw j' t',
            transitions_of sg fw !! j' = Some t' ->
            curve_forward (node_at (initNodes s) (i, fw, j')) = fw).
  { intros fw j' t' Ht'. unfold node_at.
    rewrite lookup_total_alt, initNodes_lookup. cbn [transition_at].
    rewrite Hsg, Ht'. reflexivity. }
  assert (Hgeo0 : geometry_of (initNodes s) (initNodes s)) by (split; reflexivity).
  destruct (enqueueStartingNodes_list_seeded_at (initNodes s) i true sg _ 0
              (initNodes s) sa [] qa Hgeo0 eq_refl (Hcf true)) as
    (Hgeoa & Hcosta & Hsuba & Hina & Hseeda); [|exact Ha|].
  { intros x Hx. apply elem_of_nil in Hx. contradiction. }
  assert (Hqa : forall x, x ∈ qa -> x.1.2 = true).
  { intros x Hx. destruct (Hina x Hx) as [Hx'|[_ Hx']]; [|exact Hx'].
    apply elem_of_nil in Hx'. contradiction. }
  destruct (enqueueStartingNodes_list_seeded_at (initNodes s) i false sg _ 0
              sa s' qa queue Hgeoa eq_refl (Hcf false)) as
    (Hgeob & Hcostb & Hsubb & Hinb & Hseedb); [|exact Hb|].
  { intros x Hx (_ & Hfalse & _). rewrite (Hqa x Hx) in Hfalse. discriminate. }
  destruct forward; cbn [transitions_of] in Ht.
  - apply (seeded_at_later _ sa s' qa queue _ _ (Hseeda j t ltac:(lia) Ht));
      [|exact Hsubb].
    intros v Hv. apply Hcostb. intros (_ & Hfalse & _).
    destruct Hv as [Hv| ->]; [rewrite (Hqa v Hv) in Hfalse|]; discriminate.
  - apply (Hseedb j t); [lia|exact Ht].
Qed.

(** X23: what seeding leaves.  After [enqueueStartingNodes], for every
    transition that leaves the start segment, in its forward or its
    backward list, the node of the transition has the straight cost from
    the start point to the entry point of the transition (its first point
    in the forward list, its last in the backward list), and the frontier
    holds that node or another node of exactly that cost. *)
Theorem enqueueStartingNodes_cost_and_frontier (s s' : Search)
    (queue : list NodePtr) (i : nat) (sg : Segment) (forward : bool) (j : nat)
    (t : Transition) :
  enqueueStartingNodes X (initNodes s) [] = Ok (s', queue) ->
  start_segment s = Some i -> generator_ s !! i = Some sg ->
  transitions_of sg forward !! j = Some t ->
  exists ep c,
    (if forward then front (path t) else back (path t)) = Ok ep /\
    calculateStraightCost X (initNodes s) (i, forward, j) (start_pt s) ep = Ok c /\
    cost (node_at s' (i, forward, j)) = Finite c /\
    exists e, e ∈ queue /\
      cost_lt (cost (node_at s' e)) (Finite c) = false /\
      cost_lt (Finite c) (cost (node_at s' e)) = false.
Proof.
  intros H Hs Hsg Ht.
  destruct (enqueueStartingNodes_seeded_at s s' queue i sg forward j t H Hs Hsg Ht)
    as (ep & c & Hep & Hc & Hk & e & He & H1 & H2).
  exists ep, c. split; [exact Hep|]. split; [exact Hc|]. split; [exact Hk|].
  exists e. split; [exact He|]. unfold comp in H1, H2. rewrite Hk in H1, H2.
  split; assumption.
Qed.

End Seeding.

(** ** The forward links of a collected chain *)

(** A chain of predecessors that comes to an end holds no node twice. *)
Lemma chain_lookup_inj (pr : NodePtr -> option NodePtr) (l : list NodePtr) :
  (exists first, head l = Some first /\ pr first = None) ->
  (forall i a b, l !! i = Some a -> l !! S i = Some b -> pr b = Some a) ->
  forall i j x, l !! i = Some x -> l !! j = Some x -> i = j.
Proof.
  intros (first & Hhead & Hfirst) Hlink. rewrite head_lookup in Hhead.
  assert (Hzero : forall j x, l !! 0%nat = Some x -> l !! S j = Some x -> False).
  { intros j x H0 Hj.
    destruct (lookup_lt_is_Some_2 l j) as [a Ha].
    { apply lookup_lt_Some in Hj. lia. }
    pose proof (Hlink j a x Ha Hj) as Hp.
    assert (x = first) as -> by congruence. congruence. }
  induction i as [|i IH]; intros j x Hi Hj.
  - destruct j as [|j]; [reflexivity|]. destruct (Hzero j x Hi Hj).
  - destruct j as [|j]; [destruct (Hzero i x Hj Hi)|].
    destruct (lookup_lt_is_Some_2 l i) as [a Ha].
    { apply lookup_lt_Some in Hi. lia. }
    destruct (lookup_lt_is_Some_2 l j) as [b Hb].
    { apply lookup_lt_Some in Hj. lia. }
    pose proof (Hlink i a x Ha Hi) as Hpa. pose proof (Hlink j b x Hb Hj) as Hpb.
    assert (a = b) as -> by congruence.
    f_equal. apply (IH j b Ha Hb).
Qed.

Lemma collect_transitions_links (pr : NodePtr -> option NodePtr) (fuel : nat) :
  forall (s sm : Search) (tmp : option NodePtr) (acc chain : list NodePtr),
    (forall v, prev (node_at s v) = pr v) ->
    collect_transitions fuel s tmp acc = Ok (chain, sm) ->
    exists l0, chain = l0 ++ acc /\
      (forall i a b, l0 !! i = Some a -> l0 !! S i = Some b ->
         next (node_at sm a) = Some b) /\
      (forall x, (forall y, y ∈ l0 -> pr y <> Some x) ->
         next (node_at sm x) = next (node_at s x)).
Proof.
  induction fuel as [|fuel IH]; intros s sm tmp acc chain Hpr H.
  - destruct tmp; [discriminate|]. injection H as <- <-. exists [].
    split; [reflexivity|]. split; [intros i a b Ha; discriminate|reflexivity].
  - destruct tmp as [t|].
    2:{ injection H as <- <-. exists [].
        split; [reflexivity|]. split; [intros i a b Ha; discriminate|reflexivity]. }
    pose proof H as Hwhole.
    apply (collect_transitions_chain pr (fun _ => True)) in Hwhole;
      [|tauto|exact Hpr|tauto].
    destruct Hwhole as (lw & Hlw & _ & Hlastw & Hfirstw & Hlinkw).
    cbn [collect_transitions] in H.
    set (s1 := match prev (node_at s t) with
               | Some p => update_node s p (fun n => set_next n (Some t))
               | None => s
               end) in *.
    assert (Hpr1 : forall v, prev (node_at s1 v) = pr v).
    { intros v. unfold s1. destruct (prev (node_at s t)); [|apply Hpr].
      rewrite (node_at_update_node_field prev) by reflexivity. apply Hpr. }
    rewrite Hpr1 in H.
    pose proof H as Hrest.
    apply (collect_transitions_chain pr (fun _ => True)) in Hrest;
      [|tauto|exact Hpr1|tauto].
    destruct Hrest as (l1' & Hl1' & _ & Hrest).
    destruct (IH _ _ _ _ _ Hpr1 H) as (l1 & Hl1 & Hnext1 & Hframe1).
    assert (l1' = l1) as ->.
    { rewrite Hl1' in Hl1. apply app_inv_tail in Hl1. exact Hl1. }
    assert (lw = l1 ++ [t]) as ->.
    { assert (Hlw' : lw ++ acc = (l1 ++ [t]) ++ acc)
        by (rewrite <- app_assoc; cbn [app]; congruence).
      apply app_inv_tail in Hlw'. exact Hlw'. }
    exists (l1 ++ [t]). split; [rewrite Hl1, <- app_assoc; reflexivity|].
    assert (Hinj := chain_lookup_inj pr (l1 ++ [t]) Hfirstw Hlinkw).
    split.
    + intros i a b Ha Hb.
      apply lookup_snoc_Some in Hb as [[Hi Hb]|[Hi <-]].
      * rewrite lookup_app_l in Ha by lia. apply (Hnext1 i a b Ha Hb).
      * (* the pair of the last predecessor and [t] *)
        assert (Hpa : pr t = Some a).
        { apply (Hlinkw i a t Ha). rewrite Hi. apply list_lookup_middle. reflexivity. }
        rewrite Hframe1.
        -- unfold s1. rewrite Hpr, Hpa.
           rewrite node_at_update_node, decide_True by reflexivity. reflexivity.
        -- intros y Hy Hpy.
           apply list_elem_of_lookup_1 in Hy as [m Hm].
           assert (Hm' : (l1 ++ [t]) !! m = Some y)
             by (rewrite lookup_app_l by (apply lookup_lt_Some in Hm; lia); exact Hm).
           destruct m as [|m].
           ++ destruct Hfirstw as (first & Hhead & Hfirst).
              rewrite head_lookup in Hhead. congruence.
           ++ destruct (lookup_lt_is_Some_2 (l1 ++ [t]) m) as [z Hz].
              { apply lookup_lt_Some in Hm'. lia. }
              pose proof (Hlinkw m z y Hz Hm') as Hpz.
              assert (z = a) as -> by congruence.
              pose proof (Hinj m i a Hz Ha) as Heq.
              apply lookup_lt_Some in Hm. lia.
    + intros x Hx. rewrite Hframe1.
      * unfold s1. rewrite Hpr. destruct (pr t) as [p|] eqn:Hp; [|reflexivity].
        rewrite node_at_update_node. destruct (decide (p = x)) as [->|]; [|reflexivity].
        exfalso. apply (Hx t); [|exact Hp]. apply elem_of_app. right. left.
      * intros y Hy. apply Hx. apply elem_of_app. left. exact Hy.
Qed.

(** X24: the forward links of the chain are repaired.  When the loop of
    [generatePathCandidate] that walks the predecessors of a node comes to
    an end, the chain it collected holds no node twice, and every node of
    the chain but the last has the node after it as its successor: along
    the chain [next] is the inverse of [prev].  The successor of a node
    that is the predecessor of no node of the chain is not assigned. *)
Theorem collect_transitions_repairs_next (fuel : nat) (s sm : Search)
    (node : NodePtr) (chain : list NodePtr) :
  collect_transitions fuel s (Some node) [] = Ok (chain, sm) ->
  NoDup chain /\
  (forall i a b, chain !! i = Some a -> chain !! S i = Some b ->
     prev (node_at sm b) = Some a /\ next (node_at sm a) = Some b) /\
  (forall x, (forall y, y ∈ chain -> prev (node_at s y) <> Some x) ->
     next (node_at sm x) = next (node_at s x)).
Proof.
  intros H.
  pose proof (collect_transitions_chain (fun v => prev (node_at s v)) (fun _ => True)
                fuel ltac:(intros; exact I) s sm (Some node) [] chain
                ltac:(reflexivity) ltac:(intros; exact I) H)
    as (l0 & Hl0 & _ & _ & Hfirst & Hlink).
  pose proof (collect_transitions_links (fun v => prev (node_at s v)) fuel s sm
                (Some node) [] chain ltac:(reflexivity) H)
    as (l1 & Hl1 & Hnext & Hframe).
  rewrite app_nil_r in Hl0, Hl1. subst l0 l1.
  destruct (collect_transitions_frame _ _ _ _ _ _ H) as [_ Hsame].
  split; [|split].
  - apply NoDup_alt. intros i j x. apply (chain_lookup_inj _ _ Hfirst Hlink).
  - intros i a b Ha Hb. split; [|apply (Hnext i a b Ha Hb)].
    rewrite <- (Hlink i a b Ha Hb). exact (f_equal prev (Hsame b)).
  - exact Hframe.
Qed.

(** * The search over any frontier *)

(** The frontier of [performDijkstraSearch] is a [std::set<Node*>] ordered
    by [comp], and [comp] reads the cost of the nodes.  The loop assigns
    [neighbor->cost] while the neighbour may be in the set, and only then
    calls [find], [erase] and [insert]: from then on the set is no longer
    ordered, and what these calls answer depends on the shape of the tree
    behind it.  The sequence model above answers as the tree does as long
    as no node that is in the frontier is relaxed.  This part does without
    that proviso: the container is any implementation that keeps the
    following laws, which a search tree keeps whatever its comparisons
    answer, and the results hold for whatever it hands out. *)

(** The container as the search uses it.  [fr_elements] lists the node
    pointers held, in iteration order: [queue.empty()] is
    [fr_elements q = []] and [*queue.begin()] is its head.  [insert],
    [find] and [erase] take the planner, through which [comp] reads the
    costs.  The laws say what a search tree does whatever its comparisons
    answer:
    - [insert(n)] goes down to a leaf and links one new tree node that
      holds [n] there, or links nothing (when it meets a node it takes for
      equivalent); rebalancing keeps the iteration order;
    - [erase(key)] unlinks the tree nodes of [equal_range(key)], a run of
      consecutive nodes, and the others stay in sequence;
    - [erase(begin())] unlinks the first tree node;
    - [find] may report any node or none.
    A node pointer may be held more than once: a node whose cost was
    changed while it was in the container may be inserted again. *)
Record Frontier : Type := {
  container : Type;
  fr_elements : container -> list NodePtr;
  fr_new : container;
  fr_insert : Search -> container -> NodePtr -> container;
  fr_find : Search -> container -> NodePtr -> bool;
  fr_erase : Search -> container -> NodePtr -> container;
  fr_erase_begin : container -> container;
  fr_new_elements : fr_elements fr_new = [];
  fr_insert_elements : forall s q n,
    fr_elements (fr_insert s q n) = fr_elements q \/
    exists l1 l2, fr_elements q = l1 ++ l2 /\
                  fr_elements (fr_insert s q n) = l1 ++ n :: l2;
  fr_erase_elements : forall s q n,
    sublist (fr_elements (fr_erase s q n)) (fr_elements q);
  fr_erase_begin_elements : forall q,
    fr_elements (fr_erase_begin q) = tail (fr_elements q)
}.

Module AnySet.

Section Search.

Variable F : Frontier.
Variable X : Extern.

(** Body of the inner loop of [enqueueStartingNodes] for the transition at
    address [k]. *)
Definition enqueueStartingNode (s : Search) (queue : container F)
    (k : TransitionPtr) (next_transition : Transition)
    : outcome (Search * container F) :=
  node <- nodes_at s k ;;
  (* distance from start_pt to transition *)
  end_point_on_segment <-
    (if curve_forward (node_at s node) then front (path next_transition)
     else back (path next_transition)) ;;
  c <- calculateStraightCost X s node (start_pt s) end_point_on_segment ;;
  let s := update_node s node (fun n => set_cost n (Finite c)) in
  Ok (s, fr_insert F s queue node).

Fixpoint enqueueStartingNodes_list (s : Search) (queue : container F)
    (i : nat) (forward : bool) (j : nat) (ts : list Transition)
    : outcome (Search * container F) :=
  match ts with
  | [] => Ok (s, queue)
  | t :: ts' =>
      r <- enqueueStartingNode s queue (i, forward, j) t ;;
      enqueueStartingNodes_list r.1 r.2 i forward (S j) ts'
  end.

Definition enqueueStartingNodes (s : Search) (queue : container F)
    : outcome (Search * container F) :=
  i <- segment_index (start_segment s) ;;
  sg <- segment_at s (start_segment s) ;;
  r <- enqueueStartingNodes_list s queue i true 0 (forward_transitions sg) ;;
  enqueueStartingNodes_list r.1 r.2 i false 0 (backward_transitions sg).

(** Body of the inner loop of [performDijkstraSearch] for the transition at
    address [k]. *)
Definition relax (s : Search) (queue : container F) (current_node : NodePtr)
    (k : TransitionPtr) : outcome (Search * container F) :=
  neighbor <- nodes_at s k ;;
  curve_cost <- calculateCurveCost X s current_node ;;
  sp <- findStartPointOnNextSegment s current_node ;;
  ep <- findEndPointOnSegment s current_node (Some k) ;;
  straight_cost <- calculateStraightCost X s current_node sp ep ;;
  let new_cost :=
    cost_add (cost_add (cost (node_at s current_node)) curve_cost) straight_cost in
  if cost_lt new_cost (cost (node_at s neighbor)) then
    let s := update_node s neighbor (fun n => set_prev n (Some current_node)) in
    let s := update_node s current_node (fun n => set_next n (Some neighbor)) in
    let s := update_node s neighbor (fun n => set_cost n new_cost) in
    let queue :=
      if fr_find F s queue neighbor then fr_erase F s queue neighbor else queue in
    Ok (s, fr_insert F s queue neighbor)
  else Ok (s, queue).

Fixpoint relax_list (s : Search) (queue : container F) (current_node : NodePtr)
    (i : nat) (forward : bool) (j : nat) (ts : list Transition)
    : outcome (Search * container F) :=
  match ts with
  | [] => Ok (s, queue)
  | _ :: ts' =>
      r <- relax s queue current_node (i, forward, j) ;;
      relax_list r.1 r.2 current_node i forward (S j) ts'
  end.

(** The two rounds [i = 0, 1] over the transitions that leave the resulting
    segment of [current_node]. *)
Definition expand (s : Search) (queue : container F) (current_node : NodePtr)
    : outcome (Search * container F) :=
  i <- segment_index (next_segment (node_at s current_node)) ;;
  sg <- segment_at s (next_segment (node_at s current_node)) ;;
  r <- relax_list s queue current_node i true 0 (forward_transitions sg) ;;
  sg <- segment_at r.1 (next_segment (node_at r.1 current_node)) ;;
  relax_list r.1 r.2 current_node i false 0 (backward_transitions sg).

(** The [while(!queue.empty())] loop.  Besides the planner it returns the
    candidates in the order in which they were finished. *)
Fixpoint dijkstra_loop (fuel : nat) (s : Search) (queue : container F)
    : outcome (Search * list Candidate) :=
  match fr_elements F queue with
  | [] => Ok (s, [])
  | current_node :: _ =>
      match fuel with
      | O => OutOfFuel
      | S fuel' =>
          let queue := fr_erase_begin F queue in
          if decide (next_segment (node_at s current_node) = end_segment s) then
            s' <- generatePathCandidate X fuel' s current_node ;;
            r <- dijkstra_loop fuel' s' queue ;;
            Ok (r.1, {| cand_node := current_node; cand_before := s;
                        cand_after := s' |} :: r.2)
          else
            e <- expand s queue current_node ;;
            dijkstra_loop fuel' e.1 e.2
      end
  end.

Definition performDijkstraSearch_traced (fuel : nat) (s : Search)
    : outcome (list PathPose * Search * list Candidate) :=
  let s := initNodes s in
  r <- enqueueStartingNodes s (fr_new F) ;;
  let s := set_min_cost r.1 Infinity in
  r <- dijkstra_loop fuel s r.2 ;;
  let s := r.1 in
  Ok (combine (start_appendix s) (best_path s) (end_appendix s), s, r.2).

Definition performDijkstraSearch (fuel : nat) (s : Search)
    : outcome (list PathPose * Search) :=
  r <- performDijkstraSearch_traced fuel s ;;
  Ok r.1.

End Search.

End AnySet.

(** ** The sequence ordered by [comp] is such a container *)

Lemma queue_insert_elements (s : Search) (queue : list NodePtr) (n : NodePtr) :
  queue_insert s queue n = queue \/
  exists l1 l2, queue = l1 ++ l2 /\ queue_insert s queue n = l1 ++ n :: l2.
Proof.
  induction queue as [|e queue IH].
  - right. exists [], []. split; reflexivity.
  - cbn [queue_insert]. destruct (comp s e n).
    + destruct IH as [->|(l1 & l2 & Hq & ->)]; [left; reflexivity|].
      right. exists (e :: l1), l2. split; [rewrite Hq; reflexivity|reflexivity].
    + destruct (comp s n e); [|left; reflexivity].
      right. exists [], (e :: queue). split; reflexivity.
Qed.

Lemma dropwhile_not_greater_sublist (s : Search) (n : NodePtr) (queue : list NodePtr) :
  sublist (dropwhile_not_greater s n queue) queue.
Proof.
  induction queue as [|e queue IH]; [constructor|].
  cbn [dropwhile_not_greater]. destruct (comp s n e); [reflexivity|].
  apply sublist_cons. exact IH.
Qed.

Lemma queue_erase_sublist (s : Search) (queue : list NodePtr) (n : NodePtr) :
  sublist (queue_erase s queue n) queue.
Proof.
  induction queue as [|e queue IH]; [constructor|].
  cbn [queue_erase]. destruct (comp s e n).
  - apply sublist_skip. exact IH.
  - apply (dropwhile_not_greater_sublist s n (e :: queue)).
Qed.

Definition list_frontier : Frontier :=
  {| container := list NodePtr;
     fr_elements := fun queue => queue;
     fr_new := [];
     fr_insert := queue_insert;
     fr_find := queue_find;
     fr_erase := queue_erase;
     fr_erase_begin := tail;
     fr_new_elements := eq_refl;
     fr_insert_elements := queue_insert_elements;
     fr_erase_elements := queue_erase_sublist;
     fr_erase_begin_elements := fun queue => eq_refl |}.

Section ListFrontier.

Variable X : Extern.

Lemma dijkstra_loop_list_frontier (fuel : nat) :
  forall (s : Search) (queue : list NodePtr),
    AnySet.dijkstra_loop list_frontier X fuel s queue = dijkstra_loop X fuel s queue.
Proof.
  induction fuel as [|fuel IH]; intros s queue.
  - destruct queue; reflexivity.
  - destruct queue as [|n queue]; [reflexivity|].
    cbn [AnySet.dijkstra_loop dijkstra_loop fr_elements fr_erase_begin list_frontier tail].
    destruct (decide _).
    + destruct (generatePathCandidate X fuel s n) as [s1| |]; [|reflexivity..].
      cbn [bind]. rewrite IH. reflexivity.
    + change (AnySet.expand list_frontier X s queue n) with (expand X s queue n).
      destruct (expand X s queue n) as [e| |]; [|reflexivity..].
      cbn [bind]. apply IH.
Qed.

Lemma performDijkstraSearch_traced_list_frontier (fuel : nat) (s : Search) :
  AnySet.performDijkstraSearch_traced list_frontier X fuel s =
    performDijkstraSearch_traced X fuel s.
Proof.
  unfold AnySet.performDijkstraSearch_traced, performDijkstraSearch_traced.
  change (AnySet.enqueueStartingNodes list_frontier X (initNodes s) (fr_new list_frontier))
    with (enqueueStartingNodes X (initNodes s) []).
  destruct (enqueueStartingNodes X (initNodes s) []) as [r| |]; [|reflexivity..].
  cbn [bind]. rewrite dijkstra_loop_list_frontier. reflexivity.
Qed.

End ListFrontier.

(** ** What the container holds *)

Section FrontierLaws.

Variable F : Frontier.

Lemma fr_insert_elem (s : Search) (q : container F) (n x : NodePtr) :
  x ∈ fr_elements F (fr_insert F s q n) -> x = n \/ x ∈ fr_elements F q.
Proof.
  destruct (fr_insert_elements F s q n) as [->|(l1 & l2 & Hq & ->)];
    [right; assumption|].
  rewrite Hq. intros Hx. apply elem_of_app in Hx as [Hx|Hx].
  - right. apply elem_of_app. left. exact Hx.
  - apply elem_of_cons in Hx as [->|Hx]; [left; reflexivity|].
    right. apply elem_of_app. right. exact Hx.
Qed.

Lemma fr_erase_elem (s : Search) (q : container F) (n x : NodePtr) :
  x ∈ fr_elements F (fr_erase F s q n) -> x ∈ fr_elements F q.
Proof. intros Hx. exact (elem_of_sublist _ _ _ Hx (fr_erase_elements F s q n)). Qed.

Lemma fr_erase_begin_elem (q : container F) (x : NodePtr) :
  x ∈ fr_elements F (fr_erase_begin F q) -> x ∈ fr_elements F q.
Proof.
  rewrite fr_erase_begin_elements. destruct (fr_elements F q) as [|e l]; [tauto|].
  cbn [tail]. intros Hx. apply elem_of_cons. right. exact Hx.
Qed.

Lemma sum_over_app (f : NodePtr -> nat) (l1 l2 : list NodePtr) :
  sum_over f (l1 ++ l2) = (sum_over f l1 + sum_over f l2)%nat.
Proof. induction l1 as [|x l1 IH]; cbn; [reflexivity|]. rewrite IH. lia. Qed.

Lemma sum_over_sublist (f : NodePtr -> nat) (l1 l2 : list NodePtr) :
  sublist l1 l2 -> (sum_over f l1 <= sum_over f l2)%nat.
Proof. induction 1; cbn; lia. Qed.

Lemma open_nodes_fr_insert (E : NodePtr -> bool) (s : Search) (q : container F)
    (n : NodePtr) :
  (open_nodes E (fr_elements F (fr_insert F s q n)) <=
   open_nodes E (fr_elements F q) + if E n then 0 else 1)%nat.
Proof.
  destruct (fr_insert_elements F s q n) as [->|(l1 & l2 & -> & ->)]; [lia|].
  unfold open_nodes. rewrite !sum_over_app. cbn [sum_over]. lia.
Qed.

Lemma open_nodes_fr_erase (E : NodePtr -> bool) (s : Search) (q : container F)
    (n : NodePtr) :
  (open_nodes E (fr_elements F (fr_erase F s q n)) <= open_nodes E (fr_elements F q))%nat.
Proof. apply sum_over_sublist, fr_erase_elements. Qed.

End FrontierLaws.

(** ** The nodes do not depend on the container *)

(** The planner of an outcome. *)
Definition state_of {A : Type} (r : outcome (Search * A)) : outcome Search :=
  x <- r ;; Ok x.1.

Lemma state_of_Ok {A : Type} (r : outcome (Search * A)) (s' : Search) :
  state_of r = Ok s' <-> exists a, r = Ok (s', a).
Proof.
  unfold state_of. destruct r as [[s1 a]| |]; cbn [bind fst]; split.
  - intros [= <-]. exists a. reflexivity.
  - intros [a' [= <- _]]. reflexivity.
  - discriminate.
  - intros [a' H]. discriminate.
  - discriminate.
  - intros [a' H]. discriminate.
Qed.

Lemma state_of_bind {A B : Type} (m1 : outcome (Search * A)) (m2 : outcome (Search * B))
    (k1 : Search * A -> outcome (Search * A)) (k2 : Search * B -> outcome (Search * B)) :
  state_of m1 = state_of m2 ->
  (forall s a b, state_of (k1 (s, a)) = state_of (k2 (s, b))) ->
  state_of (bind m1 k1) = state_of (bind m2 k2).
Proof.
  intros Hm Hk. destruct m1 as [[s1 a]| |], m2 as [[s2 b]| |]; cbn in Hm;
    try discriminate; cbn [bind]; try exact Hm.
  injection Hm as <-. apply Hk.
Qed.

Ltac binds H :=
  repeat (let a := fresh "a" in let Ha := fresh "Ha" in
          apply bind_Ok_inv in H as (a & Ha & H)).

Section AnyFrontier.

Variable F : Frontier.
Variable X : Extern.

Lemma any_relax_state (s : Search) (q : container F) (ql : list NodePtr)
    (current_node : NodePtr) (k : TransitionPtr) :
  state_of (AnySet.relax F X s q current_node k) =
    state_of (relax X s ql current_node k).
Proof.
  unfold AnySet.relax, relax.
  repeat match goal with
         | |- context [bind ?m _] => destruct m; cbn [bind]; try reflexivity
         end.
  destruct (cost_lt _ _); reflexivity.
Qed.

Lemma any_relax_list_state (ts : list Transition) :
  forall (s : Search) (q : container F) (ql : list NodePtr)
         (current_node : NodePtr) (i : nat) (forward : bool) (j : nat),
    state_of (AnySet.relax_list F X s q current_node i forward j ts) =
      state_of (relax_list X s ql current_node i forward j ts).
Proof.
  induction ts as [|t ts IH]; intros s q ql current_node i forward j; [reflexivity|].
  cbn [AnySet.relax_list relax_list].
  apply state_of_bind; [apply any_relax_state|].
  intros s1 q1 ql1. apply IH.
Qed.

Lemma any_expand_state (s : Search) (q : container F) (ql : list NodePtr)
    (current_node : NodePtr) :
  state_of (AnySet.expand F X s q current_node) =
    state_of (expand X s ql current_node).
Proof.
  unfold AnySet.expand, expand.
  destruct (segment_index _); cbn [bind]; [|reflexivity..].
  destruct (segment_at _ _); cbn [bind]; [|reflexivity..].
  apply state_of_bind; [apply any_relax_list_state|].
  intros s1 q1 ql1. cbn [fst snd].
  destruct (segment_at _ _); cbn [bind]; [|reflexivity..].
  apply any_relax_list_state.
Qed.

Lemma any_enqueueStartingNode_state (s : Search) (q : container F)
    (ql : list NodePtr) (k : TransitionPtr) (t : Transition) :
  state_of (AnySet.enqueueStartingNode F X s q k t) =
    state_of (enqueueStartingNode X s ql k t).
Proof.
  unfold AnySet.enqueueStartingNode, enqueueStartingNode.
  repeat match goal with
         | |- context [bind ?m _] => destruct m; cbn [bind]; try reflexivity
         end.
Qed.

Lemma any_enqueueStartingNodes_list_state (ts : list Transition) :
  forall (s : Search) (q : container F) (ql : list NodePtr)
         (i : nat) (forward : bool) (j : nat),
    state_of (AnySet.enqueueStartingNodes_list F X s q i forward j ts) =
      state_of (enqueueStartingNodes_list X s ql i forward j ts).
Proof.
  induction ts as [|t ts IH]; intros s q ql i forward j; [reflexivity|].
  cbn [AnySet.enqueueStartingNodes_list enqueueStartingNodes_list].
  apply state_of_bind; [apply any_enqueueStartingNode_state|].
  intros s1 q1 ql1. apply IH.
Qed.

Lemma any_enqueueStartingNodes_state (s : Search) (q : container F)
    (ql : list NodePtr) :
  state_of (AnySet.enqueueStartingNodes F X s q) =
    state_of (enqueueStartingNodes X s ql).
Proof.
  unfold AnySet.enqueueStartingNodes, enqueueStartingNodes.
  destruct (segment_index _); cbn [bind]; [|reflexivity..].
  destruct (segment_at _ _); cbn [bind]; [|reflexivity..].
  apply state_of_bind; [apply any_enqueueStartingNodes_list_state|].
  intros s1 q1 ql1. apply any_enqueueStartingNodes_list_state.
Qed.

(** A run of the general step gives a run of the step on sequences that
    ends in the same planner, and the other way round. *)
Lemma any_expand_run (s s' : Search) (q q' : container F) (ql : list NodePtr)
    (current_node : NodePtr) :
  AnySet.expand F X s q current_node = Ok (s', q') ->
  exists ql', expand X s ql current_node = Ok (s', ql').
Proof.
  intros H. apply state_of_Ok. rewrite <- (any_expand_state s q ql).
  apply state_of_Ok. eauto.
Qed.

Lemma any_relax_run (s s' : Search) (q q' : container F) (ql : list NodePtr)
    (current_node : NodePtr) (k : TransitionPtr) :
  AnySet.relax F X s q current_node k = Ok (s', q') ->
  exists ql', relax X s ql current_node k = Ok (s', ql').
Proof.
  intros H. apply state_of_Ok. rewrite <- (any_relax_state s q ql).
  apply state_of_Ok. eauto.
Qed.

Lemma any_enqueueStartingNodes_run (s s' : Search) (q q' : container F)
    (ql : list NodePtr) :
  AnySet.enqueueStartingNodes F X s q = Ok (s', q') ->
  exists ql', enqueueStartingNodes X s ql = Ok (s', ql').
Proof.
  intros H. apply state_of_Ok. rewrite <- (any_enqueueStartingNodes_state s q ql).
  apply state_of_Ok. eauto.
Qed.

(** What [relax] does to the nodes and to the container: nothing, or the
    three assignments of the improving branch and the calls of [find],
    [erase] and [insert]. *)
Lemma any_relax_cases (s s' : Search) (q q' : container F)
    (current_node : NodePtr) (k : TransitionPtr) :
  AnySet.relax F X s q current_node k = Ok (s', q') ->
  exists curve_cost straight_cost sp ep,
    calculateCurveCost X s current_node = Ok curve_cost /\
    findStartPointOnNextSegment s current_node = Ok sp /\
    findEndPointOnSegment s current_node (Some k) = Ok ep /\
    calculateStraightCost X s current_node sp ep = Ok straight_cost /\
    let new_cost :=
      cost_add (cost_add (cost (node_at s current_node)) curve_cost) straight_cost in
    (cost_lt new_cost (cost (node_at s k)) = false /\ s' = s /\ q' = q) \/
    (cost_lt new_cost (cost (node_at s k)) = true /\
     finite_cost s' k /\
     q' = fr_insert F s' (if fr_find F s' q k then fr_erase F s' q k else q) k).
Proof.
  unfold AnySet.relax. intros H. binds H.
  apply nodes_at_Ok in Ha as [-> _].
  exists a0, a3, a1, a2. repeat (split; [assumption|]). cbn zeta.
  destruct (cost_lt _ _) eqn:Hlt.
  - right. injection H as <- <-. split; [reflexivity|]. split; [|reflexivity].
    apply cost_lt_finite in Hlt as [c Hc]. exists c.
    rewrite node_at_update_node, decide_True by reflexivity. exact Hc.
  - left. injection H as <- <-. split; [reflexivity|]. split; reflexivity.
Qed.

(** ** The container holds nodes with a finite cost *)

Lemma any_relax_finite (s s' : Search) (q q' : container F)
    (current_node : NodePtr) (k : TransitionPtr) :
  AnySet.relax F X s q current_node k = Ok (s', q') ->
  (forall n, finite_cost s n -> finite_cost s' n) /\
  (forall x, x ∈ fr_elements F q' -> x ∈ fr_elements F q \/ finite_cost s' x).
Proof.
  intros H. split.
  - destruct (any_relax_run _ _ _ _ [] _ _ H) as [ql' Hl].
    apply (relax_finite X _ _ _ _ _ _ Hl).
  - apply any_relax_cases in H as (cc & sc & sp & ep & _ & _ & _ & _ & H).
    cbn zeta in H.
    destruct H as [(_ & -> & ->)|(_ & Hk & ->)]; [intros x Hx; left; exact Hx|].
    intros x Hx. apply fr_insert_elem in Hx as [->|Hx]; [right; exact Hk|].
    left. destruct (fr_find F s' q k); [|exact Hx].
    apply fr_erase_elem in Hx. exact Hx.
Qed.

Lemma any_relax_list_finite (ts : list Transition) (s s' : Search)
    (q q' : container F) (current_node : NodePtr)
    (i : nat) (forward : bool) (j : nat) :
  AnySet.relax_list F X s q current_node i forward j ts = Ok (s', q') ->
  (forall n, finite_cost s n -> finite_cost s' n) /\
  (forall x, x ∈ fr_elements F q' -> x ∈ fr_elements F q \/ finite_cost s' x).
Proof.
  revert s q j. induction ts as [|t ts IH]; intros s q j H.
  - injection H as <- <-. split; [tauto|]. intros x Hx. left. exact Hx.
  - cbn [AnySet.relax_list] in H. apply bind_Ok_inv in H as ([s1 q1] & H1 & H).
    apply any_relax_finite in H1 as [Hf1 Hq1]. apply IH in H as [Hf2 Hq2].
    split; [intros n Hn; apply Hf2, Hf1, Hn|].
    intros x Hx. destruct (Hq2 x Hx) as [Hin|Hfin]; [|right; exact Hfin].
    destruct (Hq1 x Hin) as [Hin'|Hfin]; [left; exact Hin'|].
    right. apply Hf2. exact Hfin.
Qed.

Lemma any_expand_finite (s s' : Search) (q q' : container F)
    (current_node : NodePtr) :
  AnySet.expand F X s q current_node = Ok (s', q') ->
  (forall x, x ∈ fr_elements F q -> finite_cost s x) ->
  forall x, x ∈ fr_elements F q' -> finite_cost s' x.
Proof.
  unfold AnySet.expand. intros H Hq. binds H. destruct a1 as [s1 q1].
  apply any_relax_list_finite in Ha1 as [Hf1 Hq1].
  apply any_relax_list_finite in H as [Hf2 Hq2].
  intros x Hx. destruct (Hq2 x Hx) as [Hin|Hfin]; [|exact Hfin].
  apply Hf2. destruct (Hq1 x Hin) as [Hin'|Hfin]; [|exact Hfin].
  apply Hf1, Hq, Hin'.
Qed.

Lemma any_enqueueStartingNode_finite (s s' : Search) (q q' : container F)
    (k : TransitionPtr) (t : Transition) :
  AnySet.enqueueStartingNode F X s q k t = Ok (s', q') ->
  (forall n, finite_cost s n -> finite_cost s' n) /\
  (forall x, x ∈ fr_elements F q' -> x ∈ fr_elements F q \/ finite_cost s' x).
Proof.
  unfold AnySet.enqueueStartingNode. intros H. binds H.
  apply nodes_at_Ok in Ha as [-> _]. injection H as <- <-.
  assert (Hk : finite_cost (update_node s k (fun n => set_cost n (Finite a1))) k).
  { exists a1. rewrite node_at_update_node, decide_True by reflexivity. reflexivity. }
  split.
  - intros n [c Hc]. destruct (decide (k = n)) as [<-|Hne]; [exact Hk|].
    exists c. rewrite node_at_update_node, decide_False by exact Hne. exact Hc.
  - intros x Hx. apply fr_insert_elem in Hx as [->|Hx]; [right; exact Hk|].
    left. exact Hx.
Qed.

Lemma any_enqueueStartingNodes_list_finite (ts : list Transition) (s s' : Search)
    (q q' : container F) (i : nat) (forward : bool) (j : nat) :
  AnySet.enqueueStartingNodes_list F X s q i forward j ts = Ok (s', q') ->
  (forall n, finite_cost s n -> finite_cost s' n) /\
  (forall x, x ∈ fr_elements F q' -> x ∈ fr_elements F q \/ finite_cost s' x).
Proof.
  revert s q j. induction ts as [|t ts IH]; intros s q j H.
  - injection H as <- <-. split; [tauto|]. intros x Hx. left. exact Hx.
  - cbn [AnySet.enqueueStartingNodes_list] in H.
    apply bind_Ok_inv in H as ([s1 q1] & H1 & H).
    apply any_enqueueStartingNode_finite in H1 as (Hf1 & Hq1).
    apply IH in H as (Hf2 & Hq2).
    split; [intros n Hn; apply Hf2, Hf1, Hn|].
    intros x Hx. destruct (Hq2 x Hx) as [Hin|Hfin]; [|right; exact Hfin].
    destruct (Hq1 x Hin) as [Hin'|Hfin]; [left; exact Hin'|].
    right. apply Hf2. exact Hfin.
Qed.

Lemma any_enqueueStartingNodes_finite (s s' : Search) (q' : container F) :
  AnySet.enqueueStartingNodes F X s (fr_new F) = Ok (s', q') ->
  forall x, x ∈ fr_elements F q' -> finite_cost s' x.
Proof.
  unfold AnySet.enqueueStartingNodes. intros H. binds H. destruct a1 as [s1 q1].
  apply any_enqueueStartingNodes_list_finite in Ha1 as (Hf1 & Hq1).
  apply any_enqueueStartingNodes_list_finite in H as (Hf2 & Hq2).
  intros x Hx. destruct (Hq2 x Hx) as [Hin|Hfin]; [|exact Hfin].
  apply Hf2. destruct (Hq1 x Hin) as [Hin'|Hfin]; [|exact Hfin].
  rewrite fr_new_elements in Hin'. apply elem_of_nil in Hin'. contradiction.
Qed.

End AnyFrontier.

(** ** The run of the loop, without the container *)

Section Steps.

Variable X : Extern.

(** What the loop does to the planner, whatever the container hands out:
    it takes a node that has a cost, and either expands it or, when its
    resulting segment is the end segment, finishes it as a candidate.  The
    candidates are listed in the order in which they are finished. *)
Inductive steps : Search -> list Candidate -> Search -> Prop :=
| steps_done (s : Search) : steps s [] s
| steps_expand (s s1 s' : Search) (n : NodePtr) (ql ql' : list NodePtr)
    (cands : list Candidate) :
    finite_cost s n ->
    next_segment (node_at s n) <> end_segment s ->
    expand X s ql n = Ok (s1, ql') ->
    steps s1 cands s' ->
    steps s cands s'
| steps_candidate (s s1 s' : Search) (n : NodePtr) (fuel : nat)
    (cands : list Candidate) :
    finite_cost s n ->
    next_segment (node_at s n) = end_segment s ->
    generatePathCandidate X fuel s n = Ok s1 ->
    steps s1 cands s' ->
    steps s ({| cand_node := n; cand_before := s; cand_after := s1 |} :: cands) s'.

Lemma generatePathCandidate_finite (fuel : nat) (s s' : Search) (node : NodePtr) :
  generatePathCandidate X fuel s node = Ok s' ->
  forall n, finite_cost s n -> finite_cost s' n.
Proof.
  intros H n [c Hc].
  destruct (generatePathCandidate_spec X _ _ _ _ H)
    as (sp & add & _ & _ & _ & _ & Htot & Hother & _). cbn zeta in Htot.
  destruct (decide (n = node)) as [->|Hne].
  - exists (c + add)%Q. rewrite Htot, Hc. reflexivity.
  - exists c. rewrite Hother by exact Hne. exact Hc.
Qed.

Lemma any_dijkstra_loop_steps (F : Frontier) (fuel : nat) :
  forall (s s' : Search) (q : container F) (cands : list Candidate),
    (forall n, n ∈ fr_elements F q -> finite_cost s n) ->
    AnySet.dijkstra_loop F X fuel s q = Ok (s', cands) ->
    steps s cands s'.
Proof.
  induction fuel as [|fuel IH]; intros s s' q cands Hfin H.
  - cbn [AnySet.dijkstra_loop] in H. destruct (fr_elements F q); [|discriminate].
    injection H as <- <-. constructor.
  - cbn [AnySet.dijkstra_loop] in H.
    destruct (fr_elements F q) as [|n l] eqn:Hq.
    { injection H as <- <-. constructor. }
    assert (Hn : finite_cost s n) by (apply Hfin; left).
    assert (Hrest : forall x, x ∈ fr_elements F (fr_erase_begin F q) -> finite_cost s x).
    { intros x Hx. apply Hfin. rewrite <- Hq. apply (fr_erase_begin_elem F), Hx. }
    cbn zeta in H.
    destruct (decide (next_segment (node_at s n) = end_segment s)) as [Hend|Hend].
    + apply bind_Ok_inv in H as (s1 & Hgen & H).
      apply bind_Ok_inv in H as ([s2 c2] & Hloop & H). injection H as <- <-.
      cbn [fst snd].
      apply (steps_candidate s s1 s2 n fuel c2 Hn Hend Hgen).
      apply (IH _ _ _ _ (fun x Hx => generatePathCandidate_finite _ _ _ _ Hgen x
                                       (Hrest x Hx)) Hloop).
    + apply bind_Ok_inv in H as ([s1 q1] & Hexp & H). cbn [fst snd] in H.
      destruct (any_expand_run F X _ _ _ _ [] _ Hexp) as [ql' Hl].
      apply (steps_expand s s1 s' n [] ql' cands Hn Hend Hl).
      apply (IH _ _ _ _ (any_expand_finite F X _ _ _ _ _ Hexp Hrest) H).
Qed.

(** A general search seeds the nodes as the search on sequences does, and
    then runs the loop. *)
Lemma any_performDijkstraSearch_traced_steps (F : Frontier) (fuel : nat)
    (s s' : Search) (result : list PathPose) (cands : list Candidate) :
  AnySet.performDijkstraSearch_traced F X fuel s = Ok (result, s', cands) ->
  exists s1 ql1,
    enqueueStartingNodes X (initNodes s) [] = Ok (s1, ql1) /\
    steps (set_min_cost s1 Infinity) cands s' /\
    result = combine (start_appendix s') (best_path s') (end_appendix s').
Proof.
  unfold AnySet.performDijkstraSearch_traced. intros H.
  apply bind_Ok_inv in H as ([s1 q1] & Henq & H).
  apply bind_Ok_inv in H as ([s2 c2] & Hloop & H). injection H as <- <- <-.
  cbn [fst snd] in *.
  destruct (any_enqueueStartingNodes_run F X _ _ _ _ [] Henq) as [ql1 Hl].
  exists s1, ql1. split; [exact Hl|]. split; [|reflexivity].
  apply (any_dijkstra_loop_steps F fuel _ _ q1); [|exact Hloop].
  intros n Hn. destruct (any_enqueueStartingNodes_finite F X _ _ _ Henq n Hn) as [c Hc].
  exists c. exact Hc.
Qed.

(** *** The members of the planner and the candidates *)

Lemma steps_spec (s s' : Search) (cands : list Candidate) :
  steps s cands s' ->
  request s' = request s /\
  Forall (finished X) cands /\
  Forall (fun c => request (cand_before c) = request s) cands.
Proof.
  induction 1 as [s|s s1 s' n ql ql' cands Hn Hend Hexp Hrest IH
                   |s s1 s' n fuel cands Hn Hend Hgen Hrest IH].
  - repeat split; constructor.
  - apply expand_cost_le in Hexp as [Ho _].
    apply nodes_only_request in Ho as [Hreq _].
    destruct IH as (H1 & H2 & H3). split; [congruence|]. split; [exact H2|].
    eapply Forall_impl; [exact H3|]. intros c Hc. cbn beta in Hc. congruence.
  - destruct (generatePathCandidate_spec X _ _ _ _ Hgen)
      as (sp & add & Hsp & Hadd & Hreq & _ & Htot & _). cbn zeta in Htot.
    destruct IH as (H1 & H2 & H3). split; [congruence|]. split.
    + constructor; [|exact H2]. split; [exact Hend|]. destruct Hn as [c Hc].
      exists sp, add, c. split; [exact Hsp|]. split; [exact Hadd|]. split; [exact Hc|].
      unfold cand_total. cbn [cand_after cand_node]. rewrite Htot, Hc. reflexivity.
    + constructor; [reflexivity|].
      eapply Forall_impl; [exact H3|]. intros c Hc. cbn beta in Hc. congruence.
Qed.

(** *** Which candidate wins *)

Lemma steps_winner (s s' : Search) (cands : list Candidate) :
  steps s cands s' ->
  (Forall (fun c => cost_le (min_cost s) (cand_total c)) cands /\
   min_cost s' = min_cost s /\ best_path s' = best_path s) \/
  (exists c, earliest_least cands c /\
             cost_lt (cand_total c) (min_cost s) = true /\
             min_cost s' = cand_total c /\ assembled X c (best_path s')).
Proof.
  induction 1 as [s|s s1 s' n ql ql' cands Hn Hend Hexp Hrest IH
                   |s s1 s' n fuel cands Hn Hend Hgen Hrest IH].
  - left. split; [constructor|split; reflexivity].
  - apply expand_cost_le in Hexp as [Ho _].
    apply nodes_only_request in Ho as (_ & Hm1 & Hb1).
    destruct IH as [(Hall & Hm & Hb)|(c & Hc & Hclt & Hm & Hb)].
    + left. rewrite Hm1 in Hall. split; [exact Hall|]. split; congruence.
    + right. exists c. rewrite Hm1 in Hclt. repeat split; assumption.
  - destruct (generatePathCandidate_spec X _ _ _ _ Hgen)
      as (sp & add & Hsp & Hadd & _ & _ & Htot & _ & Hbest). cbn zeta in Htot, Hbest.
    set (c0 := {| cand_node := n; cand_before := s; cand_after := s1 |}).
    assert (Ht0 : cand_total c0 = cost_add (cost (node_at s n)) add) by exact Htot.
    rewrite <- Ht0 in Hbest.
    destruct (cost_lt (cand_total c0) (min_cost s)) eqn:Hlt.
    + destruct Hbest as (Hm1 & chain & sm & Hcoll & Hpath).
      assert (Hasm : assembled X c0 (best_path s1)).
      { exists fuel, sp, add, chain, sm. repeat split; assumption. }
      right. destruct IH as [(Hall & Hm & Hb)|(c & Hc & Hclt & Hm & Hb)].
      * exists c0. split; [|split; [exact Hlt|split; [congruence|rewrite Hb; exact Hasm]]].
        exists [], cands. split; [reflexivity|]. split; [constructor|].
        rewrite Hm1 in Hall. exact Hall.
      * exists c. rewrite Hm1 in Hclt.
        split; [|split; [apply (cost_lt_trans _ _ _ Hclt Hlt)|split; assumption]].
        destruct Hc as (before & after & -> & Hbefore & Hafter).
        exists (c0 :: before), after. split; [reflexivity|].
        split; [constructor; assumption|exact Hafter].
    + destruct Hbest as [Hm1 Hb1]. apply cost_lt_false_le in Hlt.
      destruct IH as [(Hall & Hm & Hb)|(c & Hc & Hclt & Hm & Hb)].
      * left. split; [|split; congruence].
        constructor; [exact Hlt|]. rewrite Hm1 in Hall. exact Hall.
      * right. exists c. rewrite Hm1 in Hclt.
        split; [|split; [exact Hclt|split; assumption]].
        destruct Hc as (before & after & -> & Hbefore & Hafter).
        exists (c0 :: before), after. split; [reflexivity|].
        split; [|exact Hafter].
        constructor; [apply (cost_lt_le_trans _ _ _ Hclt Hlt)|exact Hbefore].
Qed.

(** *** The links follow the course *)

Lemma steps_walk (s s' : Search) (cands : list Candidate) :
  steps s cands s' -> walk_inv s ->
  Forall (fun c => walk_inv (cand_before c)) cands.
Proof.
  induction 1 as [s|s s1 s' n ql ql' cands Hn Hend Hexp Hrest IH
                   |s s1 s' n fuel cands Hn Hend Hgen Hrest IH]; intros Hw.
  - constructor.
  - apply IH. apply (expand_walk X _ _ _ _ _ Hw Hexp).
  - constructor; [exact Hw|].
    apply IH. apply (generatePathCandidate_walk X _ _ _ _ Hw Hgen).
Qed.

(** *** A node stands for its transition *)

Lemma steps_identity (s s' : Search) (cands : list Candidate) :
  steps s cands s' ->
  Forall (fun c => same_identity s (cand_before c)) cands.
Proof.
  induction 1 as [s|s s1 s' n ql ql' cands Hn Hend Hexp Hrest IH
                   |s s1 s' n fuel cands Hn Hend Hgen Hrest IH].
  - constructor.
  - eapply Forall_impl; [exact IH|]. intros c Hc. cbn beta in Hc.
    eapply same_identity_trans; [|exact Hc].
    apply (expand_identity X _ _ _ _ _ Hexp).
  - constructor; [apply same_identity_refl|].
    eapply Forall_impl; [exact IH|]. intros c Hc. cbn beta in Hc.
    eapply same_identity_trans; [|exact Hc].
    apply (generatePathCandidate_identity X _ _ _ _ Hgen).
Qed.

End Steps.

(** ** The general loop ends *)

Section AnyEnds.

Variable F : Frontier.
Variable X : Extern.
Variable u : Q.
Hypothesis u_pos : (0 < u)%Q.
Variable E : NodePtr -> bool.
Variable K : list NodePtr.

Lemma any_relax_step (s s' : Search) (q q' : container F)
    (current_node : NodePtr) (k : TransitionPtr) :
  search_inv X u E K s -> E current_node = false -> k ∈ K ->
  AnySet.relax F X s q current_node k = Ok (s', q') ->
  search_inv X u E K s' /\
  (forall x, next_segment (node_at s' x) = next_segment (node_at s x)) /\
  generator_ s' = generator_ s /\
  not_above u E K s' s (fr_elements F q') (fr_elements F q).
Proof.
  intros Hinv HE Hk H.
  destruct (any_relax_run F X _ _ _ _ [] _ _ H) as [ql' Hl].
  destruct (relax_step X u u_pos E K _ _ _ _ _ _ Hinv HE Hk Hl)
    as (Hinv' & Hns & Hg & Hna).
  split; [exact Hinv'|]. split; [exact Hns|]. split; [exact Hg|].
  apply relax_cases in Hl as (_ & cc' & sc' & sp' & ep' & Hcc' & Hsp' & Hep' & Hsc' & Hl).
  apply any_relax_cases in H as (cc & sc & sp & ep & Hcc & Hsp & Hep & Hsc & H).
  rewrite Hcc in Hcc'. injection Hcc' as <-.
  rewrite Hsp in Hsp'. injection Hsp' as <-.
  rewrite Hep in Hep'. injection Hep' as <-.
  rewrite Hsc in Hsc'. injection Hsc' as <-.
  cbn zeta in H, Hl.
  destruct H as [(_ & -> & ->)|(Hlt & _ & ->)]; [apply not_above_refl|].
  destruct Hl as [(Hlt' & _)|(_ & _ & Hql)]; [congruence|].
  cbn [queue_find queue_insert] in Hql. subst ql'.
  pose proof (open_nodes_fr_insert F E s'
                (if fr_find F s' q k then fr_erase F s' q k else q) k) as Hins.
  assert (Hers : (open_nodes E (fr_elements F
                    (if fr_find F s' q k then fr_erase F s' q k else q)) <=
                  open_nodes E (fr_elements F q))%nat).
  { destruct (fr_find F s' q k); [apply open_nodes_fr_erase|reflexivity]. }
  destruct Hna as [Hlt1|[[Heq Hlt1]|(Heq1 & Heq2 & Hle)]].
  - left. exact Hlt1.
  - right. left. split; assumption.
  - right. right. split; [exact Heq1|]. split; [exact Heq2|].
    unfold open_nodes in Hle. cbn [sum_over] in Hle.
    destruct (E k); [lia|cbn in Hle; lia].
Qed.

Lemma any_relax_list_step (ts : list Transition) (s s' : Search)
    (q q' : container F) (current_node : NodePtr)
    (i : nat) (forward : bool) (j : nat) :
  search_inv X u E K s -> E current_node = false ->
  (forall j', (j <= j' < j + length ts)%nat -> (i, forward, j') ∈ K) ->
  AnySet.relax_list F X s q current_node i forward j ts = Ok (s', q') ->
  search_inv X u E K s' /\
  (forall x, next_segment (node_at s' x) = next_segment (node_at s x)) /\
  generator_ s' = generator_ s /\
  not_above u E K s' s (fr_elements F q') (fr_elements F q).
Proof.
  revert s q j. induction ts as [|t ts IH]; intros s q j Hinv HE HK H.
  - injection H as <- <-. split; [exact Hinv|]. split; [reflexivity|].
    split; [reflexivity|]. apply not_above_refl.
  - cbn [AnySet.relax_list] in H. apply bind_Ok_inv in H as ([s1 q1] & H1 & H).
    cbn [fst snd] in H.
    apply any_relax_step in H1 as (Hinv1 & Hns1 & Hg1 & Hna1);
      [|exact Hinv|exact HE|apply HK; cbn [length]; lia].
    apply IH in H as (Hinv2 & Hns2 & Hg2 & Hna2);
      [|exact Hinv1|exact HE|intros j' Hj'; apply HK; cbn [length]; lia].
    split; [exact Hinv2|].
    split; [intros x; rewrite Hns2; apply Hns1|].
    split; [congruence|].
    eapply not_above_trans; eassumption.
Qed.

Lemma any_expand_step (s s' : Search) (q q' : container F)
    (current_node : NodePtr) :
  search_inv X u E K s -> E current_node = false ->
  AnySet.expand F X s q current_node = Ok (s', q') ->
  search_inv X u E K s' /\
  not_above u E K s' s (fr_elements F q') (fr_elements F q).
Proof.
  unfold AnySet.expand. intros Hinv HE H.
  apply bind_Ok_inv in H as (i & Hi & H).
  apply bind_Ok_inv in H as (sg & Hsg & H).
  apply bind_Ok_inv in H as ([s1 q1] & H1 & H).
  apply bind_Ok_inv in H as (sg2 & Hsg2 & H).
  cbn [fst snd] in *.
  destruct (next_segment (node_at s current_node)) as [i'|] eqn:Hns; [|discriminate].
  injection Hi as ->.
  assert (Hgi : generator_ s !! i = Some sg).
  { unfold segment_at in Hsg. destruct (generator_ s !! i); [|discriminate].
    injection Hsg as ->. reflexivity. }
  apply any_relax_list_step in H1 as (Hinv1 & Hns1 & Hg1 & Hna1);
    [|exact Hinv|exact HE|].
  2:{ intros j' Hj'. apply (inv_keys _ _ _ _ _ Hinv i sg true j' Hgi). cbn. lia. }
  rewrite Hns1, Hns in Hsg2.
  assert (Hgi2 : generator_ s1 !! i = Some sg2).
  { unfold segment_at in Hsg2. destruct (generator_ s1 !! i); [|discriminate].
    injection Hsg2 as ->. reflexivity. }
  apply any_relax_list_step in H as (Hinv2 & Hns2 & Hg2 & Hna2);
    [|exact Hinv1|exact HE|].
  2:{ intros j' Hj'. apply (inv_keys _ _ _ _ _ Hinv1 i sg2 false j' Hgi2). cbn. lia. }
  split; [exact Hinv2|]. eapply not_above_trans; eassumption.
Qed.

Lemma any_expand_fuel_free (s : Search) (q : container F) (current_node : NodePtr) :
  AnySet.expand F X s q current_node <> OutOfFuel.
Proof.
  intros H. apply (expand_fuel_free X s [] current_node).
  pose proof (any_expand_state F X s q [] current_node) as Hst.
  rewrite H in Hst. cbn in Hst.
  destruct (expand X s [] current_node) as [[s1 q1]| |]; cbn in Hst;
    [discriminate|discriminate|reflexivity].
Qed.

Lemma any_dijkstra_loop_ends :
  forall (a b c d : nat) (s : Search) (q : container F),
    search_inv X u E K s ->
    sum_over (unreached E s) K = a ->
    sum_over (units u E s) K = b ->
    open_nodes E (fr_elements F q) = c ->
    length (fr_elements F q) = d ->
    exists fuel, forall fuel', (fuel <= fuel')%nat ->
      AnySet.dijkstra_loop F X fuel' s q <> OutOfFuel.
Proof.
  induction a as [a IHa] using lt_wf_ind. intros b.
  induction b as [b IHb] using lt_wf_ind. intros c.
  induction c as [c IHc] using lt_wf_ind. intros d.
  induction d as [d IHd] using lt_wf_ind.
  intros s q Hinv Ha Hb Hc Hd.
  destruct (fr_elements F q) as [|n l] eqn:Hq.
  { exists 0%nat. intros fuel' _. destruct fuel'; cbn [AnySet.dijkstra_loop];
      rewrite Hq; discriminate. }
  assert (Hl : fr_elements F (fr_erase_begin F q) = l)
    by (rewrite fr_erase_begin_elements, Hq; reflexivity).
  pose proof (inv_end _ _ _ _ _ Hinv n) as Hend. unfold is_end in Hend.
  destruct (E n) eqn:HE.
  - apply bool_decide_eq_true in Hend.
    destruct (generatePathCandidate_ends X s n (inv_grounded _ _ _ _ _ Hinv))
      as (f0 & Hno & Hstable).
    destruct (generatePathCandidate X f0 s n) as [s1| |] eqn:Hgen;
      [| |congruence].
    + destruct (generatePathCandidate_step X u u_pos E K _ _ _ _ Hinv HE Hgen)
        as (Hinv1 & Hu1 & Hr1).
      destruct (IHd (length l)) with (s := s1) (q := fr_erase_begin F q) as [f1 Hf1];
        [subst d; cbn; lia|exact Hinv1|congruence|congruence| |rewrite Hl; reflexivity|].
      { rewrite Hl, <- Hc. unfold open_nodes. cbn. rewrite HE. reflexivity. }
      exists (S (Nat.max f0 f1)). intros fuel' Hle.
      destruct fuel' as [|fuel']; [lia|].
      cbn [AnySet.dijkstra_loop]. rewrite Hq. cbn zeta.
      rewrite decide_True by exact Hend.
      rewrite Hstable by lia. cbn [bind].
      apply bind_fuel_free; [apply Hf1; lia|discriminate].
    + exists (S f0). intros fuel' Hle.
      destruct fuel' as [|fuel']; [lia|].
      cbn [AnySet.dijkstra_loop]. rewrite Hq. cbn zeta.
      rewrite decide_True by exact Hend.
      rewrite Hstable by lia. discriminate.
  - apply bool_decide_eq_false in Hend.
    assert (Hopen : open_nodes E (n :: l) = S (open_nodes E l)).
    { unfold open_nodes. cbn. rewrite HE. reflexivity. }
    destruct (AnySet.expand F X s (fr_erase_begin F q) n) as [[s1 q1]| |] eqn:Hexp.
    + destruct (any_expand_step _ _ _ _ _ Hinv HE Hexp) as [Hinv1 Hna].
      rewrite Hl in Hna.
      assert (Hrest : exists f1, forall fuel', (f1 <= fuel')%nat ->
                AnySet.dijkstra_loop F X fuel' s1 q1 <> OutOfFuel).
      { destruct Hna as [Hlt|[[Heq Hlt]|(Heq1 & Heq2 & Hle)]].
        - eapply (IHa (sum_over (unreached E s1) K)); try reflexivity; [lia|exact Hinv1].
        - eapply (IHb (sum_over (units u E s1) K)); try reflexivity;
            [lia|exact Hinv1|congruence].
        - eapply (IHc (open_nodes E (fr_elements F q1))); try reflexivity;
            [lia|exact Hinv1|congruence|congruence]. }
      destruct Hrest as [f1 Hf1].
      exists (S f1). intros fuel' Hle.
      destruct fuel' as [|fuel']; [lia|].
      cbn [AnySet.dijkstra_loop]. rewrite Hq. cbn zeta.
      rewrite decide_False by exact Hend.
      rewrite Hexp. cbn [bind fst snd]. apply Hf1. lia.
    + exists 1%nat. intros fuel' Hle.
      destruct fuel' as [|fuel']; [lia|].
      cbn [AnySet.dijkstra_loop]. rewrite Hq. cbn zeta.
      rewrite decide_False by exact Hend.
      rewrite Hexp. discriminate.
    + exfalso. exact (any_expand_fuel_free _ _ _ Hexp).
Qed.

End AnyEnds.

Section AnySearchEnds.

Variable F : Frontier.
Variable X : Extern.
Variable u : Q.
Hypothesis u_pos : (0 < u)%Q.

Lemma any_performDijkstraSearch_traced_ends (s : Search) :
  costs_on_grid X u s ->
  exists fuel, forall fuel', (fuel <= fuel')%nat ->
    AnySet.performDijkstraSearch_traced F X fuel' s <> OutOfFuel.
Proof.
  intros Hcfg. unfold AnySet.performDijkstraSearch_traced.
  assert (Hcfg0 : costs_on_grid X u (initNodes s)) by exact Hcfg.
  destruct (AnySet.enqueueStartingNodes F X (initNodes s) (fr_new F))
    as [[s1 q1]| |] eqn:Henq.
  - destruct (any_enqueueStartingNodes_run F X _ _ _ _ [] Henq) as [ql1 Hl].
    assert (Hseed : seeded u (set_min_cost s1 Infinity)).
    { apply (enqueueStartingNodes_seeded X u _ _ _ Hcfg0) in Hl; [exact Hl|].
      intros x. destruct (initNodes_fresh s x) as [Hc Hp].
      unfold node_at. rewrite Hc, Hp. split; [exact I|reflexivity]. }
    assert (Hcfg1 : costs_on_grid X u (set_min_cost s1 Infinity)).
    { apply enqueueStartingNodes_finite in Hl as [Ho _].
      apply nodes_only_request in Ho as (Hreq & _).
      apply (costs_on_grid_request X u (initNodes s)); [exact Hreq|exact Hcfg0]. }
    destruct (any_dijkstra_loop_ends F X u u_pos _ _ _ _ _ _ _ q1
                (seeded_search_inv X u _ Hcfg1 Hseed) eq_refl eq_refl eq_refl eq_refl)
      as [fuel Hfuel].
    exists fuel. intros fuel' Hle. cbn [bind fst snd].
    apply bind_fuel_free; [apply Hfuel; exact Hle|discriminate].
  - exists 0%nat. intros fuel' _. discriminate.
  - exfalso.
    pose proof (any_enqueueStartingNodes_state F X (initNodes s) (fr_new F) []) as Hst.
    rewrite Henq in Hst. cbn in Hst.
    destruct (enqueueStartingNodes X (initNodes s) []) as [[s1 q1]| |] eqn:Hl;
      cbn in Hst; try discriminate.
    exact (enqueueStartingNodes_fuel_free X _ _ Hl).
Qed.

End AnySearchEnds.

(** ** The general search on a well-formed course does not fault *)

Section AnyProgress.

Variable F : Frontier.
Variable X : Extern.

Lemma state_of_run {A B : Type} (r1 : outcome (Search * A)) (r2 : outcome (Search * B))
    (s' : Search) (b : B) :
  state_of r1 = state_of r2 -> r2 = Ok (s', b) -> exists a, r1 = Ok (s', a).
Proof.
  intros Hst H. apply state_of_Ok. rewrite Hst. apply state_of_Ok. eauto.
Qed.

Lemma any_dijkstra_loop_no_fault (fuel : nat) :
  forall (s : Search) (q : container F) (f : fault),
    wf s -> walk_inv s ->
    (forall x, x ∈ fr_elements F q -> finite_cost s x) ->
    AnySet.dijkstra_loop F X fuel s q <> Fault f.
Proof.
  induction fuel as [|fuel IH]; intros s q f Hwf Hw Hq.
  - cbn [AnySet.dijkstra_loop]. destruct (fr_elements F q); discriminate.
  - cbn [AnySet.dijkstra_loop]. destruct (fr_elements F q) as [|n l] eqn:Hel;
      [discriminate|]. cbn zeta.
    assert (Hfin : finite_cost s n) by (apply Hq; left).
    assert (Hn : valid s n) by (apply (walk_valid _ Hw), Hfin).
    assert (Hrest : forall x, x ∈ fr_elements F (fr_erase_begin F q) -> finite_cost s x).
    { intros x Hx. apply Hq. rewrite <- Hel. apply (fr_erase_begin_elem F), Hx. }
    destruct (decide _).
    + destruct (generatePathCandidate_wf X fuel s n Hwf Hn) as [Hnf Hok].
      destruct (generatePathCandidate X fuel s n) as [s1| |] eqn:Hgen; cbn [bind];
        [|exfalso; exact (Hnf _ eq_refl)|discriminate].
      destruct (Hok s1 eq_refl) as [Hwf1 Hg1].
      assert (Hloop : AnySet.dijkstra_loop F X fuel s1 (fr_erase_begin F q) <> Fault f).
      { apply IH; [exact Hwf1|apply (generatePathCandidate_walk X _ _ _ _ Hw Hgen)|].
        intros x Hx. apply (generatePathCandidate_finite X _ _ _ _ Hgen), Hrest, Hx. }
      destruct (AnySet.dijkstra_loop F X fuel s1 (fr_erase_begin F q)); cbn [bind];
        congruence.
    + destruct (expand_wf X s [] n Hwf Hn) as (s1 & ql1 & Hl & Hwf1 & Hg1 & _).
      destruct (state_of_run _ _ _ _
                  (any_expand_state F X s (fr_erase_begin F q) [] n) Hl) as [q1 Hexp].
      rewrite Hexp. cbn [bind fst snd].
      apply IH; [exact Hwf1|apply (expand_walk X _ _ _ _ _ Hw Hl)|].
      apply (any_expand_finite F X _ _ _ _ _ Hexp Hrest).
Qed.

Lemma any_performDijkstraSearch_traced_no_fault (fuel : nat) (s : Search) (f : fault) :
  course_ok (generator_ s) = true -> request_ok s = true ->
  AnySet.performDijkstraSearch_traced F X fuel s <> Fault f.
Proof.
  intros Hc Hr. unfold AnySet.performDijkstraSearch_traced.
  destruct (enqueueStartingNodes_wf X (initNodes s) (initNodes_wf s Hc Hr))
    as (s1 & ql1 & Hl & Hwf1 & _).
  destruct (state_of_run _ _ _ _
              (any_enqueueStartingNodes_state F X (initNodes s) (fr_new F) []) Hl)
    as [q1 Henq].
  rewrite Henq. cbn [bind fst snd].
  assert (Hloop : AnySet.dijkstra_loop F X fuel (set_min_cost s1 Infinity) q1 <> Fault f).
  { apply any_dijkstra_loop_no_fault.
    - apply (wf_same_nodes s1); try reflexivity. exact Hwf1.
    - apply (walk_inv_same s1); try reflexivity.
      apply (enqueueStartingNodes_walk X _ _ _ _ (walk_inv_initNodes s) Hl).
    - intros x Hx.
      destruct (any_enqueueStartingNodes_finite F X _ _ _ Henq x Hx) as [c Hcost].
      exists c. exact Hcost. }
  destruct (AnySet.dijkstra_loop F X fuel (set_min_cost s1 Infinity) q1); cbn [bind];
    congruence.
Qed.

(** ** More fuel gives the same result *)

Lemma any_dijkstra_loop_more_fuel (fuel fuel' : nat) (s : Search) (q : container F)
    (r : Search * list Candidate) :
  (fuel <= fuel')%nat ->
  AnySet.dijkstra_loop F X fuel s q = Ok r -> AnySet.dijkstra_loop F X fuel' s q = Ok r.
Proof.
  revert fuel' s q r. induction fuel as [|fuel IH]; intros fuel' s q r Hle H.
  - cbn [AnySet.dijkstra_loop] in H.
    destruct (fr_elements F q) eqn:Hq; [|discriminate].
    destruct fuel'; cbn [AnySet.dijkstra_loop]; rewrite Hq; exact H.
  - cbn [AnySet.dijkstra_loop] in H.
    destruct (fr_elements F q) as [|n l] eqn:Hq.
    { destruct fuel'; cbn [AnySet.dijkstra_loop]; rewrite Hq; exact H. }
    destruct fuel' as [|fuel']; [lia|]. cbn [AnySet.dijkstra_loop]. rewrite Hq.
    cbn zeta in *.
    destruct (decide _).
    + apply bind_Ok_inv in H as (s1 & Hgen & H).
      apply bind_Ok_inv in H as (r1 & Hloop & H).
      rewrite (generatePathCandidate_more_fuel X fuel fuel' _ _ _ ltac:(lia) Hgen).
      cbn [bind]. rewrite (IH fuel' _ _ _ ltac:(lia) Hloop). exact H.
    + apply bind_Ok_inv in H as (e & Hexp & H). rewrite Hexp. cbn [bind].
      apply (IH fuel' _ _ _ ltac:(lia) H).
Qed.

Lemma any_performDijkstraSearch_traced_more_fuel (fuel fuel' : nat) (s : Search)
    (r : list PathPose * Search * list Candidate) :
  (fuel <= fuel')%nat ->
  AnySet.performDijkstraSearch_traced F X fuel s = Ok r ->
  AnySet.performDijkstraSearch_traced F X fuel' s = Ok r.
Proof.
  intros Hle H. unfold AnySet.performDijkstraSearch_traced in *.
  apply bind_Ok_inv in H as (e & Henq & H). rewrite Henq. cbn [bind].
  apply bind_Ok_inv in H as (l & Hloop & H).
  rewrite (any_dijkstra_loop_more_fuel _ _ _ _ _ Hle Hloop). exact H.
Qed.

(** With costs on a grid and a well-formed course the search returns. *)
Lemma any_performDijkstraSearch_traced_returns (u : Q) (s : Search) :
  (0 < u)%Q -> costs_on_grid X u s ->
  course_ok (generator_ s) = true -> request_ok s = true ->
  exists fuel r, forall fuel', (fuel <= fuel')%nat ->
    AnySet.performDijkstraSearch_traced F X fuel' s = Ok r.
Proof.
  intros Hu Hcfg Hc Hr.
  destruct (any_performDijkstraSearch_traced_ends F X u Hu s Hcfg) as [fuel Hfuel].
  exists fuel.
  destruct (AnySet.performDijkstraSearch_traced F X fuel s) as [r| |] eqn:Hrun.
  - exists r. intros fuel' Hle.
    apply (any_performDijkstraSearch_traced_more_fuel fuel fuel' _ _ Hle Hrun).
  - exfalso. exact (any_performDijkstraSearch_traced_no_fault fuel s f Hc Hr Hrun).
  - exfalso. exact (Hfuel fuel (Nat.le_refl _) Hrun).
Qed.

End AnyProgress.

(** ** What a general search returns *)

Section AnySearch.

Variable F : Frontier.
Variable X : Extern.

Lemma enqueueStartingNodes_facts (s s1 : Search) (ql1 : list NodePtr) :
  enqueueStartingNodes X (initNodes s) [] = Ok (s1, ql1) ->
  request s1 = request s /\ best_path s1 = best_path s /\
  walk_inv s1 /\ same_identity (initNodes s) s1.
Proof.
  intros Hl.
  pose proof (enqueueStartingNodes_walk X _ _ _ _ (walk_inv_initNodes s) Hl) as Hw.
  assert (Hid : same_identity (initNodes s) s1).
  { unfold enqueueStartingNodes in Hl.
    apply bind_Ok_inv in Hl as (i & _ & Hl).
    apply bind_Ok_inv in Hl as (sg & _ & Hl).
    apply bind_Ok_inv in Hl as ([s0 q0] & Ha & Hb). cbn [fst snd] in Hb.
    eapply same_identity_trans;
      [apply (enqueueStartingNodes_list_identity X _ _ _ _ _ _ _ _ Ha)
      |apply (enqueueStartingNodes_list_identity X _ _ _ _ _ _ _ _ Hb)]. }
  apply enqueueStartingNodes_finite in Hl as [Ho _].
  apply nodes_only_request in Ho as (Hreq & _ & Hb).
  split; [exact Hreq|]. split; [exact Hb|]. split; [exact Hw|exact Hid].
Qed.

(** The facts about a general run that the results below start from. *)
Lemma any_performDijkstraSearch_traced_run (fuel : nat) (s s' : Search)
    (result : list PathPose) (cands : list Candidate) :
  AnySet.performDijkstraSearch_traced F X fuel s = Ok (result, s', cands) ->
  exists s1,
    steps X (set_min_cost s1 Infinity) cands s' /\
    request s1 = request s /\ best_path s1 = best_path s /\
    walk_inv s1 /\ same_identity (initNodes s) s1 /\
    result = combine (start_appendix s) (best_path s') (end_appendix s).
Proof.
  intros H.
  destruct (any_performDijkstraSearch_traced_steps X F _ _ _ _ _ H)
    as (s1 & ql1 & Hl & Hsteps & Hres).
  destruct (enqueueStartingNodes_facts _ _ _ Hl) as (Hreq & Hb & Hw & Hid).
  exists s1. split; [exact Hsteps|]. split; [exact Hreq|]. split; [exact Hb|].
  split; [exact Hw|]. split; [exact Hid|].
  destruct (steps_spec X _ _ _ Hsteps) as (Hreq' & _).
  change (request (set_min_cost s1 Infinity)) with (request s1) in Hreq'.
  rewrite Hreq in Hreq'. unfold request in Hreq'.
  injection Hreq' as _ _ _ _ _ Hsa Hea _ _ _. rewrite Hres, Hsa, Hea. reflexivity.
Qed.

Lemma any_winner (fuel : nat) (s s' : Search)
    (result : list PathPose) (cands : list Candidate) :
  AnySet.performDijkstraSearch_traced F X fuel s = Ok (result, s', cands) ->
  Forall (finished X) cands /\
  (cands = [] -> min_cost s' = Infinity /\ best_path s' = best_path s) /\
  (cands <> [] ->
   exists c, earliest_least cands c /\ min_cost s' = cand_total c /\
             assembled X c (best_path s')).
Proof.
  intros H.
  destruct (any_performDijkstraSearch_traced_run _ _ _ _ _ H)
    as (s1 & Hsteps & _ & Hb & _).
  destruct (steps_spec X _ _ _ Hsteps) as (_ & Hfd & _).
  split; [exact Hfd|].
  destruct (steps_winner X _ _ _ Hsteps) as [(Hall & Hm & Hb')|(c & Hc & _ & Hm & Hb')].
  - cbn [min_cost set_min_cost best_path] in Hall, Hm, Hb'.
    destruct cands as [|c cands].
    + split; [intros _; split; [exact Hm|congruence]|congruence].
    + exfalso. apply Forall_cons in Hall as [Hle _]. apply Forall_cons in Hfd as [Hf _].
      destruct Hf as (_ & sp & add & q & _ & _ & _ & Hq).
      rewrite Hq in Hle. exact Hle.
  - split.
    + intros ->. destruct Hc as (before & after & Hnil & _).
      destruct before; discriminate.
    + intros _. exists c. repeat split; assumption.
Qed.

Lemma earliest_least_elem (cands : list Candidate) (c : Candidate) :
  earliest_least cands c -> c ∈ cands.
Proof.
  intros (before & after & -> & _). apply elem_of_app. right. left.
Qed.

Lemma any_candidate_chain_walk (fuel fuel' : nat) (s s' sm : Search)
    (result : list PathPose) (cands : list Candidate) (c : Candidate) (add : Q)
    (chain : list NodePtr) :
  AnySet.performDijkstraSearch_traced F X fuel s = Ok (result, s', cands) ->
  c ∈ cands ->
  collect_transitions fuel' (accepted_state (cand_before c) (cand_node c) add)
    (Some (cand_node c)) [] = Ok (chain, sm) ->
  (forall a, a ∈ chain -> exists t, transition_at s (Some a) = Ok t) /\
  (exists first, head chain = Some first /\ start_segment s = Some first.1.1) /\
  (forall i a b t, chain !! i = Some a -> chain !! S i = Some b ->
     transition_at s (Some a) = Ok t -> leads_to t a.1.2 = Some b.1.1) /\
  last chain = Some (cand_node c) /\
  (forall t, transition_at s (Some (cand_node c)) = Ok t ->
     leads_to t (cand_node c).1.2 = end_segment s).
Proof.
  intros Hrun Hc Hcoll.
  destruct (any_performDijkstraSearch_traced_run _ _ _ _ _ Hrun)
    as (s1 & Hsteps & Hreq1 & _ & Hw1 & _).
  assert (Hw0 : walk_inv (set_min_cost s1 Infinity))
    by (apply (walk_inv_same s1); try reflexivity; exact Hw1).
  pose proof (steps_walk X _ _ _ Hsteps Hw0) as Hwall.
  destruct (steps_spec X _ _ _ Hsteps) as (_ & Hfd & Hrq).
  rewrite Forall_forall in Hwall, Hfd, Hrq.
  pose proof (Hwall c Hc) as Hw. pose proof (Hfd c Hc) as Hfin.
  pose proof (Hrq c Hc) as Hreq. cbn beta in Hreq.
  change (request (set_min_cost s1 Infinity)) with (request s1) in Hreq.
  rewrite Hreq1 in Hreq.
  set (s0 := cand_before c) in *. set (node := cand_node c) in *.
  unfold request in Hreq. injection Hreq as Hg Hs He _ _ _ _ _ _ _.
  destruct Hfin as (Hend & sp & add' & q & _ & _ & Hq & _).
  fold s0 node in Hend, Hq.
  destruct Hw as [L P R V T].
  apply (collect_transitions_chain (fun v => prev (node_at s0 v)) (finite_cost s0))
    in Hcoll.
  - destruct Hcoll as (l0 & -> & HP & Hlast & (first & Hhead & Hfirst) & Hlink).
    rewrite app_nil_r. rewrite Forall_forall in HP.
    split; [|split; [|split; [|split]]].
    + intros a Ha. rewrite <- (transition_at_course s s0 _ Hg). apply V, HP, Ha.
    + exists first. split; [exact Hhead|]. rewrite <- Hs. apply R; [|exact Hfirst].
      apply HP. rewrite head_lookup in Hhead. apply (list_elem_of_lookup_2 _ _ _ Hhead).
    + intros i a b t Ha Hb Ht. rewrite <- (transition_at_course s s0 _ Hg) in Ht.
      rewrite <- (T a t Ht). apply L. apply (Hlink i a b Ha Hb).
    + exact Hlast.
    + intros t Ht. rewrite <- (transition_at_course s s0 _ Hg) in Ht.
      rewrite <- (T node t Ht), Hend. exact He.
  - intros v p Hv Hp. apply (P v p Hp).
  - intros v. apply accepted_state_field. reflexivity.
  - intros v [= <-]. exists q. exact Hq.
Qed.

(** X4: after a search [min_cost] tells whether a candidate was found,
    whatever the frontier hands out.  It is [+infinity] exactly when no
    node leading to the end segment was taken from the frontier; then
    [best_path] is the one the planner had before the call.  Otherwise it
    is the total cost of a finished candidate, a finite number. *)
Theorem performDijkstraSearch_min_cost_infinite_iff_no_candidate (fuel : nat)
    (s s' : Search) (result : list PathPose) (cands : list Candidate) :
  AnySet.performDijkstraSearch_traced F X fuel s = Ok (result, s', cands) ->
  (cands = [] <-> min_cost s' = Infinity) /\
  (cands = [] -> best_path s' = best_path s) /\
  (cands <> [] -> exists c q, c ∈ cands /\ cand_total c = Finite q /\
                              min_cost s' = Finite q).
Proof.
  intros H. destruct (any_winner _ _ _ _ _ H) as (Hfd & Hnone & Hsome).
  assert (Hfound : cands <> [] -> exists c q, c ∈ cands /\ cand_total c = Finite q /\
                                              min_cost s' = Finite q).
  { intros Hne. destruct (Hsome Hne) as (c & Hc & Hm & _).
    apply earliest_least_elem in Hc. rewrite Forall_forall in Hfd.
    destruct (Hfd c Hc) as (_ & sp & add & q & _ & _ & _ & Hq).
    exists c, (q + add)%Q. split; [exact Hc|]. split; [exact Hq|]. congruence. }
  split; [split|split].
  - intros Hnil. apply Hnone, Hnil.
  - intros Hinf. destruct cands as [|c cands]; [reflexivity|exfalso].
    destruct Hfound as (c' & q & _ & _ & Hm); congruence.
  - intros Hnil. apply Hnone, Hnil.
  - exact Hfound.
Qed.

(** X7: the chain of a candidate is a walk through the course from the
    start segment to the end segment, whatever the frontier hands out.  For
    every candidate of a search, the chain of predecessors that
    [generatePathCandidate] collects for path assembly consists of
    transitions of the course; the first leaves the start segment, each one
    leads to the segment that the next one leaves, and the last one, the
    transition of the candidate, leads to the end segment. *)
Theorem candidate_chain_walks_the_course (fuel fuel' : nat) (s s' sm : Search)
    (result : list PathPose) (cands : list Candidate) (c : Candidate) (add : Q)
    (chain : list NodePtr) :
  AnySet.performDijkstraSearch_traced F X fuel s = Ok (result, s', cands) ->
  c ∈ cands ->
  collect_transitions fuel' (accepted_state (cand_before c) (cand_node c) add)
    (Some (cand_node c)) [] = Ok (chain, sm) ->
  (forall a, a ∈ chain -> exists t, transition_at s (Some a) = Ok t) /\
  (exists first, head chain = Some first /\ start_segment s = Some first.1.1) /\
  (forall i a b t, chain !! i = Some a -> chain !! S i = Some b ->
     transition_at s (Some a) = Ok t -> leads_to t a.1.2 = Some b.1.1) /\
  last chain = Some (cand_node c) /\
  (forall t, transition_at s (Some (cand_node c)) = Ok t ->
     leads_to t (cand_node c).1.2 = end_segment s).
Proof. apply any_candidate_chain_walk. Qed.

(** X19: the path of a search that found a candidate, whatever the frontier
    hands out.  When at least one candidate was finished,
    [performDijkstraSearch] returns the start appendix, a pose at the start
    point headed along the start segment, then, for the earliest candidate
    of least total cost and every transition of the chain of predecessors
    collected for it, in order, the poses that [insertCurveSegment] makes of
    its polyline in the direction of travel, with at most one pose before
    and at most one after them, then a pose at the end point headed along
    the end segment, and the end appendix. *)
Theorem performDijkstraSearch_path_found (fuel : nat) (s s' : Search)
    (result : list PathPose) (cands : list Candidate) :
  AnySet.performDijkstraSearch_traced F X fuel s = Ok (result, s', cands) ->
  cands <> [] ->
  exists c fuel' add chain sm sg_start sg_end mid,
    earliest_least cands c /\ min_cost s' = cand_total c /\
    collect_transitions fuel' (accepted_state (cand_before c) (cand_node c) add)
      (Some (cand_node c)) [] = Ok (chain, sm) /\
    segment_at s (start_segment s) = Ok sg_start /\
    segment_at s (end_segment s) = Ok sg_end /\
    walk_rendered X s chain mid /\
    let d_start := vsub (endPoint (line sg_start)) (startPoint (line sg_start)) in
    let d_end := vsub (endPoint (line sg_end)) (startPoint (line sg_end)) in
    result =
      start_appendix s ++
      [mkPose (start_pt s).1 (start_pt s).2 (atan2 X d_start.2 d_start.1)] ++
      mid ++
      [mkPose (end_pt s).1 (end_pt s).2 (atan2 X d_end.2 d_end.1)] ++
      end_appendix s.
Proof.
  intros Hrun Hne.
  destruct (any_winner _ _ _ _ _ Hrun) as (_ & _ & Hsome).
  destruct (Hsome Hne) as (c & Hel & Hmin & Hasm).
  pose proof (earliest_least_elem _ _ Hel) as Hc.
  destruct Hasm as (fuel' & sp & add & chain & sm & _ & _ & Hcoll & Hgen).
  destruct (any_candidate_chain_walk _ _ _ _ _ _ _ _ _ _ Hrun Hc Hcoll)
    as (Hvalid & _ & _ & _ & _).
  destruct (any_performDijkstraSearch_traced_run _ _ _ _ _ Hrun)
    as (s1 & Hsteps & Hreq1 & _ & _ & Hid1 & Hres).
  destruct (steps_spec X _ _ _ Hsteps) as (_ & _ & Hrq).
  pose proof (steps_identity X _ _ _ Hsteps) as Hids.
  rewrite Forall_forall in Hrq, Hids.
  pose proof (Hrq c Hc) as Hreq. cbn beta in Hreq.
  change (request (set_min_cost s1 Infinity)) with (request s1) in Hreq.
  rewrite Hreq1 in Hreq.
  pose proof (Hids c Hc) as Hid. cbn beta in Hid.
  destruct (collect_transitions_frame _ _ _ _ _ _ Hcoll) as [Ho Hnext].
  apply nodes_only_request in Ho as [Hreq' _].
  change (request (accepted_state (cand_before c) (cand_node c) add))
    with (request (cand_before c)) in Hreq'.
  rewrite Hreq in Hreq'. unfold request in Hreq'.
  injection Hreq' as Hg Hss Hes Hsp Hep _ _ _ _ _.
  destruct (generatePath_shape X _ _ _ _ Hgen)
    as (sg1 & sg2 & mid & Hsg1 & Hsg2 & Hmid & Hp).
  cbn zeta in Hp. rewrite Hsp, Hep in Hp. cbn [app] in Hp.
  exists c, fuel', add, chain, sm, sg1, sg2, mid.
  split; [exact Hel|]. split; [exact Hmin|]. split; [exact Hcoll|].
  split; [rewrite <- Hss; unfold segment_at in *; rewrite <- Hg; exact Hsg1|].
  split; [rewrite <- Hes; unfold segment_at in *; rewrite <- Hg; exact Hsg2|].
  split.
  - apply (rendered_walk_rendered X s sm chain mid Hg); [|exact Hmid].
    intros k Hk. destruct (Hvalid k Hk) as [t Ht].
    assert (H0 : node_at (initNodes s) k = initial_node k t).
    { unfold node_at. rewrite lookup_total_alt, initNodes_lookup, Ht. reflexivity. }
    destruct (Hid k) as (A & B & _). destruct (Hid1 k) as (A1 & B1 & _).
    change (node_at (set_min_cost s1 Infinity) k) with (node_at s1 k) in A, B.
    pose proof (f_equal transition (Hnext k)) as A'.
    pose proof (f_equal curve_forward (Hnext k)) as B'.
    cbn [transition curve_forward set_next] in A', B'.
    rewrite (accepted_state_field transition) in A' by reflexivity.
    rewrite (accepted_state_field curve_forward) in B' by reflexivity.
    rewrite A', A, A1, B', B, B1, H0. split; reflexivity.
  - cbn zeta. rewrite Hres, combine_app, Hp. cbn [app].
    rewrite <- !app_assoc. reflexivity.
Qed.

(** X20: a search ends on every course, whatever the frontier hands out.
    With lengths, penalised lengths and penalties that are multiples of a
    positive unit, [performDijkstraSearch] comes to an end on every course,
    well formed or not: from some amount of fuel on it returns or it
    faults. *)
Theorem performDijkstraSearch_ends (u : Q) (s : Search) :
  (0 < u)%Q -> costs_on_grid X u s ->
  exists fuel, forall fuel', (fuel <= fuel')%nat ->
    (exists r, AnySet.performDijkstraSearch F X fuel' s = Ok r) \/
    (exists f, AnySet.performDijkstraSearch F X fuel' s = Fault f).
Proof.
  intros Hu Hcfg.
  destruct (any_performDijkstraSearch_traced_ends F X u Hu s Hcfg) as [fuel Hfuel].
  exists fuel. intros fuel' Hle. specialize (Hfuel fuel' Hle).
  unfold AnySet.performDijkstraSearch.
  destruct (AnySet.performDijkstraSearch_traced F X fuel' s) as [r|f|].
  - left. eexists. reflexivity.
  - right. exists f. reflexivity.
  - congruence.
Qed.

(** X21: the earliest candidate of least total cost wins, whatever the
    frontier hands out.  When candidates were finished, the best path that
    [performDijkstraSearch] returns between the appendices is the path
    assembled for the candidate that is strictly cheaper than every
    candidate finished before it and at most as expensive as every
    candidate finished after it: a later candidate of equal total cost does
    not replace the best path. *)
Theorem performDijkstraSearch_earliest_least_candidate (fuel : nat) (s s' : Search)
    (result : list PathPose) (cands : list Candidate) :
  AnySet.performDijkstraSearch_traced F X fuel s = Ok (result, s', cands) ->
  cands <> [] ->
  exists c, earliest_least cands c /\ min_cost s' = cand_total c /\
            assembled X c (best_path s').
Proof.
  intros Hrun Hne. destruct (any_winner _ _ _ _ _ Hrun) as (_ & _ & Hsome).
  apply Hsome, Hne.
Qed.

(** X25: on a well-formed course the search returns the path of the best
    candidate, whatever the frontier hands out.  When every transition has
    a polyline with at least one point and joins two segments of the
    course, the start and end segments are segments of the course, and the
    lengths, penalised lengths and penalties are multiples of a positive
    unit, [performDijkstraSearch] returns: from some amount of fuel on, the
    result is the same.  It is the start appendix, the best path and the end
    appendix, combined.  Every candidate has a finite total, the cost of its
    node when it was taken from the frontier plus the straight cost to the
    end point.  When no candidate was finished the best path is the one the
    planner held; otherwise it is the path assembled for the earliest
    candidate of least total, and [min_cost] is that total. *)
Theorem performDijkstraSearch_returns_best_candidate (u : Q) (s : Search) :
  (0 < u)%Q -> costs_on_grid X u s ->
  course_ok (generator_ s) = true -> request_ok s = true ->
  exists fuel result s' cands,
    (forall fuel', (fuel <= fuel')%nat ->
       AnySet.performDijkstraSearch_traced F X fuel' s = Ok (result, s', cands) /\
       AnySet.performDijkstraSearch F X fuel' s = Ok (result, s')) /\
    result = combine (start_appendix s) (best_path s') (end_appendix s) /\
    Forall (finished X) cands /\
    (cands = [] -> min_cost s' = Infinity /\ best_path s' = best_path s) /\
    (cands <> [] ->
     exists c, earliest_least cands c /\ min_cost s' = cand_total c /\
               assembled X c (best_path s')).
Proof.
  intros Hu Hcfg Hc Hr.
  destruct (any_performDijkstraSearch_traced_returns F X u s Hu Hcfg Hc Hr)
    as (fuel & [[result s'] cands] & Hrun).
  exists fuel, result, s', cands.
  split.
  { intros fuel' Hle. split; [apply Hrun, Hle|].
    unfold AnySet.performDijkstraSearch. rewrite (Hrun fuel' Hle). reflexivity. }
  pose proof (Hrun fuel (Nat.le_refl _)) as H0.
  destruct (any_performDijkstraSearch_traced_run _ _ _ _ _ H0)
    as (_ & _ & _ & _ & _ & _ & Hres).
  split; [exact Hres|]. apply (any_winner _ _ _ _ _ H0).
Qed.

(** X26: on a well-formed course a search never faults, whatever the
    frontier hands out.  When every transition has a polyline with at least
    one point and joins two segments of the course, and the start and end
    segments are segments of the course, [performDijkstraSearch]
    dereferences no null or dangling pointer, takes [front] or [back] of no
    empty vector and calls [at] with no missing key: it returns, or it is
    still running when the fuel is used up. *)
Theorem performDijkstraSearch_no_fault_any_frontier (fuel : nat) (s : Search) :
  course_ok (generator_ s) = true -> request_ok s = true ->
  AnySet.performDijkstraSearch F X fuel s = OutOfFuel \/
  exists r, AnySet.performDijkstraSearch F X fuel s = Ok r.
Proof.
  intros Hc Hr. unfold AnySet.performDijkstraSearch.
  destruct (AnySet.performDijkstraSearch_traced F X fuel s) as [r|f|] eqn:Hrun.
  - right. eexists. reflexivity.
  - exfalso. exact (any_performDijkstraSearch_traced_no_fault F X fuel s f Hc Hr Hrun).
  - left. reflexivity.
Qed.

End AnySearch.

(** * Concrete runs for the further properties *)

Module Runs.

(** Four rows.  Row 0 runs from (0,0) to (20,0), row 1 from (0,1) to (20,1),
    row 2 from (0,5) to (20,5), row 3 from (0,3) to (20,3).  Curve [a]
    leaves row 0 at (4,0) for row 1, curve [b] leaves row 0 at (6,0) for
    row 2, curve [c] leaves row 1 at (5,1) for row 3. *)
Definition a : Transition :=
  {| source := Some 0; target := Some 1; path := [(4%Q, 0%Q); (4%Q, 1%Q)] |}.
Definition b : Transition :=
  {| source := Some 0; target := Some 2; path := [(6%Q, 0%Q); (6%Q, 5%Q)] |}.
Definition c : Transition :=
  {| source := Some 1; target := Some 3; path := [(5%Q, 1%Q); (5%Q, 3%Q)] |}.

Definition rows : list Segment :=
  [ {| line := {| startPoint := (0%Q, 0%Q); endPoint := (20%Q, 0%Q) |};
       forward_transitions := [a; b]; backward_transitions := [] |};
    {| line := {| startPoint := (0%Q, 1%Q); endPoint := (20%Q, 1%Q) |};
       forward_transitions := [c]; backward_transitions := [] |};
    {| line := {| startPoint := (0%Q, 5%Q); endPoint := (20%Q, 5%Q) |};
       forward_transitions := []; backward_transitions := [] |};
    {| line := {| startPoint := (0%Q, 3%Q); endPoint := (20%Q, 3%Q) |};
       forward_transitions := []; backward_transitions := [] |} ].

(** A request from (2,0) on row 0 to (9,3) on row 3. *)
Definition request : Search := Demo.located rows 3 (9%Q, 3%Q).

(** The planner and the frontier once the frontier is seeded: the node of
    [a] with cost 2, the node of [b] with cost 4. *)
Definition seeded : Search * list NodePtr :=
  match enqueueStartingNodes Demo.env (initNodes request) [] with
  | Ok r => r
  | _ => (request, [])
  end.

(** The node of [a] is taken from the frontier and the node of [c] is
    relaxed from it: its new cost is 2 + 1 + 1. *)
Definition relaxed : Search * list NodePtr :=
  match relax Demo.env seeded.1 [(0%nat, true, 1%nat)] (0%nat, true, 0%nat)
          (1%nat, true, 0%nat) with
  | Ok r => r
  | _ => seeded
  end.

(** The whole search. *)
Definition searched : list PathPose * Search * list Candidate :=
  match performDijkstraSearch_traced Demo.env 4 request with
  | Ok r => r
  | _ => ([], request, [])
  end.

Definition candidate : Candidate :=
  match searched.2 with
  | x :: _ => x
  | [] => {| cand_node := (0%nat, true, 0%nat); cand_before := request;
             cand_after := request |}
  end.

(** The chain collected for the candidate and the path assembled from it. *)
Definition collected : list NodePtr * Search :=
  match collect_transitions 4
          (accepted_state (cand_before candidate) (cand_node candidate) 4)
          (Some (cand_node candidate)) [] with
  | Ok r => r
  | _ => ([], request)
  end.

Definition assembled_path : list PathPose :=
  match generatePath Demo.env collected.2 collected.1 [] with
  | Ok r => r
  | _ => []
  end.

(** A course whose only transition has no polyline point. *)
Definition stub : list Segment :=
  [ {| line := {| startPoint := (0%Q, 0%Q); endPoint := (20%Q, 0%Q) |};
       forward_transitions :=
         [ {| source := Some 0; target := Some 0; path := [] |} ];
       backward_transitions := [] |} ].

(** An occupancy grid of the size of [Demo.map] with another resolution,
    origin and rotation, and one of a single cell that carries two
    values. *)
Definition finer_map : OccupancyGrid :=
  {| info_width := 4; info_height := 4; info_resolution := 1 # 2;
     info_origin_position := (1%Q, 1%Q); info_origin_yaw := 1;
     data := replicate 16 99%Z |}.

Definition long_map : OccupancyGrid :=
  {| info_width := 1; info_height := 1; info_resolution := 1;
     info_origin_position := (0%Q, 0%Q); info_origin_yaw := 0;
     data := [0%Z; 0%Z] |}.

(** A grid of 65536 by 65536 places, for which [w * h] on [unsigned]
    values is 0, that carries one value. *)
Definition wrapped_map : OccupancyGrid :=
  {| info_width := Z.to_nat 65536; info_height := Z.to_nat 65536;
     info_resolution := 1;
     info_origin_position := (0%Q, 0%Q); info_origin_yaw := 0;
     data := [0%Z] |}.

(** Two rows joined by two curves of equal total cost for a request from
    (2,0) to (14,5): one leaves row 0 at (4,0), the other at (6,0); both
    go straight up to row 1. *)
Definition late : Transition :=
  {| source := Some 0; target := Some 1; path := [(6%Q, 0%Q); (6%Q, 5%Q)] |}.

Definition level : list Segment :=
  [ {| line := {| startPoint := (0%Q, 0%Q); endPoint := (20%Q, 0%Q) |};
       forward_transitions := [Demo.curveA; late]; backward_transitions := [] |};
    {| line := {| startPoint := (0%Q, 5%Q); endPoint := (20%Q, 5%Q) |};
       forward_transitions := []; backward_transitions := [] |} ].

Definition levelled : list PathPose * Search * list Candidate :=
  match performDijkstraSearch_traced Demo.env 3
          (Demo.located level 1 (14%Q, 5%Q)) with
  | Ok r => r
  | _ => ([], Demo.planner level, [])
  end.

(** The planner and the frontier of [Demo.fork] once the frontier is
    seeded for a request from (2,0) to (15,5): both curves leave row 0 at
    (10,0), with cost 8. *)
Definition forked : Search * list NodePtr :=
  match enqueueStartingNodes Demo.env
          (initNodes (Demo.located Demo.fork 1 (15%Q, 5%Q))) [] with
  | Ok r => r
  | _ => (Demo.planner Demo.fork, [])
  end.

End Runs.

Lemma runs_searched :
  performDijkstraSearch_traced Demo.env 4 Runs.request =
    Ok (Runs.searched.1.1, Runs.searched.1.2, Runs.searched.2).
Proof. vm_compute. reflexivity. Qed.

Lemma runs_candidate : Runs.candidate ∈ Runs.searched.2.
Proof.
  apply (list_elem_of_lookup_2 _ 0%nat). vm_compute. reflexivity.
Qed.

Lemma runs_collected :
  collect_transitions 4
    (accepted_state (cand_before Runs.candidate) (cand_node Runs.candidate) 4)
    (Some (cand_node Runs.candidate)) [] =
    Ok (Runs.collected.1, Runs.collected.2).
Proof. vm_compute. reflexivity. Qed.

Lemma runs_values :
  map cand_node Runs.searched.2 = [(1%nat, true, 0%nat)] /\
  map cand_total Runs.searched.2 = [Finite 8] /\
  Runs.collected.1 = [(0%nat, true, 0%nat); (1%nat, true, 0%nat)] /\
  Runs.seeded.2 = [(0%nat, true, 0%nat); (0%nat, true, 1%nat)] /\
  Runs.relaxed.2 = [(1%nat, true, 0%nat)] /\
  Runs.searched.1.1 =
    [mkPose 2 0 0; mkPose 2 0 0;
     mkPose 4 1 (314159265358979 # 200000000000000);
     mkPose 5 3 (314159265358979 # 200000000000000);
     mkPose 9 3 0; mkPose 9 3 0].
Proof. vm_compute. repeat split; reflexivity. Qed.

(** The same runs with the sequence as the container.  In these runs, and
    in the run on [Demo.detour], no node is relaxed while it is in the
    frontier. *)
Lemma runs_searched_any :
  AnySet.performDijkstraSearch_traced list_frontier Demo.env 4 Runs.request =
    Ok (Runs.searched.1.1, Runs.searched.1.2, Runs.searched.2).
Proof. rewrite performDijkstraSearch_traced_list_frontier. exact runs_searched. Qed.

Lemma runs_levelled_any :
  AnySet.performDijkstraSearch_traced list_frontier Demo.env 3
    (Demo.located Runs.level 1 (14%Q, 5%Q)) =
    Ok (Runs.levelled.1.1, Runs.levelled.1.2, Runs.levelled.2).
Proof.
  rewrite performDijkstraSearch_traced_list_frontier. vm_compute. reflexivity.
Qed.

(** The closest-segment lookup of [Demo] returns a segment of the course. *)
Lemma demo_findClosestSegment_from_range (segments : list Segment) :
  forall (i k : nat) (pose : PathPose) (max_angle max_dist : Q),
    Demo.findClosestSegment_from i segments pose max_angle max_dist = Some k ->
    (i <= k < i + length segments)%nat.
Proof.
  induction segments as [|sg rest IH]; intros i k pose max_angle max_dist H;
    [discriminate|].
  cbn [Demo.findClosestSegment_from] in H. cbn zeta in H.
  destruct (_ && _).
  - injection H as <-. cbn [length]. lia.
  - apply IH in H. cbn [length]. lia.
Qed.

(** X3 on the course of four rows: the search leaves the course and the
    request as they were. *)
Lemma performDijkstraSearch_assigns_nodes_min_cost_best_path_witness :
  performDijkstraSearch Demo.env 4 Runs.request =
    Ok (Runs.searched.1.1, Runs.searched.1.2) /\
  generator_ Runs.searched.1.2 = generator_ Runs.request /\
  start_appendix Runs.searched.1.2 = start_appendix Runs.request.
Proof.
  assert (H : performDijkstraSearch Demo.env 4 Runs.request =
              Ok (Runs.searched.1.1, Runs.searched.1.2))
    by (vm_compute; reflexivity).
  destruct (performDijkstraSearch_assigns_nodes_min_cost_best_path Demo.env 4
              Runs.request Runs.searched.1.2 Runs.searched.1.1 H)
    as (Hg & _ & _ & _ & _ & _ & _ & _ & _ & _ & _ & _ & Ha & _).
  split; [exact H|]. split; assumption.
Defined.

(** X4 on the course of four rows, with the sequence as the container: one
    candidate, a finite [min_cost]. *)
Lemma performDijkstraSearch_min_cost_infinite_iff_no_candidate_witness :
  AnySet.performDijkstraSearch_traced list_frontier Demo.env 4 Runs.request =
    Ok (Runs.searched.1.1, Runs.searched.1.2, Runs.searched.2) /\
  (Runs.searched.2 = [] <-> min_cost Runs.searched.1.2 = Infinity) /\
  min_cost Runs.searched.1.2 = Finite 8.
Proof.
  destruct (performDijkstraSearch_min_cost_infinite_iff_no_candidate list_frontier
              Demo.env 4 Runs.request Runs.searched.1.2 Runs.searched.1.1
              Runs.searched.2 runs_searched_any) as (Hiff & _ & _).
  split; [exact runs_searched_any|]. split; [exact Hiff|]. vm_compute. reflexivity.
Defined.

(** X5 on the course of four rows. *)
Lemma performDijkstraSearch_well_formed_no_fault_witness :
  course_ok (generator_ Runs.request) = true /\
  request_ok Runs.request = true /\
  (performDijkstraSearch Demo.env 1 Runs.request = OutOfFuel \/
   exists r, performDijkstraSearch Demo.env 1 Runs.request = Ok r).
Proof.
  split; [reflexivity|]. split; [reflexivity|].
  apply performDijkstraSearch_well_formed_no_fault; reflexivity.
Defined.

(** X6 on the course whose transition has no polyline point. *)
Lemma performDijkstraSearch_empty_polyline_faults_witness :
  exists f, performDijkstraSearch Demo.env 3 (Demo.located Runs.stub 0 (5%Q, 0%Q))
            = Fault f.
Proof.
  apply (performDijkstraSearch_empty_polyline_faults Demo.env 3
           (Demo.located Runs.stub 0 (5%Q, 0%Q)) 0%nat
           {| line := {| startPoint := (0%Q, 0%Q); endPoint := (20%Q, 0%Q) |};
              forward_transitions :=
                [ {| source := Some 0%nat; target := Some 0%nat; path := [] |} ];
              backward_transitions := [] |}
           true 0%nat {| source := Some 0%nat; target := Some 0%nat; path := [] |});
    reflexivity.
Defined.

(** X7 on the course of four rows, with the sequence as the container: the
    chain of the candidate is the curve from row 0 to row 1, then the curve
    from row 1 to row 3. *)
Lemma candidate_chain_walks_the_course_witness :
  Runs.collected.1 = [(0%nat, true, 0%nat); (1%nat, true, 0%nat)] /\
  (exists first, head Runs.collected.1 = Some first /\
                 start_segment Runs.request = Some first.1.1) /\
  last Runs.collected.1 = Some (cand_node Runs.candidate) /\
  (forall t, transition_at Runs.request (Some (cand_node Runs.candidate)) = Ok t ->
     leads_to t (cand_node Runs.candidate).1.2 = end_segment Runs.request).
Proof.
  destruct (candidate_chain_walks_the_course list_frontier Demo.env 4 4 Runs.request
              Runs.searched.1.2 Runs.collected.2 Runs.searched.1.1 Runs.searched.2
              Runs.candidate 4 Runs.collected.1
              runs_searched_any runs_candidate runs_collected)
    as (_ & Hfirst & _ & Hlast & Hend).
  split; [vm_compute; reflexivity|]. split; [exact Hfirst|]. split; assumption.
Defined.

(** X8 on the course of four rows. *)
Lemma generatePath_start_curves_end_witness :
  generatePath Demo.env Runs.collected.2 Runs.collected.1 [] = Ok Runs.assembled_path /\
  Runs.assembled_path =
    [mkPose 2 0 0;
     mkPose 4 1 (314159265358979 # 200000000000000);
     mkPose 5 3 (314159265358979 # 200000000000000);
     mkPose 9 3 0] /\
  exists sg_start sg_end mid,
    segment_at Runs.collected.2 (start_segment Runs.collected.2) = Ok sg_start /\
    segment_at Runs.collected.2 (end_segment Runs.collected.2) = Ok sg_end /\
    rendered Demo.env Runs.collected.2 Runs.collected.1 mid /\
    Runs.assembled_path =
      [] ++
      [mkPose (start_pt Runs.collected.2).1 (start_pt Runs.collected.2).2
         (atan2 Demo.env
            (vsub (endPoint (line sg_start)) (startPoint (line sg_start))).2
            (vsub (endPoint (line sg_start)) (startPoint (line sg_start))).1)] ++
      mid ++
      [mkPose (end_pt Runs.collected.2).1 (end_pt Runs.collected.2).2
         (atan2 Demo.env
            (vsub (endPoint (line sg_end)) (startPoint (line sg_end))).2
            (vsub (endPoint (line sg_end)) (startPoint (line sg_end))).1)].
Proof.
  assert (H : generatePath Demo.env Runs.collected.2 Runs.collected.1 [] =
              Ok Runs.assembled_path) by (vm_compute; reflexivity).
  split; [exact H|]. split; [vm_compute; reflexivity|].
  exact (generatePath_start_curves_end Demo.env _ _ _ _ H).
Defined.

(** X9 on the course of [Demo]: the straight cost of 8 for a distance
    of 8. *)
Lemma calculateStraightCost_bounds_witness :
  calculateStraightCost Demo.env Demo.ready (0%nat, true, 0%nat) (2%Q, 0%Q) (10%Q, 0%Q)
    = Ok 8%Q /\
  (norm Demo.env (vsub (10%Q, 0%Q) (2%Q, 0%Q)) <= 8)%Q /\
  (8 <= backward_penalty_factor Demo.ready *
          norm Demo.env (vsub (10%Q, 0%Q) (2%Q, 0%Q))
        + 2 * (turning_straight_segment Demo.ready + turning_penalty Demo.ready))%Q.
Proof.
  assert (H : calculateStraightCost Demo.env Demo.ready (0%nat, true, 0%nat)
                (2%Q, 0%Q) (10%Q, 0%Q) = Ok 8%Q) by (vm_compute; reflexivity).
  split; [exact H|].
  apply (calculateStraightCost_bounds Demo.env Demo.ready (0%nat, true, 0%nat)
           (2%Q, 0%Q) (10%Q, 0%Q) 8%Q);
    [apply Qle_bool_iff; vm_compute; reflexivity ..|exact H].
Defined.

(** X10 on the free grid of [Demo]: every cell holds 1. *)
Lemma initMaps_cells_witness :
  initMaps (Demo.planner Demo.course) Demo.map = Ok Demo.mapped /\
  exists mi,
    map_info Demo.mapped = Some mi /\
    length (gm_data mi) = 16%nat /\
    gm_data mi !! 5%nat = Some 1%Z.
Proof.
  assert (H : initMaps (Demo.planner Demo.course) Demo.map = Ok Demo.mapped)
    by (vm_compute; reflexivity).
  split; [exact H|].
  destruct (initMaps_cells _ _ _ H)
    as (mi & Hmi & _ & _ & _ & _ & Hlen & Hcells & _).
  exists mi. split; [exact Hmi|]. split; [exact Hlen|].
  apply (Hcells 5%nat). apply Nat.ltb_lt. vm_compute. reflexivity.
Defined.

(** X11 on a grid of one cell that carries two values, on a grid of 65536
    by 65536 places that carries one value, and on the grid of [Demo]. *)
Lemma initMaps_data_too_long_witness :
  initMaps (Demo.planner Demo.course) Runs.long_map = Fault OutOfRange /\
  initMaps (Demo.planner Demo.course) Runs.wrapped_map = Fault OutOfRange /\
  exists s', initMaps (Demo.planner Demo.course) Demo.map = Ok s'.
Proof.
  split; [|split].
  - apply (initMaps_data_too_long (Demo.planner Demo.course) Runs.long_map).
    + apply Nat.ltb_lt. vm_compute. reflexivity.
    + apply Z.leb_le. vm_compute. reflexivity.
  - apply (initMaps_data_too_long (Demo.planner Demo.course) Runs.wrapped_map).
    + apply Nat.ltb_lt. vm_compute. reflexivity.
    + apply Z.leb_le. vm_compute. reflexivity.
  - apply (initMaps_data_too_long (Demo.planner Demo.course) Demo.map).
    + apply Nat.leb_le. vm_compute. reflexivity.
    + apply Z.leb_le. vm_compute. reflexivity.
Defined.

(** X12: the planner holds the map made for [Demo.map], of resolution 1;
    the new grid has the same size and resolution 1/2. *)
Lemma initMaps_reuses_map_of_same_size_witness :
  exists old s' mi,
    map_info Demo.mapped = Some old /\
    initMaps Demo.mapped Runs.finer_map = Ok s' /\
    map_info s' = Some mi /\
    gm_resolution mi = 1%Q /\ gm_rotation mi = 0%Q /\
    gm_origin mi = (1%Q, 1%Q).
Proof.
  destruct (map_info Demo.mapped) as [old|] eqn:Hold; [|vm_compute in Hold; discriminate].
  destruct (initMaps Demo.mapped Runs.finer_map) as [s'| |] eqn:H;
    try (vm_compute in H; discriminate).
  destruct (initMaps_reuses_map_of_same_size Demo.mapped s' Runs.finer_map old Hold)
    as (mi & Hmi & Hrot & Hres & _ & Horg);
    [vm_compute in Hold; injection Hold as <-; reflexivity ..|exact H|].
  exists old, s', mi. split; [reflexivity|]. split; [reflexivity|].
  split; [exact Hmi|].
  vm_compute in Hold. injection Hold as <-.
  split; [exact Hres|]. split; [exact Hrot|exact Horg].
Defined.

(** X14 on the request of [Demo] from (2,0) to (5,0): both poses are
    their own appendix and lie on row 0. *)
Lemma findAppendices_success_witness :
  findAppendices Demo.env Demo.mapped Demo.map (mkPose 2 0 0) (mkPose 5 0 0) =
    Ok (true, Demo.same_row) /\
  start_appendix Demo.same_row = [mkPose 2 0 0] /\
  end_appendix Demo.same_row = [mkPose 5 0 0] /\
  exists a_end first_end i_end sg_end,
    end_appendix Demo.same_row = rev a_end /\
    head (rev a_end) = Some first_end /\
    end_segment Demo.same_row = Some i_end /\
    generator_ Demo.mapped !! i_end = Some sg_end /\
    end_pt Demo.same_row = nearestPointTo Demo.env (line sg_end) (pos_ first_end).
Proof.
  assert (H : findAppendices Demo.env Demo.mapped Demo.map (mkPose 2 0 0) (mkPose 5 0 0)
              = Ok (true, Demo.same_row)) by (vm_compute; reflexivity).
  split; [exact H|]. split; [vm_compute; reflexivity|].
  split; [vm_compute; reflexivity|].
  destruct (findAppendices_success Demo.env _ _ _ _ _ H)
    as (a_start & a_end & last_start & first_end & i_start & i_end & sg_start & sg_end
        & _ & _ & _ & Hea & _ & Hhead & _ & _ & _ & Hes & _ & Hsg & _ & Hep & _).
  exists a_end, first_end, i_end, sg_end. repeat split; assumption.
Defined.

(** X15 on the request of [Demo] from (2,0) on row 0 to (15,5) on row 1:
    the two segments differ, and the search is run. *)
Lemma findPath_no_fault_witness :
  (exists s2,
     findAppendices Demo.env Demo.mapped Demo.map (mkPose 2 0 0) (mkPose 15 5 0) =
       Ok (true, s2) /\
     start_segment s2 = Some 0%nat /\ end_segment s2 = Some 1%nat) /\
  (r <- findPath Demo.env 10 (Demo.planner Demo.course)
          (mkPose 2 0 0) (mkPose 15 5 0) ;;
   Ok r.1) =
    Ok [mkPose 2 0 0;
        mkPose 2 0 0; mkPose 10 5 (314159265358979 # 200000000000000);
        mkPose 15 5 0;
        mkPose 15 5 0] /\
  (findPath Demo.env 10 (Demo.planner Demo.course) (mkPose 2 0 0) (mkPose 15 5 0)
     = OutOfFuel \/
   exists r,
     findPath Demo.env 10 (Demo.planner Demo.course) (mkPose 2 0 0) (mkPose 15 5 0)
       = Ok r).
Proof.
  split; [eexists; vm_compute; repeat split; reflexivity|].
  split; [vm_compute; reflexivity|].
  apply findPath_no_fault.
  - intros map [= <-]. split; [apply Nat.leb_le|apply Z.leb_le]; vm_compute; reflexivity.
  - reflexivity.
  - intros pose i H.
    apply (demo_findClosestSegment_from_range _ 0%nat i pose _ _ H).
  - intros map s1 a p [= <-] Hinit Ha Hp.
    vm_compute in Hinit. injection Hinit as <-.
    destruct Ha as [Ha|Ha]; vm_compute in Ha; injection Ha as <-;
      vm_compute in Hp; injection Hp as <-; vm_compute; eexists; reflexivity.
Defined.

(** X16 on the course of four rows, for the curve from row 1 to row 3. *)
Lemma performDijkstraSearch_keeps_node_identity_witness :
  transition_at Runs.request (Some (1%nat, true, 0%nat)) = Ok Runs.c /\
  Forall (fun s0 =>
            transition (node_at s0 (1%nat, true, 0%nat)) = Some (1%nat, true, 0%nat) /\
            curve_forward (node_at s0 (1%nat, true, 0%nat)) = true /\
            next_segment (node_at s0 (1%nat, true, 0%nat)) = Some 3%nat)
    (Runs.searched.1.2 :: map cand_before Runs.searched.2).
Proof.
  split; [reflexivity|].
  exact (performDijkstraSearch_keeps_node_identity Demo.env 4 Runs.request
           Runs.searched.1.2 Runs.searched.1.1 Runs.searched.2
           (1%nat, true, 0%nat) Runs.c runs_searched eq_refl).
Defined.

(** X17 on the course of four rows.  The frontier holds the node of curve
    [b] with cost 4 when the node of curve [c] is relaxed to cost 4: the
    node of [b] is evicted. *)
Lemma relax_evicts_node_of_equal_cost_witness :
  relax Demo.env Runs.seeded.1 [(0%nat, true, 1%nat)] (0%nat, true, 0%nat)
    (1%nat, true, 0%nat) = Ok (Runs.relaxed.1, Runs.relaxed.2) /\
  cost (node_at Runs.seeded.1 (0%nat, true, 1%nat)) = Finite 4 /\
  cost (node_at Runs.relaxed.1 (1%nat, true, 0%nat)) = Finite 4 /\
  ((0%nat, true, 1%nat) ∉ Runs.relaxed.2) /\
  (1%nat, true, 0%nat) ∈ Runs.relaxed.2.
Proof.
  assert (H : relax Demo.env Runs.seeded.1 [(0%nat, true, 1%nat)] (0%nat, true, 0%nat)
                (1%nat, true, 0%nat) = Ok (Runs.relaxed.1, Runs.relaxed.2))
    by (vm_compute; reflexivity).
  destruct (relax_evicts_node_of_equal_cost Demo.env _ _ _ _ _ _ (0%nat, true, 1%nat) H)
    as (Hout & Hin & _).
  - vm_compute. reflexivity.
  - split; [|exact I]. intros x Hx. apply elem_of_nil in Hx. contradiction.
  - intros Hx. apply list_elem_of_singleton in Hx. discriminate.
  - apply list_elem_of_singleton. reflexivity.
  - vm_compute. reflexivity.
  - vm_compute. reflexivity.
  - split; [exact H|]. split; [vm_compute; reflexivity|].
    split; [vm_compute; reflexivity|]. split; assumption.
Defined.

(** X18 on row 0 of [Demo]: from (2,0) to (5,0) is forward, the reverse is
    backward. *)
Lemma isSegmentForward_reverse_witness :
  isSegmentForward Demo.env Demo.ready (Some 0%nat) (2%Q, 0%Q) (5%Q, 0%Q) = Ok true /\
  isSegmentForward Demo.env Demo.ready (Some 0%nat) (5%Q, 0%Q) (2%Q, 0%Q) = Ok false /\
  exists sg,
    segment_at Demo.ready (Some 0%nat) = Ok sg /\
    (true = true \/ false = true) /\
    (true = true /\ false = true <->
     (dot (vsub (endPoint (line sg)) (startPoint (line sg)))
          (vsub (5%Q, 0%Q) (2%Q, 0%Q)) == 0)%Q).
Proof.
  assert (H1 : isSegmentForward Demo.env Demo.ready (Some 0%nat) (2%Q, 0%Q) (5%Q, 0%Q)
               = Ok true) by (vm_compute; reflexivity).
  assert (H2 : isSegmentForward Demo.env Demo.ready (Some 0%nat) (5%Q, 0%Q) (2%Q, 0%Q)
               = Ok false) by (vm_compute; reflexivity).
  split; [exact H1|]. split; [exact H2|].
  exact (isSegmentForward_reverse Demo.env _ _ _ _ _ _ H1 H2).
Defined.

(** X19 on the course of four rows, with the sequence as the container: the
    returned path. *)
Lemma performDijkstraSearch_path_found_witness :
  AnySet.performDijkstraSearch_traced list_frontier Demo.env 4 Runs.request =
    Ok (Runs.searched.1.1, Runs.searched.1.2, Runs.searched.2) /\
  Runs.searched.1.1 =
    [mkPose 2 0 0; mkPose 2 0 0;
     mkPose 4 1 (314159265358979 # 200000000000000);
     mkPose 5 3 (314159265358979 # 200000000000000);
     mkPose 9 3 0; mkPose 9 3 0] /\
  exists c chain mid,
    earliest_least Runs.searched.2 c /\
    walk_rendered Demo.env Runs.request chain mid /\
    exists first last_,
      Runs.searched.1.1 =
        start_appendix Runs.request ++ [first] ++ mid ++ [last_] ++
        end_appendix Runs.request.
Proof.
  split; [exact runs_searched_any|]. split; [vm_compute; reflexivity|].
  destruct (performDijkstraSearch_path_found list_frontier Demo.env 4 Runs.request
              Runs.searched.1.2 Runs.searched.1.1 Runs.searched.2 runs_searched_any)
    as (c & fuel' & add & chain & sm & sg1 & sg2 & mid
        & Hel & _ & _ & _ & _ & Hmid & Hres).
  - intros Hnil. vm_compute in Hnil. discriminate.
  - exists c, chain, mid. split; [exact Hel|]. split; [exact Hmid|].
    eexists _, _. exact Hres.
Defined.

(** X20 on the course of four rows, with the sequence as the container:
    the search ends, and with fuel 4 it has returned. *)
Lemma performDijkstraSearch_ends_witness :
  AnySet.performDijkstraSearch list_frontier Demo.env 4 Runs.request =
    Ok (Runs.searched.1.1, Runs.searched.1.2) /\
  exists fuel, forall fuel', (fuel <= fuel')%nat ->
    (exists r, AnySet.performDijkstraSearch list_frontier Demo.env fuel'
                 Runs.request = Ok r) \/
    (exists f, AnySet.performDijkstraSearch list_frontier Demo.env fuel'
                 Runs.request = Fault f).
Proof.
  split.
  - unfold AnySet.performDijkstraSearch. rewrite runs_searched_any. reflexivity.
  - apply (performDijkstraSearch_ends list_frontier Demo.env (1 # 10000000)
             Runs.request);
      [reflexivity|exact (demo_costs_on_grid Runs.rows 3 (9%Q, 3%Q))].
Defined.

(** X21 on two curves of equal total cost 12, with the sequence as the
    container: the path through the curve that was finished first, at
    (4,0), is the one returned. *)
Lemma performDijkstraSearch_earliest_least_candidate_witness :
  AnySet.performDijkstraSearch_traced list_frontier Demo.env 3
    (Demo.located Runs.level 1 (14%Q, 5%Q)) =
    Ok (Runs.levelled.1.1, Runs.levelled.1.2, Runs.levelled.2) /\
  map cand_node Runs.levelled.2 = [(0%nat, true, 0%nat); (0%nat, true, 1%nat)] /\
  map cand_total Runs.levelled.2 = [Finite 12; Finite 12] /\
  Runs.levelled.1.1 =
    [mkPose 2 0 0; mkPose 2 0 0;
     mkPose 4 5 (314159265358979 # 200000000000000);
     mkPose 14 5 0; mkPose 14 5 0] /\
  exists c, earliest_least Runs.levelled.2 c /\
            min_cost Runs.levelled.1.2 = cand_total c.
Proof.
  split; [exact runs_levelled_any|]. split; [vm_compute; reflexivity|].
  split; [vm_compute; reflexivity|]. split; [vm_compute; reflexivity|].
  destruct (performDijkstraSearch_earliest_least_candidate list_frontier Demo.env
              _ _ _ _ _ runs_levelled_any) as (c & Hc & Hm & _).
  - intros Hnil. vm_compute in Hnil. discriminate.
  - exists c. split; assumption.
Defined.

(** X22 on the course of [Demo]: a fresh planner and one that holds the
    segments, points and appendices of an earlier request. *)
Lemma findPath_reads_parameters_course_map_best_path_witness :
  planner_inputs (Demo.planner Demo.course) =
    planner_inputs (Demo.located Demo.course 2 (7%Q, 7%Q)) /\
  returned (findPath Demo.env 10 (Demo.planner Demo.course)
              (mkPose 2 0 0) (mkPose 15 5 0)) =
    returned (findPath Demo.env 10 (Demo.located Demo.course 2 (7%Q, 7%Q))
                (mkPose 2 0 0) (mkPose 15 5 0)).
Proof.
  split; [reflexivity|].
  apply findPath_reads_parameters_course_map_best_path. reflexivity.
Defined.

(** X25 on [Demo.detour], from (2,0) to (14,5), with the sequence as the
    container: the curve at (4,0) is finished first, with total 2 + 10; the
    curve at (6,0) is finished second, with total 4 + 2, and its path is
    the one returned. *)
Lemma performDijkstraSearch_returns_best_candidate_witness :
  (exists fuel r, forall fuel', (fuel <= fuel')%nat ->
     AnySet.performDijkstraSearch_traced list_frontier Demo.env fuel'
       (Demo.located Demo.detour 1 (14%Q, 5%Q)) = Ok r) /\
  (r <- AnySet.performDijkstraSearch_traced list_frontier Demo.env 3
          (Demo.located Demo.detour 1 (14%Q, 5%Q)) ;;
   Ok (r.1.1, map cand_node r.2, map cand_total r.2, min_cost r.1.2)) =
  Ok ([mkPose 2 0 0;
       mkPose 2 0 0; mkPose 12 5 (314159265358979 # 440000000000000); mkPose 14 5 0;
       mkPose 14 5 0],
      [(0%nat, true, 0%nat); (0%nat, true, 1%nat)],
      [Finite 12; Finite 6], Finite 6).
Proof.
  destruct (performDijkstraSearch_returns_best_candidate list_frontier Demo.env
              (1 # 10000000) (Demo.located Demo.detour 1 (14%Q, 5%Q)))
    as (fuel & result & s' & cands & Hrun & _);
    [reflexivity|apply demo_costs_on_grid|reflexivity|reflexivity|].
  split; [|vm_compute; reflexivity].
  exists fuel, (result, s', cands). intros fuel' Hle. apply Hrun, Hle.
Defined.

(** X26 on the course of four rows, with the sequence as the container, with
    fuel for one turn of the loop and with fuel for the whole search. *)
Lemma performDijkstraSearch_no_fault_any_frontier_witness :
  AnySet.performDijkstraSearch list_frontier Demo.env 4 Runs.request =
    Ok (Runs.searched.1.1, Runs.searched.1.2) /\
  (AnySet.performDijkstraSearch list_frontier Demo.env 1 Runs.request = OutOfFuel \/
   exists r, AnySet.performDijkstraSearch list_frontier Demo.env 1 Runs.request = Ok r).
Proof.
  split.
  - unfold AnySet.performDijkstraSearch. rewrite runs_searched_any. reflexivity.
  - apply performDijkstraSearch_no_fault_any_frontier; reflexivity.
Defined.

(** X23 on [Demo.fork]: the node of the second curve has cost 8 and is not
    in the frontier; the node of the first curve, of cost 8, is. *)
Lemma enqueueStartingNodes_cost_and_frontier_witness :
  enqueueStartingNodes Demo.env (initNodes (Demo.located Demo.fork 1 (15%Q, 5%Q))) [] =
    Ok (Runs.forked.1, Runs.forked.2) /\
  Runs.forked.2 = [(0%nat, true, 0%nat)] /\
  exists ep c,
    front (path Demo.curve02) = Ok ep /\
    calculateStraightCost Demo.env (initNodes (Demo.located Demo.fork 1 (15%Q, 5%Q)))
      (0%nat, true, 1%nat) (start_pt (Demo.located Demo.fork 1 (15%Q, 5%Q))) ep = Ok c /\
    cost (node_at Runs.forked.1 (0%nat, true, 1%nat)) = Finite c /\
    exists e, e ∈ Runs.forked.2 /\
      cost_lt (cost (node_at Runs.forked.1 e)) (Finite c) = false /\
      cost_lt (Finite c) (cost (node_at Runs.forked.1 e)) = false.
Proof.
  assert (H : enqueueStartingNodes Demo.env
                (initNodes (Demo.located Demo.fork 1 (15%Q, 5%Q))) [] =
              Ok (Runs.forked.1, Runs.forked.2)) by (vm_compute; reflexivity).
  split; [exact H|]. split; [vm_compute; reflexivity|].
  exact (enqueueStartingNodes_cost_and_frontier Demo.env
           (Demo.located Demo.fork 1 (15%Q, 5%Q)) Runs.forked.1 Runs.forked.2 0%nat
           {| line := {| startPoint := (0%Q, 0%Q); endPoint := (10%Q, 0%Q) |};
              forward_transitions := [Demo.curve01; Demo.curve02];
              backward_transitions := [] |}
           true 1%nat Demo.curve02 H eq_refl eq_refl eq_refl).
Defined.

(** X24 on the course of four rows: the node of the first curve has the
    node of the second as its successor. *)
Lemma collect_transitions_repairs_next_witness :
  collect_transitions 4
    (accepted_state (cand_before Runs.candidate) (cand_node Runs.candidate) 4)
    (Some (cand_node Runs.candidate)) [] =
    Ok (Runs.collected.1, Runs.collected.2) /\
  NoDup Runs.collected.1 /\
  next (node_at Runs.collected.2 (0%nat, true, 0%nat)) = Some (1%nat, true, 0%nat).
Proof.
  destruct (collect_transitions_repairs_next 4 _ Runs.collected.2
              (cand_node Runs.candidate) Runs.collected.1 runs_collected)
    as (Hnodup & Hlinks & _).
  split; [exact runs_collected|]. split; [exact Hnodup|].
  apply (Hlinks 0%nat (0%nat, true, 0%nat) (1%nat, true, 0%nat));
    vm_compute; reflexivity.
Defined.
